(** * EPUB importer: extraction and fragmentation pipeline

    A shallow embedding of the EPUB importer worker (TypeScript) and the
    properties of its pipeline: slug names, markup stripping, word
    chunking, the operative fragment window, the stop-at-first-failure
    generation loop, OPF path handling and the spine / fallback reading
    order.

    Two revisions of the worker are embedded: [Importer] is
    src/index.ts (fragment window, generation loop), [SpineImporter] is
    the revision that reads the container and the package document.
    [slugify], [chunkWords] and the tag patterns of [stripHtml] are the
    same in both.  [ImportHandler] and [SpineHandler] are the parts of
    the two request handlers that work on the unzipped archive.

    Conventions of the embedding.
    - A JavaScript string is the list of its UTF-16 code units
      ([jsstring]); [js "..."] writes an ASCII literal.
    - A regular expression literal is a term of [regex], run by a
      backtracking matcher that follows the priorities of the ECMAScript
      matcher (leftmost alternative first, greedy or lazy repetition).
    - A JavaScript Number is a binary64 value of IEEE 754 ([number],
      with the arithmetic of the Standard Library's [SpecFloat]).  The
      numeric form fields ([targetWords], [maxFragments], [startFrom])
      are Numbers, as [Number(..)] returns them: fractions, infinities
      and NaN included.  [Numeric] holds [chunkWords] and the fragment
      window with Number arguments; the definitions of the same names
      over [Z] are these functions at integer arguments
      ([Sizes.chunkWords_integer], [Sizes.operative_integer]).
    - A loop that may not end is run with a bound on its rounds
      ([fuel]); it returns when it returns for some bound.
    - Host services that the worker imports are parameters of the
      functions that use them: Unicode lower-casing ([toLowerCase]),
      the locale comparison ([localeCompare]) and what the decoder
      makes of a missing entry ([strFromU8_other]).  An archive entry
      is kept with the text that [strFromU8] decodes from its bytes. *)

From Stdlib Require Import ZArith NArith List Ascii String Bool Lia.
From Stdlib Require Import DecimalString.
From Stdlib Require DecimalZ DecimalPos.
From Stdlib Require SpecFloat.
From stdpp Require Import base option list gmap sorting lexico.

Local Open Scope Z_scope.

(** ** Numbers *)

Module Number.
Import SpecFloat.

(** A JavaScript Number is a double-precision value of IEEE 754
    (binary64): a zero, an infinity, NaN, or a sign, a mantissa [m] and
    an exponent [e] for the value [m * 2^e]. *)
Definition number : Type := spec_float.

Definition prec : Z := 53.
Definition emax : Z := 1024.

Definition NaN : number := S754_nan.

(** The Number of an integer literal, and of the length of an array. *)
Definition of_Z (z : Z) : number := binary_normalize prec emax z 0 false.

Definition of_nat (n : nat) : number := of_Z (Z.of_nat n).

(** [x + y] and [x - y]: the sum and the difference, rounded to the
    nearest Number (ties to even). *)
Definition add (x y : number) : number := SFadd prec emax x y.
Definition sub (x y : number) : number := SFsub prec emax x y.

(** The mathematical value of a zero or of a finite Number as a
    fraction whose denominator is a power of two. *)
Definition numerator (x : number) : Z :=
  match x with
  | S754_finite s m e => cond_Zopp s (Z.pos m * 2 ^ Z.max e 0)
  | _ => 0
  end.

Definition denominator (x : number) : Z :=
  match x with
  | S754_finite _ _ e => 2 ^ Z.max (- e) 0
  | _ => 1
  end.

(** The comparison of two Numbers by their mathematical values; NaN
    compares with nothing. *)
Definition compare (x y : number) : option comparison :=
  match x, y with
  | S754_nan, _ | _, S754_nan => None
  | S754_infinity sx, S754_infinity sy =>
      Some (match sx, sy with
            | true, false => Lt
            | false, true => Gt
            | _, _ => Eq
            end)
  | S754_infinity s, _ => Some (if s then Lt else Gt)
  | _, S754_infinity s => Some (if s then Gt else Lt)
  | _, _ =>
      Some (numerator x * denominator y ?= numerator y * denominator x)
  end.

(** [x < y] and [x <= y]. *)
Definition ltb (x y : number) : bool :=
  match compare x y with Some Lt => true | _ => false end.

Definition leb (x y : number) : bool :=
  match compare x y with Some Lt | Some Eq => true | _ => false end.

(** [Math.max(x, y)]: NaN when one of the two is NaN, and the positive
    zero of two zeros. *)
Definition max (x y : number) : number :=
  match compare x y with
  | None => NaN
  | Some Lt => y
  | Some Gt => x
  | Some Eq => match x with S754_zero true => y | _ => x end
  end.

(** [ToIntegerOrInfinity]: NaN gives 0, a finite Number is truncated
    towards 0. *)
Inductive integer_or_infinity : Type :=
| MinusInfinity
| Integer (z : Z)
| PlusInfinity.

Definition ToIntegerOrInfinity (x : number) : integer_or_infinity :=
  match x with
  | S754_nan => Integer 0
  | S754_infinity s => if s then MinusInfinity else PlusInfinity
  | _ => Integer (Z.quot (numerator x) (denominator x))
  end.

(** The integer that a Number holds, when it holds one
    ([Number.isInteger]). *)
Definition integer_value (x : number) : option Z :=
  match x with
  | S754_nan | S754_infinity _ => None
  | _ =>
      if Z.rem (numerator x) (denominator x) =? 0
      then Some (Z.quot (numerator x) (denominator x))
      else None
  end.

End Number.

(** ** Strings *)

Module JsString.

Definition jsstring := list N.

(** An ASCII literal as a string of code units. *)
Definition js (s : string) : jsstring :=
  List.map N_of_ascii (list_ascii_of_string s).

Definition ch (c : ascii) : N := N_of_ascii c.

(** [\s]: the WhiteSpace and LineTerminator code units of ECMAScript. *)
Definition is_space (c : N) : bool :=
  ((9 <=? c) && (c <=? 13) || (c =? 32) || (c =? 160) || (c =? 5760)
   || (8192 <=? c) && (c <=? 8202) || (c =? 8232) || (c =? 8233)
   || (c =? 8239) || (c =? 8287) || (c =? 12288) || (c =? 65279))%N.

Definition is_digit (c : N) : bool := ((48 <=? c) && (c <=? 57))%N.
Definition is_lower (c : N) : bool := ((97 <=? c) && (c <=? 122))%N.
Definition is_upper (c : N) : bool := ((65 <=? c) && (c <=? 90))%N.

(** [\w], as used by the word boundary [\b]. *)
Definition is_word (c : N) : bool :=
  is_lower c || is_upper c || is_digit c || (c =? 95)%N.

(** [[a-z0-9]] *)
Definition is_alnum_lower (c : N) : bool := is_lower c || is_digit c.

(** Case-insensitive comparison with an ASCII pattern character: under
    the [i] flag without the [u] flag a code unit above 127 is never
    folded onto an ASCII one, so only the two ASCII cases of a letter
    match. *)
Definition eq_ci (p c : N) : bool :=
  (if is_lower p then (c =? p) || (c =? p - 32)
   else if is_upper p then (c =? p) || (c =? p + 32)
   else (c =? p))%N.

(** [Array.prototype.join]. *)
Fixpoint join (sep : jsstring) (l : list jsstring) : jsstring :=
  match l with
  | [] => []
  | [x] => x
  | x :: rest => x ++ sep ++ join sep rest
  end.

(** [String.prototype.split] with a one-character separator string. *)
Fixpoint split_char (sep : N) (s : jsstring) : list jsstring :=
  match s with
  | [] => [[]]
  | c :: t =>
      if (c =? sep)%N then [] :: split_char sep t
      else match split_char sep t with
           | [] => [[c]]
           | w :: ws => (c :: w) :: ws
           end
  end.

(** [String.prototype.endsWith]. *)
Definition endsWith (s suffix : jsstring) : bool :=
  bool_decide (drop (length s - length suffix)%nat s = suffix).

(** [String.prototype.trim]: white space and line terminators are
    removed at both ends. *)
Fixpoint trim_start (s : jsstring) : jsstring :=
  match s with
  | c :: t => if is_space c then trim_start t else s
  | [] => []
  end.

Definition trim_end (s : jsstring) : jsstring :=
  rev (trim_start (rev s)).

Definition trim (s : jsstring) : jsstring := trim_end (trim_start s).

(** [Array.prototype.slice] and [String.prototype.slice] with integer
    arguments: a negative index counts from the end, and both indices
    are clamped to the length. *)
Definition rel_index (len k : Z) : Z :=
  if k <? 0 then Z.max (len + k) 0 else Z.min k len.

Definition slice {A} (l : list A) (start stop : Z) : list A :=
  let len := Z.of_nat (length l) in
  let from := rel_index len start in
  let to := rel_index len stop in
  take (Z.to_nat (to - from)) (drop (Z.to_nat from) l).

(** The same with Number arguments: each is read by
    [ToIntegerOrInfinity], and an infinite index stands for the
    nearest end. *)
Definition rel_index_number (len : Z) (k : Number.integer_or_infinity)
  : Z :=
  match k with
  | Number.MinusInfinity => 0
  | Number.Integer z => rel_index len z
  | Number.PlusInfinity => len
  end.

Definition slice_number {A} (l : list A) (start stop : Number.number)
  : list A :=
  let len := Z.of_nat (length l) in
  let from := rel_index_number len (Number.ToIntegerOrInfinity start) in
  let to := rel_index_number len (Number.ToIntegerOrInfinity stop) in
  take (Z.to_nat (to - from)) (drop (Z.to_nat from) l).

(** The decimal text of an integer ([String(n)] in a template). *)
Definition string_of_Z (z : Z) : jsstring :=
  js (NilZero.string_of_int (Z.to_int z)).

End JsString.
Export JsString.

(** ** Regular expressions *)

Module Regex.

Inductive regex : Type :=
| Chr (p : N -> bool)
| Eps
| Cat (r1 r2 : regex)
| Alt (r1 r2 : regex)
| Star (r : regex)
| LazyStar (r : regex)
| Bol
| Eol
| WordB
| Group (r : regex).

(** The position of the matcher: the code unit before it (none at the
    start of the input), the input still to read, and what group 1
    captured. *)
Record mstate : Type := MState {
  prev : option N;
  rest : jsstring;
  cap : option jsstring
}.

Definition consumed (s : jsstring) (st : mstate) : nat :=
  (length s - length (rest st))%nat.

Definition opt_word (o : option N) : bool :=
  match o with Some c => is_word c | None => false end.

(** A matcher reads from a position and hands the position it reaches
    to the rest of the pattern. *)
Definition matcher : Type :=
  mstate -> (mstate -> option mstate) -> option mstate.

(** Greedy repetition of [m], then [k]: one more iteration is tried
    before leaving.  An iteration that reads nothing is refused, as the
    ECMAScript matcher does; [fuel] bounds the iterations by the length
    of the input. *)
Fixpoint star_loop (m : matcher) (k : mstate -> option mstate)
    (fuel : nat) (st : mstate) {struct fuel} : option mstate :=
  match fuel with
  | O => k st
  | S fuel' =>
      match m st (fun st1 =>
              if (length (rest st1) <? length (rest st))%nat
              then star_loop m k fuel' st1 else None) with
      | Some res => Some res
      | None => k st
      end
  end.

(** Lazy repetition: leaving is tried before one more iteration. *)
Fixpoint lazy_loop (m : matcher) (k : mstate -> option mstate)
    (fuel : nat) (st : mstate) {struct fuel} : option mstate :=
  match k st with
  | Some res => Some res
  | None =>
      match fuel with
      | O => None
      | S fuel' =>
          m st (fun st1 =>
            if (length (rest st1) <? length (rest st))%nat
            then lazy_loop m k fuel' st1 else None)
      end
  end.

(** The backtracking matcher in continuation style: [k] is the rest of
    the pattern. *)
Fixpoint rmatch (r : regex) (st : mstate)
    (k : mstate -> option mstate) {struct r} : option mstate :=
  match r with
  | Chr p =>
      match rest st with
      | c :: t => if p c then k (MState (Some c) t (cap st)) else None
      | [] => None
      end
  | Eps => k st
  | Cat r1 r2 => rmatch r1 st (fun st1 => rmatch r2 st1 k)
  | Alt r1 r2 =>
      match rmatch r1 st k with
      | Some res => Some res
      | None => rmatch r2 st k
      end
  | Star r1 => star_loop (rmatch r1) k (length (rest st)) st
  | LazyStar r1 => lazy_loop (rmatch r1) k (length (rest st)) st
  | Bol => match prev st with None => k st | Some _ => None end
  | Eol => match rest st with [] => k st | _ :: _ => None end
  | WordB =>
      if xorb (opt_word (prev st)) (opt_word (head (rest st)))
      then k st else None
  | Group r1 =>
      rmatch r1 st (fun st1 =>
        k (MState (prev st1) (rest st1)
             (Some (take (consumed (rest st) st1) (rest st)))))
  end.

(** A match of [r] that starts at the head of [s], with [p] the code
    unit before it: the number of code units matched and group 1. *)
Definition exec (r : regex) (p : option N) (s : jsstring)
  : option (nat * option jsstring) :=
  match rmatch r (MState p s None) Some with
  | Some st => Some (consumed s st, cap st)
  | None => None
  end.

(** Pattern syntax. *)
Definition Plus (r : regex) : regex := Cat r (Star r).
Definition Opt (r : regex) : regex := Alt r Eps.
Definition Any : regex := Chr (fun _ => true).
Definition Is (c : ascii) : regex := Chr (N.eqb (ch c)).
Definition Not (c : ascii) : regex := Chr (fun x => negb (N.eqb (ch c) x)).
Definition Space : regex := Chr is_space.

Fixpoint Lit (s : jsstring) : regex :=
  match s with
  | [] => Eps
  | [c] => Chr (N.eqb c)
  | c :: t => Cat (Chr (N.eqb c)) (Lit t)
  end.

(** A literal under the [i] flag. *)
Fixpoint LitI (s : jsstring) : regex :=
  match s with
  | [] => Eps
  | [c] => Chr (eq_ci c)
  | c :: t => Cat (Chr (eq_ci c)) (LitI t)
  end.

Fixpoint Alts (l : list regex) : regex :=
  match l with
  | [] => Chr (fun _ => false)
  | [r] => r
  | r :: t => Alt r (Alts t)
  end.

(** [String.prototype.replace] with a global pattern and a constant
    replacement.  [skip] counts the code units of the current match that
    are still to be passed over.  The patterns of this program match no
    empty string. *)
Fixpoint replace_go (r : regex) (repl : jsstring) (skip : nat)
    (p : option N) (s : jsstring) : jsstring :=
  match s with
  | [] => []
  | c :: t =>
      match skip with
      | S n => replace_go r repl n (Some c) t
      | O =>
          match exec r p s with
          | Some (S n, _) => repl ++ replace_go r repl n (Some c) t
          | _ => c :: replace_go r repl 0 (Some c) t
          end
      end
  end.

Definition replace_all (r : regex) (repl : jsstring) (s : jsstring)
  : jsstring :=
  replace_go r repl 0 None s.

(** [String.prototype.match] with a global pattern: the matched
    substrings in order (the empty list where JavaScript gives
    [null], which the program turns into [[]]). *)
Fixpoint match_go (r : regex) (skip : nat) (p : option N) (s : jsstring)
  : list jsstring :=
  match s with
  | [] => []
  | c :: t =>
      match skip with
      | S n => match_go r n (Some c) t
      | O =>
          match exec r p s with
          | Some (S n, _) => take (S n) s :: match_go r n (Some c) t
          | _ => match_go r 0 (Some c) t
          end
      end
  end.

Definition match_all (r : regex) (s : jsstring) : list jsstring :=
  match_go r 0 None s.

(** The first match of a pattern without the global flag
    ([String.prototype.match], [RegExp.prototype.test]): the matched
    substring and group 1. *)
Fixpoint search_go (r : regex) (p : option N) (s : jsstring)
  : option (jsstring * option jsstring) :=
  match exec r p s with
  | Some (n, g) => Some (take n s, g)
  | None =>
      match s with
      | [] => None
      | c :: t => search_go r (Some c) t
      end
  end.

Definition search (r : regex) (s : jsstring)
  : option (jsstring * option jsstring) :=
  search_go r None s.

Definition test (r : regex) (s : jsstring) : bool :=
  match search r s with Some _ => true | None => false end.

(** [String.prototype.split] with a pattern that matches no empty
    string: the pieces between the matches, the empty ones included.
    [cur] is the piece being read, reversed. *)
Fixpoint split_go (r : regex) (skip : nat) (p : option N)
    (cur : jsstring) (s : jsstring) : list jsstring :=
  match s with
  | [] => [rev cur]
  | c :: t =>
      match skip with
      | S n => split_go r n (Some c) cur t
      | O =>
          match exec r p s with
          | Some (S n, _) => rev cur :: split_go r n (Some c) [] t
          | _ => split_go r 0 (Some c) (c :: cur) t
          end
      end
  end.

Definition split (r : regex) (s : jsstring) : list jsstring :=
  split_go r 0 None [] s.

End Regex.
Export Regex.

(** The matcher on small inputs: a greedy run gives back what the rest
    of the pattern needs, a lazy one stops at the first closing tag, and
    anchors hold at the two ends only. *)
Example greedy_gives_back :
  replace_all (Cat (Plus Space) (Chr (N.eqb 10))) (js "|")
    (js "a " ++ [10; 32; 10; 32]%N ++ js "b")
  = js "a|" ++ [32%N] ++ js "b".
Proof. reflexivity. Qed.

Example lazy_stops_first :
  replace_all
    (Cat (LitI (js "<b")) (Cat (LazyStar Any) (LitI (js "</b>")))) (js "_")
    (js "x<B>1</b>y<b>2</B>z")
  = js "x_y_z".
Proof. reflexivity. Qed.

Example anchors_at_the_ends :
  replace_all (Alt (Cat Bol (Plus (Is "_"))) (Cat (Plus (Is "_")) Eol)) []
    (js "__a__b__")
  = js "a__b".
Proof. reflexivity. Qed.

Example split_keeps_empty_pieces :
  split (Plus Space) (js " a  b ") = [[]; js "a"; js "b"; []].
Proof. reflexivity. Qed.

Example word_boundary :
  match_all (Cat (LitI (js "<item")) (Cat WordB (Cat (Star (Not ">")) (Is ">"))))
    (js "<item id='a'/><itemref idref='a'/><ITEM/>")
  = [js "<item id='a'/>"; js "<ITEM/>"].
Proof. reflexivity. Qed.

(** ** Functions shared by the revisions of the worker *)

Definition dquote : N := 34.
Definition squote : N := 39.
Definition newline : N := 10.
Definition Nl : regex := Chr (N.eqb newline).

(** The class of the straight single and double quote, global. *)
Definition re_quotes : regex :=
  Chr (fun c => (c =? squote) || (c =? dquote))%N.

(** [/[^a-z0-9]+/g] *)
Definition re_non_alnum : regex :=
  Plus (Chr (fun c => negb (is_alnum_lower c))).

(** [/^_+|_+$/g] *)
Definition re_edge_underscores : regex :=
  Alt (Cat Bol (Plus (Is "_"))) (Cat (Plus (Is "_")) Eol).

(** [slugify]; [toLowerCase] is the host's Unicode lower-casing. *)
Definition slugify (toLowerCase : jsstring -> jsstring) (s : jsstring)
  : jsstring :=
  let r :=
    slice
      (replace_all re_edge_underscores []
         (replace_all re_non_alnum (js "_")
            (replace_all re_quotes []
               (trim (toLowerCase s)))))
      0 80 in
  match r with
  | [] => js "book"
  | _ :: _ => r
  end.

(** The patterns of the first five replacements of [stripHtml], the
    same in every revision. *)
Definition re_script : regex :=
  Cat (LitI (js "<script")) (Cat (LazyStar Any) (LitI (js "</script>"))).

Definition re_style : regex :=
  Cat (LitI (js "<style")) (Cat (LazyStar Any) (LitI (js "</style>"))).

Definition re_block_close : regex :=
  Cat (Lit (js "</"))
    (Cat (Group (Alts (List.map (fun n => LitI (js n))
            ["p"; "div"; "br"; "li"; "h1"; "h2"; "h3"; "h4"; "h5";
             "h6"]%string)))
       (Is ">")).

Definition re_br : regex :=
  Cat (LitI (js "<br")) (Cat (Star Space) (Cat (Opt (Is "/")) (Is ">"))).

(** A tag: the less-than sign, one or more code units other than the
    greater-than sign, and the greater-than sign. *)
Definition re_tag : regex :=
  Cat (Is "<") (Cat (Plus (Not ">")) (Is ">")).

(** The first five replacements: scripts, styles, closing block tags,
    line breaks, and every remaining tag. *)
Definition strip_tags (html : jsstring) : jsstring :=
  replace_all re_tag (js " ")
    (replace_all re_br [newline]
       (replace_all re_block_close [newline]
          (replace_all re_style (js " ")
             (replace_all re_script (js " ") html)))).

(** Lower-casing of the ASCII letters: what the host does to a string
    whose only cased characters are ASCII. *)
Definition toLowerCase_ascii (s : jsstring) : jsstring :=
  List.map (fun c => if is_upper c then (c + 32)%N else c) s.

(** [text.split(/\s+/).filter(Boolean)] *)
Definition nonempty (w : jsstring) : bool :=
  match w with [] => false | _ :: _ => true end.

Definition words (text : jsstring) : list jsstring :=
  List.filter nonempty (split (Plus Space) text).

(** [chunkWords] at an integer size, where the index of the loop takes
    integer values only.  One test-and-body round of the [for] loop:
    [None] when the test [i < words.length] fails. *)
Definition chunk_step (ws : list jsstring) (targetWords : Z)
    (st : Z * list jsstring) : option (Z * list jsstring) :=
  let '(i, chunks) := st in
  if i <? Z.of_nat (length ws)
  then Some (i + targetWords,
             chunks ++ [join (js " ") (slice ws i (i + targetWords))])
  else None.

(** The loop, run for at most [fuel] rounds: [None] when it has not
    left the loop by then. *)
Fixpoint chunk_loop (fuel : nat) (ws : list jsstring) (targetWords : Z)
    (st : Z * list jsstring) : option (list jsstring) :=
  match chunk_step ws targetWords st with
  | None => Some (snd st)
  | Some st' =>
      match fuel with
      | O => None
      | S fuel' => chunk_loop fuel' ws targetWords st'
      end
  end.

Definition chunkWords (fuel : nat) (text : jsstring) (targetWords : Z)
  : option (list jsstring) :=
  chunk_loop fuel (words text) targetWords (0, []).

(** The state of the loop after [n] rounds, when it is still running. *)
Fixpoint chunk_iter (n : nat) (ws : list jsstring) (targetWords : Z)
    (st : Z * list jsstring) : option (Z * list jsstring) :=
  match n with
  | O => Some st
  | S n' =>
      match chunk_step ws targetWords st with
      | Some st' => chunk_iter n' ws targetWords st'
      | None => None
      end
  end.

(** [chunkWords] and the fragment window with Number arguments, as the
    handler of src/index.ts calls them: [targetWords], [startFrom] and
    [maxFragments] come from [Number(..)] and need not be integers. *)
Module Numeric.
Import Number.

(** One test-and-body round of the [for] loop of [chunkWords]; the
    index [i] is a Number, [i + targetWords] is rounded, and [slice]
    truncates its two arguments. *)
Definition chunk_step (ws : list jsstring) (targetWords : number)
    (st : number * list jsstring) : option (number * list jsstring) :=
  let '(i, chunks) := st in
  if ltb i (of_nat (length ws))
  then Some (add i targetWords,
             chunks ++ [join (js " ")
                          (slice_number ws i (add i targetWords))])
  else None.

Fixpoint chunk_loop (fuel : nat) (ws : list jsstring)
    (targetWords : number) (st : number * list jsstring)
  : option (list jsstring) :=
  match chunk_step ws targetWords st with
  | None => Some (snd st)
  | Some st' =>
      match fuel with
      | O => None
      | S fuel' => chunk_loop fuel' ws targetWords st'
      end
  end.

Definition chunkWords (fuel : nat) (text : jsstring)
    (targetWords : number) : option (list jsstring) :=
  chunk_loop fuel (words text) targetWords (of_Z 0, []).

(** The state of the loop after [n] rounds, when it is still running. *)
Fixpoint chunk_iter (n : nat) (ws : list jsstring) (targetWords : number)
    (st : number * list jsstring) : option (number * list jsstring) :=
  match n with
  | O => Some st
  | S n' =>
      match chunk_step ws targetWords st with
      | Some st' => chunk_iter n' ws targetWords st'
      | None => None
      end
  end.

(** [allChunks.slice(startFrom - 1, startFrom - 1 + maxFragments)] *)
Definition operative (allChunks : list jsstring)
    (startFrom maxFragments : number) : list jsstring :=
  slice_number allChunks (sub startFrom (of_Z 1))
    (add (sub startFrom (of_Z 1)) maxFragments).

End Numeric.

(** ** The importer with a fragment window (src/index.ts) *)

Module Importer.

(** The numeric fields of the upload form: [None] for a field that is
    absent or empty (where [form.get(..) || d] takes the default),
    [Some x] for a field whose value [Number] reads as [x]; a text that
    is not a numeral, and a file, give NaN. *)
Record Form : Type := {
  field_maxFragments : option Number.number;
  field_targetWords : option Number.number;
  field_startFrom : option Number.number
}.

Record Params : Type := {
  maxFragments : Number.number;
  targetWords : Number.number;
  startFrom : Number.number
}.

Definition or_default (v : option Number.number) (d : Z)
  : Number.number :=
  match v with Some x => x | None => Number.of_Z d end.

Definition parse_params (form : Form) : Params :=
  {| maxFragments :=
       Number.max (Number.of_Z 1) (or_default (field_maxFragments form) 3);
     targetWords := or_default (field_targetWords form) 1200;
     startFrom :=
       Number.max (Number.of_Z 1) (or_default (field_startFrom form) 1) |}.

(** [allChunks.slice(startFrom - 1, startFrom - 1 + maxFragments)] at
    integer arguments. *)
Definition operative (allChunks : list jsstring)
    (startFrom maxFragments : Z) : list jsstring :=
  slice allChunks (startFrom - 1) (startFrom - 1 + maxFragments).

(** [stripHtml] of this revision: after the tags, every run of white
    space becomes one space, and the text is trimmed. *)
Definition stripHtml (html : jsstring) : jsstring :=
  trim (replace_all (Plus Space) (js " ") (strip_tags html)).

(** The chunks the handler sends to the generator. *)
Definition import_chunks (fuel : nat) (form : Form)
    (combinedText : jsstring) : option (list jsstring) :=
  let p := parse_params form in
  match Numeric.chunkWords fuel combinedText (targetWords p) with
  | Some allChunks =>
      Some (Numeric.operative allChunks (startFrom p) (maxFragments p))
  | None => None
  end.

Section Orchestrator.

(** What the generator returns on success (parsed JSON, kept opaque). *)
Variable Lesson : Type.

(** The answer to one call of [callOpenAIForLesson]: the text of the
    error it raised, or its lesson. *)
Definition response : Type := jsstring + Lesson.

(** A computation that calls the external generator. *)
Inductive prog (R : Type) : Type :=
| Ret (r : R)
| Call (chunkText lessonTitle : jsstring) (k : response -> prog R).

Record LessonEntry : Type := { index : Z; lesson : Lesson }.
Record PartialError : Type := { fragment : Z; error : jsstring }.

Record Outcome : Type := {
  lessons : list LessonEntry;
  partialError : option PartialError
}.

(** The book title, an em dash between spaces, and the fragment
    number. *)
Definition lessonTitle (bookTitle : jsstring) (fragmentIndex : Z)
  : jsstring :=
  bookTitle ++ [32; 8212; 32]%N ++ js "Fragment "
    ++ string_of_Z fragmentIndex.

(** The generation loop from index [i] on, [chunks] being what is left
    of the operative chunks: a raised error is recorded and ends the
    loop ([break]).  [startFrom] is the integer that the Number of the
    handler holds; the sums [startFrom + i] of the loop are exact for
    such a Number. *)
Fixpoint generate (bookTitle : jsstring) (startFrom i : Z)
    (chunks : list jsstring) (acc : list LessonEntry)
  : prog Outcome :=
  match chunks with
  | [] => Ret _ {| lessons := acc; partialError := None |}
  | c :: chunks' =>
      let fragmentIndex := startFrom + i in
      Call _ c (lessonTitle bookTitle fragmentIndex) (fun r =>
        match r with
        | inr l =>
            generate bookTitle startFrom (i + 1) chunks'
              (acc ++ [{| index := fragmentIndex; lesson := l |}])
        | inl e =>
            Ret _ {| lessons := acc;
                     partialError :=
                       Some {| fragment := fragmentIndex; error := e |} |}
        end)
  end.

Definition orchestrate (bookTitle : jsstring) (startFrom : Z)
    (chunks : list jsstring) : prog Outcome :=
  generate bookTitle startFrom 0 chunks [].

(** A run against the answers the generator gives, in order: the
    result, the calls made (chunk text and title) and the answers not
    asked for.  [None] when the answers run out. *)
Fixpoint run {R} (p : prog R) (answers : list response)
  : option (R * list (jsstring * jsstring) * list response) :=
  match p with
  | Ret _ r => Some (r, [], answers)
  | Call _ c t k =>
      match answers with
      | [] => None
      | a :: answers' =>
          match run (k a) answers' with
          | Some (r, calls, unused) => Some (r, (c, t) :: calls, unused)
          | None => None
          end
      end
  end.

(** The names of the entries of the output archive and the status of
    the response. *)
Definition zip_names (o : Outcome) : list jsstring :=
  List.map (fun x => js "lesson_" ++ string_of_Z (index x) ++ js ".json")
    (lessons o)
  ++ match partialError o with
     | Some _ => [js "import_error.json"]
     | None => []
     end.

Definition status (o : Outcome) : Z :=
  match partialError o with Some _ => 206 | None => 200 end.

End Orchestrator.

Arguments Ret {Lesson R}.
Arguments Call {Lesson R}.
Arguments index {Lesson}.
Arguments lesson {Lesson}.
Arguments lessons {Lesson}.
Arguments partialError {Lesson}.
Arguments Build_LessonEntry {Lesson}.
Arguments Build_Outcome {Lesson}.
Arguments generate {Lesson}.
Arguments orchestrate {Lesson}.
Arguments run {Lesson R}.
Arguments zip_names {Lesson}.
Arguments status {Lesson}.

End Importer.

(** ** The importer that follows the spine (the revision with
    [findOpfPath] and [extractSpineHtmlPaths]) *)

Module SpineImporter.

(** *** Markup stripping *)

Definition re_ws_nl : regex := Cat (Plus Space) Nl.
Definition re_nl_ws : regex := Cat Nl (Plus Space).
Definition re_blanks : regex :=
  Plus (Chr (fun c => (c =? 32) || (c =? 9))%N).
Definition re_nl3 : regex := Cat Nl (Cat Nl (Cat Nl (Star Nl))).

(** The six entity replacements, in the order of the source. *)
Definition decode_entities (s : jsstring) : jsstring :=
  replace_all (Lit (js "&#39;")) [squote]
    (replace_all (Lit (js "&quot;")) [dquote]
       (replace_all (Lit (js "&gt;")) (js ">")
          (replace_all (Lit (js "&lt;")) (js "<")
             (replace_all (Lit (js "&amp;")) (js "&")
                (replace_all (Lit (js "&nbsp;")) (js " ") s))))).

(** The white-space replacements and the final [trim]. *)
Definition squeeze (s : jsstring) : jsstring :=
  trim
    (replace_all re_nl3 [newline; newline]
       (replace_all re_blanks (js " ")
          (replace_all re_nl_ws [newline]
             (replace_all re_ws_nl [newline] s)))).

Definition stripHtml (html : jsstring) : jsstring :=
  squeeze (decode_entities (strip_tags html)).

(** *** The archive and plain objects *)

Inductive error : Type :=
| ContainerNotFound   (* container.xml not found *)
| OpfPathNotFound     (* OPF path not found in container.xml *)
| TypeError           (* a method called on a value that has none *)
| SpineHtmlNotFound.  (* Spine HTML files not found *)

Inductive result (A : Type) : Type :=
| Ok (a : A)
| Throw (e : error).
Arguments Ok {A}.
Arguments Throw {A}.

(** The unzipped archive: its own keys in the order of [Object.keys],
    each with the text of its content. *)
Definition Archive : Type := list (jsstring * jsstring).

Definition keys (files : Archive) : list jsstring := List.map fst files.

Fixpoint own (files : Archive) (k : jsstring) : option jsstring :=
  match files with
  | [] => None
  | (k', v) :: files' =>
      if bool_decide (k' = k) then Some v else own files' k
  end.

(** The properties that every plain object inherits from
    [Object.prototype]; each holds a function or an object. *)
Definition object_prototype_keys : list jsstring :=
  List.map js
    ["constructor"; "__defineGetter__"; "__defineSetter__";
     "hasOwnProperty"; "__lookupGetter__"; "__lookupSetter__";
     "isPrototypeOf"; "propertyIsEnumerable"; "toString"; "valueOf";
     "__proto__"; "toLocaleString"]%string.

(** What reading [obj[k]] yields on a plain object: an own value, a
    value inherited from the prototype, or [undefined]. *)
Inductive property (A : Type) : Type :=
| OwnValue (v : A)
| Inherited
| Undefined.
Arguments OwnValue {A}.
Arguments Inherited {A}.
Arguments Undefined {A}.

Definition inherited_or_undefined {A} (k : jsstring) : property A :=
  if bool_decide (k ∈ object_prototype_keys) then Inherited
  else Undefined.

Definition get_file (files : Archive) (k : jsstring)
  : property jsstring :=
  match own files k with
  | Some v => OwnValue v
  | None => inherited_or_undefined k
  end.

(** [manifestMap[id] = href]: the assignment to the key [__proto__]
    reaches the prototype setter, which ignores a string. *)
Definition set_manifest (m : gmap jsstring jsstring)
    (id href : jsstring) : gmap jsstring jsstring :=
  if bool_decide (id = js "__proto__") then m else <[id := href]> m.

Definition get_manifest (m : gmap jsstring jsstring) (k : jsstring)
  : property jsstring :=
  match m !! k with
  | Some v => OwnValue v
  | None => inherited_or_undefined k
  end.

(** *** Container and package *)

(** The pattern of [findOpfPath]: the attribute name, the equals sign
    and a value between double quotes. *)
Definition re_full_path : regex :=
  Cat (LitI (js "full-path="))
    (Cat (Chr (N.eqb dquote))
       (Cat (Group (Plus (Chr (fun c => negb (c =? dquote)%N))))
          (Chr (N.eqb dquote)))).

(** [findOpfPath]: the first key that ends in the container path, in
    lower case, and the text of its entry. *)
Definition is_container (toLowerCase : jsstring -> jsstring)
    (entry : jsstring * jsstring) : bool :=
  endsWith (toLowerCase (fst entry)) (js "meta-inf/container.xml").

Definition findOpfPath (toLowerCase : jsstring -> jsstring)
    (files : Archive) : result jsstring :=
  match List.find (is_container toLowerCase) files with
  | None => Throw ContainerNotFound
  | Some (_, xml) =>
      match search re_full_path xml with
      | Some (_, Some path) => Ok path
      | _ => Throw OpfPathNotFound
      end
  end.

Definition is_quote (c : N) : bool := ((c =? dquote) || (c =? squote))%N.

(** The pattern that [getAttr] builds for an attribute name. *)
Definition re_attr (name : jsstring) : regex :=
  Cat (LitI name)
    (Cat (Star Space)
       (Cat (Is "=")
          (Cat (Star Space)
             (Cat (Chr is_quote)
                (Cat (Group (Plus (Chr (fun c => negb (is_quote c)))))
                   (Chr is_quote)))))).

Definition getAttr (tag name : jsstring) : option jsstring :=
  match search (re_attr name) tag with
  | Some (_, g) => g
  | None => None
  end.

Definition is_dot (p : jsstring) : bool := bool_decide (p = js ".").
Definition is_dotdot (p : jsstring) : bool := bool_decide (p = js "..").

(** One round of the loop over the segments; [out.pop()] leaves an
    empty array as it is. *)
Definition resolve_step (out : list jsstring) (p : jsstring)
  : list jsstring :=
  if is_dot p then out
  else if is_dotdot p then removelast out
  else out ++ [p].

Definition segments (full : jsstring) : list jsstring :=
  List.filter nonempty (split_char (ch "/") full).

Definition normalizePath (baseDir href : jsstring) : jsstring :=
  let clean := hd [] (split_char (ch "#") href) in
  let full := baseDir ++ clean in
  join (js "/") (fold_left resolve_step (segments full) []).

(** [lastIndexOf] of the slash, counted from the end of the string. *)
Fixpoint after_last_slash (s : jsstring) : option nat :=
  match s with
  | [] => None
  | c :: t =>
      match after_last_slash t with
      | Some n => Some n
      | None => if (c =? ch "/")%N then Some (length t) else None
      end
  end.

(** The directory of the package document, with its final slash. *)
Definition baseDir_of (opfPath : jsstring) : jsstring :=
  match after_last_slash opfPath with
  | Some n => take (length opfPath - n) opfPath
  | None => []
  end.

(** The test for the extensions xhtml, html and htm at the end of a
    path, case-insensitive. *)
Definition re_text_ext : regex :=
  Cat (Is ".")
    (Cat (Group (Alts [LitI (js "xhtml"); LitI (js "html");
                       LitI (js "htm")]))
       Eol).

Definition is_text_doc (p : jsstring) : bool := test re_text_ext p.

Definition re_item : regex :=
  Cat (LitI (js "<item")) (Cat WordB (Cat (Star (Not ">")) (Is ">"))).

Definition re_itemref : regex :=
  Cat (LitI (js "<itemref")) (Cat WordB (Cat (Star (Not ">")) (Is ">"))).

(** The loop that fills [manifestMap]. *)
Definition manifest_step (m : gmap jsstring jsstring) (tag : jsstring)
  : gmap jsstring jsstring :=
  match getAttr tag (js "id"), getAttr tag (js "href") with
  | Some id, Some href =>
      if nonempty id && nonempty href then set_manifest m id href else m
  | _, _ => m
  end.

Definition manifest_of (opfXml : jsstring) : gmap jsstring jsstring :=
  fold_left manifest_step (match_all re_item opfXml) ∅.

(** One round of the loop over the [itemref] tags.  An [href] that is
    no string has no [split], and [normalizePath] raises. *)
Definition spine_step (files : Archive) (baseDir : jsstring)
    (m : gmap jsstring jsstring) (spinePaths : list jsstring)
    (tag : jsstring) : result (list jsstring) :=
  match getAttr tag (js "idref") with
  | None => Ok spinePaths
  | Some idref =>
      if negb (nonempty idref) then Ok spinePaths else
      match get_manifest m idref with
      | Undefined => Ok spinePaths
      | Inherited => Throw TypeError
      | OwnValue href =>
          if negb (nonempty href) then Ok spinePaths else
          let fullPath := normalizePath baseDir href in
          if negb (is_text_doc fullPath) then Ok spinePaths else
          match get_file files fullPath with
          | Undefined => Ok spinePaths
          | _ => Ok (spinePaths ++ [fullPath])
          end
      end
  end.

Fixpoint spine_loop (files : Archive) (baseDir : jsstring)
    (m : gmap jsstring jsstring) (tags : list jsstring)
    (spinePaths : list jsstring) : result (list jsstring) :=
  match tags with
  | [] => Ok spinePaths
  | tag :: tags' =>
      match spine_step files baseDir m spinePaths tag with
      | Ok spinePaths' => spine_loop files baseDir m tags' spinePaths'
      | Throw e => Throw e
      end
  end.

(** The paths that the spine resolves to, before the fallback. *)
Definition spine_paths (files : Archive) (opfPath opfXml : jsstring)
  : result (list jsstring) :=
  spine_loop files (baseDir_of opfPath) (manifest_of opfXml)
    (match_all re_itemref opfXml) [].

(** [(a, b) => a.localeCompare(b)] as an order. *)
Definition locale_le (localeCompare : jsstring -> jsstring -> Z)
    (a b : jsstring) : Prop :=
  localeCompare a b <= 0.

#[global] Instance locale_le_dec localeCompare a b :
  Decision (locale_le localeCompare a b).
Proof. unfold locale_le. apply _. Defined.

(** The fallback: every key with a text extension, sorted with the
    comparator. *)
Definition fallback_paths (localeCompare : jsstring -> jsstring -> Z)
    (files : Archive) : list jsstring :=
  merge_sort (locale_le localeCompare)
    (List.filter is_text_doc (keys files)).

(** [strFromU8(files[k])]: the text of the entry [k].  For a path that
    is no key of the archive the value handed to the decoder is no byte
    array, and what the decoder of the host makes of it (a text, or an
    exception) is the parameter [strFromU8_other]. *)
Definition read_text (strFromU8_other : jsstring -> result jsstring)
    (files : Archive) (k : jsstring) : result jsstring :=
  match own files k with
  | Some text => Ok text
  | None => strFromU8_other k
  end.

Definition extractSpineHtmlPaths
    (strFromU8_other : jsstring -> result jsstring)
    (localeCompare : jsstring -> jsstring -> Z)
    (files : Archive) (opfPath : jsstring) : result (list jsstring) :=
  match read_text strFromU8_other files opfPath with
  | Throw e => Throw e
  | Ok opfXml =>
      match spine_paths files opfPath opfXml with
      | Throw e => Throw e
      | Ok [] => Ok (fallback_paths localeCompare files)
      | Ok spinePaths => Ok spinePaths
      end
  end.

(** The reading order of the handler: it raises when the list is
    empty. *)
Definition readingOrder (toLowerCase : jsstring -> jsstring)
    (strFromU8_other : jsstring -> result jsstring)
    (localeCompare : jsstring -> jsstring -> Z)
    (files : Archive) : result (list jsstring) :=
  match findOpfPath toLowerCase files with
  | Throw e => Throw e
  | Ok opfPath =>
      match extractSpineHtmlPaths strFromU8_other localeCompare files
              opfPath with
      | Throw e => Throw e
      | Ok [] => Throw SpineHtmlNotFound
      | Ok htmlPaths => Ok htmlPaths
      end
  end.

End SpineImporter.

(** ** The request handler of src/index.ts, from the unzipped archive on *)

Module ImportHandler.
Import Importer SpineImporter.

(** The keys of the archive with a text extension, in the order of
    [Object.keys]. *)
Definition htmlFiles (unzipped : Archive) : list jsstring :=
  List.filter is_text_doc (keys unzipped).

(** [strFromU8(unzipped[p])] for a key [p] of the archive. *)
Definition entry_text (unzipped : Archive) (p : jsstring) : jsstring :=
  match own unzipped p with Some text => text | None => [] end.

(** The loop that builds [combinedText]: two line feeds and the
    stripped text of every document. *)
Definition combinedText (unzipped : Archive) : jsstring :=
  fold_left
    (fun acc p =>
       acc ++ [newline; newline]
           ++ Importer.stripHtml (entry_text unzipped p))
    (htmlFiles unzipped) [].

End ImportHandler.

(** ** The request handler of the spine revision, from the reading
    order on *)

Module SpineHandler.
Import SpineImporter.

(** The loop that builds [combinedText]: an entry that is
    [undefined] is passed over, and the text of every other one is
    stripped and added after two line feeds.  A value that is no byte
    array goes to the decoder of the host, as in [read_text]. *)
Fixpoint combine (strFromU8_other : jsstring -> result jsstring)
    (unzipped : Archive) (htmlPaths : list jsstring)
    (combinedText : jsstring) : result jsstring :=
  match htmlPaths with
  | [] => Ok combinedText
  | p :: htmlPaths' =>
      match get_file unzipped p with
      | Undefined =>
          combine strFromU8_other unzipped htmlPaths' combinedText
      | OwnValue html =>
          combine strFromU8_other unzipped htmlPaths'
            (combinedText ++ [newline; newline] ++ stripHtml html)
      | Inherited =>
          match strFromU8_other p with
          | Ok html =>
              combine strFromU8_other unzipped htmlPaths'
                (combinedText ++ [newline; newline] ++ stripHtml html)
          | Throw e => Throw e
          end
      end
  end.

(** [combinedText.length < 200], after the [trim]. *)
Definition too_short (combinedText : jsstring) : bool :=
  (length combinedText <? 200)%nat.

(** [chunkWords(combinedText, 1200).slice(0, 3)] *)
Definition fragments (fuel : nat) (combinedText : jsstring)
  : option (list jsstring) :=
  match chunkWords fuel combinedText 1200 with
  | Some chunks => Some (slice chunks 0 3)
  | None => None
  end.

Section Lessons.
Variable Lesson : Type.

(** The book title, an em dash between spaces, and the chapter with
    the fragment number. *)
Definition lessonTitle (bookTitle : jsstring) (n : Z) : jsstring :=
  bookTitle ++ [32; 8212; 32]%N ++ js "Chapter 1 (Fragment "
    ++ string_of_Z n ++ js ")".

(** The generation loop of this revision: there is no [try] around the
    call, so an error that the generator raises leaves the loop and the
    handler, and the lessons made so far go with it. *)
Fixpoint generate (bookTitle : jsstring) (i : Z) (chunks : list jsstring)
    (lessons : list (Importer.LessonEntry Lesson))
  : Importer.prog Lesson (jsstring + list (Importer.LessonEntry Lesson)) :=
  match chunks with
  | [] => Importer.Ret (inr lessons)
  | c :: chunks' =>
      let n := i + 1 in
      Importer.Call c (lessonTitle bookTitle n) (fun r =>
        match r with
        | inr l =>
            generate bookTitle (i + 1) chunks'
              (lessons ++ [{| Importer.index := n; Importer.lesson := l |}])
        | inl e => Importer.Ret (inl e)
        end)
  end.

(** The paths of the output archive, in the order of the assignments
    to [zipFiles]: the book, the chapter manifest, and the lessons. *)
Definition book_dir (seriesId bookId : jsstring) : jsstring :=
  js "data/" ++ seriesId ++ js "/" ++ bookId.

Definition chapterManifestPath (seriesId bookId : jsstring) : jsstring :=
  book_dir seriesId bookId ++ js "/ch1.json".

Definition lessonDir (seriesId bookId : jsstring) : jsstring :=
  book_dir seriesId bookId ++ js "/ch1/lessons".

Definition lesson_file (seriesId bookId : jsstring) (n : Z) : jsstring :=
  lessonDir seriesId bookId ++ js "/f" ++ string_of_Z n ++ js ".json".

(** The [file] fields of the chapter manifest. *)
Definition manifest_files (seriesId bookId : jsstring)
    (lessons : list (Importer.LessonEntry Lesson)) : list jsstring :=
  List.map (fun x => lesson_file seriesId bookId (Importer.index x)) lessons.

Definition zip_paths (seriesId bookId : jsstring)
    (lessons : list (Importer.LessonEntry Lesson)) : list jsstring :=
  (book_dir seriesId bookId ++ js "/book.json")
  :: chapterManifestPath seriesId bookId
  :: List.map (fun x => lesson_file seriesId bookId (Importer.index x))
       lessons.

End Lessons.

Arguments generate {Lesson}.
Arguments manifest_files {Lesson}.
Arguments zip_paths {Lesson}.

End SpineHandler.

(** * Facts about the matcher *)

Module RegexFacts.

(** The length of the longest prefix inside a class. *)
Fixpoint run_length (q : N -> bool) (s : jsstring) : nat :=
  match s with
  | c :: t => if q c then S (run_length q t) else O
  | [] => O
  end.

(** The code unit before the position reached after reading [pre]. *)
Definition prev_after (p : option N) (pre : jsstring) : option N :=
  match last pre with Some c => Some c | None => p end.

(** The position [n] code units further. *)
Definition advance (n : nat) (st : mstate) : mstate :=
  MState (prev_after (prev st) (take n (rest st))) (drop n (rest st))
    (cap st).

(** The continuation tried at the positions [n], [n-1], ..., [0] code
    units further: the order of a greedy repetition of one class. *)
Fixpoint try_down (k : mstate -> option mstate) (st : mstate) (n : nat)
  : option mstate :=
  match n with
  | O => k st
  | S n' =>
      match k (advance n st) with
      | Some res => Some res
      | None => try_down k st n'
      end
  end.

Lemma run_length_le q s : (run_length q s <= length s)%nat.
Proof. induction s as [|c t IH]; simpl; [lia|]. destruct (q c); simpl; lia. Qed.

Lemma run_length_take q s : Forall (fun c => q c = true) (take (run_length q s) s).
Proof.
  induction s as [|c t IH]; simpl; [constructor|].
  destruct (q c) eqn:E; simpl; [constructor; assumption|constructor].
Qed.

Lemma run_length_stop q s :
  match drop (run_length q s) s with
  | c :: _ => q c = false
  | [] => True
  end.
Proof.
  induction s as [|c t IH]; simpl; [exact I|].
  destruct (q c) eqn:E; simpl; assumption.
Qed.

Lemma run_length_all q s :
  Forall (fun c => q c = true) s -> run_length q s = length s.
Proof.
  induction 1 as [|c t Hc _ IH]; simpl; [reflexivity|].
  rewrite Hc, IH. reflexivity.
Qed.

Lemma run_length_app q pre s :
  Forall (fun c => q c = true) pre ->
  run_length q (pre ++ s) = (length pre + run_length q s)%nat.
Proof.
  induction 1 as [|c t Hc _ IH]; simpl; [reflexivity|].
  rewrite Hc, IH. reflexivity.
Qed.

Lemma prev_after_nil p : prev_after p [] = p.
Proof. reflexivity. Qed.

Lemma prev_after_cons p c t : prev_after p (c :: t) = prev_after (Some c) t.
Proof.
  unfold prev_after. destruct t as [|c' t']; [reflexivity|].
  rewrite last_cons_cons. destruct (last (c' :: t')) eqn:E; [reflexivity|].
  apply last_None in E. discriminate.
Qed.

Lemma prev_after_app p a b :
  prev_after p (a ++ b) = prev_after (prev_after p a) b.
Proof.
  revert p. induction a as [|c a IH]; intros p; simpl; [reflexivity|].
  rewrite !prev_after_cons. apply IH.
Qed.

Lemma prev_after_Some c pre : exists y, prev_after (Some c) pre = Some y.
Proof.
  unfold prev_after. destruct (last pre) as [y|]; [exists y|exists c];
    reflexivity.
Qed.

Lemma advance_0 st : advance 0 st = st.
Proof. destruct st; reflexivity. Qed.

Lemma advance_cons n p c t g :
  advance (S n) (MState p (c :: t) g) = advance n (MState (Some c) t g).
Proof. unfold advance; simpl. rewrite prev_after_cons. reflexivity. Qed.

Lemma try_down_cons k p c t g n :
  try_down k (MState p (c :: t) g) (S n)
  = match try_down k (MState (Some c) t g) n with
    | Some res => Some res
    | None => k (MState p (c :: t) g)
    end.
Proof.
  induction n as [|n IH].
  - simpl. rewrite advance_cons, advance_0. reflexivity.
  - change (try_down k (MState p (c :: t) g) (S (S n)))
      with (match k (advance (S (S n)) (MState p (c :: t) g)) with
            | Some res => Some res
            | None => try_down k (MState p (c :: t) g) (S n)
            end).
    rewrite IH, advance_cons. simpl.
    destruct (k (advance (S n) (MState (Some c) t g))); reflexivity.
Qed.

(** A greedy repetition of one class tries the continuation from the
    end of the longest run downwards. *)
Lemma star_chr q k fuel st :
  (length (rest st) <= fuel)%nat ->
  star_loop (rmatch (Chr q)) k fuel st
  = try_down k st (run_length q (rest st)).
Proof.
  revert st. induction fuel as [|fuel IH]; intros [p s g] Hlen; simpl in *.
  - destruct s; [reflexivity|simpl in Hlen; lia].
  - destruct s as [|c t]; simpl; [reflexivity|].
    destruct (q c) eqn:Hq; [|reflexivity].
    rewrite try_down_cons.
    replace (length t <? S (length t))%nat with true
      by (symmetry; apply Nat.ltb_lt; lia).
    rewrite IH by (simpl in *; lia). reflexivity.
Qed.

Lemma rmatch_star_chr q k st :
  rmatch (Star (Chr q)) st k = try_down k st (run_length q (rest st)).
Proof. simpl. apply star_chr. lia. Qed.

(** The continuation that accepts the longest run ends the match
    there. *)
Lemma try_down_top k st n res :
  k (advance n st) = Some res -> try_down k st n = Some res.
Proof.
  destruct n as [|n]; simpl; [rewrite advance_0; trivial|].
  intros ->. reflexivity.
Qed.

(** With nothing after it, the repetition takes the whole run. *)
Lemma try_down_Some st n : try_down Some st n = Some (advance n st).
Proof. destruct n; simpl; [rewrite advance_0|]; reflexivity. Qed.

Lemma rmatch_chr_cons q p c t g k :
  rmatch (Chr q) (MState p (c :: t) g) k
  = if q c then k (MState (Some c) t g) else None.
Proof. reflexivity. Qed.

Lemma rmatch_chr_nil q p g k : rmatch (Chr q) (MState p [] g) k = None.
Proof. reflexivity. Qed.

Lemma rmatch_cat r1 r2 st k :
  rmatch (Cat r1 r2) st k = rmatch r1 st (fun st1 => rmatch r2 st1 k).
Proof. reflexivity. Qed.

Lemma rmatch_alt r1 r2 st k :
  rmatch (Alt r1 r2) st k
  = match rmatch r1 st k with
    | Some res => Some res
    | None => rmatch r2 st k
    end.
Proof. reflexivity. Qed.

Lemma exec_plus_chr q p s :
  exec (Plus (Chr q)) p s
  = match run_length q s with
    | O => None
    | S n => Some (S n, None)
    end.
Proof.
  unfold exec, Plus.
  change (rmatch (Cat (Chr q) (Star (Chr q))) (MState p s None) Some)
    with (rmatch (Chr q) (MState p s None)
            (fun st1 => rmatch (Star (Chr q)) st1 Some)).
  destruct s as [|c t]; [reflexivity|].
  rewrite rmatch_chr_cons. cbn [run_length].
  destruct (q c) eqn:Hq; [|reflexivity].
  rewrite rmatch_star_chr, try_down_Some. cbn [rest cap].
  unfold consumed, advance. cbn [rest cap]. rewrite length_drop.
  pose proof (run_length_le q t). f_equal. f_equal. simpl. lia.
Qed.

Lemma exec_chr q p s :
  exec (Chr q) p s
  = match s with
    | c :: _ => if q c then Some (1%nat, None) else None
    | [] => None
    end.
Proof.
  unfold exec. destruct s as [|c t]; [reflexivity|]. simpl.
  destruct (q c); [|reflexivity]. unfold consumed; simpl.
  f_equal. f_equal. lia.
Qed.

Lemma rmatch_plus_chr_cons q p c t g k :
  rmatch (Cat (Chr q) (Star (Chr q))) (MState p (c :: t) g) k
  = if q c
    then try_down k (MState (Some c) t g) (run_length q t)
    else None.
Proof.
  rewrite rmatch_cat, rmatch_chr_cons. destruct (q c); [|reflexivity].
  apply rmatch_star_chr.
Qed.

(** Passing over the rest of a match. *)
Lemma replace_go_skip r repl n p s :
  replace_go r repl n p s
  = replace_go r repl 0 (prev_after p (take n s)) (drop n s).
Proof.
  revert p s. induction n as [|n IH]; intros p s; [reflexivity|].
  destruct s as [|c t]; [reflexivity|].
  cbn [replace_go take drop]. rewrite IH, prev_after_cons. reflexivity.
Qed.

Lemma split_go_skip r n p cur s :
  split_go r n p cur s
  = split_go r 0 (prev_after p (take n s)) cur (drop n s).
Proof.
  revert p s. induction n as [|n IH]; intros p s; [reflexivity|].
  destruct s as [|c t]; [reflexivity|].
  cbn [split_go take drop]. rewrite IH, prev_after_cons. reflexivity.
Qed.

Lemma match_go_skip r n p s :
  match_go r n p s
  = match_go r 0 (prev_after p (take n s)) (drop n s).
Proof.
  revert p s. induction n as [|n IH]; intros p s; [reflexivity|].
  destruct s as [|c t]; [reflexivity|].
  cbn [match_go take drop]. rewrite IH, prev_after_cons. reflexivity.
Qed.

End RegexFacts.
Import RegexFacts.

(** * The word sequence *)

Module Words.

(** The words of a text read directly: the maximal runs of code units
    that are not white space.  [cur] is the word being read,
    reversed. *)
Fixpoint tokens_go (cur : jsstring) (s : jsstring) : list jsstring :=
  match s with
  | [] => match cur with [] => [] | _ :: _ => [rev cur] end
  | c :: t =>
      if is_space c
      then match cur with
           | [] => tokens_go [] t
           | _ :: _ => rev cur :: tokens_go [] t
           end
      else tokens_go (c :: cur) t
  end.

Definition tokens (s : jsstring) : list jsstring := tokens_go [] s.

(** A word: not empty, and free of white space. *)
Definition is_word_string (w : jsstring) : Prop :=
  w <> [] /\ Forall (fun c => is_space c = false) w.

Lemma nonempty_rev (w : jsstring) : nonempty (rev w) = nonempty w.
Proof.
  destruct w as [|c t]; [reflexivity|]. simpl.
  destruct (rev t ++ [c]) eqn:E; [|reflexivity].
  apply app_eq_nil in E. destruct E. discriminate.
Qed.

Lemma tokens_go_spaces ws s :
  Forall (fun c => is_space c = true) ws ->
  tokens_go [] (ws ++ s) = tokens_go [] s.
Proof.
  induction 1 as [|c t Hc _ IH]; simpl; [reflexivity|].
  rewrite Hc. exact IH.
Qed.

Lemma tokens_go_run t :
  tokens_go [] (drop (run_length is_space t) t) = tokens_go [] t.
Proof.
  pose proof (tokens_go_spaces (take (run_length is_space t) t)
                (drop (run_length is_space t) t)
                (run_length_take is_space t)) as H.
  rewrite take_drop in H. symmetry. exact H.
Qed.

Lemma split_tokens_aux n :
  forall s p cur, length s = n ->
    List.filter nonempty (split_go (Plus Space) 0 p cur s)
    = tokens_go cur s.
Proof.
  induction n as [n IH] using lt_wf_ind. intros s p cur Hn.
  destruct s as [|c t].
  - simpl. rewrite nonempty_rev. destruct cur; reflexivity.
  - cbn [split_go]. unfold Space. rewrite exec_plus_chr.
    cbn [run_length tokens_go]. destruct (is_space c) eqn:Hc.
    + rewrite split_go_skip. cbn [List.filter]. rewrite nonempty_rev.
      fold Space.
      rewrite (IH (length (drop (run_length is_space t) t)))
        by (rewrite ?length_drop; simpl in Hn; lia || reflexivity).
      rewrite tokens_go_run. destruct cur; reflexivity.
    + fold Space. apply (IH (length t)); [simpl in Hn; lia|reflexivity].
Qed.

(** The words that the program reads are the tokens. *)
Lemma words_tokens text : words text = tokens text.
Proof. unfold words, split. apply (split_tokens_aux (length text)). reflexivity. Qed.

Lemma tokens_go_nil_iff cur s :
  tokens_go cur s = [] <-> cur = [] /\ Forall (fun c => is_space c = true) s.
Proof.
  revert cur. induction s as [|c t IH]; intros cur; simpl.
  - destruct cur; split; intros H; try discriminate; auto.
    destruct H; discriminate.
  - destruct (is_space c) eqn:Hc.
    + destruct cur.
      * rewrite IH. split; intros [? H]; split; auto.
        inversion H; assumption.
      * split; [discriminate|intros [? _]; discriminate].
    + rewrite IH. split; [intros [? _]; discriminate|].
      intros [_ H]. inversion H; congruence.
Qed.

(** The word sequence is empty exactly for a text of white space
    only (the empty text included). *)
Lemma words_nil_iff text :
  words text = [] <-> Forall (fun c => is_space c = true) text.
Proof.
  rewrite words_tokens. unfold tokens. rewrite tokens_go_nil_iff.
  split; [intros [_ H]; exact H|auto].
Qed.

Lemma tokens_go_word w s :
  Forall (fun c => is_space c = false) w ->
  forall cur, tokens_go cur (w ++ s) = tokens_go (rev w ++ cur) s.
Proof.
  induction 1 as [|c t Hc _ IH]; intros cur; simpl; [reflexivity|].
  rewrite Hc, IH. rewrite <- app_assoc. reflexivity.
Qed.

Lemma tokens_go_words cur s :
  Forall (fun c => is_space c = false) cur ->
  Forall is_word_string (tokens_go cur s).
Proof.
  revert cur. induction s as [|c t IH]; intros cur Hcur; simpl.
  - destruct cur as [|x cur']; constructor; [|constructor].
    split.
    + simpl. intros E. apply app_eq_nil in E. destruct E; discriminate.
    + apply Forall_rev. exact Hcur.
  - destruct (is_space c) eqn:Hc.
    + destruct cur as [|x cur'].
      * apply IH. constructor.
      * constructor; [|apply IH; constructor].
        split.
        -- simpl. intros E. apply app_eq_nil in E. destruct E; discriminate.
        -- apply Forall_rev. exact Hcur.
    + apply IH. constructor; assumption.
Qed.

(** Every word read is not empty and holds no white space. *)
Lemma words_are_words text : Forall is_word_string (words text).
Proof. rewrite words_tokens. apply tokens_go_words. constructor. Qed.

(** The words of words joined with one space are these words. *)
Lemma tokens_join l :
  Forall is_word_string l -> tokens (join (js " ") l) = l.
Proof.
  unfold tokens. induction 1 as [|w l [Hne Hw] Hl IH]; [reflexivity|].
  destruct l as [|w' l'].
  - simpl. rewrite <- (app_nil_r w) at 1. rewrite tokens_go_word by assumption.
    simpl. rewrite app_nil_r. destruct (rev w) eqn:E.
    + apply (f_equal (@rev N)) in E. rewrite rev_involutive in E. contradiction.
    + rewrite <- E, rev_involutive. reflexivity.
  - change (join (js " ") (w :: w' :: l'))
      with (w ++ js " " ++ join (js " ") (w' :: l')).
    rewrite tokens_go_word by assumption. rewrite app_nil_r.
    change (js " " ++ join (js " ") (w' :: l'))
      with (32%N :: join (js " ") (w' :: l')).
    cbn [tokens_go]. change (is_space 32) with true. cbn iota.
    rewrite IH. destruct (rev w) eqn:E.
    + apply (f_equal (@rev N)) in E. rewrite rev_involutive in E. contradiction.
    + rewrite <- E, rev_involutive. reflexivity.
Qed.

Lemma words_join l :
  Forall is_word_string l -> words (join (js " ") l) = l.
Proof. intros H. rewrite words_tokens. apply tokens_join, H. Qed.

End Words.
Import Words.

(** * Slices and windows *)

Module Chunks.

(** A slice between two indices that are not negative. *)
Lemma slice_nonneg {A} (l : list A) (a b : Z) :
  0 <= a -> a <= b ->
  slice l a b = take (Z.to_nat (b - a)) (drop (Z.to_nat a) l).
Proof.
  intros Ha Hab. unfold slice, rel_index.
  destruct (Z.ltb_spec a 0) as [?|_]; [lia|].
  destruct (Z.ltb_spec b 0) as [?|_]; [lia|].
  destruct (Z.le_gt_cases a (Z.of_nat (length l))) as [Hle|Hgt].
  - rewrite (Z.min_l a) by lia.
    destruct (Z.le_gt_cases b (Z.of_nat (length l))) as [Hb|Hb].
    + rewrite Z.min_l by lia. reflexivity.
    + rewrite Z.min_r by lia.
      rewrite (take_ge _ (Z.to_nat (b - a))) by (rewrite length_drop; lia).
      apply take_ge. rewrite length_drop. lia.
  - rewrite !Z.min_r by lia. rewrite Z.sub_diag.
    change (Z.to_nat 0) with 0%nat. rewrite take_0.
    rewrite (drop_ge l (Z.to_nat a)) by lia. symmetry. apply take_nil.
Qed.

(** The successive windows of [n] elements; [fuel] bounds their
    number. *)
Fixpoint windows_go {A} (fuel n : nat) (l : list A) : list (list A) :=
  match fuel with
  | O => []
  | S fuel' =>
      match l with
      | [] => []
      | _ :: _ => take n l :: windows_go fuel' n (drop n l)
      end
  end.

Definition windows {A} (n : nat) (l : list A) : list (list A) :=
  windows_go (length l) n l.

Lemma windows_go_concat {A} (n fuel : nat) :
  forall l : list A, (length l <= fuel * n)%nat ->
    concat (windows_go fuel n l) = l.
Proof.
  induction fuel as [|fuel IH]; intros l Hl.
  - destruct l; [reflexivity|simpl in Hl; lia].
  - destruct l as [|x l']; [reflexivity|].
    cbn [windows_go concat]. rewrite IH; [apply take_drop|].
    rewrite length_drop. simpl in *. lia.
Qed.

Lemma windows_go_sizes {A} (n fuel : nat) :
  forall l : list A, (1 <= n)%nat ->
    Forall (fun w => w <> [] /\ (length w <= n)%nat) (windows_go fuel n l).
Proof.
  induction fuel as [|fuel IH]; intros l Hn; [constructor|].
  destruct l as [|x l']; [constructor|].
  cbn [windows_go]. constructor; [|apply IH; assumption].
  split.
  - destruct n; [lia|]. discriminate.
  - rewrite length_take. lia.
Qed.

Lemma windows_go_full {A} (n fuel : nat) :
  forall (l : list A) j w,
    (S j < length (windows_go fuel n l))%nat ->
    windows_go fuel n l !! j = Some w ->
    length w = n.
Proof.
  induction fuel as [|fuel IH]; intros l j w Hj Hw; [simpl in Hj; lia|].
  destruct l as [|x l']; [simpl in Hj; lia|].
  cbn [windows_go] in *. destruct j as [|j].
  - simpl in Hw. injection Hw as <-. rewrite length_take.
    destruct (Nat.le_gt_cases n (length (x :: l'))) as [?|Hlt]; [lia|].
    exfalso. rewrite drop_ge in Hj by lia.
    destruct fuel; simpl in Hj; lia.
  - simpl in Hw, Hj. apply (IH (drop n (x :: l')) j w); [lia|exact Hw].
Qed.

Lemma windows_go_length_le {A} (n fuel : nat) (l : list A) :
  (1 <= n)%nat -> (length (windows_go fuel n l) <= length l)%nat.
Proof.
  revert l. induction fuel as [|fuel IH]; intros l Hn; [simpl; lia|].
  destruct l as [|x l']; [simpl; lia|].
  cbn [windows_go length]. specialize (IH (drop n (x :: l')) Hn).
  rewrite length_drop in IH. simpl in IH. lia.
Qed.


Lemma windows_go_S {A} (n fuel : nat) (l : list A) :
  l <> [] ->
  windows_go (S fuel) n l = take n l :: windows_go fuel n (drop n l).
Proof. destruct l; [contradiction|reflexivity]. Qed.



(** The loop of [chunkWords] with a positive size builds the windows
    of the words that are left. *)
Lemma chunk_loop_windows (ws : list jsstring) (tw : Z) :
  1 <= tw ->
  forall fuel i acc, 0 <= i ->
    Z.of_nat (length ws) - i <= Z.of_nat fuel * tw ->
    chunk_loop fuel ws tw (i, acc)
    = Some (acc ++ List.map (join (js " "))
                     (windows_go fuel (Z.to_nat tw) (drop (Z.to_nat i) ws))).
Proof.
  intros Htw. induction fuel as [|fuel IH]; intros i acc Hi Hlen.
  - unfold chunk_loop, chunk_step.
    destruct (Z.ltb_spec i (Z.of_nat (length ws))) as [?|_]; [lia|].
    simpl. rewrite app_nil_r. reflexivity.
  - cbn [chunk_loop]. unfold chunk_step.
    destruct (Z.ltb_spec i (Z.of_nat (length ws))) as [Hlt|Hge].
    + rewrite IH; [|lia|].
      * rewrite slice_nonneg by lia.
        replace (i + tw - i) with tw by lia.
        destruct (drop (Z.to_nat i) ws) as [|x l'] eqn:Hd.
        { apply (f_equal (@length _)) in Hd. rewrite length_drop in Hd.
          simpl in Hd. lia. }
        cbn [windows_go List.map]. rewrite <- app_assoc. cbn [app].
        rewrite <- Hd. rewrite Z2Nat.inj_add by lia.
        rewrite drop_drop. reflexivity.
      * lia.
    + cbn [snd]. rewrite drop_ge by lia.
      simpl. rewrite app_nil_r. reflexivity.
Qed.

(** With a size that is not positive and a word to read, the index
    stays at or below zero and the loop does not end. *)
Lemma chunk_iter_stuck (ws : list jsstring) (tw : Z) :
  tw <= 0 -> ws <> [] ->
  forall n i acc, i <= 0 ->
    exists acc', chunk_iter n ws tw (i, acc)
                 = Some (i + Z.of_nat n * tw, acc').
Proof.
  intros Htw Hws. induction n as [|n IH]; intros i acc Hi.
  - exists acc. simpl. f_equal. f_equal. lia.
  - cbn [chunk_iter]. unfold chunk_step.
    destruct (Z.ltb_spec i (Z.of_nat (length ws))) as [_|Hge].
    + destruct (IH (i + tw) (acc ++ [join (js " ") (slice ws i (i + tw))]))
        as [acc' Hacc']; [lia|].
      exists acc'. rewrite Hacc'. f_equal. f_equal. lia.
    + destruct ws; [contradiction|simpl in Hge; lia].
Qed.

Lemma chunk_loop_stuck (ws : list jsstring) (tw : Z) :
  tw <= 0 -> ws <> [] ->
  forall fuel i acc, i <= 0 -> chunk_loop fuel ws tw (i, acc) = None.
Proof.
  intros Htw Hws. induction fuel as [|fuel IH]; intros i acc Hi;
    cbn [chunk_loop]; unfold chunk_step;
    (destruct (Z.ltb_spec i (Z.of_nat (length ws))) as [_|Hge];
      [|destruct ws; [contradiction|simpl in Hge; lia]]).
  - reflexivity.
  - apply IH. lia.
Qed.

Lemma chunk_loop_no_words (tw : Z) fuel acc :
  chunk_loop fuel [] tw (0, acc) = Some acc.
Proof. destruct fuel; reflexivity. Qed.

End Chunks.
Import Chunks.

(** * The fragmenter *)

Module Fragmenter.

(** The number of words of a fragment, read as the program reads the
    words of a text. *)
Definition word_count (fragment : jsstring) : nat :=
  length (words fragment).

(** More fuel does not change a result. *)
Lemma chunk_loop_mono ws tw fuel :
  forall st r, chunk_loop fuel ws tw st = Some r ->
    forall fuel', (fuel <= fuel')%nat -> chunk_loop fuel' ws tw st = Some r.
Proof.
  induction fuel as [|fuel IH]; intros st r H fuel' Hle.
  - cbn [chunk_loop] in H. destruct (chunk_step ws tw st) eqn:E; [discriminate|].
    destruct fuel'; cbn [chunk_loop]; rewrite E; exact H.
  - destruct fuel' as [|fuel'']; [lia|]. cbn [chunk_loop] in *.
    destruct (chunk_step ws tw st) eqn:E; [|exact H].
    apply IH; [exact H|lia].
Qed.

Lemma map_fmap {A B} (f : A -> B) (l : list A) : List.map f l = f <$> l.
Proof. induction l as [|x l IH]; [reflexivity|]. simpl. rewrite IH. reflexivity. Qed.

Lemma join_nonempty sep (w : list jsstring) :
  Forall is_word_string w -> w <> [] -> join sep w <> [].
Proof.
  intros Hw Hne. destruct w as [|x l]; [contradiction|].
  inversion Hw as [|? ? [Hx _] _]; subst.
  destruct x as [|c x']; [contradiction|].
  destruct l; simpl; discriminate.
Qed.

Lemma windows_go_words (n fuel : nat) :
  forall l : list jsstring, Forall is_word_string l ->
    Forall (Forall is_word_string) (windows_go fuel n l).
Proof.
  induction fuel as [|fuel IH]; intros l Hl; [constructor|].
  destruct l as [|x l']; [constructor|]. cbn [windows_go].
  constructor; [apply Forall_take, Hl|apply IH, Forall_drop, Hl].
Qed.

(** What the fragments of the windows look like. *)
Lemma window_fragments (n fuel : nat) (ws : list jsstring) :
  (1 <= n)%nat -> Forall is_word_string ws ->
  (length ws <= fuel * n)%nat ->
  let chunks := List.map (join (js " ")) (windows_go fuel n ws) in
  Forall (fun c => c <> [] /\ (1 <= word_count c)%nat) chunks
  /\ (forall j c, (S j < length chunks)%nat -> chunks !! j = Some c ->
        word_count c = n)
  /\ concat (List.map words chunks) = ws.
Proof.
  intros Hn Hws Hlen chunks. subst chunks.
  pose proof (windows_go_words n fuel ws Hws) as Hww.
  pose proof (windows_go_sizes n fuel ws Hn) as Hsz.
  split; [|split].
  - apply Forall_forall. intros c Hc. rewrite map_fmap in Hc.
    apply list_elem_of_fmap in Hc. destruct Hc as [w [-> Hin]].
    rewrite Forall_forall in Hww, Hsz.
    specialize (Hww w). specialize (Hsz w).
    destruct (Hsz Hin) as [Hne _]. specialize (Hww Hin). split.
    + apply join_nonempty; assumption.
    + unfold word_count. rewrite words_join by assumption.
      destruct w; [contradiction|simpl; lia].
  - intros j c Hj Hc. rewrite length_map in Hj.
    rewrite map_fmap, list_lookup_fmap in Hc.
    destruct (windows_go fuel n ws !! j) as [w|] eqn:Hw; [|discriminate].
    injection Hc as <-. unfold word_count. rewrite words_join.
    + eapply windows_go_full; eassumption.
    + rewrite Forall_forall in Hww. apply Hww.
      eapply list_elem_of_lookup_2. exact Hw.
  - rewrite List.map_map.
    rewrite (map_ext_Forall _ (fun w => w)).
    + rewrite List.map_id. apply windows_go_concat. exact Hlen.
    + eapply Forall_impl; [exact Hww|]. intros w Hw. apply words_join, Hw.
Qed.

(** What [chunkWords] returns for a positive size. *)
Lemma chunkWords_windows text tw fuel :
  1 <= tw -> Z.of_nat (length (words text)) <= Z.of_nat fuel * tw ->
  chunkWords fuel text tw
  = Some (List.map (join (js " "))
            (windows_go fuel (Z.to_nat tw) (words text))).
Proof.
  intros Htw Hlen. unfold chunkWords.
  rewrite chunk_loop_windows by lia. reflexivity.
Qed.

(** Whatever [chunkWords] returns: no fragment is empty, every
    fragment but the last has [targetWords] words, and the fragments
    hold the words of the text in order. *)
Lemma chunkWords_result text tw fuel chunks :
  chunkWords fuel text tw = Some chunks ->
  Forall (fun c => c <> [] /\ (1 <= word_count c)%nat) chunks
  /\ (forall j c, (S j < length chunks)%nat -> chunks !! j = Some c ->
        Z.of_nat (word_count c) = tw)
  /\ concat (List.map words chunks) = words text.
Proof.
  intros H. destruct (Z.le_gt_cases 1 tw) as [Htw|Htw].
  - set (fuel' := Nat.max fuel (length (words text))).
    assert (Hm : chunkWords fuel' text tw = Some chunks).
    { unfold chunkWords in *. eapply chunk_loop_mono; [exact H|].
      subst fuel'. lia. }
    rewrite chunkWords_windows in Hm by (subst fuel'; nia).
    injection Hm as <-.
    destruct (window_fragments (Z.to_nat tw) fuel' (words text))
      as (H1 & H2 & H3); [lia|apply words_are_words|subst fuel'; nia|].
    split; [exact H1|split; [|exact H3]].
    intros j c Hj Hc. rewrite (H2 j c Hj Hc). lia.
  - unfold chunkWords in H. destruct (words text) as [|w ws] eqn:Hw.
    + rewrite chunk_loop_no_words in H. injection H as <-.
      split; [constructor|split; [|reflexivity]].
      intros j c Hj. simpl in Hj. lia.
    + rewrite chunk_loop_stuck in H; [discriminate|lia|discriminate|lia].
Qed.


End Fragmenter.

(** * The fragment window and the size parameter *)

Module Window.
Import Importer.

(** C3: for [startFrom] and [maxFragments] of at least 1 the operative
    fragments are the fragments at the positions [startFrom - 1] up to,
    and not including, [startFrom - 1 + maxFragments], cut at the end
    of the list; with [startFrom = 2] and [maxFragments = 2], five
    fragments give the second and the third, and one fragment gives
    the empty sequence. *)
Theorem operative_window (allFragments : list jsstring)
    (startFrom maxFragments : Z) :
  1 <= startFrom -> 1 <= maxFragments ->
  operative allFragments startFrom maxFragments
  = take (Z.to_nat maxFragments)
      (drop (Z.to_nat (startFrom - 1)) allFragments)
  /\ (forall j : nat,
        operative allFragments startFrom maxFragments !! j
        = if Z.of_nat j <? maxFragments
          then allFragments !! (Z.to_nat (startFrom - 1) + j)%nat
          else None)
  /\ (forall f1 f2 f3 f4 f5 : jsstring,
        operative [f1; f2; f3; f4; f5] 2 2 = [f2; f3])
  /\ (forall f1 : jsstring, operative [f1] 2 2 = []).
Proof.
  intros Hs Hm.
  assert (E : operative allFragments startFrom maxFragments
              = take (Z.to_nat maxFragments)
                  (drop (Z.to_nat (startFrom - 1)) allFragments)).
  { unfold operative. rewrite slice_nonneg by lia. f_equal. f_equal. lia. }
  split; [exact E|]. split; [|split; reflexivity].
  intros j. rewrite E.
  destruct (Z.ltb_spec (Z.of_nat j) maxFragments) as [Hj|Hj].
  - rewrite lookup_take_lt by lia. apply lookup_drop.
  - apply lookup_take_ge. lia.
Qed.

Lemma operative_window_example :
  operative [js "one"; js "two"; js "three"; js "four"; js "five"] 2 2
  = [js "two"; js "three"].
Proof.
  destruct (operative_window
              [js "one"; js "two"; js "three"; js "four"; js "five"] 2 2)
    as [E _]; [lia|lia|]. rewrite E. reflexivity.
Defined.

(** At an integer size [chunkWords] returns exactly when the size is
    at least 1 or the text has no word.  For a size of at least 1 every
    round moves the index forward and the function returns; for a size
    of 0 or less and a text with a word the index after any number of
    rounds is still at or below 0 and the function never returns. *)
Lemma chunk_termination_integer (text : jsstring) (targetWords : Z) :
  ((exists fuel, chunkWords fuel text targetWords <> None)
   <-> 1 <= targetWords \/ words text = [])
  /\ (1 <= targetWords ->
      (forall st st', chunk_step (words text) targetWords st = Some st' ->
                      fst st < fst st')
      /\ exists chunks,
           chunkWords (length (words text)) text targetWords = Some chunks)
  /\ (targetWords <= 0 -> words text <> [] ->
      (forall n, exists i acc,
         chunk_iter n (words text) targetWords (0, []) = Some (i, acc)
         /\ i = Z.of_nat n * targetWords /\ i <= 0)
      /\ forall fuel, chunkWords fuel text targetWords = None).
Proof.
  assert (Hpos : 1 <= targetWords ->
                 exists chunks,
                   chunkWords (length (words text)) text targetWords
                   = Some chunks).
  { intros Htw. eexists. apply Fragmenter.chunkWords_windows; [exact Htw|nia]. }
  assert (Hstuck : forall tw, tw <= 0 -> words text <> [] ->
                   forall fuel, chunkWords fuel text tw = None).
  { intros tw Htw Hw fuel. unfold chunkWords.
    apply chunk_loop_stuck; [exact Htw|exact Hw|lia]. }
  split; [|split].
  - split.
    + intros [fuel Hf].
      destruct (Z.le_gt_cases 1 targetWords) as [?|Hlt]; [left; assumption|].
      right. destruct (words text) eqn:E; [reflexivity|].
      exfalso. apply Hf. rewrite <- E in *.
      apply Hstuck; [lia|rewrite E; discriminate].
    + intros [Htw|Hw].
      * destruct (Hpos Htw) as [chunks Hc]. eexists. rewrite Hc. discriminate.
      * exists 0%nat. unfold chunkWords. rewrite Hw. discriminate.
  - intros Htw. split; [|exact (Hpos Htw)].
    intros [i acc] [i' acc']. unfold chunk_step.
    destruct (i <? Z.of_nat (length (words text))); [|discriminate].
    intros H. injection H as <- _. simpl. lia.
  - intros Htw Hw. split; [|apply Hstuck; assumption].
    intros n.
    destruct (chunk_iter_stuck (words text) targetWords Htw Hw n 0 [])
      as [acc Hacc]; [lia|].
    exists (0 + Z.of_nat n * targetWords), acc.
    split; [exact Hacc|]. split; [lia|nia].
Qed.

End Window.

(** * The generation loop *)

Module Orchestrator.
Import Importer.

Section Runs.
Context {Lesson : Type}.
Variable bookTitle : jsstring.
Variable startFrom : Z.

(** The entries for the lessons of the operative positions from [i]
    on. *)
Definition entries_from (i : Z) (ls : list Lesson)
  : list (LessonEntry Lesson) :=
  imap (fun j l => {| index := startFrom + i + Z.of_nat j; lesson := l |})
    ls.

(** The calls for the chunks of the operative positions from [i] on. *)
Definition calls_from (i : Z) (cs : list jsstring)
  : list (jsstring * jsstring) :=
  imap (fun j c => (c, lessonTitle bookTitle (startFrom + i + Z.of_nat j)))
    cs.

Lemma entries_from_cons i l ls :
  entries_from i (l :: ls)
  = {| index := startFrom + i; lesson := l |} :: entries_from (i + 1) ls.
Proof.
  unfold entries_from. rewrite imap_cons. f_equal.
  - f_equal. lia.
  - apply imap_ext. intros j x _. simpl. f_equal. lia.
Qed.

Lemma calls_from_cons i c cs :
  calls_from i (c :: cs)
  = (c, lessonTitle bookTitle (startFrom + i)) :: calls_from (i + 1) cs.
Proof.
  unfold calls_from. rewrite imap_cons. f_equal.
  - do 2 f_equal. lia.
  - apply imap_ext. intros j x _. simpl. do 2 f_equal. lia.
Qed.

Lemma entries_from_index ls :
  forall i,
    List.map index (entries_from i ls)
    = List.map (fun j => startFrom + i + Z.of_nat j) (seq 0 (length ls)).
Proof.
  induction ls as [|l ls IH]; intros i; [reflexivity|].
  rewrite entries_from_cons. cbn [List.map length seq index].
  f_equal; [lia|]. rewrite IH, <- seq_shift, List.map_map.
  apply map_ext. intros j. lia.
Qed.

(** A run in which the first answers are lessons and the next one is an
    error. *)
Lemma generate_fails (e : jsstring) (later : list (response Lesson)) :
  forall (earlier : list Lesson) (chunks : list jsstring) (i : Z)
         (acc : list (LessonEntry Lesson)),
    (length earlier < length chunks)%nat ->
    run (generate bookTitle startFrom i chunks acc)
        (List.map inr earlier ++ inl e :: later)
    = Some ({| lessons := acc ++ entries_from i earlier;
               partialError :=
                 Some {| fragment := startFrom + i + Z.of_nat (length earlier);
                         error := e |} |},
            calls_from i (take (S (length earlier)) chunks),
            later).
Proof.
  induction earlier as [|l earlier IH]; intros chunks i acc Hlen;
    (destruct chunks as [|c chunks]; [simpl in Hlen; lia|]).
  - cbn [List.map app generate run length take].
    rewrite app_nil_r, Z.add_0_r. rewrite take_0.
    unfold calls_from. simpl. rewrite Z.add_0_r. reflexivity.
  - cbn [List.map app generate run length].
    rewrite IH by (simpl in Hlen; lia).
    rewrite <- app_assoc. cbn [app].
    rewrite entries_from_cons.
    change (take (S (S (length earlier))) (c :: chunks))
      with (c :: take (S (length earlier)) chunks).
    rewrite calls_from_cons.
    replace (startFrom + (i + 1) + Z.of_nat (length earlier))
      with (startFrom + i + Z.of_nat (S (length earlier))) by lia.
    reflexivity.
Qed.

(** A run in which every answer is a lesson. *)
Lemma generate_completes (later : list (response Lesson)) :
  forall (chunks : list jsstring) (ls : list Lesson) (i : Z)
         (acc : list (LessonEntry Lesson)),
    length ls = length chunks ->
    run (generate bookTitle startFrom i chunks acc)
        (List.map inr ls ++ later)
    = Some ({| lessons := acc ++ entries_from i ls; partialError := None |},
            calls_from i chunks, later).
Proof.
  induction chunks as [|c chunks IH]; intros ls i acc Hlen;
    destruct ls as [|l ls]; try discriminate.
  - simpl. rewrite app_nil_r. reflexivity.
  - cbn [List.map app generate run].
    rewrite IH by (simpl in Hlen; lia).
    rewrite <- app_assoc. cbn [app].
    rewrite entries_from_cons, calls_from_cons. reflexivity.
Qed.

End Runs.

(** C1: when the generator answers the first [k - 1] calls with lessons
    and the [k]-th call with an error, the loop returns the entries of
    these [k - 1] lessons in order, with the indices [startFrom],
    [startFrom + 1], ..., and one error record for the fragment
    [startFrom + k - 1]; it has called the generator for the first [k]
    operative chunks, once each and in order, and no answer after the
    error has been asked for. *)
Theorem orchestrate_stops_at_first_failure {Lesson : Type}
    (bookTitle : jsstring) (startFrom : Z) (chunks : list jsstring)
    (earlier : list Lesson) (e : jsstring)
    (later : list (response Lesson)) :
  (length earlier < length chunks)%nat ->
  let k := S (length earlier) in
  exists outcome,
    run (orchestrate bookTitle startFrom chunks)
        (List.map inr earlier ++ inl e :: later)
    = Some (outcome, calls_from bookTitle startFrom 0 (take k chunks), later)
    /\ lessons outcome = entries_from startFrom 0 earlier
    /\ List.map index (lessons outcome)
       = List.map (fun j => startFrom + Z.of_nat j) (seq 0 (k - 1))
    /\ partialError outcome
       = Some {| fragment := startFrom + Z.of_nat k - 1; error := e |}
    /\ status outcome = 206
    /\ length (zip_names outcome) = k.
Proof.
  intros Hlen k. eexists. split.
  - unfold orchestrate. rewrite generate_fails by exact Hlen. reflexivity.
  - cbn [lessons partialError app]. split; [reflexivity|].
    split; [|split; [|split]].
    + subst k. rewrite Nat.sub_succ, Nat.sub_0_r.
      rewrite entries_from_index. apply map_ext. intros j. lia.
    + do 2 f_equal. subst k. lia.
    + reflexivity.
    + unfold zip_names. cbn [lessons partialError].
      rewrite length_app, length_map. unfold entries_from.
      rewrite length_imap. simpl. subst k. lia.
Qed.

Lemma orchestrate_second_call_fails :
  exists outcome,
    run (orchestrate (js "Book") 1 [js "a b"; js "c d"; js "e"])
        (List.map inr [tt] ++ inl (js "Error: timeout") :: [inr tt])
    = Some (outcome,
            calls_from (js "Book") 1 0 [js "a b"; js "c d"],
            [inr tt])
    /\ List.map index (lessons outcome) = [1]
    /\ partialError outcome
       = Some {| fragment := 2; error := js "Error: timeout" |}.
Proof.
  destruct (orchestrate_stops_at_first_failure (js "Book") 1
              [js "a b"; js "c d"; js "e"] [tt] (js "Error: timeout")
              [inr tt]) as (o & Hrun & _ & Hidx & Herr & _);
    [simpl; lia|].
  exists o. split; [exact Hrun|]. split; [exact Hidx|exact Herr].
Defined.

End Orchestrator.

(** * Path normalization *)

Module Paths.
Import SpineImporter.

Definition slash : N := ch "/".
Definition hash : N := ch "#".

Definition free_of (sep : N) (s : jsstring) : Prop :=
  Forall (fun c => c <> sep) s.

(** A segment of a normalized path: not empty, without slash, and
    neither of the two dot segments. *)
Definition plain_segment (p : jsstring) : Prop :=
  p <> [] /\ free_of slash p /\ p <> js "." /\ p <> js "..".

Lemma split_char_free sep s : Forall (free_of sep) (split_char sep s).
Proof.
  induction s as [|c t IH]; simpl.
  - repeat constructor.
  - destruct (N.eqb_spec c sep) as [->|Hne].
    + constructor; [constructor|exact IH].
    + destruct (split_char sep t) as [|w ws]; [repeat constructor; assumption|].
      inversion IH; subst. constructor; [constructor; assumption|assumption].
Qed.

Lemma split_char_no_sep sep s : free_of sep s -> split_char sep s = [s].
Proof.
  induction 1 as [|c t Hc _ IH]; simpl; [reflexivity|].
  destruct (N.eqb_spec c sep); [contradiction|]. rewrite IH. reflexivity.
Qed.

Lemma split_char_app sep x r :
  free_of sep x -> split_char sep (x ++ sep :: r) = x :: split_char sep r.
Proof.
  induction 1 as [|c t Hc _ IH]; simpl.
  - rewrite N.eqb_refl. reflexivity.
  - destruct (N.eqb_spec c sep); [contradiction|]. rewrite IH. reflexivity.
Qed.

Lemma split_char_join sep l :
  Forall (free_of sep) l -> l <> [] -> split_char sep (join [sep] l) = l.
Proof.
  induction 1 as [|x l Hx Hl IH]; intros Hne; [contradiction|].
  destruct l as [|y l'].
  - simpl. apply split_char_no_sep, Hx.
  - change (join [sep] (x :: y :: l')) with (x ++ sep :: join [sep] (y :: l')).
    rewrite split_char_app by exact Hx. rewrite IH by discriminate.
    reflexivity.
Qed.

Lemma filter_nonempty_id (l : list jsstring) :
  Forall (fun p => p <> []) l -> List.filter nonempty l = l.
Proof.
  induction 1 as [|x l Hx _ IH]; [reflexivity|]. simpl.
  destruct x; [contradiction|]. simpl. rewrite IH. reflexivity.
Qed.

(** The segments of a path made of plain segments are these
    segments. *)
Lemma segments_join l :
  Forall plain_segment l -> segments (join (js "/") l) = l.
Proof.
  intros Hl. unfold segments. destruct l as [|x l']; [reflexivity|].
  change (js "/") with [slash]. change (ch "/") with slash.
  rewrite split_char_join; [|eapply Forall_impl; [exact Hl|]|discriminate].
  - apply filter_nonempty_id. eapply Forall_impl; [exact Hl|].
    intros p Hp. apply Hp.
  - intros p Hp. apply Hp.
Qed.

Lemma segments_parts full :
  Forall (fun p => p <> [] /\ free_of slash p) (segments full).
Proof.
  unfold segments. pose proof (split_char_free slash full) as H.
  change (ch "/") with slash.
  induction H as [|x l Hx _ IH]; simpl; [constructor|].
  destruct x as [|c x']; simpl; [exact IH|].
  constructor; [split; [discriminate|exact Hx]|exact IH].
Qed.

Lemma resolve_step_plain out p :
  Forall plain_segment out -> p <> [] /\ free_of slash p ->
  Forall plain_segment (resolve_step out p).
Proof.
  intros Hout [Hne Hfree]. unfold resolve_step, is_dot, is_dotdot.
  case_bool_decide as Hd; [exact Hout|].
  case_bool_decide as Hdd.
  - destruct out as [|x out'] using rev_ind; [constructor|].
    rewrite removelast_last. apply Forall_app in Hout. apply Hout.
  - apply Forall_app. split; [exact Hout|].
    constructor; [|constructor]. repeat split; assumption.
Qed.

Lemma resolve_plain parts :
  Forall (fun p => p <> [] /\ free_of slash p) parts ->
  forall out, Forall plain_segment out ->
    Forall plain_segment (fold_left resolve_step parts out).
Proof.
  induction 1 as [|p parts Hp _ IH]; intros out Hout; [exact Hout|].
  simpl. apply IH, resolve_step_plain; assumption.
Qed.

Lemma resolve_id parts :
  Forall plain_segment parts ->
  forall out, fold_left resolve_step parts out = out ++ parts.
Proof.
  induction 1 as [|p parts Hp _ IH]; intros out; simpl.
  - rewrite app_nil_r. reflexivity.
  - destruct Hp as (_ & _ & Hd & Hdd).
    unfold resolve_step at 2, is_dot, is_dotdot.
    rewrite !bool_decide_eq_false_2 by assumption.
    rewrite IH, <- app_assoc. reflexivity.
Qed.

(** The segments of a result of [normalizePath]. *)
Definition normal_segments (baseDir href : jsstring) : list jsstring :=
  fold_left resolve_step
    (segments (baseDir ++ hd [] (split_char hash href))) [].

Lemma normal_segments_plain baseDir href :
  Forall plain_segment (normal_segments baseDir href).
Proof. apply resolve_plain; [apply segments_parts|constructor]. Qed.

Lemma normalize_segments l :
  Forall plain_segment l ->
  join (js "/") (fold_left resolve_step (segments (join (js "/") l)) [])
  = join (js "/") l.
Proof.
  intros Hl. rewrite segments_join by exact Hl.
  rewrite resolve_id by exact Hl. reflexivity.
Qed.

Lemma free_of_app sep a b : free_of sep a -> free_of sep b -> free_of sep (a ++ b).
Proof. intros Ha Hb. apply Forall_app. split; assumption. Qed.

Lemma free_of_join sep l :
  sep <> slash -> Forall (free_of sep) l -> free_of sep (join (js "/") l).
Proof.
  intros Hs. induction 1 as [|x l Hx Hl IH]; [constructor|].
  destruct l as [|y l']; [exact Hx|].
  change (join (js "/") (x :: y :: l'))
    with (x ++ slash :: join (js "/") (y :: l')).
  apply free_of_app; [exact Hx|]. constructor; [congruence|exact IH].
Qed.

Lemma removelast_Forall {A} (P : A -> Prop) l :
  Forall P l -> Forall P (removelast l).
Proof.
  destruct l as [|x l'] using rev_ind; [trivial|].
  rewrite removelast_last. intros H. apply Forall_app in H. apply H.
Qed.

Lemma resolve_free sep parts :
  Forall (free_of sep) parts ->
  forall out, Forall (free_of sep) out ->
    Forall (free_of sep) (fold_left resolve_step parts out).
Proof.
  induction 1 as [|p parts Hp _ IH]; intros out Hout; [exact Hout|].
  simpl. apply IH. unfold resolve_step.
  destruct (is_dot p); [exact Hout|].
  destruct (is_dotdot p); [apply removelast_Forall, Hout|].
  apply Forall_app. split; [exact Hout|repeat constructor; exact Hp].
Qed.

Lemma split_char_within sep (P : N -> Prop) s :
  Forall P s -> Forall (Forall P) (split_char sep s).
Proof.
  induction 1 as [|c t Hc _ IH]; simpl; [repeat constructor|].
  destruct (c =? sep)%N; [constructor; [constructor|exact IH]|].
  destruct (split_char sep t) as [|w ws]; [repeat constructor; assumption|].
  inversion IH; subst. constructor; [constructor; assumption|assumption].
Qed.

Lemma hd_split_free sep s : free_of sep (hd [] (split_char sep s)).
Proof.
  pose proof (split_char_free sep s) as H.
  destruct (split_char sep s); [constructor|]. inversion H; assumption.
Qed.

(** A result has no fragment sign unless the base has one. *)
Lemma normalizePath_free_of_hash baseDir href :
  free_of hash baseDir -> free_of hash (normalizePath baseDir href).
Proof.
  intros Hb. unfold normalizePath. apply free_of_join; [discriminate|].
  apply resolve_free; [|constructor].
  unfold segments. change (ch "#") with hash.
  assert (Hfull : free_of hash (baseDir ++ hd [] (split_char hash href)))
    by (apply free_of_app; [exact Hb|apply hd_split_free]).
  pose proof (split_char_within (ch "/") _ _ Hfull) as H.
  induction H as [|x l Hx _ IH]; simpl; [constructor|].
  destruct (nonempty x); [constructor; assumption|assumption].
Qed.

(** C4, as amended: a normalized path is left as it is when it is
    normalized again as the path itself (joined with the empty href),
    for every base and href; normalized again as an href under the
    empty base it is left as it is exactly when it holds no fragment
    sign, which is so whenever the base holds none.  The two equations
    of the specification hold, and a double-dot segment met with no
    segment on the stack changes nothing and raises nothing. *)
Theorem normalizePath_idempotent (baseDir href : jsstring) :
  normalizePath (normalizePath baseDir href) []
  = normalizePath baseDir href
  /\ (free_of hash baseDir ->
      normalizePath [] (normalizePath baseDir href)
      = normalizePath baseDir href)
  /\ (normalizePath [] (normalizePath baseDir href)
      = normalizePath baseDir href
      <-> free_of hash (normalizePath baseDir href))
  /\ normalizePath (js "a/b/") (js "../c.html") = js "a/c.html"
  /\ normalizePath (baseDir_of (js "OEBPS/content.opf"))
       (js "text/ch1.xhtml") = js "OEBPS/text/ch1.xhtml"
  /\ resolve_step [] (js "..") = []
  /\ (forall parts,
        fold_left resolve_step (js ".." :: parts) []
        = fold_left resolve_step parts [])
  /\ normalizePath [] (js "../../c.html") = js "c.html".
Proof.
  assert (E : normalizePath baseDir href
              = join (js "/") (normal_segments baseDir href)) by reflexivity.
  assert (Hfree : free_of hash (normalizePath baseDir href) ->
                  normalizePath [] (normalizePath baseDir href)
                  = normalizePath baseDir href).
  { intros Hf. unfold normalizePath at 1. change (ch "#") with hash.
    rewrite split_char_no_sep by exact Hf. simpl hd. simpl app.
    rewrite E. apply normalize_segments, normal_segments_plain. }
  split; [|split; [|split; [|split; [|split; [|split; [|split]]]]]].
  - rewrite E at 1. unfold normalizePath at 1. simpl hd.
    rewrite app_nil_r, E. apply normalize_segments, normal_segments_plain.
  - intros Hb. apply Hfree, normalizePath_free_of_hash, Hb.
  - split; [|exact Hfree].
    intros H. rewrite <- H. apply normalizePath_free_of_hash. constructor.
  - reflexivity.
  - reflexivity.
  - reflexivity.
  - intros parts. reflexivity.
  - reflexivity.
Qed.

(** C4, as stated, fails for a base with a fragment sign: the result
    keeps the sign, and normalized again it is cut at the sign. *)
Lemma normalizePath_fragment_sign_in_base :
  normalizePath (js "a#b/") (js "c") = js "a#b/c"
  /\ normalizePath [] (normalizePath (js "a#b/") (js "c")) = js "a"
  /\ normalizePath [] (normalizePath (js "a#b/") (js "c"))
     <> normalizePath (js "a#b/") (js "c").
Proof. repeat split; try reflexivity. discriminate. Qed.

End Paths.

(** * Slugs *)

Module Slug.

(** The rule of the specification, step by step. *)

Definition is_straight_quote (c : N) : bool :=
  ((c =? squote) || (c =? dquote))%N.

(** The curly single and double quotes, U+2018, U+2019, U+201C and
    U+201D. *)
Definition is_curly_quote (c : N) : bool :=
  ((c =? 8216) || (c =? 8217) || (c =? 8220) || (c =? 8221))%N.

Definition strip (q : N -> bool) (s : jsstring) : jsstring :=
  List.filter (fun c => negb (q c)) s.

Definition underscore : N := ch "_".

(** Every run of code units outside the lower-case letters and digits
    becomes one underscore; [in_run] tells that the run has begun. *)
Fixpoint collapse (in_run : bool) (s : jsstring) : jsstring :=
  match s with
  | [] => []
  | c :: t =>
      if is_alnum_lower c then c :: collapse false t
      else if in_run then collapse true t
      else underscore :: collapse true t
  end.

Fixpoint drop_underscores (s : jsstring) : jsstring :=
  match s with
  | c :: t => if (c =? underscore)%N then drop_underscores t else s
  | [] => []
  end.

Definition trim_underscores (s : jsstring) : jsstring :=
  rev (drop_underscores (rev (drop_underscores s))).

(** The rule with [q] as the class of the quotes that are stripped. *)
Definition slug_rule (q : N -> bool) (toLowerCase : jsstring -> jsstring)
    (s : jsstring) : jsstring :=
  let r :=
    take 80
      (trim_underscores
         (collapse false (strip q (trim (toLowerCase s))))) in
  match r with
  | [] => js "book"
  | _ :: _ => r
  end.

(** Replacing every code unit of a class. *)
Lemma replace_chr q repl s :
  forall p, replace_go (Chr q) repl 0 p s
            = flat_map (fun c => if q c then repl else [c]) s.
Proof.
  induction s as [|c t IH]; intros p; [reflexivity|].
  cbn [replace_go flat_map]. rewrite exec_chr.
  destruct (q c); rewrite IH; reflexivity.
Qed.

Lemma strip_quotes s :
  replace_all re_quotes [] s = strip is_straight_quote s.
Proof.
  unfold replace_all, re_quotes. rewrite replace_chr. unfold strip.
  induction s as [|c t IH]; [reflexivity|]. cbn [flat_map List.filter].
  change ((c =? squote)%N || (c =? dquote)%N) with (is_straight_quote c).
  destruct (is_straight_quote c); simpl; rewrite IH; reflexivity.
Qed.

Definition outside (c : N) : bool := negb (is_alnum_lower c).

Lemma collapse_run t :
  collapse true t = collapse false (drop (run_length outside t) t).
Proof.
  induction t as [|c t IH]; [reflexivity|].
  cbn [collapse run_length]. unfold outside at 1.
  destruct (is_alnum_lower c) eqn:E; simpl; [rewrite E; reflexivity|].
  exact IH.
Qed.

Lemma collapse_runs_aux n :
  forall s p, length s = n ->
    replace_go re_non_alnum (js "_") 0 p s = collapse false s.
Proof.
  induction n as [n IH] using lt_wf_ind. intros s p Hn.
  destruct s as [|c t]; [reflexivity|].
  cbn [replace_go collapse]. unfold re_non_alnum.
  change (fun c0 : N => negb (is_alnum_lower c0)) with outside.
  rewrite exec_plus_chr. cbn [run_length]. unfold outside at 1.
  destruct (is_alnum_lower c) eqn:E; simpl negb; cbv iota.
  - f_equal. apply (IH (length t)); [simpl in Hn; lia|reflexivity].
  - rewrite replace_go_skip.
    fold outside. fold re_non_alnum.
    rewrite (IH (length (drop (run_length outside t) t)));
      [|rewrite length_drop; simpl in Hn; lia|reflexivity].
    rewrite collapse_run. reflexivity.
Qed.

Lemma collapse_runs s :
  replace_all re_non_alnum (js "_") s = collapse false s.
Proof. apply (collapse_runs_aux (length s)). reflexivity. Qed.

Definition is_underscore (c : N) : bool := (ch "_" =? c)%N.

(** The end-of-input test after a run: it holds at the end only. *)
Definition at_end (st : mstate) : option mstate :=
  match rest st with [] => Some st | _ :: _ => None end.

Lemma try_down_eol st n :
  (n <= length (rest st))%nat ->
  try_down at_end st n
  = if (n =? length (rest st))%nat then Some (advance n st) else None.
Proof.
  induction n as [|n IH]; intros Hn.
  - simpl. rewrite advance_0. unfold at_end. destruct (rest st); reflexivity.
  - cbn [try_down]. unfold at_end at 1. unfold advance at 1. cbn [rest].
    destruct (drop (S n) (rest st)) as [|x l] eqn:Hd.
    + apply (f_equal (@length _)) in Hd. rewrite length_drop in Hd.
      simpl in Hd. replace (S n =? length (rest st))%nat with true
        by (symmetry; apply Nat.eqb_eq; lia).
      reflexivity.
    + apply (f_equal (@length _)) in Hd. rewrite length_drop in Hd.
      simpl in Hd. rewrite IH by lia.
      replace (S n =? length (rest st))%nat with false
        by (symmetry; apply Nat.eqb_neq; lia).
      replace (n =? length (rest st))%nat with false
        by (symmetry; apply Nat.eqb_neq; lia).
      reflexivity.
Qed.

(** The pattern for the underscores at the two ends: at the start of
    the input it takes the leading run; elsewhere it takes a run that
    reaches the end of the input. *)
Lemma exec_edge_underscores p s :
  exec re_edge_underscores p s
  = match run_length is_underscore s with
    | O => None
    | S n =>
        match p with
        | None => Some (S n, None)
        | Some _ =>
            if (S n =? length s)%nat then Some (S n, None) else None
        end
    end.
Proof.
  unfold exec, re_edge_underscores, Plus.
  change (Is "_") with (Chr is_underscore).
  rewrite rmatch_alt. rewrite (rmatch_cat Bol).
  rewrite (rmatch_cat (Cat _ _) Eol).
  destruct s as [|c t].
  - destruct p; reflexivity.
  - change (fun st1 => rmatch Eol st1 Some) with at_end.
    rewrite rmatch_plus_chr_cons.
    cbn [run_length length].
    assert (Hsecond :
      match (if is_underscore c
             then try_down at_end (MState (Some c) t None)
                    (run_length is_underscore t)
             else None) with
      | Some st => Some (consumed (c :: t) st, cap st)
      | None => None
      end
      = if is_underscore c
        then if (S (run_length is_underscore t) =? S (length t))%nat
             then Some (S (run_length is_underscore t), None)
             else None
        else None).
    { destruct (is_underscore c); [|reflexivity].
      rewrite try_down_eol by apply run_length_le. cbn [rest].
      change (S (run_length is_underscore t) =? S (length t))%nat
        with (run_length is_underscore t =? length t)%nat.
      destruct (Nat.eqb_spec (run_length is_underscore t) (length t));
        [|reflexivity].
      unfold consumed, advance. cbn [rest cap]. rewrite length_drop.
      do 2 f_equal. simpl. lia. }
    destruct p as [x|].
    + change (rmatch Bol (MState (Some x) (c :: t) None)
                (fun st1 => rmatch (Cat (Chr is_underscore)
                                      (Star (Chr is_underscore))) st1 Some))
        with (@None mstate).
      cbv iota. rewrite Hsecond. destruct (is_underscore c); reflexivity.
    + change (rmatch Bol (MState None (c :: t) None)
                (fun st1 => rmatch (Cat (Chr is_underscore)
                                      (Star (Chr is_underscore))) st1 Some))
        with (rmatch (Cat (Chr is_underscore) (Star (Chr is_underscore)))
                (MState None (c :: t) None) Some).
      rewrite rmatch_plus_chr_cons.
      destruct (is_underscore c) eqn:E; [|reflexivity].
      rewrite try_down_Some.
      unfold consumed, advance. cbn [rest cap]. rewrite length_drop.
      pose proof (run_length_le is_underscore t).
      do 2 f_equal. simpl. lia.
Qed.

(** The trailing underscores, dropped from the front of the list. *)
Fixpoint drop_trailing (s : jsstring) : jsstring :=
  match s with
  | [] => []
  | c :: t =>
      if (run_length is_underscore s =? length s)%nat then []
      else c :: drop_trailing t
  end.

Lemma is_underscore_eqb c : is_underscore c = (c =? underscore)%N.
Proof. unfold is_underscore, underscore. apply N.eqb_sym. Qed.

Lemma drop_underscores_all s :
  run_length is_underscore s = length s -> drop_underscores s = [].
Proof.
  induction s as [|c t IH]; [reflexivity|]. simpl.
  rewrite <- is_underscore_eqb.
  destruct (is_underscore c); [|discriminate]. intros H. apply IH. lia.
Qed.

Lemma drop_underscores_snoc s c :
  drop_underscores (s ++ [c])
  = if (run_length is_underscore (s ++ [c]) =? length (s ++ [c]))%nat
    then [] else drop_underscores s ++ [c].
Proof.
  induction s as [|x s IH]; simpl.
  - rewrite <- is_underscore_eqb. destruct (is_underscore c); reflexivity.
  - rewrite <- is_underscore_eqb. destruct (is_underscore x) eqn:E.
    + rewrite IH. simpl.
      destruct (run_length is_underscore (s ++ [c]) =? length (s ++ [c]))%nat;
        reflexivity.
    + simpl. reflexivity.
Qed.

Lemma run_length_rev_all s :
  (run_length is_underscore (rev s) =? length (rev s))%nat
  = (run_length is_underscore s =? length s)%nat.
Proof.
  assert (H : forall l, run_length is_underscore l = length l
                        <-> Forall (fun c => is_underscore c = true) l).
  { intros l. split; [|apply run_length_all].
    induction l as [|c t IH]; [constructor|]. simpl.
    destruct (is_underscore c) eqn:E; [|discriminate].
    intros Hl. constructor; [exact E|apply IH; lia]. }
  destruct (Nat.eqb_spec (run_length is_underscore s) (length s)) as [E|E].
  - apply Nat.eqb_eq, H, Forall_rev, H, E.
  - apply Nat.eqb_neq. intros E'. apply E, H.
    rewrite <- (rev_involutive s). apply Forall_rev, H, E'.
Qed.

Lemma drop_trailing_rev s :
  drop_trailing s = rev (drop_underscores (rev s)).
Proof.
  induction s as [|c t IH]; [reflexivity|].
  cbn [drop_trailing]. simpl rev. rewrite drop_underscores_snoc.
  rewrite <- (run_length_rev_all (c :: t)). simpl rev.
  destruct (run_length is_underscore (rev t ++ [c])
            =? length (rev t ++ [c]))%nat; [reflexivity|].
  rewrite rev_app_distr. simpl. rewrite IH. reflexivity.
Qed.

Lemma trim_edges_inner s :
  forall x, replace_go re_edge_underscores [] 0 (Some x) s
            = drop_trailing s.
Proof.
  induction s as [|c t IH]; intros x; [reflexivity|].
  cbn [replace_go drop_trailing]. rewrite exec_edge_underscores.
  cbn [run_length]. destruct (is_underscore c) eqn:E.
  - cbn [length].
    destruct (Nat.eqb_spec (S (run_length is_underscore t)) (S (length t)))
      as [El|El].
    + rewrite replace_go_skip. rewrite drop_ge by lia. reflexivity.
    + rewrite IH. reflexivity.
  - cbn [length]. rewrite IH.
    destruct (0 =? S (length t))%nat eqn:E0; [discriminate|reflexivity].
Qed.

Lemma drop_underscores_run s :
  drop_underscores s = drop (run_length is_underscore s) s.
Proof.
  induction s as [|c t IH]; [reflexivity|]. simpl.
  rewrite <- is_underscore_eqb. destruct (is_underscore c); [exact IH|reflexivity].
Qed.

Lemma drop_trailing_head c t :
  is_underscore c = false ->
  drop_trailing (c :: t) = c :: drop_trailing t.
Proof. intros E. cbn [drop_trailing run_length]. rewrite E. reflexivity. Qed.

Lemma trim_edges s :
  replace_all re_edge_underscores [] s = trim_underscores s.
Proof.
  unfold replace_all, trim_underscores. rewrite <- drop_trailing_rev.
  destruct s as [|c t]; [reflexivity|].
  cbn [replace_go]. rewrite exec_edge_underscores.
  rewrite (drop_underscores_run (c :: t)). cbn [run_length].
  destruct (is_underscore c) eqn:E.
  - rewrite replace_go_skip. cbn [app drop].
    destruct (prev_after_Some c (take (run_length is_underscore t) t))
      as [z ->].
    apply trim_edges_inner.
  - cbn [drop]. rewrite drop_trailing_head by exact E.
    rewrite trim_edges_inner. reflexivity.
Qed.

(** C8, as amended: [slugify] is the rule of the specification with
    the straight quotes as the quotes that are stripped: lower-casing,
    trimming, stripping the straight single and double quotes,
    collapsing every run of code units outside [a-z0-9] to one
    underscore, trimming the underscores at both ends, cutting to 80
    code units, and the literal book for an empty result. *)
Theorem slugify_rule (toLowerCase : jsstring -> jsstring) (s : jsstring) :
  slugify toLowerCase s = slug_rule is_straight_quote toLowerCase s.
Proof.
  unfold slugify, slug_rule.
  rewrite strip_quotes, collapse_runs, trim_edges.
  rewrite slice_nonneg by lia. reflexivity.
Qed.

(** C8, as stated, fails on a curly quote: the apostrophe U+2019 of
    the title is not stripped, it is collapsed to an underscore like
    any other code unit outside [a-z0-9]. *)
Lemma slugify_keeps_curly_quote :
  slugify toLowerCase_ascii (js "it" ++ [8217%N] ++ js "s") = js "it_s"
  /\ slug_rule (fun c => is_straight_quote c || is_curly_quote c)
       toLowerCase_ascii (js "it" ++ [8217%N] ++ js "s") = js "its".
Proof. split; reflexivity. Qed.

End Slug.

(** * What a match can read *)

Module MatchSpan.

(** Every class of the pattern lies within [P]. *)
Fixpoint classes_within (P : N -> bool) (r : regex) : Prop :=
  match r with
  | Chr q => forall c, q c = true -> P c = true
  | Eps | Bol | Eol | WordB => True
  | Cat r1 r2 | Alt r1 r2 => classes_within P r1 /\ classes_within P r2
  | Star r1 | LazyStar r1 | Group r1 => classes_within P r1
  end.

(** A matcher that reads only code units of [P] before it calls the
    continuation. *)
Definition reads_within (P : N -> bool) (m : matcher) : Prop :=
  forall st k res, m st k = Some res ->
    exists st', k st' = Some res
      /\ exists w, rest st = w ++ rest st'
           /\ Forall (fun c => P c = true) w.

Lemma star_loop_within P m :
  reads_within P m ->
  forall fuel, reads_within P (fun st k' => star_loop m k' fuel st).
Proof.
  intros Hm. induction fuel as [|fuel IH]; intros st k' res H.
  - simpl in H. exists st. split; [exact H|]. exists []. split; [reflexivity|constructor].
  - cbn [star_loop] in H.
    destruct (m st (fun st1 =>
                if (length (rest st1) <? length (rest st))%nat
                then star_loop m k' fuel st1 else None)) as [r1|] eqn:E.
    + injection H as ->. apply Hm in E.
      destruct E as (st1 & Hk & w & Hw & HP).
      destruct (length (rest st1) <? length (rest st))%nat; [|discriminate].
      apply IH in Hk. destruct Hk as (st2 & Hk2 & w2 & Hw2 & HP2).
      exists st2. split; [exact Hk2|]. exists (w ++ w2). split.
      * rewrite Hw, Hw2, app_assoc. reflexivity.
      * apply Forall_app. split; assumption.
    + exists st. split; [exact H|]. exists []. split; [reflexivity|constructor].
Qed.

Lemma lazy_loop_within P m :
  reads_within P m ->
  forall fuel, reads_within P (fun st k' => lazy_loop m k' fuel st).
Proof.
  intros Hm. induction fuel as [|fuel IH]; intros st k' res H.
  - simpl in H. destruct (k' st) eqn:E; [|discriminate].
    injection H as ->. exists st. split; [exact E|].
    exists []. split; [reflexivity|constructor].
  - cbn [lazy_loop] in H. destruct (k' st) eqn:E.
    + injection H as ->. exists st. split; [exact E|].
      exists []. split; [reflexivity|constructor].
    + apply Hm in H. destruct H as (st1 & Hk & w & Hw & HP).
      destruct (length (rest st1) <? length (rest st))%nat; [|discriminate].
      apply IH in Hk. destruct Hk as (st2 & Hk2 & w2 & Hw2 & HP2).
      exists st2. split; [exact Hk2|]. exists (w ++ w2). split.
      * rewrite Hw, Hw2, app_assoc. reflexivity.
      * apply Forall_app. split; assumption.
Qed.

Lemma rmatch_within P r : classes_within P r -> reads_within P (rmatch r).
Proof.
  induction r as [q| |r1 IH1 r2 IH2|r1 IH1 r2 IH2|r1 IH1|r1 IH1| | | |r1 IH1];
    intros Hc st k res H.
  - destruct st as [p s g]. destruct s as [|c t]; [discriminate|].
    rewrite rmatch_chr_cons in H. destruct (q c) eqn:E; [|discriminate].
    eexists. split; [exact H|]. exists [c]. split; [reflexivity|].
    constructor; [apply Hc, E|constructor].
  - exists st. split; [exact H|]. exists []. split; [reflexivity|constructor].
  - destruct Hc as [Hc1 Hc2]. rewrite rmatch_cat in H.
    apply (IH1 Hc1) in H. destruct H as (st1 & H1 & w1 & Hw1 & HP1).
    apply (IH2 Hc2) in H1. destruct H1 as (st2 & H2 & w2 & Hw2 & HP2).
    exists st2. split; [exact H2|]. exists (w1 ++ w2). split.
    + rewrite Hw1, Hw2, app_assoc. reflexivity.
    + apply Forall_app. split; assumption.
  - destruct Hc as [Hc1 Hc2]. rewrite rmatch_alt in H.
    destruct (rmatch r1 st k) eqn:E.
    + injection H as ->. apply (IH1 Hc1) in E. exact E.
    + apply (IH2 Hc2) in H. exact H.
  - apply (star_loop_within P _ (IH1 Hc) (length (rest st)) st k res H).
  - apply (lazy_loop_within P _ (IH1 Hc) (length (rest st)) st k res H).
  - cbn [rmatch] in H. destruct (prev st); [discriminate|].
    exists st. split; [exact H|]. exists []. split; [reflexivity|constructor].
  - cbn [rmatch] in H. destruct (rest st) eqn:E; [|discriminate].
    exists st. split; [exact H|]. exists []. rewrite E. split; [reflexivity|constructor].
  - cbn [rmatch] in H.
    destruct (xorb (opt_word (prev st)) (opt_word (head (rest st))));
      [|discriminate].
    exists st. split; [exact H|]. exists []. split; [reflexivity|constructor].
  - cbn [rmatch] in H. apply (IH1 Hc) in H.
    destruct H as (st1 & H1 & w & Hw & HP).
    eexists. split; [exact H1|]. exists w. split; [exact Hw|exact HP].
Qed.

(** A match reads a prefix of the input, made of code units of the
    classes of the pattern. *)
Lemma exec_within P r p s n g :
  classes_within P r -> exec r p s = Some (n, g) ->
  (n <= length s)%nat /\ Forall (fun c => P c = true) (take n s).
Proof.
  intros Hc H. unfold exec in H.
  destruct (rmatch r (MState p s None) Some) as [st|] eqn:E; [|discriminate].
  injection H as <- _. apply (rmatch_within P r Hc) in E.
  destruct E as (st' & Hk & w & Hw & HP). injection Hk as ->.
  cbn [rest] in Hw. unfold consumed. rewrite Hw.
  rewrite length_app. replace (length w + length (rest st) - length (rest st))%nat
    with (length w) by lia.
  split; [lia|]. rewrite take_app_length. exact HP.
Qed.

Lemma exec_length r p s n g : exec r p s = Some (n, g) -> (n <= length s)%nat.
Proof.
  intros H. unfold exec in H.
  destruct (rmatch r (MState p s None) Some) as [st|]; [|discriminate].
  injection H as <- _. unfold consumed. lia.
Qed.

(** The code units of a replaced string come from the string or from
    the replacement. *)
Lemma replace_go_elem r repl (P : N -> Prop) :
  Forall P repl ->
  forall s n p, Forall P s -> Forall P (replace_go r repl n p s).
Proof.
  intros Hr. induction s as [|c t IH]; intros n p Hs; [constructor|].
  inversion Hs as [|? ? Hc Ht]; subst. cbn [replace_go].
  destruct n as [|n]; [|apply IH, Ht].
  destruct (exec r p (c :: t)) as [[[|m] g]|].
  - constructor; [exact Hc|apply IH, Ht].
  - apply Forall_app. split; [exact Hr|apply IH, Ht].
  - constructor; [exact Hc|apply IH, Ht].
Qed.

(** A pattern that matches nowhere in the string leaves it as it
    is. *)
Lemma replace_go_none r repl s :
  (forall p pre suf, s = pre ++ suf -> exec r p suf = None) ->
  forall p, replace_go r repl 0 p s = s.
Proof.
  induction s as [|c t IH]; intros H p; [reflexivity|].
  cbn [replace_go]. rewrite (H p [] (c :: t) eq_refl).
  f_equal. apply IH. intros p' pre suf E.
  apply (H p' (c :: pre) suf). rewrite E. reflexivity.
Qed.

(** A literal of two code units or more matches only where its first
    code unit stands. *)
Lemma exec_lit_head c c' l p s :
  head s <> Some c -> exec (Lit (c :: c' :: l)) p s = None.
Proof.
  intros H. unfold exec. cbn [Lit]. rewrite rmatch_cat.
  destruct s as [|x t]; [reflexivity|]. rewrite rmatch_chr_cons.
  destruct (N.eqb_spec c x) as [->|_]; [|reflexivity].
  exfalso. apply H. reflexivity.
Qed.

Lemma replace_lit_absent c c' l repl s :
  Forall (fun x => x <> c) s ->
  replace_all (Lit (c :: c' :: l)) repl s = s.
Proof.
  intros Hs. apply replace_go_none. intros p pre suf E.
  apply exec_lit_head. subst s. apply Forall_app in Hs. destruct Hs as [_ Hs].
  destruct suf as [|x t]; [discriminate|]. inversion Hs; subst.
  simpl. congruence.
Qed.

End MatchSpan.
Import MatchSpan.

(** * Markup stripping *)

Module Markup.
Import SpineImporter.

Definition lt : N := ch "<".
Definition gt : N := ch ">".
Definition amp : N := ch "&".

(** Raw tag syntax inside a string: the less-than sign, a tag body of
    one or more code units other than the greater-than sign, and the
    greater-than sign. *)
Definition raw_tag (s : jsstring) : Prop :=
  exists pre body post,
    s = pre ++ lt :: body ++ gt :: post
    /\ body <> [] /\ Forall (fun c => c <> gt) body.

Definition is_gt (c : N) : bool := (gt =? c)%N.
Definition not_gt (c : N) : bool := negb (gt =? c)%N.

(** A tag starts at the head of the string. *)
Definition tag_here (s : jsstring) : bool :=
  match s with
  | c :: d :: t => (lt =? c)%N && not_gt d && existsb is_gt t
  | _ => false
  end.

Fixpoint has_tag (s : jsstring) : bool :=
  match s with
  | [] => false
  | _ :: t => tag_here s || has_tag t
  end.

Lemma existsb_gt_app body post :
  existsb is_gt (body ++ gt :: post) = true.
Proof.
  induction body as [|c b IH]; cbn [app existsb].
  - reflexivity.
  - rewrite IH. apply orb_true_r.
Qed.

Lemma has_tag_app pre s : has_tag s = true -> has_tag (pre ++ s) = true.
Proof.
  intros H. induction pre as [|c pre IH]; [exact H|].
  cbn [app has_tag]. rewrite IH. apply orb_true_r.
Qed.

(** [has_tag] decides [raw_tag]. *)
Lemma raw_tag_has_tag s : raw_tag s <-> has_tag s = true.
Proof.
  split.
  - intros (pre & body & post & -> & Hne & Hb). apply has_tag_app.
    destruct body as [|d b]; [contradiction|]. inversion Hb; subst.
    cbn [has_tag app tag_here]. unfold lt at 1. rewrite N.eqb_refl.
    unfold not_gt. destruct (N.eqb_spec gt d) as [E|_]; [congruence|].
    rewrite existsb_gt_app. reflexivity.
  - induction s as [|c t IH]; [discriminate|]. cbn [has_tag].
    intros H. apply orb_true_iff in H. destruct H as [H|H].
    + destruct t as [|d t']; [discriminate|]. cbn [tag_here] in H.
      apply andb_true_iff in H. destruct H as [H Hex].
      apply andb_true_iff in H. destruct H as [Hc Hd].
      apply N.eqb_eq in Hc. subst c.
      assert (Hrun : exists body post,
                 d :: t' = body ++ gt :: post /\ body <> []
                 /\ Forall (fun c => c <> gt) body).
      { unfold not_gt in Hd. apply negb_true_iff, N.eqb_neq in Hd.
        clear IH. revert d Hd. induction t' as [|e t'' IHt]; intros d Hd;
          [discriminate|].
        cbn [existsb] in Hex. unfold is_gt at 1 in Hex.
        destruct (N.eqb_spec gt e) as [<-|Hne].
        - exists [d], t''. repeat split; [discriminate|].
          constructor; [congruence|constructor].
        - simpl in Hex. destruct (IHt Hex e) as (body & post & E & _ & Hb);
            [congruence|].
          exists (d :: body), post. rewrite E. repeat split; [discriminate|].
          constructor; [congruence|exact Hb]. }
      destruct Hrun as (body & post & E & Hne & Hb).
      exists [], body, post. rewrite E. repeat split; assumption.
    + destruct (IH H) as (pre & body & post & -> & Hne & Hb).
      exists (c :: pre), body, post. repeat split; assumption.
Qed.

(** The pattern of a tag read at the head of the string. *)

Lemma run_stops_at_gt t :
  existsb is_gt t = true ->
  exists post, drop (run_length not_gt t) t = gt :: post.
Proof.
  induction t as [|c t IH]; [discriminate|]. cbn [existsb run_length].
  destruct (N.eqb_spec gt c) as [<-|Hne].
  - intros _. exists t. unfold not_gt. rewrite N.eqb_refl. reflexivity.
  - unfold is_gt at 1, not_gt at 1.
    destruct (N.eqb_spec gt c) as [|_]; [contradiction|]. exact IH.
Qed.

Lemma exec_tag_here p s : tag_here s = true -> exec re_tag p s <> None.
Proof.
  destruct s as [|c [|d t]]; try discriminate. cbn [tag_here].
  intros H. apply andb_true_iff in H. destruct H as [H Hex].
  apply andb_true_iff in H. destruct H as [Hc Hd].
  unfold exec, re_tag, Plus, Is, Not.
  change (fun x : N => negb (ch ">" =? x)%N) with not_gt.
  rewrite rmatch_cat, rmatch_chr_cons. fold lt. rewrite Hc.
  rewrite rmatch_cat, rmatch_plus_chr_cons, Hd.
  destruct (run_stops_at_gt t Hex) as [post Hpost].
  erewrite try_down_top; [discriminate|].
  unfold advance. cbn [rest cap prev]. rewrite Hpost.
  rewrite rmatch_chr_cons. fold gt. rewrite N.eqb_refl. reflexivity.
Qed.

Lemma exec_tag_head p s : head s <> Some lt -> exec re_tag p s = None.
Proof.
  intros H. unfold exec, re_tag, Is. rewrite rmatch_cat.
  destruct s as [|c t]; [reflexivity|]. rewrite rmatch_chr_cons.
  fold lt. destruct (N.eqb_spec lt c) as [<-|_]; [|reflexivity].
  exfalso. apply H. reflexivity.
Qed.

Lemma tag_here_no_gt c s :
  Forall (fun x => x <> gt) s -> tag_here (c :: s) = false.
Proof.
  intros Hs. destruct s as [|d t]; [reflexivity|]. cbn [tag_here].
  inversion Hs as [|? ? _ Ht]; subst.
  assert (E : existsb is_gt t = false).
  { clear Hs. induction Ht as [|x t Hx _ IH]; [reflexivity|]. simpl.
    unfold is_gt at 1. destruct (N.eqb_spec gt x); [congruence|exact IH]. }
  rewrite E. apply andb_false_r.
Qed.

Lemma existsb_gt_false t :
  existsb is_gt t = false -> Forall (fun x => x <> gt) t.
Proof.
  induction t as [|x t IH]; [constructor|]. simpl.
  unfold is_gt at 1. destruct (N.eqb_spec gt x) as [|Hne]; [discriminate|].
  intros H. constructor; [congruence|apply IH, H].
Qed.

Lemma exec_tag_pos p s n g : exec re_tag p s = Some (n, g) -> (1 <= n)%nat.
Proof.
  unfold exec, re_tag, Is. rewrite rmatch_cat. intros H.
  destruct s as [|c t]; [discriminate|]. rewrite rmatch_chr_cons in H.
  destruct (ch "<" =? c)%N; [|discriminate].
  match type of H with
  | match ?m with _ => _ end = _ => destruct m as [st|] eqn:Er
  end; [|discriminate].
  injection H as <- _.
  apply (rmatch_within (fun _ => true)) in Er; [|repeat split].
  destruct Er as (st' & Hk & w & Hw & _). injection Hk as ->.
  cbn [rest] in Hw. unfold consumed. subst t. cbn [length].
  rewrite length_app. lia.
Qed.

(** The stage that removes the remaining tags leaves no tag. *)
Lemma replace_tag_free n :
  forall s p, length s = n ->
    has_tag (replace_go re_tag (js " ") 0 p s) = false.
Proof.
  induction n as [n IH] using lt_wf_ind. intros s p Hn.
  destruct s as [|c t]; [reflexivity|]. cbn [replace_go].
  destruct (exec re_tag p (c :: t)) as [[m g]|] eqn:E.
  - pose proof (exec_tag_pos _ _ _ _ E) as Hm.
    destruct m as [|m]; [lia|]. clear Hm.
    rewrite replace_go_skip.
    change (js " " ++ ?x) with (32%N :: x). cbn [has_tag tag_here].
    change (lt =? 32)%N with false. cbn [andb orb].
    assert (Hrest : has_tag
              (replace_go re_tag (js " ") 0
                 (prev_after (Some c) (take m t)) (drop m t)) = false).
    { apply (IH (length (drop m t))); [|reflexivity].
      rewrite length_drop. simpl in Hn. lia. }
    destruct (replace_go re_tag (js " ") 0
                (prev_after (Some c) (take m t)) (drop m t)) as [|x l];
      [reflexivity|].
    exact Hrest.
  - assert (Hrest : has_tag (replace_go re_tag (js " ") 0 (Some c) t) = false)
      by (apply (IH (length t)); [simpl in Hn; lia|reflexivity]).
    cbn [has_tag]. rewrite Hrest, orb_false_r.
    destruct (tag_here (c :: t)) eqn:Ht.
    { exfalso. apply (exec_tag_here p) in Ht. contradiction. }
    destruct (N.eqb_spec lt c) as [<-|Hc].
    + destruct t as [|d t']; [reflexivity|].
      cbn [tag_here] in Ht. rewrite N.eqb_refl in Ht. cbn [andb] in Ht.
      apply andb_false_iff in Ht. destruct Ht as [Hd|Hex].
      * unfold not_gt in Hd. apply negb_false_iff, N.eqb_eq in Hd. subst d.
        cbn [replace_go]. rewrite exec_tag_head by discriminate.
        cbn [tag_here]. unfold not_gt. rewrite N.eqb_refl.
        rewrite andb_false_r. reflexivity.
      * destruct (not_gt d) eqn:Hd.
        -- apply tag_here_no_gt.
           apply replace_go_elem; [repeat constructor; discriminate|].
           constructor; [|apply existsb_gt_false, Hex].
           unfold not_gt in Hd. apply negb_true_iff, N.eqb_neq in Hd.
           congruence.
        -- unfold not_gt in Hd. apply negb_false_iff, N.eqb_eq in Hd. subst d.
           cbn [replace_go]. rewrite exec_tag_head by discriminate.
           cbn [tag_here]. unfold not_gt. rewrite N.eqb_refl.
           rewrite andb_false_r. reflexivity.
    + destruct (replace_go re_tag (js " ") 0 (Some c) t) as [|d l];
        [reflexivity|].
      cbn [tag_here]. apply N.eqb_neq in Hc. rewrite Hc. reflexivity.
Qed.

Lemma strip_tags_has_no_tag html : has_tag (strip_tags html) = false.
Proof.
  unfold strip_tags, replace_all at 1.
  eapply replace_tag_free. reflexivity.
Qed.

(** *** White-space rewriting *)

Definition all_space (w : jsstring) : Prop :=
  Forall (fun c => is_space c = true) w.

(** [ws_rewrite s s']: [s'] is [s] with some blocks of white space
    replaced by white space (or by nothing). *)
Inductive ws_rewrite : jsstring -> jsstring -> Prop :=
| wr_nil : ws_rewrite [] []
| wr_keep c s s' : ws_rewrite s s' -> ws_rewrite (c :: s) (c :: s')
| wr_block w w' s s' :
    w <> [] -> all_space w -> all_space w' -> ws_rewrite s s' ->
    ws_rewrite (w ++ s) (w' ++ s').

Lemma ws_rewrite_refl s : ws_rewrite s s.
Proof. induction s; constructor; assumption. Qed.

Lemma ws_rewrite_elem (P : N -> Prop) s s' :
  (forall c, is_space c = true -> P c) ->
  ws_rewrite s s' -> Forall P s -> Forall P s'.
Proof.
  intros HP. induction 1 as [|c s s' _ IH|w w' s s' _ _ Hw' _ IH]; intros Hs.
  - constructor.
  - inversion Hs; subst. constructor; [assumption|apply IH; assumption].
  - apply Forall_app in Hs. destruct Hs as [_ Hs]. apply Forall_app. split.
    + eapply Forall_impl; [exact Hw'|]. exact HP.
    + apply IH, Hs.
Qed.

Lemma ws_rewrite_nil s' : ws_rewrite [] s' -> s' = [].
Proof.
  intros H. remember [] as s eqn:Es.
  destruct H as [|c s s' _|w w' s s' Hne _ _ _]; [reflexivity|discriminate|].
  destruct w; [contradiction|discriminate].
Qed.

Lemma ws_rewrite_head c s s' :
  is_space c = false -> ws_rewrite (c :: s) s' ->
  exists s0', s' = c :: s0'.
Proof.
  intros Hc H. remember (c :: s) as s1 eqn:Es.
  destruct H as [|c0 s0 s0' _|w w' s0 s0' Hne Hw _ _]; [discriminate| |].
  - injection Es as -> _. eexists. reflexivity.
  - destruct w as [|x w0]; [contradiction|]. injection Es as -> _.
    inversion Hw; subst. congruence.
Qed.

Lemma has_tag_suffix pre s : has_tag (pre ++ s) = false -> has_tag s = false.
Proof.
  intros H. destruct (has_tag s) eqn:E; [|reflexivity].
  rewrite (has_tag_app pre s E) in H. discriminate.
Qed.

Lemma has_tag_space_prefix w s :
  all_space w -> has_tag s = false -> has_tag (w ++ s) = false.
Proof.
  intros Hw Hs. induction Hw as [|x w Hx _ IH]; [exact Hs|].
  cbn [app has_tag]. rewrite IH, orb_false_r.
  destruct (w ++ s) as [|d t]; [reflexivity|]. cbn [tag_here].
  destruct (N.eqb_spec lt x) as [<-|_]; [discriminate|reflexivity].
Qed.

(** Rewriting white space brings in no tag. *)
Lemma ws_rewrite_no_tag s s' :
  ws_rewrite s s' -> has_tag s = false -> has_tag s' = false.
Proof.
  induction 1 as [|c s s' Hr IH|w w' s s' _ _ Hw' _ IH]; intros Hs.
  - reflexivity.
  - cbn [has_tag] in *. apply orb_false_iff in Hs. destruct Hs as [Hh Ht].
    rewrite (IH Ht), orb_false_r.
    destruct (N.eqb_spec lt c) as [<-|Hc].
    + destruct s as [|d t].
      * apply ws_rewrite_nil in Hr. subst s'. reflexivity.
      * cbn [tag_here] in Hh. rewrite N.eqb_refl in Hh. cbn [andb] in Hh.
        destruct (not_gt d) eqn:Hd.
        -- cbn [andb] in Hh. apply tag_here_no_gt.
           eapply ws_rewrite_elem; [|exact Hr|].
           ++ intros x Hx ->. discriminate.
           ++ constructor; [|apply existsb_gt_false, Hh].
              unfold not_gt in Hd. apply negb_true_iff, N.eqb_neq in Hd.
              congruence.
        -- unfold not_gt in Hd. apply negb_false_iff, N.eqb_eq in Hd. subst d.
           destruct (ws_rewrite_head gt t s' eq_refl Hr) as [s0' ->].
           destruct s0'; reflexivity.
    + destruct s' as [|d t']; [reflexivity|]. cbn [tag_here].
      apply N.eqb_neq in Hc. rewrite Hc. reflexivity.
  - apply has_tag_space_prefix; [exact Hw'|].
    apply IH. eapply has_tag_suffix. exact Hs.
Qed.

(** A replacement of white space by white space is such a
    rewriting. *)
Lemma replace_ws_rewrite r repl :
  classes_within is_space r -> all_space repl ->
  forall n s p, length s = n ->
    ws_rewrite s (replace_go r repl 0 p s).
Proof.
  intros Hr Hrepl. induction n as [n IH] using lt_wf_ind. intros s p Hn.
  destruct s as [|c t]; [constructor|]. cbn [replace_go].
  destruct (exec r p (c :: t)) as [[[|m] g]|] eqn:E.
  - constructor. apply (IH (length t)); [simpl in Hn; lia|reflexivity].
  - rewrite replace_go_skip.
    destruct (exec_within is_space r p (c :: t) (S m) g Hr E) as [Hlen Hws].
    rewrite <- (take_drop (S m) (c :: t)) at 1.
    change (drop (S m) (c :: t)) with (drop m t).
    apply wr_block; [discriminate|exact Hws|exact Hrepl|].
    apply (IH (length (drop m t))); [|reflexivity].
    rewrite length_drop. simpl in Hn. lia.
  - constructor. apply (IH (length t)); [simpl in Hn; lia|reflexivity].
Qed.

Lemma replace_all_no_tag r repl s :
  classes_within is_space r -> all_space repl ->
  has_tag s = false -> has_tag (replace_all r repl s) = false.
Proof.
  intros Hr Hrepl. apply ws_rewrite_no_tag.
  apply (replace_ws_rewrite r repl Hr Hrepl (length s)). reflexivity.
Qed.

Lemma trim_start_rewrite s : ws_rewrite s (trim_start s).
Proof.
  induction s as [|c t IH]; [constructor|]. cbn [trim_start].
  destruct (is_space c) eqn:E; [|apply ws_rewrite_refl].
  apply (wr_block [c] [] t (trim_start t)); [discriminate| |constructor|exact IH].
  constructor; [exact E|constructor].
Qed.

Lemma trim_start_split s :
  exists w, all_space w /\ s = w ++ trim_start s.
Proof.
  induction s as [|c t (w & Hw & E)]; [exists []; split; [constructor|reflexivity]|].
  cbn [trim_start]. destruct (is_space c) eqn:Ec.
  - exists (c :: w). split; [constructor; assumption|].
    simpl. rewrite <- E. reflexivity.
  - exists []. split; [constructor|reflexivity].
Qed.

Lemma drop_tail_rewrite a w : all_space w -> ws_rewrite (a ++ w) a.
Proof.
  intros Hw. induction a as [|c a IH]; [|constructor; exact IH].
  destruct w as [|x w0]; [constructor|].
  rewrite <- (app_nil_r (x :: w0)). simpl app at 2.
  apply (wr_block (x :: w0) [] [] []); [discriminate|exact Hw|constructor|constructor].
Qed.

Lemma trim_end_rewrite s : ws_rewrite s (trim_end s).
Proof.
  unfold trim_end. destruct (trim_start_split (rev s)) as (w & Hw & E).
  apply (f_equal (@rev N)) in E. rewrite rev_involutive, rev_app_distr in E.
  rewrite E at 1. apply drop_tail_rewrite. apply Forall_rev. exact Hw.
Qed.

Lemma trim_no_tag s : has_tag s = false -> has_tag (trim s) = false.
Proof.
  intros H. unfold trim.
  eapply ws_rewrite_no_tag; [apply trim_end_rewrite|].
  eapply ws_rewrite_no_tag; [apply trim_start_rewrite|exact H].
Qed.

Lemma newline_space c : (newline =? c)%N = true -> is_space c = true.
Proof. intros Hc. apply N.eqb_eq in Hc. subst c. reflexivity. Qed.

Lemma space_re_ws_nl : classes_within is_space re_ws_nl.
Proof. cbn. repeat split; trivial; exact newline_space. Qed.

Lemma space_re_nl_ws : classes_within is_space re_nl_ws.
Proof. cbn. repeat split; trivial; exact newline_space. Qed.

Lemma space_re_blanks : classes_within is_space re_blanks.
Proof.
  cbn. assert (H : forall c, (c =? 32)%N || (c =? 9)%N = true
                             -> is_space c = true).
  { intros c Hc. apply orb_true_iff in Hc.
    destruct Hc as [Hc|Hc]; apply N.eqb_eq in Hc; subst c; reflexivity. }
  split; exact H.
Qed.

Lemma space_re_nl3 : classes_within is_space re_nl3.
Proof. cbn. repeat split; exact newline_space. Qed.

(** The white-space stages bring in no tag. *)
Lemma squeeze_no_tag s : has_tag s = false -> has_tag (squeeze s) = false.
Proof.
  intros H. unfold squeeze. apply trim_no_tag.
  apply replace_all_no_tag; [exact space_re_nl3|repeat constructor|].
  apply replace_all_no_tag; [exact space_re_blanks|repeat constructor|].
  apply replace_all_no_tag; [exact space_re_nl_ws|repeat constructor|].
  apply replace_all_no_tag; [exact space_re_ws_nl|repeat constructor|].
  exact H.
Qed.

Definition free_of_amp (s : jsstring) : Prop := Forall (fun c => c <> amp) s.

Lemma strip_tags_free_of_amp html :
  free_of_amp html -> free_of_amp (strip_tags html).
Proof.
  intros H. unfold strip_tags, replace_all.
  repeat (apply replace_go_elem; [repeat constructor; discriminate|]).
  exact H.
Qed.

(** With no ampersand there is no entity to decode. *)
Lemma decode_entities_id s : free_of_amp s -> decode_entities s = s.
Proof.
  intros H. unfold decode_entities.
  change (js "&nbsp;") with (amp :: js "nbsp;").
  change (js "&amp;") with (amp :: js "amp;").
  change (js "&lt;") with (amp :: js "lt;").
  change (js "&gt;") with (amp :: js "gt;").
  change (js "&quot;") with (amp :: js "quot;").
  change (js "&#39;") with (amp :: js "#39;").
  rewrite (replace_lit_absent amp 110 (js "bsp;")) by exact H.
  rewrite (replace_lit_absent amp 97 (js "mp;")) by exact H.
  rewrite (replace_lit_absent amp 108 (js "t;")) by exact H.
  rewrite (replace_lit_absent amp 103 (js "t;")) by exact H.
  rewrite (replace_lit_absent amp 113 (js "uot;")) by exact H.
  rewrite (replace_lit_absent amp 35 (js "39;")) by exact H.
  reflexivity.
Qed.

(** C7, as stated, fails: the entities of the two angle signs are
    decoded after the tags are stripped, and the output is a tag. *)
Lemma stripHtml_decodes_a_tag :
  stripHtml (js "&lt;b&gt;") = js "<b>" /\ raw_tag (js "<b>").
Proof.
  split; [reflexivity|].
  exists [], (js "b"), []. split; [reflexivity|].
  split; [discriminate|]. repeat constructor. discriminate.
Qed.

(** The revision of src/index.ts decodes no entity: its output holds no
    raw tag syntax, for every input. *)
Lemma stripHtml_without_entities_no_raw_tag html :
  ~ raw_tag (Importer.stripHtml html).
Proof.
  rewrite raw_tag_has_tag. unfold Importer.stripHtml.
  rewrite trim_no_tag; [discriminate|].
  apply replace_all_no_tag; [|repeat constructor|apply strip_tags_has_no_tag].
  cbn. split; trivial.
Qed.

End Markup.

(** * Text-document extensions *)

Module TextDocs.
Import SpineImporter.

(** A pattern word matched at the head of the input, without regard to
    the case of ASCII letters. *)
Fixpoint ci_match (w s : jsstring) : bool :=
  match w, s with
  | [], _ => true
  | p :: w', c :: s' => eq_ci p c && ci_match w' s'
  | _ :: _, [] => false
  end.

Lemma rmatch_LitI w :
  forall st k,
    rmatch (LitI w) st k
    = if ci_match w (rest st) then k (advance (length w) st) else None.
Proof.
  induction w as [|c w IH]; intros [p s g] k.
  - cbn [LitI rmatch ci_match length]. rewrite advance_0. reflexivity.
  - destruct w as [|c' w'].
    + cbn [LitI]. destruct s as [|x t]; [reflexivity|].
      rewrite rmatch_chr_cons. cbn [rest ci_match length].
      rewrite andb_true_r, advance_cons, advance_0. reflexivity.
    + change (LitI (c :: c' :: w'))
        with (Cat (Chr (eq_ci c)) (LitI (c' :: w'))).
      rewrite rmatch_cat. destruct s as [|x t]; [reflexivity|].
      rewrite rmatch_chr_cons. cbn [rest].
      change (ci_match (c :: c' :: w') (x :: t))
        with (eq_ci c x && ci_match (c' :: w') t).
      destruct (eq_ci c x); [|reflexivity].
      rewrite IH. cbn [rest]. cbn [andb].
      destruct (ci_match (c' :: w') t); [|reflexivity].
      change (length (c :: c' :: w')) with (S (length (c' :: w'))).
      rewrite advance_cons. reflexivity.
Qed.

(** The whole of [s] is the word [w], without regard to case. *)
Definition ci_equal (w s : jsstring) : bool :=
  ci_match w s && (length s =? length w)%nat.

(** An extension stands at the head of [s] and ends it. *)
Definition ext_here (s : jsstring) : bool :=
  match s with
  | c :: t =>
      (ch "." =? c)%N
      && (ci_equal (js "xhtml") t || ci_equal (js "html") t
          || ci_equal (js "htm") t)
  | [] => false
  end.

Lemma ci_match_length w s : ci_match w s = true -> (length w <= length s)%nat.
Proof.
  revert s. induction w as [|p w IH]; intros s H; [simpl; lia|].
  destruct s as [|c s']; [discriminate|]. cbn [ci_match] in H.
  apply andb_true_iff in H. destruct H as [_ H]. apply IH in H. simpl. lia.
Qed.

(** The continuation of the group: end of input. *)
Lemma ext_word_end w st g0 :
  rmatch (LitI w) st
    (fun st1 =>
       rmatch Eol (MState (prev st1) (rest st1) (Some (g0 st1))) Some)
  <> None
  <-> ci_equal w (rest st) = true.
Proof.
  rewrite rmatch_LitI. unfold ci_equal.
  destruct (ci_match w (rest st)) eqn:E; [|split; [congruence|discriminate]].
  apply ci_match_length in E. cbn [rmatch rest advance andb].
  destruct (drop (length w) (rest st)) as [|x l] eqn:Hd.
  - apply (f_equal (@length _)) in Hd. rewrite length_drop in Hd. simpl in Hd.
    split; [intros _; apply Nat.eqb_eq; lia|discriminate].
  - apply (f_equal (@length _)) in Hd. rewrite length_drop in Hd. simpl in Hd.
    split; [congruence|]. intros H. apply Nat.eqb_eq in H. lia.
Qed.

Lemma exec_text_ext p s :
  exec re_text_ext p s <> None <-> ext_here s = true.
Proof.
  unfold exec, re_text_ext, Is. rewrite rmatch_cat.
  destruct s as [|c t];
    [split; [intros H; exfalso; apply H; reflexivity|discriminate]|].
  rewrite rmatch_chr_cons. cbn [ext_here].
  destruct (ch "." =? c)%N;
    [|split; [intros H; exfalso; apply H; reflexivity|discriminate]].
  cbn [andb]. rewrite rmatch_cat.
  change (rmatch (Group (Alts [LitI (js "xhtml"); LitI (js "html");
                               LitI (js "htm")]))
            (MState (Some c) t None) (fun st1 => rmatch Eol st1 Some))
    with (match rmatch (LitI (js "xhtml")) (MState (Some c) t None)
                 (fun st1 => rmatch Eol
                    (MState (prev st1) (rest st1)
                       (Some (take (consumed t st1) t))) Some) with
          | Some res => Some res
          | None =>
              match rmatch (LitI (js "html")) (MState (Some c) t None)
                      (fun st1 => rmatch Eol
                         (MState (prev st1) (rest st1)
                            (Some (take (consumed t st1) t))) Some) with
              | Some res => Some res
              | None =>
                  rmatch (LitI (js "htm")) (MState (Some c) t None)
                    (fun st1 => rmatch Eol
                       (MState (prev st1) (rest st1)
                          (Some (take (consumed t st1) t))) Some)
              end
          end).
  pose proof (ext_word_end (js "xhtml") (MState (Some c) t None)
                (fun st1 => take (consumed t st1) t)) as H1.
  pose proof (ext_word_end (js "html") (MState (Some c) t None)
                (fun st1 => take (consumed t st1) t)) as H2.
  pose proof (ext_word_end (js "htm") (MState (Some c) t None)
                (fun st1 => take (consumed t st1) t)) as H3.
  cbn [rest] in H1, H2, H3.
  destruct (rmatch (LitI (js "xhtml")) _ _) as [r1|].
  { assert (E : ci_equal (js "xhtml") t = true) by (apply H1; discriminate).
    rewrite E. split; [reflexivity|discriminate]. }
  assert (E1 : ci_equal (js "xhtml") t = false).
  { destruct (ci_equal (js "xhtml") t); [|reflexivity].
    exfalso. apply H1; reflexivity. }
  rewrite E1. cbn [orb].
  destruct (rmatch (LitI (js "html")) _ _) as [r2|].
  { assert (E : ci_equal (js "html") t = true) by (apply H2; discriminate).
    rewrite E. split; [reflexivity|discriminate]. }
  assert (E2 : ci_equal (js "html") t = false).
  { destruct (ci_equal (js "html") t); [|reflexivity].
    exfalso. apply H2; reflexivity. }
  rewrite E2. cbn [orb].
  destruct (rmatch (LitI (js "htm")) _ _) as [r3|].
  { assert (E : ci_equal (js "htm") t = true) by (apply H3; discriminate).
    rewrite E. split; [reflexivity|discriminate]. }
  assert (E3 : ci_equal (js "htm") t = false).
  { destruct (ci_equal (js "htm") t); [|reflexivity].
    exfalso. apply H3; reflexivity. }
  rewrite E3. split; [congruence|discriminate].
Qed.

(** A test finds a match at some suffix of the string. *)
Lemma search_go_Some r s :
  forall p, search_go r p s <> None
            <-> exists pre suf p', s = pre ++ suf /\ exec r p' suf <> None
                                   /\ p' = prev_after p pre.
Proof.
  induction s as [|c t IH]; intros p.
  - cbn [search_go]. split.
    + intros H. exists [], [], p. repeat split.
      destruct (exec r p []) as [[n g]|]; [discriminate|]. congruence.
    + intros (pre & suf & p' & E & Hx & ->).
      destruct pre; [|discriminate]. destruct suf; [|discriminate].
      change (prev_after p []) with p in Hx.
      destruct (exec r p []) as [[n g]|]; [discriminate|].
      congruence.
  - cbn [search_go]. split.
    + intros H. destruct (exec r p (c :: t)) as [[n g]|] eqn:E.
      * exists [], (c :: t), p. repeat split. rewrite E. discriminate.
      * apply IH in H. destruct H as (pre & suf & p' & -> & Hx & ->).
        exists (c :: pre), suf, (prev_after (Some c) pre).
        repeat split; [exact Hx|]. rewrite prev_after_cons. reflexivity.
    + intros (pre & suf & p' & E & Hx & ->).
      destruct (exec r p (c :: t)) as [[n g]|] eqn:Ex; [discriminate|].
      apply IH. destruct pre as [|x pre].
      * simpl in E. subst suf. change (prev_after p []) with p in Hx.
        congruence.
      * injection E as Ec Et. subst x t.
        exists pre, suf, (prev_after (Some c) pre).
        repeat split. rewrite prev_after_cons in Hx. exact Hx.
Qed.

Definition fold_case (c : N) : N := if is_upper c then (c + 32)%N else c.

Lemma toLowerCase_ascii_map s : toLowerCase_ascii s = List.map fold_case s.
Proof. reflexivity. Qed.

Lemma eq_ci_fold p c : is_lower p = true -> eq_ci p c = true <-> fold_case c = p.
Proof.
  intros Hp. unfold eq_ci, fold_case. rewrite Hp. unfold is_lower, is_upper in *.
  apply andb_true_iff in Hp. destruct Hp as [H1 H2].
  apply N.leb_le in H1, H2. rewrite orb_true_iff, !N.eqb_eq.
  destruct ((65 <=? c)%N && (c <=? 90)%N) eqn:E.
  - apply andb_true_iff in E. destruct E as [E1 E2].
    apply N.leb_le in E1, E2. lia.
  - apply andb_false_iff in E. rewrite !N.leb_gt in E. lia.
Qed.

Lemma eq_ci_exact p c :
  is_lower p = false -> is_upper p = false ->
  eq_ci p c = true <-> c = p.
Proof.
  intros H1 H2. unfold eq_ci. rewrite H1, H2. apply N.eqb_eq.
Qed.

Lemma ci_equal_fold w s :
  Forall (fun p => is_lower p = true) w ->
  ci_equal w s = true <-> toLowerCase_ascii s = w.
Proof.
  intros Hw. unfold ci_equal. rewrite toLowerCase_ascii_map.
  revert s. induction Hw as [|p w Hp _ IH]; intros s.
  - destruct s; simpl; split; congruence.
  - destruct s as [|c s']; [simpl; split; [discriminate|congruence]|].
    cbn [ci_match List.map length]. specialize (IH s').
    change (S (length s') =? S (length w))%nat
      with (length s' =? length w)%nat.
    rewrite <- andb_assoc, andb_true_iff, IH, (eq_ci_fold p c Hp).
    split; [intros [-> ->]; reflexivity|].
    intros H. injection H as -> ->. split; reflexivity.
Qed.

(** The extensions of text documents, as the specification names them:
    the path ends in .xhtml, .html or .htm, in any case of the
    letters. *)
Definition text_extension (p : jsstring) : Prop :=
  exists stem ext,
    p = stem ++ ext
    /\ (toLowerCase_ascii ext = js ".xhtml"
        \/ toLowerCase_ascii ext = js ".html"
        \/ toLowerCase_ascii ext = js ".htm").

Lemma ext_here_fold ext :
  ext_here ext = true
  <-> (toLowerCase_ascii ext = js ".xhtml"
       \/ toLowerCase_ascii ext = js ".html"
       \/ toLowerCase_ascii ext = js ".htm").
Proof.
  destruct ext as [|c t].
  - simpl. split; [discriminate|]. intros [H|[H|H]]; discriminate.
  - cbn [ext_here]. rewrite andb_true_iff, !orb_true_iff.
    rewrite !ci_equal_fold by (repeat constructor).
    change (toLowerCase_ascii (c :: t))
      with (fold_case c :: toLowerCase_ascii t).
    rewrite N.eqb_eq.
    assert (Hdot : ch "." = c <-> fold_case c = ch ".").
    { unfold fold_case, is_upper.
      destruct ((65 <=? c)%N && (c <=? 90)%N) eqn:E.
      - apply andb_true_iff in E. destruct E as [E1 E2].
        apply N.leb_le in E1, E2.
        change (ch ".") with 46%N. lia.
      - split; congruence. }
    assert (E1 : js ".xhtml" = ch "." :: js "xhtml") by reflexivity.
    assert (E2 : js ".html" = ch "." :: js "html") by reflexivity.
    assert (E3 : js ".htm" = ch "." :: js "htm") by reflexivity.
    rewrite E1, E2, E3. clear E1 E2 E3.
    split.
    + intros [Hc [[H|H]|H]]; apply Hdot in Hc; rewrite Hc, H; auto.
    + intros [H|[H|H]]; injection H as Hc H; apply Hdot in Hc;
        (split; [exact Hc|]); auto.
Qed.

(** The test of the program is the test of the specification. *)
Lemma is_text_doc_spec p : is_text_doc p = true <-> text_extension p.
Proof.
  unfold is_text_doc, test, search.
  assert (H : search_go re_text_ext None p <> None <-> text_extension p).
  { rewrite search_go_Some. unfold text_extension. split.
    - intros (pre & suf & p' & -> & Hx & _). apply exec_text_ext in Hx.
      exists pre, suf. split; [reflexivity|]. apply ext_here_fold, Hx.
    - intros (stem & ext & -> & Hext). apply ext_here_fold in Hext.
      exists stem, ext, (prev_after None stem). repeat split.
      apply exec_text_ext, Hext. }
  destruct (search_go re_text_ext None p) as [x|].
  - split; [intros _; apply H; discriminate|reflexivity].
  - split; [discriminate|]. intros Ht. apply H in Ht. congruence.
Qed.

End TextDocs.

(** * Container, spine and fallback *)

Module ReadingOrder.
Import SpineImporter TextDocs.

(** The order of the code units, one by one (for ASCII paths the order
    of their bytes). *)
Definition codeunit_compare (a b : list N) : Z :=
  match trichotomyT lexico a b with
  | inleft (left _) => -1
  | inleft (right _) => 0
  | inright _ => 1
  end.

Definition codeunit_le (a b : list N) : Prop := a = b \/ lexico a b.

(** A comparator that orders ASCII letters as a locale comparison
    does: alphabetically whatever their case, and for the same letters
    the lower case first. *)
Definition collate (a b : list N) : Z :=
  match trichotomyT lexico (toLowerCase_ascii a : list N)
          (toLowerCase_ascii b) with
  | inleft (left _) => -1
  | inleft (right _) => codeunit_compare b a
  | inright _ => 1
  end.

Lemma lexico_irrefl (a : list N) : ~ lexico a a.
Proof. apply (StrictOrder_Irreflexive (R:=@lexico (list N) _)). Qed.

Lemma lexico_trans (a b c : list N) : lexico a b -> lexico b c -> lexico a c.
Proof. apply (StrictOrder_Transitive (R:=@lexico (list N) _)). Qed.

Lemma codeunit_compare_le a b :
  locale_le codeunit_compare a b <-> codeunit_le a b.
Proof.
  unfold locale_le, codeunit_compare, codeunit_le.
  match goal with
  | |- context [@trichotomyT ?A ?R ?T a b] =>
      destruct (@trichotomyT A R T a b) as [[H|H]|H]
  end.
  - split; [auto|lia].
  - split; [auto|lia].
  - split; [lia|]. intros [->|H'].
    + exfalso. exact (lexico_irrefl _ H).
    + exfalso. exact (lexico_irrefl _ (lexico_trans _ _ _ H H')).
Qed.

#[local] Instance codeunit_total : Total (locale_le codeunit_compare).
Proof.
  intros a b. rewrite !codeunit_compare_le. unfold codeunit_le.
  destruct (trichotomyT (@lexico (list N) _) a b) as [[H|H]|H]; auto.
Qed.

#[local] Instance codeunit_trans : Transitive (locale_le codeunit_compare).
Proof.
  intros a b c. rewrite !codeunit_compare_le. unfold codeunit_le.
  intros [->|H1] [->|H2]; auto. right. exact (lexico_trans _ _ _ H1 H2).
Qed.

(** *** The archive *)

Lemma own_Some_key files k v : own files k = Some v -> In k (keys files).
Proof.
  induction files as [|[k' v'] files IH]; [discriminate|]. cbn [own keys List.map fst].
  case_bool_decide as E; [intros _; left; exact E|]. intros H. right. apply IH, H.
Qed.

Lemma own_key_Some files k : In k (keys files) -> exists v, own files k = Some v.
Proof.
  induction files as [|[k' v'] files IH]; [contradiction|]. cbn [own keys List.map fst].
  intros [E|H]; case_bool_decide as E'; eauto. contradiction.
Qed.

Lemma text_doc_not_inherited k :
  is_text_doc k = true -> k ∈ object_prototype_keys -> False.
Proof.
  intros Ht Hk. unfold object_prototype_keys in Hk.
  apply list_elem_of_In in Hk. cbn [List.map In] in Hk.
  repeat (destruct Hk as [<-|Hk]; [vm_compute in Ht; discriminate|]).
  exact Hk.
Qed.

(** What the spine may hold: a path with a text extension that is a
    key of the archive. *)
Definition usable (files : Archive) (p : jsstring) : Prop :=
  text_extension p /\ In p (keys files).

Lemma get_file_usable files p :
  is_text_doc p = true -> get_file files p <> Undefined -> usable files p.
Proof.
  intros Ht Hg. split; [apply is_text_doc_spec, Ht|].
  unfold get_file, inherited_or_undefined in Hg.
  destruct (own files p) as [v|] eqn:E; [eapply own_Some_key, E|].
  case_bool_decide as Hk; [|contradiction].
  exfalso. eapply text_doc_not_inherited; eassumption.
Qed.

Lemma spine_step_usable files baseDir m acc tag acc' :
  spine_step files baseDir m acc tag = Ok acc' ->
  Forall (usable files) acc -> Forall (usable files) acc'.
Proof.
  unfold spine_step. intros H Hacc.
  destruct (getAttr tag (js "idref")) as [idref|]; [|injection H as <-; exact Hacc].
  destruct (negb (nonempty idref)); [injection H as <-; exact Hacc|].
  destruct (get_manifest m idref) as [href| |];
    [|discriminate|injection H as <-; exact Hacc].
  destruct (negb (nonempty href)); [injection H as <-; exact Hacc|].
  destruct (negb (is_text_doc (normalizePath baseDir href))) eqn:Ht;
    [injection H as <-; exact Hacc|].
  apply negb_false_iff in Ht.
  destruct (get_file files (normalizePath baseDir href)) eqn:Hg;
    injection H as <-; try exact Hacc;
    (apply Forall_app; split; [exact Hacc|]);
    (constructor; [|constructor]);
    (apply get_file_usable; [exact Ht|rewrite Hg; discriminate]).
Qed.

Lemma spine_loop_usable files baseDir m tags :
  forall acc paths,
    spine_loop files baseDir m tags acc = Ok paths ->
    Forall (usable files) acc -> Forall (usable files) paths.
Proof.
  induction tags as [|tag tags IH]; intros acc paths H Hacc.
  - injection H as <-. exact Hacc.
  - cbn [spine_loop] in H.
    destruct (spine_step files baseDir m acc tag) as [acc'|e] eqn:E;
      [|discriminate].
    eapply IH; [exact H|]. eapply spine_step_usable; eassumption.
Qed.

(** Every path that the spine resolves to has a text extension and is
    a key of the archive. *)
Lemma spine_paths_usable files opfPath opfXml paths :
  spine_paths files opfPath opfXml = Ok paths ->
  Forall (usable files) paths.
Proof.
  intros H. eapply spine_loop_usable; [exact H|constructor].
Qed.

(** An [itemref] is passed over without an error when its [idref] has
    no manifest entry and is not the name of an inherited property,
    when its path has no text extension, and when its path is not in
    the archive. *)
Lemma spine_step_drops files baseDir m acc tag idref :
  getAttr tag (js "idref") = Some idref ->
  idref ∉ object_prototype_keys ->
  (m !! idref = None
   \/ (exists href, m !! idref = Some href
         /\ (is_text_doc (normalizePath baseDir href) = false
             \/ get_file files (normalizePath baseDir href) = Undefined))) ->
  spine_step files baseDir m acc tag = Ok acc.
Proof.
  intros Hid Hproto H. unfold spine_step. rewrite Hid.
  destruct (negb (nonempty idref)); [reflexivity|].
  unfold get_manifest, inherited_or_undefined.
  destruct H as [Hm|(href & Hm & H)]; rewrite Hm.
  - rewrite bool_decide_eq_false_2 by exact Hproto. reflexivity.
  - destruct (negb (nonempty href)); [reflexivity|].
    destruct H as [H|H]; rewrite H; [reflexivity|].
    destruct (negb (is_text_doc (normalizePath baseDir href))); reflexivity.
Qed.

(** The loop over the spine raises exactly for an [idref] without a
    manifest entry that names a property inherited from the prototype
    of the manifest object. *)
Lemma spine_step_throws files baseDir m acc tag e :
  spine_step files baseDir m acc tag = Throw e
  <-> e = TypeError
      /\ exists idref, getAttr tag (js "idref") = Some idref
           /\ m !! idref = None /\ idref ∈ object_prototype_keys.
Proof.
  unfold spine_step, get_manifest, inherited_or_undefined. split.
  - destruct (getAttr tag (js "idref")) as [idref|] eqn:Hid; [|discriminate].
    destruct (nonempty idref) eqn:Hne; [|discriminate]. cbn [negb].
    destruct (m !! idref) as [href|] eqn:Hm.
    + destruct (negb (nonempty href)); [discriminate|].
      destruct (negb (is_text_doc (normalizePath baseDir href)));
        [discriminate|].
      destruct (get_file files (normalizePath baseDir href)); discriminate.
    + case_bool_decide as Hk; [|discriminate]. intros H. injection H as <-.
      split; [reflexivity|]. exists idref. auto.
  - intros (-> & idref & Hid & Hm & Hk). rewrite Hid.
    assert (Hne : nonempty idref = true).
    { unfold object_prototype_keys in Hk. apply list_elem_of_In in Hk.
      cbn [List.map In] in Hk.
      repeat (destruct Hk as [<-|Hk]; [reflexivity|]). contradiction. }
    rewrite Hne, Hm. cbn [negb]. rewrite bool_decide_eq_true_2 by exact Hk.
    reflexivity.
Qed.

Lemma spine_loop_throws files baseDir m tags :
  forall acc e,
    spine_loop files baseDir m tags acc = Throw e ->
    e = TypeError
    /\ exists tag idref,
         In tag tags /\ getAttr tag (js "idref") = Some idref
         /\ m !! idref = None /\ idref ∈ object_prototype_keys.
Proof.
  induction tags as [|tag tags IH]; intros acc e H; [discriminate|].
  cbn [spine_loop] in H.
  destruct (spine_step files baseDir m acc tag) as [acc'|e'] eqn:E.
  - destruct (IH acc' e H) as (-> & tag' & idref & Hin & Hrest).
    split; [reflexivity|]. exists tag', idref. split; [right; exact Hin|exact Hrest].
  - injection H as ->. apply spine_step_throws in E.
    destruct E as (-> & idref & Hrest). split; [reflexivity|].
    exists tag, idref. split; [left; reflexivity|exact Hrest].
Qed.

(** Where no [idref] of the spine names an inherited property, the
    resolution of the spine does not fail. *)
Lemma spine_paths_total files opfPath opfXml :
  (forall tag idref,
     In tag (match_all re_itemref opfXml) ->
     getAttr tag (js "idref") = Some idref ->
     idref ∉ object_prototype_keys) ->
  exists paths, spine_paths files opfPath opfXml = Ok paths.
Proof.
  intros H. destruct (spine_paths files opfPath opfXml) as [paths|e] eqn:E;
    [exists paths; reflexivity|].
  apply spine_loop_throws in E.
  destruct E as (_ & tag & idref & Hin & Hid & _ & Hk).
  exfalso. exact (H tag idref Hin Hid Hk).
Qed.

(** *** The spine of the failing package *)

Definition container_xml : jsstring :=
  js "<container><rootfiles><rootfile full-path="
  ++ [dquote] ++ js "OEBPS/content.opf" ++ [dquote]
  ++ js "/></rootfiles></container>".

Definition opf_with_inherited_idref : jsstring :=
  js "<package><manifest><item id='c1' href='ch1.xhtml'/></manifest>"
  ++ js "<spine><itemref idref='constructor'/><itemref idref='c1'/></spine>"
  ++ js "</package>".

Definition opf_with_unknown_idref : jsstring :=
  js "<package><manifest><item id='c1' href='ch1.xhtml'/></manifest>"
  ++ js "<spine><itemref idref='nowhere'/><itemref idref='c1'/></spine>"
  ++ js "</package>".

Definition book (opf : jsstring) : Archive :=
  [(js "META-INF/container.xml", container_xml);
   (js "OEBPS/content.opf", opf);
   (js "OEBPS/ch1.xhtml", js "<p>One</p>")].

(** C9, the failing input: an [itemref] whose [idref] has no manifest
    entry is passed over when the [idref] is an ordinary name, and
    makes the resolution raise when it is the name of a property that
    the manifest object inherits (here, constructor). *)
Theorem spine_inherited_idref_raises :
  manifest_of opf_with_inherited_idref !! js "constructor" = None
  /\ (forall other localeCompare,
        extractSpineHtmlPaths other localeCompare
          (book opf_with_inherited_idref) (js "OEBPS/content.opf")
        = Throw TypeError)
  /\ (forall other localeCompare,
        readingOrder toLowerCase_ascii other localeCompare
          (book opf_with_inherited_idref) = Throw TypeError)
  /\ (forall other localeCompare,
        readingOrder toLowerCase_ascii other localeCompare
          (book opf_with_unknown_idref) = Ok [js "OEBPS/ch1.xhtml"]).
Proof.
  split; [vm_compute; reflexivity|].
  assert (H1 : spine_paths (book opf_with_inherited_idref)
                 (js "OEBPS/content.opf") opf_with_inherited_idref
               = Throw TypeError) by (vm_compute; reflexivity).
  assert (H2 : spine_paths (book opf_with_unknown_idref)
                 (js "OEBPS/content.opf") opf_with_unknown_idref
               = Ok [js "OEBPS/ch1.xhtml"]) by (vm_compute; reflexivity).
  assert (F1 : findOpfPath toLowerCase_ascii (book opf_with_inherited_idref)
               = Ok (js "OEBPS/content.opf")) by (vm_compute; reflexivity).
  assert (F2 : findOpfPath toLowerCase_ascii (book opf_with_unknown_idref)
               = Ok (js "OEBPS/content.opf")) by (vm_compute; reflexivity).
  assert (E1 : forall other localeCompare,
             extractSpineHtmlPaths other localeCompare
               (book opf_with_inherited_idref) (js "OEBPS/content.opf")
             = Throw TypeError).
  { intros other lc. unfold extractSpineHtmlPaths, read_text.
    change (own (book opf_with_inherited_idref) (js "OEBPS/content.opf"))
      with (Some opf_with_inherited_idref).
    cbv beta iota. rewrite H1. reflexivity. }
  split; [exact E1|]. split.
  - intros other lc. unfold readingOrder. rewrite F1, E1. reflexivity.
  - intros other lc. unfold readingOrder, extractSpineHtmlPaths, read_text.
    rewrite F2.
    change (own (book opf_with_unknown_idref) (js "OEBPS/content.opf"))
      with (Some opf_with_unknown_idref).
    cbv beta iota. rewrite H2. reflexivity.
Qed.

(** *** The fallback *)

(** A decoder that raises for what is no byte array. *)
Definition raises (k : jsstring) : result jsstring := Throw TypeError.

Definition opf_without_spine : jsstring :=
  js "<package><manifest></manifest><spine></spine></package>".

Definition loose_pages : Archive :=
  [(js "META-INF/container.xml", container_xml);
   (js "OEBPS/content.opf", opf_without_spine);
   (js "B.html", js "<p>b</p>");
   (js "a.html", js "<p>a</p>");
   (js "cover.png", [])].

(** C6, as amended: when the spine resolves to no usable entry and the
    archive has a key with a text extension, the fallback returns a
    sequence that is not empty, holds exactly the keys with a text
    extension, and is sorted by the comparator of the host,
    [localeCompare] (a total and transitive comparison), not by the
    order of the bytes. *)
Theorem fallback_sorted_by_comparator
    (strFromU8_other : jsstring -> result jsstring)
    (localeCompare : jsstring -> jsstring -> Z)
    (files : Archive) (opfPath opfXml : jsstring) :
  Total (locale_le localeCompare) ->
  Transitive (locale_le localeCompare) ->
  own files opfPath = Some opfXml ->
  spine_paths files opfPath opfXml = Ok [] ->
  (exists k, In k (keys files) /\ text_extension k) ->
  exists paths,
    extractSpineHtmlPaths strFromU8_other localeCompare files opfPath
    = Ok paths
    /\ paths <> []
    /\ paths ≡ₚ List.filter is_text_doc (keys files)
    /\ (forall p, In p paths <-> In p (keys files) /\ text_extension p)
    /\ StronglySorted (locale_le localeCompare) paths.
Proof.
  intros Htotal Htrans Hown Hspine (k & Hk & Hext).
  exists (fallback_paths localeCompare files).
  assert (Hperm : fallback_paths localeCompare files
                  ≡ₚ List.filter is_text_doc (keys files))
    by apply merge_sort_Permutation.
  assert (Hmem : forall p, In p (fallback_paths localeCompare files)
                           <-> In p (keys files) /\ text_extension p).
  { intros p. rewrite <- is_text_doc_spec, <- !list_elem_of_In.
    rewrite Hperm. rewrite !list_elem_of_In, filter_In. reflexivity. }
  split; [|split; [|split; [|split]]].
  - unfold extractSpineHtmlPaths, read_text.
    rewrite Hown, Hspine. reflexivity.
  - intros E. assert (Hin : In k (fallback_paths localeCompare files))
      by (apply Hmem; split; assumption).
    rewrite E in Hin. contradiction.
  - exact Hperm.
  - exact Hmem.
  - apply StronglySorted_merge_sort; assumption.
Qed.

Lemma fallback_sorted_by_code_units :
  exists paths,
    extractSpineHtmlPaths raises codeunit_compare loose_pages
      (js "OEBPS/content.opf") = Ok paths
    /\ paths <> []
    /\ StronglySorted (locale_le codeunit_compare) paths.
Proof.
  destruct (fallback_sorted_by_comparator raises codeunit_compare
              loose_pages (js "OEBPS/content.opf") opf_without_spine)
    as (paths & H1 & H2 & _ & _ & H5).
  - exact codeunit_total.
  - exact codeunit_trans.
  - reflexivity.
  - vm_compute. reflexivity.
  - exists (js "a.html"). split; [simpl; tauto|].
    exists (js "a"), (js ".html"). split; [reflexivity|]. right. left.
    reflexivity.
  - exists paths. auto.
Defined.

(** C6, as stated, fails: with a comparator that orders letters as a
    locale comparison does, the fallback puts a.html before B.html,
    which the order of the bytes puts after it. *)
Lemma fallback_not_in_byte_order :
  spine_paths loose_pages (js "OEBPS/content.opf") opf_without_spine = Ok []
  /\ collate (js "a.html") (js "B.html") = -1
  /\ extractSpineHtmlPaths raises collate loose_pages
       (js "OEBPS/content.opf")
     = Ok [js "a.html"; js "B.html"]
  /\ ~ codeunit_le (js "a.html") (js "B.html")
  /\ ~ Sorted codeunit_le [js "a.html"; js "B.html"].
Proof.
  assert (Hle : ~ codeunit_le (js "a.html") (js "B.html")).
  { intros [H|H]; [discriminate|]. vm_compute in H.
    destruct H as [H|[H _]]; discriminate. }
  split; [vm_compute; reflexivity|].
  split; [vm_compute; reflexivity|].
  split; [vm_compute; reflexivity|].
  split; [exact Hle|].
  intros H. inversion H as [|? ? _ Hhd]; subst.
  inversion Hhd; subst. contradiction.
Qed.

(** *** The container *)

Definition container_single_quoted : jsstring :=
  js "<container><rootfiles><rootfile full-path='OEBPS/content.opf' "
  ++ js "media-type='application/oebps-package+xml'/></rootfiles>"
  ++ js "</container>".

Definition container_other_order : jsstring :=
  js "<container><rootfiles><rootfile media-type="
  ++ [dquote] ++ js "application/oebps-package+xml" ++ [dquote]
  ++ js " full-path=" ++ [dquote] ++ js "OEBPS/content.opf" ++ [dquote]
  ++ js "/></rootfiles></container>".

Definition container_without_path : jsstring :=
  js "<container><rootfiles><rootfile/></rootfiles></container>".

(** Without an entry that ends in the container path, the resolver
    fails. *)
Lemma findOpfPath_no_container toLowerCase files :
  Forall (fun p =>
            endsWith (toLowerCase p) (js "meta-inf/container.xml") = false)
    (keys files) ->
  findOpfPath toLowerCase files = Throw ContainerNotFound.
Proof.
  intros H. unfold findOpfPath.
  destruct (List.find _ files) as [[c xml]|] eqn:E; [|reflexivity].
  apply find_some in E. destruct E as [Hin Hc].
  rewrite Forall_forall in H.
  assert (Hk : c ∈ keys files).
  { apply list_elem_of_In. unfold keys. apply in_map_iff.
    exists (c, xml). split; [reflexivity|exact Hin]. }
  unfold is_container in Hc. cbn [fst] in Hc.
  rewrite (H c Hk) in Hc. discriminate.
Qed.

(** Where the pattern finds no path in the container text, the
    resolver fails. *)
Lemma findOpfPath_no_path toLowerCase files container xml :
  List.find (is_container toLowerCase) files = Some (container, xml) ->
  search re_full_path xml = None ->
  findOpfPath toLowerCase files = Throw OpfPathNotFound.
Proof.
  intros Hf Hs. unfold findOpfPath. rewrite Hf, Hs. reflexivity.
Qed.

(** The first match found is the match at the first position where
    the pattern matches. *)
Lemma search_go_first r s n g :
  forall pre p,
    (forall a b, pre = a ++ b -> b <> [] ->
                 exec r (prev_after p a) (b ++ s) = None) ->
    exec r (prev_after p pre) s = Some (n, g) ->
    search_go r p (pre ++ s) = Some (take n s, g).
Proof.
  induction pre as [|c pre IH]; intros p Hnone Hhere.
  - change (prev_after p []) with p in Hhere.
    destruct s as [|x t]; cbn [app search_go]; rewrite Hhere; reflexivity.
  - pose proof (Hnone [] (c :: pre) eq_refl) as H0.
    change (prev_after p []) with p in H0.
    change ((c :: pre) ++ s) with (c :: pre ++ s) in *.
    cbn [search_go]. rewrite H0 by discriminate.
    apply IH.
    + intros a b E Hb. specialize (Hnone (c :: a) b).
      rewrite prev_after_cons in Hnone. apply Hnone; [|exact Hb].
      rewrite E. reflexivity.
    + rewrite prev_after_cons in Hhere. exact Hhere.
Qed.

Definition not_dquote (c : N) : bool := negb (c =? dquote)%N.

(** The pattern of [findOpfPath] at an attribute between double
    quotes. *)
Lemma exec_full_path p name path post :
  ci_match (js "full-path=") name = true ->
  length name = length (js "full-path=") ->
  path <> [] -> Forall (fun c => c <> dquote) path ->
  exists n,
    exec re_full_path p (name ++ dquote :: path ++ dquote :: post)
    = Some (n, Some path).
Proof.
  intros Hname Hlen Hne Hpath.
  destruct path as [|c path']; [contradiction|].
  inversion Hpath as [|? ? Hc Hpath']; subst.
  unfold exec, re_full_path. change (fun c0 : N => negb (c0 =? dquote)%N)
    with not_dquote.
  rewrite rmatch_cat, rmatch_LitI. cbn [rest].
  assert (Hm : ci_match (js "full-path=")
                 (name ++ dquote :: (c :: path') ++ dquote :: post) = true).
  { clear - Hname. revert Hname. generalize (js "full-path=").
    intros w. revert name. induction w as [|x w IH]; intros name H;
      [reflexivity|].
    destruct name as [|y name]; [discriminate|]. cbn [ci_match app] in *.
    apply andb_true_iff in H. destruct H as [H1 H2].
    rewrite H1. cbn [andb]. apply IH, H2. }
  rewrite Hm. unfold advance at 1. cbn [rest prev cap].
  rewrite <- Hlen, drop_app_length.
  rewrite rmatch_cat, rmatch_chr_cons, N.eqb_refl.
  rewrite rmatch_cat.
  change (rmatch (Group (Plus (Chr not_dquote))) ?st ?k)
    with (rmatch (Cat (Chr not_dquote) (Star (Chr not_dquote))) st
            (fun st1 => k (MState (prev st1) (rest st1)
                             (Some (take (consumed (rest st) st1) (rest st)))))).
  cbn [rest app]. rewrite rmatch_plus_chr_cons.
  assert (Hnc : not_dquote c = true)
    by (unfold not_dquote; apply negb_true_iff, N.eqb_neq, Hc).
  rewrite Hnc.
  assert (Hrun : run_length not_dquote (path' ++ dquote :: post)
                 = length path').
  { rewrite run_length_app.
    - cbn [run_length]. change (not_dquote dquote) with false.
      cbv iota. lia.
    - eapply Forall_impl; [exact Hpath'|]. intros x Hx.
      unfold not_dquote. apply negb_true_iff, N.eqb_neq, Hx. }
  rewrite Hrun.
  rewrite (try_down_top _ _ _
             (MState (Some dquote) post (Some (c :: path')))).
  - eexists. reflexivity.
  - unfold advance. cbn [rest prev cap]. rewrite drop_app_length.
    rewrite rmatch_chr_cons, N.eqb_refl. cbn [rest cap].
    unfold consumed. cbn [rest length]. rewrite !length_app. cbn [length].
    replace (S (length path' + S (length post)) - S (length post))%nat
      with (length (c :: path')) by (simpl; lia).
    change (c :: path' ++ dquote :: post)
      with ((c :: path') ++ dquote :: post).
    rewrite (take_app_length (c :: path')). reflexivity.
Qed.

(** For a container text in which the first occurrence of the
    attribute name with its equals sign is followed by a value between
    double quotes, the resolver returns this value, whatever stands
    before and after (other attributes in any order). *)
Lemma findOpfPath_double_quoted toLowerCase files container
    pre name path post :
  List.find (is_container toLowerCase) files
  = Some (container, pre ++ name ++ dquote :: path ++ dquote :: post) ->
  ci_match (js "full-path=") name = true ->
  length name = length (js "full-path=") ->
  path <> [] -> Forall (fun c => c <> dquote) path ->
  (forall a b rest, pre = a ++ b -> b <> [] ->
                    ci_match (js "full-path=") (b ++ rest) = false) ->
  findOpfPath toLowerCase files = Ok path.
Proof.
  intros Hf Hname Hlen Hne Hpath Hfirst. unfold findOpfPath. rewrite Hf.
  destruct (exec_full_path (prev_after None pre) name path post
              Hname Hlen Hne Hpath) as [n Hn].
  unfold search.
  rewrite (search_go_first re_full_path _ n (Some path) pre None);
    [reflexivity| |exact Hn].
  intros a b E Hb. unfold exec, re_full_path.
  rewrite rmatch_cat, rmatch_LitI. cbn [rest].
  rewrite (Hfirst a b _ E Hb). reflexivity.
Qed.

(** C5, the failing input: a container whose root-file declaration
    writes the attribute between single quotes.  [getAttr] reads the
    path from it; [findOpfPath] finds none and raises.  With double
    quotes the path is returned, in either order of the attributes;
    with no container entry, or no attribute, the resolver raises. *)
Theorem findOpfPath_single_quotes :
  findOpfPath toLowerCase_ascii
    [(js "META-INF/container.xml", container_single_quoted)]
  = Throw OpfPathNotFound
  /\ getAttr container_single_quoted (js "full-path")
     = Some (js "OEBPS/content.opf")
  /\ findOpfPath toLowerCase_ascii
       [(js "META-INF/container.xml", container_xml)]
     = Ok (js "OEBPS/content.opf")
  /\ findOpfPath toLowerCase_ascii
       [(js "mimetype", js "application/epub+zip");
        (js "Meta-Inf/Container.XML", container_other_order)]
     = Ok (js "OEBPS/content.opf")
  /\ findOpfPath toLowerCase_ascii
       [(js "mimetype", js "application/epub+zip")]
     = Throw ContainerNotFound
  /\ findOpfPath toLowerCase_ascii
       [(js "META-INF/container.xml", container_without_path)]
     = Throw OpfPathNotFound.
Proof. repeat split; vm_compute; reflexivity. Qed.

End ReadingOrder.

(** * Runs of a class replaced by a constant *)

Module ClassRuns.

(** What replacing every maximal run of the class [q] by [repl] gives;
    [in_run] tells that the code unit before belongs to a run that has
    been replaced. *)
Fixpoint collapse_by (q : N -> bool) (repl : jsstring) (in_run : bool)
    (s : jsstring) : jsstring :=
  match s with
  | [] => []
  | c :: t =>
      if q c
      then if in_run then collapse_by q repl true t
           else repl ++ collapse_by q repl true t
      else c :: collapse_by q repl false t
  end.

Lemma collapse_by_run q repl t :
  collapse_by q repl true t
  = collapse_by q repl false (drop (run_length q t) t).
Proof.
  induction t as [|c t IH]; [reflexivity|].
  cbn [collapse_by run_length].
  destruct (q c) eqn:E; simpl; [exact IH|rewrite E; reflexivity].
Qed.

Lemma replace_runs_aux q repl n :
  forall s p, length s = n ->
    replace_go (Plus (Chr q)) repl 0 p s = collapse_by q repl false s.
Proof.
  induction n as [n IH] using lt_wf_ind. intros s p Hn.
  destruct s as [|c t]; [reflexivity|].
  cbn [replace_go collapse_by].
  rewrite exec_plus_chr. cbn [run_length].
  destruct (q c) eqn:E; cbv iota.
  - rewrite replace_go_skip.
    rewrite (IH (length (drop (run_length q t) t)));
      [|rewrite length_drop; simpl in Hn; lia|reflexivity].
    rewrite collapse_by_run. reflexivity.
  - f_equal. apply (IH (length t)); [simpl in Hn; lia|reflexivity].
Qed.

Lemma replace_runs q repl s :
  replace_all (Plus (Chr q)) repl s = collapse_by q repl false s.
Proof. apply (replace_runs_aux q repl (length s)). reflexivity. Qed.

Lemma collapse_by_outside q repl w s :
  Forall (fun c => q c = false) w ->
  collapse_by q repl false (w ++ s) = w ++ collapse_by q repl false s.
Proof.
  induction 1 as [|c w Hc _ IH]; [reflexivity|].
  cbn [app collapse_by]. rewrite Hc, IH. reflexivity.
Qed.

Lemma collapse_by_inside q repl c t :
  q c = true ->
  collapse_by q repl false (c :: t)
  = repl ++ collapse_by q repl false (drop (run_length q t) t).
Proof.
  intros Hc. cbn [collapse_by]. rewrite Hc, collapse_by_run. reflexivity.
Qed.

End ClassRuns.

(** * The white space that the stripper of src/index.ts leaves *)

Module Spaces.
Import Importer ClassRuns.

Definition not_space (c : N) : bool := negb (is_space c).

Lemma trim_start_run s : trim_start s = drop (run_length is_space s) s.
Proof.
  induction s as [|c t IH]; [reflexivity|].
  cbn [trim_start run_length]. destruct (is_space c); [exact IH|reflexivity].
Qed.

Lemma trim_start_head s :
  match trim_start s with
  | c :: _ => is_space c = false
  | [] => True
  end.
Proof. rewrite trim_start_run. apply run_length_stop. Qed.

Lemma trim_start_fixed c t : is_space c = false -> trim_start (c :: t) = c :: t.
Proof. intros H. cbn [trim_start]. rewrite H. reflexivity. Qed.

(** A text splits into its first word and what follows it. *)
Lemma first_word s :
  exists w r,
    s = w ++ r /\ Forall (fun c => is_space c = false) w
    /\ match r with c :: _ => is_space c = true | [] => True end.
Proof.
  exists (take (run_length not_space s) s), (drop (run_length not_space s) s).
  split; [symmetry; apply take_drop|]. split.
  - eapply Forall_impl; [apply run_length_take|].
    intros c Hc. unfold not_space in Hc. destruct (is_space c); [discriminate|reflexivity].
  - pose proof (run_length_stop not_space s) as H.
    destruct (drop (run_length not_space s) s) as [|c r]; [exact I|].
    unfold not_space in H. destruct (is_space c); [reflexivity|discriminate].
Qed.

Lemma trim_end_app_word a w :
  w <> [] -> Forall (fun c => is_space c = false) w ->
  trim_end (a ++ w) = a ++ w.
Proof.
  intros Hne Hw. unfold trim_end. rewrite rev_app_distr.
  destruct (rev w) as [|c r] eqn:E.
  - apply (f_equal (@rev N)) in E. rewrite rev_involutive in E. contradiction.
  - assert (Hc : is_space c = false).
    { rewrite Forall_forall in Hw. apply Hw.
      apply list_elem_of_In, in_rev. rewrite E. left. reflexivity. }
    cbn [app]. rewrite trim_start_fixed by exact Hc.
    change (c :: r ++ rev a) with ((c :: r) ++ rev a).
    rewrite <- E, <- rev_app_distr, rev_involutive. reflexivity.
Qed.

Lemma trim_end_app a x :
  trim_end x <> [] -> trim_end (a ++ x) = a ++ trim_end x.
Proof.
  unfold trim_end. intros H. rewrite rev_app_distr.
  induction (rev x) as [|c r IH]; [contradiction|].
  cbn [app trim_start] in *. destruct (is_space c).
  - apply IH, H.
  - cbn [rev]. rewrite rev_app_distr, rev_involutive.
    rewrite <- app_assoc. reflexivity.
Qed.

Lemma trim_end_spaces a w :
  Forall (fun c => is_space c = true) w -> trim_end (a ++ w) = trim_end a.
Proof.
  intros Hw. unfold trim_end. rewrite rev_app_distr. f_equal.
  apply Forall_rev in Hw.
  induction Hw as [|c r Hc _ IH]; [reflexivity|].
  cbn [app trim_start]. rewrite Hc. exact IH.
Qed.

Lemma tokens_first_word w :
  w <> [] -> Forall (fun c => is_space c = false) w ->
  (tokens w = [w])
  /\ forall c t, is_space c = true ->
       tokens (w ++ c :: t) = w :: tokens (drop (run_length is_space t) t).
Proof.
  intros Hne Hw. unfold tokens. split.
  - rewrite <- (app_nil_r w) at 1. rewrite tokens_go_word by exact Hw.
    rewrite app_nil_r. cbn [tokens_go].
    destruct (rev w) eqn:E.
    + apply (f_equal (@rev N)) in E. rewrite rev_involutive in E. contradiction.
    + rewrite <- E, rev_involutive. reflexivity.
  - intros c t Hc. rewrite tokens_go_word by exact Hw.
    rewrite app_nil_r. cbn [tokens_go]. rewrite Hc.
    destruct (rev w) eqn:E.
    + apply (f_equal (@rev N)) in E. rewrite rev_involutive in E. contradiction.
    + rewrite <- E, rev_involutive, tokens_go_run. reflexivity.
Qed.

Definition one_space (s : jsstring) : jsstring :=
  collapse_by is_space (js " ") false s.

Lemma join_words_tail n :
  forall s, length s = n ->
    match s with c :: _ => is_space c = false | [] => True end ->
    trim_end (one_space s) = join (js " ") (tokens s).
Proof.
  induction n as [n IH] using lt_wf_ind. intros s Hn Hhead.
  destruct (first_word s) as (w & r & -> & Hw & Hr).
  destruct w as [|c0 w'].
  { destruct r as [|c r]; [reflexivity|]. simpl in Hhead.
    rewrite Hhead in Hr. discriminate. }
  set (w := c0 :: w') in *.
  assert (Hne : w <> []) by discriminate.
  destruct (tokens_first_word w Hne Hw) as [T1 T2].
  unfold one_space. rewrite collapse_by_outside
    by (eapply Forall_impl; [exact Hw|]; intros; assumption).
  destruct r as [|c t].
  - cbn [collapse_by]. rewrite !app_nil_r, T1.
    rewrite <- (app_nil_l w) at 1. rewrite trim_end_app_word by assumption.
    reflexivity.
  - rewrite T2 by exact Hr. rewrite collapse_by_inside by exact Hr.
    set (r' := drop (run_length is_space t) t).
    assert (Hr' : match r' with c :: _ => is_space c = false | [] => True end)
      by apply run_length_stop.
    assert (Hlen : (length r' < n)%nat).
    { subst r'. rewrite length_drop. subst n. rewrite length_app. simpl. lia. }
    pose proof (IH _ Hlen r' eq_refl Hr') as E. unfold one_space in E.
    destruct (tokens r') as [|x l] eqn:Htok.
    + apply tokens_go_nil_iff in Htok. destruct Htok as [_ Hall].
      destruct r' as [|d r'']; [|inversion Hall; subst; simpl in Hr'; congruence].
      cbn [collapse_by]. rewrite app_nil_r.
      rewrite trim_end_spaces by (repeat constructor).
      rewrite <- (app_nil_l w) at 1. rewrite trim_end_app_word by assumption.
      reflexivity.
    + assert (Hx : join (js " ") (x :: l) <> []).
      { apply Fragmenter.join_nonempty; [|discriminate].
        rewrite <- Htok. apply (tokens_go_words [] r'). constructor. }
      rewrite <- E in Hx.
      change (w ++ js " " ++ collapse_by is_space (js " ") false r')
        with (w ++ (js " " ++ collapse_by is_space (js " ") false r')).
      rewrite app_assoc, trim_end_app by exact Hx.
      rewrite E, <- app_assoc.
      change (join (js " ") (w :: x :: l))
        with (w ++ js " " ++ join (js " ") (x :: l)).
      reflexivity.
Qed.

Lemma trim_one_space s : trim (one_space s) = join (js " ") (tokens s).
Proof.
  unfold trim.
  assert (E : trim_start (one_space s) = one_space (trim_start s)).
  { destruct s as [|c t]; [reflexivity|].
    destruct (is_space c) eqn:Hc.
    - unfold one_space. rewrite collapse_by_inside by exact Hc.
      cbn [trim_start]. rewrite Hc.
      change (js " " ++ ?x) with (32%N :: x).
      cbn [trim_start]. change (is_space 32) with true. cbv iota.
      rewrite (trim_start_run t).
      pose proof (run_length_stop is_space t) as Hs.
      destruct (drop (run_length is_space t) t) as [|d r]; [reflexivity|].
      cbn [collapse_by]. rewrite Hs. apply trim_start_fixed, Hs.
    - rewrite (trim_start_fixed c t Hc). unfold one_space.
      cbn [collapse_by]. rewrite Hc. apply trim_start_fixed, Hc. }
  rewrite E.
  rewrite (join_words_tail (length (trim_start s)) _ eq_refl (trim_start_head s)).
  f_equal. unfold tokens. rewrite trim_start_run. apply tokens_go_run.
Qed.

Lemma stripHtml_joined html :
  Importer.stripHtml html = join (js " ") (words (strip_tags html)).
Proof.
  unfold Importer.stripHtml. unfold Space. rewrite replace_runs.
  rewrite words_tokens. apply trim_one_space.
Qed.

(** X1: [stripHtml] of src/index.ts returns the words of the text that
    is left after the tags, with one space between two words and
    nothing at the ends: every run of white space, line feeds
    included, has become one space.  Read again as words the result
    gives the same words, and it holds no tag. *)
Theorem stripHtml_joins_words (html : jsstring) :
  Importer.stripHtml html = join (js " ") (words (strip_tags html))
  /\ words (Importer.stripHtml html) = words (strip_tags html)
  /\ Forall (fun w => w <> [] /\ Forall (fun c => is_space c = false) w)
       (words (strip_tags html))
  /\ ~ Markup.raw_tag (Importer.stripHtml html).
Proof.
  split; [apply stripHtml_joined|]. split; [|split].
  - rewrite stripHtml_joined. apply words_join, words_are_words.
  - apply words_are_words.
  - apply Markup.stripHtml_without_entities_no_raw_tag.
Qed.

End Spaces.

(** * The combined text of src/index.ts *)

Module Combined.
Import Importer SpineImporter ImportHandler Spaces.

Lemma tokens_go_break c b :
  is_space c = true ->
  forall a cur, tokens_go cur (a ++ c :: b) = tokens_go cur a ++ tokens_go [] b.
Proof.
  intros Hc. induction a as [|x a IH]; intros cur.
  - cbn [app tokens_go]. rewrite Hc. destruct cur; reflexivity.
  - cbn [app tokens_go]. destruct (is_space x).
    + destruct cur; rewrite IH; reflexivity.
    + apply IH.
Qed.

Lemma words_break a c b :
  is_space c = true -> words (a ++ c :: b) = words a ++ words b.
Proof. intros Hc. rewrite !words_tokens. apply tokens_go_break, Hc. Qed.

Lemma words_space_head c b : is_space c = true -> words (c :: b) = words b.
Proof. intros Hc. apply (words_break [] c b Hc). Qed.

Lemma combined_fold (f : jsstring -> jsstring) (ps : list jsstring) :
  forall acc,
    words (fold_left (fun acc p => acc ++ [newline; newline] ++ f p) ps acc)
    = words acc ++ concat (List.map (fun p => words (f p)) ps).
Proof.
  induction ps as [|p ps IH]; intros acc.
  - simpl. rewrite app_nil_r. reflexivity.
  - cbn [fold_left List.map concat]. rewrite IH.
    cbn [app]. rewrite words_break by reflexivity.
    rewrite words_space_head by reflexivity.
    rewrite <- app_assoc. reflexivity.
Qed.

(** X2: the words of the combined text are the words of the documents
    with a text extension, taken in the order of the keys of the
    archive and read after the tags are stripped: no word is lost, and
    no word runs across two documents.  For a size of at least 1 the
    fragments hold these words in this order. *)
Theorem combinedText_words (unzipped : Archive) :
  words (combinedText unzipped)
  = concat (List.map (fun p => words (strip_tags (entry_text unzipped p)))
              (htmlFiles unzipped))
  /\ (forall targetWords, 1 <= targetWords ->
      exists allChunks,
        chunkWords (length (words (combinedText unzipped)))
          (combinedText unzipped) targetWords = Some allChunks
        /\ concat (List.map words allChunks)
           = concat (List.map
                       (fun p => words (strip_tags (entry_text unzipped p)))
                       (htmlFiles unzipped))).
Proof.
  assert (E : words (combinedText unzipped)
              = concat (List.map
                          (fun p => words (strip_tags (entry_text unzipped p)))
                          (htmlFiles unzipped))).
  { unfold combinedText.
    rewrite (combined_fold (fun p => Importer.stripHtml (entry_text unzipped p))).
    change (words []) with (@nil jsstring). cbn [app].
    f_equal. apply map_ext. intros p.
    rewrite stripHtml_joined. apply words_join, words_are_words. }
  split; [exact E|].
  intros tw Htw. eexists. split.
  - apply Fragmenter.chunkWords_windows; [exact Htw|nia].
  - rewrite <- E.
    eapply Fragmenter.chunkWords_result.
    apply Fragmenter.chunkWords_windows; [exact Htw|nia].
Qed.

End Combined.

(** * The window and the runs of the generation loop *)

Module Generation.
Import Importer Orchestrator.

(** ** Decimal names *)

Lemma js_inj a b : js a = js b -> a = b.
Proof.
  unfold js. intros H.
  rewrite <- (string_of_list_ascii_of_string a),
          <- (string_of_list_ascii_of_string b). f_equal.
  revert H. generalize (list_ascii_of_string a) (list_ascii_of_string b).
  induction l as [|x l IH]; intros [|y l'] H; try discriminate; [reflexivity|].
  simpl in H. injection H as Hx Hl. f_equal.
  - rewrite <- (ascii_N_embedding x), <- (ascii_N_embedding y), Hx. reflexivity.
  - apply IH, Hl.
Qed.

Lemma to_int_digits z :
  Z.to_int z <> Decimal.Pos Decimal.Nil
  /\ Z.to_int z <> Decimal.Neg Decimal.Nil.
Proof.
  destruct z as [|p|p]; cbn [Z.to_int]; split; try discriminate;
    intros E; injection E as E;
    exact (DecimalPos.Unsigned.to_uint_nonnil p E).
Qed.

Lemma string_of_Z_inj a b : string_of_Z a = string_of_Z b -> a = b.
Proof.
  unfold string_of_Z. intros H. apply js_inj in H.
  apply DecimalZ.to_int_inj.
  assert (E : NilZero.int_of_string (NilZero.string_of_int (Z.to_int a))
              = NilZero.int_of_string (NilZero.string_of_int (Z.to_int b)))
    by (rewrite H; reflexivity).
  rewrite !NilZero.isi in E by apply to_int_digits.
  injection E as E. exact E.
Qed.

Lemma NoDup_map_inj {A B} (f : A -> B) (l : list A) :
  (forall a b, f a = f b -> a = b) -> NoDup l -> NoDup (List.map f l).
Proof.
  intros Hf Hl. rewrite Fragmenter.map_fmap.
  apply NoDup_fmap_2; [exact Hf|exact Hl].
Qed.

Section Any.
Context {Lesson : Type}.
Variable bookTitle : jsstring.
Variable startFrom : Z.

(** The error record of an outcome, as the answer that caused it. *)
Definition failure (o : Outcome Lesson) : list (response Lesson) :=
  match partialError o with
  | Some pe => [inl (error pe)]
  | None => []
  end.

(** Every run of the loop: the answers that were read are lessons,
    followed by at most one error. *)
Lemma run_generate :
  forall (chunks : list jsstring) (i : Z) (acc : list (LessonEntry Lesson))
         (answers : list (response Lesson)) o calls unused,
    run (generate bookTitle startFrom i chunks acc) answers
    = Some (o, calls, unused) ->
    exists ls : list Lesson,
      lessons o = acc ++ entries_from startFrom i ls
      /\ answers = List.map inr ls ++ failure o ++ unused
      /\ calls = calls_from bookTitle startFrom i (take (length calls) chunks)
      /\ length calls = (length ls + length (failure o))%nat
      /\ (length calls <= length chunks)%nat
      /\ match partialError o with
         | None => length ls = length chunks
         | Some pe => fragment pe = startFrom + i + Z.of_nat (length ls)
         end.
Proof.
  induction chunks as [|c chunks IH]; intros i acc answers o calls unused H.
  - cbn [generate run] in H. injection H as <- <- <-.
    exists []. unfold failure. cbn. rewrite app_nil_r. repeat split; lia.
  - cbn [generate run] in H.
    destruct answers as [|a answers]; [discriminate|].
    destruct a as [e|l].
    + cbn [run] in H. injection H as <- <- <-.
      exists []. unfold failure. cbn [lessons partialError error fragment].
      rewrite app_nil_r. cbn [length take List.map app].
      rewrite take_0. unfold calls_from. cbn [imap].
      rewrite !Z.add_0_r. repeat split; simpl; lia.
    + destruct (run (generate bookTitle startFrom (i + 1) chunks
                       (acc ++ [{| index := startFrom + i; lesson := l |}]))
                  answers) as [[[o' calls'] unused']|] eqn:E; [|discriminate].
      injection H as <- <- <-.
      destruct (IH _ _ _ _ _ _ E) as (ls & H1 & H2 & H3 & H4 & H5 & H6).
      exists (l :: ls). split; [|split; [|split; [|split; [|split]]]].
      * rewrite H1, <- app_assoc. cbn [app].
        rewrite entries_from_cons. reflexivity.
      * rewrite H2. reflexivity.
      * cbn [length take]. rewrite calls_from_cons. f_equal. exact H3.
      * simpl. lia.
      * simpl. lia.
      * destruct (partialError o'); [|simpl; lia].
        rewrite H6. cbn [length]. lia.
Qed.

Lemma calls_from_lookup i cs j :
  calls_from bookTitle startFrom i cs !! j
  = (fun c => (c, lessonTitle bookTitle (startFrom + i + Z.of_nat j)))
      <$> cs !! j.
Proof. unfold calls_from. apply list_lookup_imap. Qed.

Lemma entries_from_lookup i (ls : list Lesson) j :
  entries_from startFrom i ls !! j
  = (fun l => {| index := startFrom + i + Z.of_nat j; lesson := l |})
      <$> ls !! j.
Proof. unfold entries_from. rewrite list_lookup_imap. reflexivity. Qed.

End Any.

Lemma operative_take_drop (allChunks : list jsstring) (sf mf : Z) :
  1 <= sf -> 0 <= mf ->
  operative allChunks sf mf
  = take (Z.to_nat mf) (drop (Z.to_nat (sf - 1)) allChunks).
Proof.
  intros Hs Hm. unfold operative. rewrite slice_nonneg by lia.
  f_equal. f_equal. lia.
Qed.

(** X3: the window can be moved on: the fragments of a window of [k]
    positions and those of the window of [m] positions that starts
    right after it are the fragments of one window of [k + m]
    positions. *)
Theorem operative_windows_adjoin (allChunks : list jsstring)
    (startFrom k m : Z) :
  1 <= startFrom -> 0 <= k -> 0 <= m ->
  operative allChunks startFrom k ++ operative allChunks (startFrom + k) m
  = operative allChunks startFrom (k + m).
Proof.
  intros Hs Hk Hm. rewrite !operative_take_drop by lia.
  replace (Z.to_nat (startFrom + k - 1))
    with (Z.to_nat (startFrom - 1) + Z.to_nat k)%nat by lia.
  rewrite <- drop_drop.
  replace (Z.to_nat (k + m)) with (Z.to_nat k + Z.to_nat m)%nat by lia.
  set (l := drop (Z.to_nat (startFrom - 1)) allChunks).
  rewrite <- (take_drop (Z.to_nat k) l) at 3.
  destruct (Nat.le_gt_cases (Z.to_nat k) (length l)) as [Hle|Hgt].
  - rewrite take_app_add'; [reflexivity|]. rewrite length_take. lia.
  - rewrite (drop_ge l) by lia. rewrite take_nil, !app_nil_r.
    rewrite !take_ge; try lia. reflexivity.
Qed.

Lemma operative_windows_adjoin_example :
  operative [js "a"; js "b"; js "c"; js "d"] 1 2
    ++ operative [js "a"; js "b"; js "c"; js "d"] 3 2
  = operative [js "a"; js "b"; js "c"; js "d"] 1 4.
Proof.
  apply (operative_windows_adjoin [js "a"; js "b"; js "c"; js "d"] 1 2 2); lia.
Defined.

(** The calls of a run over a window at integer parameters: at most
    [maxFragments] calls, one for each lesson and one more for an
    error; the [j]-th call carries the chunk at the position
    [startFrom - 1 + j] of the whole list (counted from 0) and the
    fragment number [startFrom + j] in its title, and the [j]-th lesson
    is filed under that number. *)
Lemma calls_in_window {Lesson : Type} (startFrom maxFragments : Z)
    (bookTitle : jsstring) (allChunks : list jsstring)
    (answers : list (response Lesson)) o calls unused :
  1 <= startFrom -> 1 <= maxFragments ->
  run (orchestrate bookTitle startFrom
         (operative allChunks startFrom maxFragments)) answers
  = Some (o, calls, unused) ->
  Z.of_nat (length calls) <= maxFragments
  /\ length calls
     = (length (lessons o)
        + match partialError o with Some _ => 1 | None => 0 end)%nat
  /\ (forall j call, calls !! j = Some call ->
        allChunks !! (Z.to_nat (startFrom - 1) + j)%nat = Some (fst call)
        /\ snd call = lessonTitle bookTitle (startFrom + Z.of_nat j))
  /\ (forall j entry, lessons o !! j = Some entry ->
        index entry = startFrom + Z.of_nat j
        /\ exists chunk,
             allChunks !! Z.to_nat (index entry - 1) = Some chunk
             /\ calls !! j
                = Some (chunk, lessonTitle bookTitle (index entry))).
Proof.
  intros Hs Hm H.
  set (chunks := operative allChunks startFrom maxFragments) in *.
  assert (Ec : chunks = take (Z.to_nat maxFragments)
                          (drop (Z.to_nat (startFrom - 1)) allChunks))
    by (apply operative_take_drop; lia).
  unfold orchestrate in H.
  destruct (run_generate bookTitle startFrom chunks 0 [] answers
              o calls unused H) as (ls & H1 & _ & H3 & H4 & H5 & _).
  cbn [app] in H1.
  assert (Hcall : forall j call, calls !! j = Some call ->
            allChunks !! (Z.to_nat (startFrom - 1) + j)%nat = Some (fst call)
            /\ snd call = lessonTitle bookTitle (startFrom + Z.of_nat j)).
  { intros j call Hj. rewrite H3, calls_from_lookup in Hj.
    destruct (take (length calls) chunks !! j) as [c|] eqn:Hc; [|discriminate].
    injection Hj as <-. cbn [fst snd]. split; [|f_equal; lia].
    apply lookup_take_Some in Hc. destruct Hc as [Hc _].
    rewrite Ec in Hc. apply lookup_take_Some in Hc. destruct Hc as [Hc _].
    rewrite lookup_drop in Hc. exact Hc. }
  split; [|split; [|split]].
  - assert (length chunks <= Z.to_nat maxFragments)%nat
      by (rewrite Ec, length_take; lia).
    lia.
  - rewrite H4, H1. unfold entries_from, failure. rewrite length_imap.
    destruct (partialError o); reflexivity.
  - exact Hcall.
  - intros j entry Hj. rewrite H1, entries_from_lookup in Hj.
    destruct (ls !! j) as [l|] eqn:Hl; [|discriminate].
    injection Hj as <-. cbn [index]. split; [lia|].
    assert (Hlt : (j < length calls)%nat).
    { apply lookup_lt_Some in Hl. lia. }
    destruct (lookup_lt_is_Some_2 calls j Hlt) as [[c t] Hct].
    destruct (Hcall j (c, t) Hct) as [Ha Ht]. cbn [fst snd] in Ha, Ht.
    exists c. split.
    + rewrite <- Ha. f_equal. lia.
    + rewrite Hct, Ht. do 3 f_equal. lia.
Qed.

(** X5: a run in which the generator answers every call with a lesson: the
    handler returns one lesson for each chunk of the window, filed
    under the consecutive numbers from [startFrom] on, no error record,
    the status 200, and an archive with one entry for each lesson. *)
Theorem orchestrate_all_lessons {Lesson : Type} (bookTitle : jsstring)
    (startFrom : Z) (chunks : list jsstring) (ls : list Lesson)
    (later : list (response Lesson)) :
  length ls = length chunks ->
  exists o,
    run (orchestrate bookTitle startFrom chunks) (List.map inr ls ++ later)
    = Some (o, calls_from bookTitle startFrom 0 chunks, later)
    /\ List.map lesson (lessons o) = ls
    /\ List.map index (lessons o)
       = List.map (fun j => startFrom + Z.of_nat j) (seq 0 (length chunks))
    /\ partialError o = None
    /\ status o = 200
    /\ zip_names o
       = List.map (fun j => js "lesson_" ++ string_of_Z (startFrom + Z.of_nat j)
                             ++ js ".json")
           (seq 0 (length chunks)).
Proof.
  intros Hlen. eexists. split.
  - unfold orchestrate. apply generate_completes. exact Hlen.
  - cbn [app lessons partialError]. split; [|split; [|split; [|split]]].
    + unfold entries_from. clear Hlen.
      assert (G : forall (f : nat -> Z) (l : list Lesson),
                 List.map lesson
                   (imap (fun j x => {| index := f j; lesson := x |}) l) = l).
      { intros f l. revert f. induction l as [|x l IH]; intros f; [reflexivity|].
        cbn [imap List.map lesson]. f_equal. apply (IH (f ∘ S)). }
      apply (G (fun j => startFrom + 0 + Z.of_nat j)).
    + rewrite entries_from_index, Hlen. apply map_ext. intros j. lia.
    + reflexivity.
    + reflexivity.
    + unfold zip_names. cbn [lessons partialError]. rewrite app_nil_r.
      rewrite <- (List.map_map index
                   (fun i => js "lesson_" ++ string_of_Z i ++ js ".json")).
      rewrite entries_from_index, Hlen, List.map_map.
      apply map_ext. intros j. do 3 f_equal. lia.
Qed.

Lemma orchestrate_all_lessons_example :
  exists o,
    run (orchestrate (js "Book") 4 [js "a b"; js "c"]) [inr tt; inr tt]
    = Some (o, calls_from (js "Book") 4 0 [js "a b"; js "c"], [])
    /\ zip_names o = [js "lesson_4.json"; js "lesson_5.json"]
    /\ status o = 200.
Proof.
  destruct (orchestrate_all_lessons (js "Book") 4 [js "a b"; js "c"]
              [tt; tt] []) as (o & H1 & _ & _ & _ & H5 & H6); [reflexivity|].
  exists o. split; [exact H1|]. split; [exact H6|exact H5].
Defined.

(** X6: the names of the entries of the output archive are pairwise
    different, whatever the generator answers: no lesson overwrites
    another one or the error record, and the archive holds one entry
    for each lesson and one more for the error. *)
Theorem zip_names_distinct {Lesson : Type} (bookTitle : jsstring)
    (startFrom : Z) (chunks : list jsstring)
    (answers : list (response Lesson)) o calls unused :
  run (orchestrate bookTitle startFrom chunks) answers
  = Some (o, calls, unused) ->
  NoDup (zip_names o)
  /\ length (zip_names o) = length calls.
Proof.
  intros H. unfold orchestrate in H.
  destruct (run_generate bookTitle startFrom chunks 0 [] answers
              o calls unused H) as (ls & H1 & _ & _ & H4 & _ & _).
  cbn [app] in H1. split.
  - unfold zip_names. rewrite H1.
    assert (Hl : NoDup
              (List.map (fun x : LessonEntry Lesson =>
                           js "lesson_" ++ string_of_Z (index x) ++ js ".json")
                 (entries_from startFrom 0 ls))).
    { rewrite <- (List.map_map index
                   (fun i => js "lesson_" ++ string_of_Z i ++ js ".json")).
      rewrite entries_from_index.
      apply NoDup_map_inj.
      - intros a b E. apply app_inv_head in E. apply app_inv_tail in E.
        apply string_of_Z_inj, E.
      - apply NoDup_map_inj; [|apply NoDup_seq].
        intros a b E. lia. }
    destruct (partialError o); [|rewrite app_nil_r; exact Hl].
    apply NoDup_app. split; [exact Hl|]. split.
    + intros x Hx Hx'. apply list_elem_of_In, in_map_iff in Hx.
      destruct Hx as (e & <- & _).
      apply list_elem_of_In in Hx'. destruct Hx' as [Hx'|[]].
      vm_compute in Hx'. discriminate.
    + apply NoDup_singleton.
  - unfold zip_names. rewrite length_app, length_map, H4, H1.
    unfold entries_from, failure. rewrite length_imap.
    destruct (partialError o); reflexivity.
Qed.

Lemma zip_names_distinct_example :
  NoDup [js "lesson_1.json"; js "import_error.json"].
Proof.
  exact (proj1 (zip_names_distinct (js "Book") 1 [js "a"; js "b"; js "c"]
                  [inr tt; inl (js "Error: timeout")]
                  {| lessons := [{| index := 1; lesson := tt |}];
                     partialError :=
                       Some {| fragment := 2;
                               error := js "Error: timeout" |} |}
                  [(js "a", lessonTitle (js "Book") 1);
                   (js "b", lessonTitle (js "Book") 2)]
                  [] eq_refl)).
Defined.

End Generation.

(** * The number of fragments *)

Module FragmentCount.
Import Fragmenter.

Lemma windows_go_count {A} (n fuel : nat) :
  (1 <= n)%nat ->
  forall l : list A, (length l <= fuel * n)%nat ->
    Z.of_nat (length (windows_go fuel n l))
    = (Z.of_nat (length l) + Z.of_nat n - 1) / Z.of_nat n.
Proof.
  intros Hn. induction fuel as [|fuel IH]; intros l Hlen.
  - destruct l; [|simpl in Hlen; lia]. simpl.
    symmetry. apply Z.div_small. lia.
  - destruct l as [|x l']; [simpl; symmetry; apply Z.div_small; lia|].
    cbn [windows_go]. set (l := x :: l') in *.
    cbn [length]. rewrite Nat2Z.inj_succ, IH by (rewrite length_drop; lia).
    rewrite length_drop.
    destruct (Nat.le_gt_cases (length l) n) as [Hle|Hgt].
    + replace (length l - n)%nat with 0%nat by lia.
      assert (1 <= length l)%nat by (subst l; simpl; lia).
      rewrite (Z.div_small (Z.of_nat 0 + _ - 1)) by lia.
      change (Z.succ 0) with 1.
      apply (Z.div_unique _ _ 1 (Z.of_nat (length l) - 1)); lia.
    + rewrite Nat2Z.inj_sub by lia.
      replace (Z.of_nat (length l) + Z.of_nat n - 1)
        with (Z.of_nat (length l) - Z.of_nat n + Z.of_nat n - 1
              + 1 * Z.of_nat n) by lia.
      rewrite Z.div_add by lia. lia.
Qed.

(** At an integer size of at least 1 the number of fragments is the
    number of words divided by the size and rounded up; no fragment
    holds more than [targetWords] words, and there are never more
    fragments than words. *)
Lemma fragment_count_integer (text : jsstring) (targetWords : Z) :
  1 <= targetWords ->
  exists chunks,
    chunkWords (length (words text)) text targetWords = Some chunks
    /\ Z.of_nat (length chunks)
       = (Z.of_nat (length (words text)) + targetWords - 1) / targetWords
    /\ (length chunks <= length (words text))%nat
    /\ Forall (fun c => Z.of_nat (word_count c) <= targetWords) chunks.
Proof.
  intros Htw.
  set (n := Z.to_nat targetWords). set (ws := words text).
  assert (Hn : (1 <= n)%nat) by (subst n; lia).
  assert (Hfuel : (length ws <= length ws * n)%nat) by nia.
  exists (List.map (join (js " ")) (windows_go (length ws) n ws)).
  split; [apply chunkWords_windows; [exact Htw|fold ws; nia]|].
  rewrite length_map. split; [|split].
  - rewrite (windows_go_count n (length ws) Hn ws Hfuel).
    subst n. rewrite Z2Nat.id by lia. reflexivity.
  - apply windows_go_length_le, Hn.
  - pose proof (windows_go_words n (length ws) ws (words_are_words text))
      as Hww.
    pose proof (windows_go_sizes n (length ws) ws Hn) as Hsz.
    apply Forall_forall. intros c Hc. rewrite map_fmap in Hc.
    apply list_elem_of_fmap in Hc. destruct Hc as [w [-> Hin]].
    rewrite Forall_forall in Hww, Hsz.
    unfold word_count. rewrite words_join by (apply Hww, Hin).
    destruct (Hsz w Hin) as [_ Hle]. subst n. lia.
Qed.

End FragmentCount.

(** * The shape of a slug *)

Module SlugShape.
Import Slug.

(** The code units of a slug: a lower-case letter, a digit, or the
    underscore. *)
Definition slug_unit (c : N) : Prop :=
  is_alnum_lower c = true \/ c = underscore.

Lemma collapse_units s : forall b, Forall slug_unit (collapse b s).
Proof.
  induction s as [|c t IH]; intros b; [constructor|].
  cbn [collapse]. destruct (is_alnum_lower c) eqn:E.
  - constructor; [left; exact E|apply IH].
  - destruct b; [apply IH|]. constructor; [right; reflexivity|apply IH].
Qed.

Lemma drop_underscores_suffix s :
  exists pre, s = pre ++ drop_underscores s.
Proof.
  induction s as [|c t [pre IH]]; [exists []; reflexivity|].
  cbn [drop_underscores]. destruct (c =? underscore)%N.
  - exists (c :: pre). cbn [app]. f_equal. exact IH.
  - exists []. reflexivity.
Qed.

Lemma drop_underscores_head s :
  head (drop_underscores s) <> Some underscore.
Proof.
  induction s as [|c t IH]; [discriminate|].
  cbn [drop_underscores]. destruct (N.eqb_spec c underscore) as [E|E].
  - exact IH.
  - cbn [head]. intros H. injection H as H. contradiction.
Qed.

Lemma drop_underscores_units s :
  Forall slug_unit s -> Forall slug_unit (drop_underscores s).
Proof.
  intros H. destruct (drop_underscores_suffix s) as [pre E].
  rewrite E in H. apply Forall_app in H. apply H.
Qed.

Lemma drop_trailing_prefix s : exists suf, s = drop_trailing s ++ suf.
Proof.
  rewrite drop_trailing_rev.
  destruct (drop_underscores_suffix (rev s)) as [pre E].
  exists (rev pre). rewrite <- rev_app_distr, <- E, rev_involutive. reflexivity.
Qed.

Lemma drop_trailing_last s :
  last (drop_trailing s) <> Some underscore.
Proof.
  rewrite drop_trailing_rev.
  pose proof (drop_underscores_head (rev s)) as H.
  destruct (drop_underscores (rev s)) as [|c t]; [discriminate|].
  cbn [rev]. rewrite last_snoc. exact H.
Qed.

Lemma trim_underscores_shape s :
  Forall slug_unit s ->
  Forall slug_unit (trim_underscores s)
  /\ head (trim_underscores s) <> Some underscore
  /\ last (trim_underscores s) <> Some underscore.
Proof.
  intros H. unfold trim_underscores. rewrite <- drop_trailing_rev.
  set (t := drop_underscores s).
  assert (Ht : Forall slug_unit t) by apply drop_underscores_units, H.
  destruct (drop_trailing_prefix t) as [suf E].
  split; [|split].
  - rewrite E in Ht. apply Forall_app in Ht. apply Ht.
  - pose proof (drop_underscores_head s) as Hh. fold t in Hh.
    rewrite E in Hh. destruct (drop_trailing t); [discriminate|exact Hh].
  - apply drop_trailing_last.
Qed.

Lemma slugify_unfold toLowerCase s :
  slugify toLowerCase s
  = let r := take 80 (trim_underscores
                        (collapse false
                           (strip is_straight_quote (trim (toLowerCase s)))))
    in match r with
       | [] => js "book"
       | _ :: _ => r
       end.
Proof.
  unfold slugify.
  rewrite strip_quotes, collapse_runs, trim_edges.
  rewrite slice_nonneg by lia. reflexivity.
Qed.

(** X8: a slug is never empty and never longer than 80 code units; it
    holds lower-case ASCII letters, digits and underscores only, so no
    slash, dot, quote or space; it never starts with an underscore, and
    it ends with one only when it was cut at 80 code units.  This holds
    whatever the lower-casing of the host does. *)
Theorem slugify_shape (toLowerCase : jsstring -> jsstring) (s : jsstring) :
  slugify toLowerCase s <> []
  /\ (length (slugify toLowerCase s) <= 80)%nat
  /\ Forall slug_unit (slugify toLowerCase s)
  /\ head (slugify toLowerCase s) <> Some underscore
  /\ ((length (slugify toLowerCase s) < 80)%nat ->
      last (slugify toLowerCase s) <> Some underscore).
Proof.
  rewrite slugify_unfold. cbv zeta.
  set (x := trim_underscores
              (collapse false
                 (strip is_straight_quote (trim (toLowerCase s))))).
  destruct (trim_underscores_shape
              (collapse false (strip is_straight_quote (trim (toLowerCase s))))
              (collapse_units _ false)) as (Hu & Hh & Hl).
  fold x in Hu, Hh, Hl.
  destruct (take 80 x) as [|c r] eqn:E.
  - split; [discriminate|]. split; [simpl; lia|].
    split; [|split; [|intros _]]; try discriminate.
    repeat constructor; vm_compute; reflexivity.
  - rewrite <- E. split; [rewrite E; discriminate|].
    split; [rewrite length_take; lia|].
    split; [apply Forall_take, Hu|].
    split.
    + destruct x as [|d x']; [discriminate|]. exact Hh.
    + intros Hlt. rewrite length_take in Hlt.
      rewrite take_ge by lia. exact Hl.
Qed.

End SlugShape.

(** * Attributes of a tag *)

Module Attributes.
Import SpineImporter TextDocs.

Definition not_quote (c : N) : bool := negb (is_quote c).

Lemma classes_within_any r : classes_within (fun _ => true) r.
Proof. induction r; simpl; auto. Qed.

(** A match that passes [k] ends where [k] starts, further on in the
    input. *)
Lemma rmatch_reads r st k res :
  rmatch r st k = Some res ->
  exists st' w, k st' = Some res /\ rest st = w ++ rest st'.
Proof.
  intros H. apply (rmatch_within _ r (classes_within_any r)) in H.
  destruct H as (st' & Hk & w & Hw & _). exists st', w. auto.
Qed.

Lemma rmatch_group r st k :
  rmatch (Group r) st k
  = rmatch r st (fun st1 =>
      k (MState (prev st1) (rest st1)
           (Some (take (consumed (rest st) st1) (rest st))))).
Proof. reflexivity. Qed.

(** What a match of the pattern of [getAttr] has read: something, a
    quote, a value without quotes that is not empty, and a quote; the
    value is the group. *)
Lemma attr_capture name st res :
  rmatch (re_attr name) st Some = Some res ->
  exists w q1 v q2,
    rest st = w ++ q1 :: v ++ q2 :: rest res
    /\ is_quote q1 = true /\ is_quote q2 = true
    /\ v <> [] /\ Forall (fun c => is_quote c = false) v
    /\ cap res = Some v.
Proof.
  unfold re_attr. intros H.
  rewrite rmatch_cat in H. apply rmatch_reads in H.
  destruct H as (st1 & w1 & H & E1).
  rewrite rmatch_cat in H. apply rmatch_reads in H.
  destruct H as (st2 & w2 & H & E2).
  rewrite rmatch_cat in H. apply rmatch_reads in H.
  destruct H as (st3 & w3 & H & E3).
  rewrite rmatch_cat in H. apply rmatch_reads in H.
  destruct H as (st4 & w4 & H & E4).
  rewrite rmatch_cat in H.
  destruct st4 as [p4 s4 g4]. cbn [rest] in E4.
  destruct s4 as [|q1 s5]; [rewrite rmatch_chr_nil in H; discriminate|].
  rewrite rmatch_chr_cons in H.
  destruct (is_quote q1) eqn:Hq1; [|discriminate].
  rewrite rmatch_cat, rmatch_group in H.
  change (fun c : N => negb (is_quote c)) with not_quote in H.
  unfold Plus in H. rewrite rmatch_cat in H.
  destruct s5 as [|c s6]; [rewrite rmatch_chr_nil in H; discriminate|].
  rewrite rmatch_chr_cons in H.
  destruct (not_quote c) eqn:Hc; [|discriminate].
  apply (rmatch_within not_quote (Star (Chr not_quote))) in H;
    [|intros x Hx; exact Hx].
  destruct H as (st7 & H & v' & E7 & Hv').
  cbn [rest prev] in H, E7.
  destruct (rest st7) as [|q2 post] eqn:E8;
    [rewrite rmatch_chr_nil in H; discriminate|].
  rewrite rmatch_chr_cons in H.
  destruct (is_quote q2) eqn:Hq2; [|discriminate].
  injection H as <-. cbn [rest cap].
  exists (w1 ++ w2 ++ w3 ++ w4), q1, (c :: v'), q2.
  split; [|split; [exact Hq1|split; [exact Hq2|split; [discriminate|split]]]].
  - rewrite E1, E2, E3, E4, E7. rewrite <- !app_assoc. reflexivity.
  - constructor.
    + unfold not_quote in Hc. apply negb_true_iff, Hc.
    + eapply Forall_impl; [exact Hv'|]. intros x Hx.
      unfold not_quote in Hx. apply negb_true_iff, Hx.
  - f_equal. unfold consumed. cbn [rest length]. rewrite E8, E7.
    rewrite length_app. cbn [length].
    replace (S (length v' + S (length post)) - S (length post))%nat
      with (length (c :: v')) by (simpl; lia).
    change (c :: v' ++ q2 :: post) with ((c :: v') ++ q2 :: post).
    apply take_app_length.
Qed.

Lemma search_go_found r s :
  forall p m g,
    search_go r p s = Some (m, g) ->
    exists pre suf n,
      s = pre ++ suf /\ exec r (prev_after p pre) suf = Some (n, g).
Proof.
  induction s as [|c t IH]; intros p m g H; cbn [search_go] in H.
  - destruct (exec r p []) as [[n g']|] eqn:E; [|discriminate].
    injection H as _ <-. exists [], [], n. split; [reflexivity|exact E].
  - destruct (exec r p (c :: t)) as [[n g']|] eqn:E.
    + injection H as _ <-. exists [], (c :: t), n. split; [reflexivity|exact E].
    + apply IH in H. destruct H as (pre & suf & n & -> & Hx).
      exists (c :: pre), suf, n. split; [reflexivity|].
      rewrite prev_after_cons. exact Hx.
Qed.

Lemma getAttr_value tag name v :
  getAttr tag name = Some v ->
  exists pre q1 q2 post,
    tag = pre ++ q1 :: v ++ q2 :: post
    /\ is_quote q1 = true /\ is_quote q2 = true
    /\ v <> [] /\ Forall (fun c => is_quote c = false) v.
Proof.
  unfold getAttr, search. intros H.
  destruct (search_go (re_attr name) None tag) as [[m g]|] eqn:E;
    [|discriminate].
  subst g. apply search_go_found in E.
  destruct E as (pre & suf & n & -> & Hx). unfold exec in Hx.
  destruct (rmatch (re_attr name) (MState (prev_after None pre) suf None) Some)
    as [res|] eqn:Hm; [|discriminate].
  injection Hx as _ Hcap. apply attr_capture in Hm.
  destruct Hm as (w & q1 & v' & q2 & Hrest & Hq1 & Hq2 & Hne & Hv & Hc).
  rewrite Hcap in Hc. injection Hc as <-. cbn [rest] in Hrest.
  exists (pre ++ w), q1, q2, (rest res).
  split; [rewrite Hrest, <- app_assoc; reflexivity|]. auto.
Qed.

(** X9: a value that [getAttr] returns is never the empty string and holds
    no quote; in the tag it stands between two quotes, which need not
    be the same one.  So the tests [id && href] and [!idref] of the
    caller reject a missing attribute only. *)
Theorem getAttr_between_quotes (tag name : jsstring) :
  match getAttr tag name with
  | None => True
  | Some v =>
      nonempty v = true
      /\ Forall (fun c => c <> dquote /\ c <> squote) v
      /\ exists pre q1 q2 post,
           tag = pre ++ q1 :: v ++ q2 :: post
           /\ (q1 = dquote \/ q1 = squote) /\ (q2 = dquote \/ q2 = squote)
  end.
Proof.
  destruct (getAttr tag name) as [v|] eqn:E; [|exact I].
  apply getAttr_value in E.
  destruct E as (pre & q1 & q2 & post & -> & Hq1 & Hq2 & Hne & Hv).
  assert (Q : forall q, is_quote q = true -> q = dquote \/ q = squote).
  { intros q Hq. unfold is_quote in Hq. apply orb_true_iff in Hq.
    destruct Hq as [Hq|Hq]; apply N.eqb_eq in Hq; auto. }
  split; [destruct v; [contradiction|reflexivity]|]. split.
  - eapply Forall_impl; [exact Hv|]. intros c Hc. unfold is_quote in Hc.
    apply orb_false_iff in Hc. destruct Hc as [H1 H2].
    apply N.eqb_neq in H1, H2. auto.
  - exists pre, q1, q2, post. auto.
Qed.

(** The pattern of [getAttr] at an attribute: the name in any case,
    white space around the equals sign, and a value between quotes. *)
Lemma exec_attr p name name' ws1 ws2 q1 v q2 post :
  ci_match name name' = true -> length name' = length name ->
  Forall (fun c => is_space c = true) ws1 ->
  Forall (fun c => is_space c = true) ws2 ->
  is_quote q1 = true -> is_quote q2 = true ->
  v <> [] -> Forall (fun c => is_quote c = false) v ->
  exists n,
    exec (re_attr name) p
      (name' ++ ws1 ++ ch "=" :: ws2 ++ q1 :: v ++ q2 :: post)
    = Some (n, Some v).
Proof.
  intros Hname Hlen Hws1 Hws2 Hq1 Hq2 Hne Hv.
  destruct v as [|c v']; [contradiction|].
  inversion Hv as [|? ? Hc Hv']; subst.
  assert (Hsp : forall q, is_quote q = true -> is_space q = false).
  { intros q Hq. unfold is_quote in Hq. apply orb_true_iff in Hq.
    destruct Hq as [Hq|Hq]; apply N.eqb_eq in Hq; subst q; reflexivity. }
  unfold exec, re_attr, Is.
  change (fun c0 : N => negb (is_quote c0)) with not_quote.
  rewrite rmatch_cat, rmatch_LitI. cbn [rest].
  assert (Hm : forall tail, ci_match name (name' ++ tail) = true).
  { clear - Hname. revert name' Hname.
    induction name as [|x w IH]; intros name' H tail; [reflexivity|].
    destruct name' as [|y name']; [discriminate|]. cbn [ci_match app] in *.
    apply andb_true_iff in H. destruct H as [H1 H2].
    rewrite H1. cbn [andb]. apply IH, H2. }
  rewrite Hm. unfold advance at 1. cbn [rest prev cap].
  rewrite <- Hlen, drop_app_length.
  rewrite rmatch_cat. unfold Space. rewrite rmatch_star_chr. cbn [rest].
  assert (Hrun1 : run_length is_space
                    (ws1 ++ ch "=" :: ws2 ++ q1 :: (c :: v') ++ q2 :: post)
                  = length ws1).
  { rewrite run_length_app by exact Hws1. cbn [run_length].
    change (is_space (ch "=")) with false. cbv iota. lia. }
  rewrite Hrun1.
  rewrite (try_down_top _ _ _ (MState (Some q2) post (Some (c :: v')))).
  { eexists. reflexivity. }
  unfold advance at 1. cbn [rest prev cap]. rewrite drop_app_length.
  rewrite rmatch_cat, rmatch_chr_cons, N.eqb_refl.
  rewrite rmatch_cat, rmatch_star_chr. cbn [rest].
  assert (Hrun2 : run_length is_space (ws2 ++ q1 :: (c :: v') ++ q2 :: post)
                  = length ws2).
  { rewrite run_length_app by exact Hws2. cbn [run_length].
    rewrite (Hsp q1 Hq1). lia. }
  rewrite Hrun2.
  apply try_down_top.
  unfold advance at 1. cbn [rest prev cap]. rewrite drop_app_length.
  rewrite rmatch_cat, rmatch_chr_cons, Hq1.
  rewrite rmatch_cat, rmatch_group. unfold Plus.
  cbn [rest app]. rewrite rmatch_plus_chr_cons.
  assert (Hnc : not_quote c = true)
    by (unfold not_quote; rewrite Hc; reflexivity).
  rewrite Hnc.
  assert (Hrun : run_length not_quote (v' ++ q2 :: post) = length v').
  { rewrite run_length_app.
    - cbn [run_length]. unfold not_quote at 1. rewrite Hq2. simpl. lia.
    - eapply Forall_impl; [exact Hv'|]. intros x Hx.
      unfold not_quote. rewrite Hx. reflexivity. }
  rewrite Hrun. apply try_down_top.
  unfold advance. cbn [rest prev cap]. rewrite drop_app_length.
  rewrite rmatch_chr_cons, Hq2. cbn [rest cap].
  unfold consumed. cbn [rest length]. rewrite !length_app. cbn [length].
  replace (S (length v' + S (length post)) - S (length post))%nat
    with (length (c :: v')) by (simpl; lia).
  change (c :: v' ++ q2 :: post) with ((c :: v') ++ q2 :: post).
  rewrite (take_app_length (c :: v')). reflexivity.
Qed.

(** [s] begins like the word [w], without regard to case, as far as
    [s] goes. *)
Fixpoint begins_like (w s : jsstring) : bool :=
  match w, s with
  | p :: w', c :: s' => eq_ci p c && begins_like w' s'
  | _, _ => true
  end.

(** The word [w] starts nowhere in [pre], not even at its end. *)
Fixpoint starts_nowhere (w pre : jsstring) : bool :=
  match pre with
  | [] => true
  | _ :: t => negb (begins_like w pre) && starts_nowhere w t
  end.

Lemma ci_match_begins w :
  forall b tail, ci_match w (b ++ tail) = true -> begins_like w b = true.
Proof.
  induction w as [|p w IH]; intros b tail H; [reflexivity|].
  destruct b as [|c b]; [reflexivity|]. cbn [app ci_match begins_like] in *.
  apply andb_true_iff in H. destruct H as [H1 H2].
  rewrite H1. apply (IH b tail H2).
Qed.

Lemma starts_nowhere_spec w pre :
  starts_nowhere w pre = true ->
  forall a b tail, pre = a ++ b -> b <> [] -> ci_match w (b ++ tail) = false.
Proof.
  intros H a. revert pre H. induction a as [|x a IH]; intros pre H b tail E Hb.
  - cbn [app] in E. subst b. destruct pre as [|c t]; [contradiction|].
    cbn [starts_nowhere] in H. apply andb_true_iff in H. destruct H as [H _].
    apply negb_true_iff in H.
    destruct (ci_match w ((c :: t) ++ tail)) eqn:Hm; [|reflexivity].
    apply ci_match_begins in Hm. congruence.
  - destruct pre as [|c t]; [discriminate|]. injection E as -> E.
    cbn [starts_nowhere] in H. apply andb_true_iff in H. destruct H as [_ H].
    apply (IH t H b tail E Hb).
Qed.

(** X10: in a tag whose first occurrence of the attribute name is followed
    by an equals sign, with or without white space around it, and a
    value between quotes, [getAttr] returns this value: the name may be
    written in any case, and each quote may be single or double. *)
Theorem getAttr_reads_value (name pre name' ws1 ws2 v post : jsstring)
    (q1 q2 : N) :
  ci_match name name' = true -> length name' = length name ->
  Forall (fun c => is_space c = true) ws1 ->
  Forall (fun c => is_space c = true) ws2 ->
  is_quote q1 = true -> is_quote q2 = true ->
  v <> [] -> Forall (fun c => is_quote c = false) v ->
  starts_nowhere name pre = true ->
  getAttr (pre ++ name' ++ ws1 ++ ch "=" :: ws2 ++ q1 :: v ++ q2 :: post)
    name
  = Some v.
Proof.
  intros Hname Hlen Hws1 Hws2 Hq1 Hq2 Hne Hv Hfirst.
  destruct (exec_attr (prev_after None pre) name name' ws1 ws2 q1 v q2 post
              Hname Hlen Hws1 Hws2 Hq1 Hq2 Hne Hv) as [n Hn].
  unfold getAttr, search.
  rewrite (ReadingOrder.search_go_first (re_attr name) _ n (Some v) pre None);
    [reflexivity| |exact Hn].
  intros a b E Hb. unfold exec, re_attr.
  rewrite rmatch_cat, rmatch_LitI. cbn [rest].
  rewrite (starts_nowhere_spec name pre Hfirst a b _ E Hb). reflexivity.
Qed.

Lemma getAttr_reads_value_example :
  getAttr (js "<item " ++ js "ID" ++ js " " ++ ch "=" :: js " " ++ squote
             :: js "c1" ++ dquote :: js " href='ch1.xhtml'/>") (js "id")
  = Some (js "c1").
Proof.
  apply (getAttr_reads_value (js "id") (js "<item ") (js "ID") (js " ")
           (js " ") (js "c1") (js " href='ch1.xhtml'/>") squote dquote);
    try reflexivity; try discriminate; repeat constructor.
Defined.

End Attributes.

(** * The manifest of the package *)

Module Manifest.
Import SpineImporter Attributes.

Lemma getAttr_nonempty tag name v : getAttr tag name = Some v -> nonempty v = true.
Proof.
  intros H. apply getAttr_value in H.
  destruct H as (_ & _ & _ & _ & _ & _ & _ & Hne & _).
  destruct v; [contradiction|reflexivity].
Qed.

(** What one [item] tag declares: its [id] with its [href], when it
    has both and the [id] is not the name of the prototype link. *)
Definition declares (tag : jsstring) : option (jsstring * jsstring) :=
  match getAttr tag (js "id"), getAttr tag (js "href") with
  | Some id, Some href =>
      if bool_decide (id = js "__proto__") then None else Some (id, href)
  | _, _ => None
  end.

Lemma manifest_step_declares m tag :
  manifest_step m tag
  = match declares tag with
    | Some (id, href) => <[id := href]> m
    | None => m
    end.
Proof.
  unfold manifest_step, declares, set_manifest.
  destruct (getAttr tag (js "id")) as [id|] eqn:Hid; [|reflexivity].
  destruct (getAttr tag (js "href")) as [href|] eqn:Hhref; [|reflexivity].
  rewrite (getAttr_nonempty _ _ _ Hid), (getAttr_nonempty _ _ _ Hhref).
  cbn [andb]. case_bool_decide; reflexivity.
Qed.

Lemma manifest_fold_absent tags id :
  Forall (fun t => forall href, declares t <> Some (id, href)) tags ->
  forall m, fold_left manifest_step tags m !! id = m !! id.
Proof.
  induction 1 as [|t tags Ht _ IH]; intros m; [reflexivity|].
  cbn [fold_left]. rewrite IH, manifest_step_declares.
  destruct (declares t) as [[id' href']|]; [|reflexivity].
  apply lookup_insert_ne. intros ->. exact (Ht href' eq_refl).
Qed.

(** X11: the manifest map holds, for an [id], the [href] of the last
    [item] tag that declares it; an [id] that no tag declares is not in
    the map, and the key [__proto__] never is. *)
Theorem manifest_last_declaration (opfXml : jsstring) :
  (forall before tag after id href,
      match_all re_item opfXml = before ++ tag :: after ->
      declares tag = Some (id, href) ->
      Forall (fun t => forall href', declares t <> Some (id, href')) after ->
      manifest_of opfXml !! id = Some href)
  /\ (forall id,
        Forall (fun t => forall href, declares t <> Some (id, href))
          (match_all re_item opfXml) ->
        manifest_of opfXml !! id = None)
  /\ manifest_of opfXml !! js "__proto__" = None.
Proof.
  unfold manifest_of. split; [|split].
  - intros before tag after id href E Hd Hafter.
    rewrite E, fold_left_app. cbn [fold_left].
    rewrite manifest_fold_absent by exact Hafter.
    rewrite manifest_step_declares, Hd. apply lookup_insert_eq.
  - intros id H. rewrite manifest_fold_absent by exact H. apply lookup_empty.
  - rewrite manifest_fold_absent; [apply lookup_empty|].
    apply Forall_forall. intros t _ href. unfold declares.
    destruct (getAttr t (js "id")) as [id|]; [|discriminate].
    destruct (getAttr t (js "href")) as [h|]; [|discriminate].
    case_bool_decide as E; [discriminate|].
    intros H. injection H as H _. contradiction.
Qed.

Lemma manifest_last_declaration_example :
  manifest_of
    (js "<item id='c1' href='old.xhtml'/><item id='c2' href='two.xhtml'/>"
     ++ js "<item id='c1' href='new.xhtml'/>")
    !! js "c1"
  = Some (js "new.xhtml").
Proof.
  apply (proj1 (manifest_last_declaration _)
           [js "<item id='c1' href='old.xhtml'/>";
            js "<item id='c2' href='two.xhtml'/>"]
           (js "<item id='c1' href='new.xhtml'/>") []);
    [reflexivity|reflexivity|constructor].
Defined.

End Manifest.

(** * The reading order and the text of the book *)

Module SpineText.
Import SpineImporter TextDocs ReadingOrder ImportHandler SpineHandler.

Lemma usable_own files p :
  usable files p -> exists html, get_file files p = OwnValue html.
Proof.
  intros [_ Hk]. apply own_key_Some in Hk. destruct Hk as [v Hv].
  exists v. unfold get_file. rewrite Hv. reflexivity.
Qed.

Lemma fallback_usable localeCompare files :
  Forall (usable files) (fallback_paths localeCompare files).
Proof.
  unfold fallback_paths. rewrite merge_sort_Permutation.
  apply Forall_forall. intros p Hp.
  apply list_elem_of_In, filter_In in Hp. destruct Hp as [Hk Ht].
  split; [apply is_text_doc_spec, Ht|exact Hk].
Qed.

Lemma extract_usable other localeCompare files opfPath paths :
  extractSpineHtmlPaths other localeCompare files opfPath = Ok paths ->
  Forall (usable files) paths.
Proof.
  unfold extractSpineHtmlPaths. intros H.
  destruct (read_text other files opfPath) as [opfXml|]; [|discriminate].
  destruct (spine_paths files opfPath opfXml) as [sp|] eqn:E; [|discriminate].
  apply spine_paths_usable in E.
  destruct sp; injection H as <-; [apply fallback_usable|exact E].
Qed.

Lemma combine_usable other files paths :
  Forall (usable files) paths ->
  forall acc,
    combine other files paths acc
    = Ok (fold_left
            (fun acc p =>
               acc ++ [newline; newline]
                   ++ SpineImporter.stripHtml (entry_text files p))
            paths acc).
Proof.
  induction 1 as [|p paths [_ Hp] _ IH]; intros acc; [reflexivity|].
  cbn [combine fold_left]. unfold get_file, entry_text.
  apply own_key_Some in Hp. destruct Hp as [v ->]. apply IH.
Qed.

(** X12: every path of the reading order, from the spine or from the
    fallback, has a text extension and is a key of the archive with an
    entry of its own; the list is not empty.  So the loop that builds
    the text passes over no path and hands the decoder byte arrays
    only: the text is the stripped text of every document of the
    reading order, each after two line feeds. *)
Theorem readingOrder_entries (toLowerCase : jsstring -> jsstring)
    (strFromU8_other : jsstring -> result jsstring)
    (localeCompare : jsstring -> jsstring -> Z)
    (files : Archive) (htmlPaths : list jsstring) :
  readingOrder toLowerCase strFromU8_other localeCompare files
  = Ok htmlPaths ->
  htmlPaths <> []
  /\ Forall (fun p => text_extension p
                      /\ exists html, get_file files p = OwnValue html)
       htmlPaths
  /\ combine strFromU8_other files htmlPaths []
     = Ok (fold_left
             (fun acc p =>
                acc ++ [newline; newline]
                    ++ SpineImporter.stripHtml (entry_text files p))
             htmlPaths []).
Proof.
  unfold readingOrder. intros H.
  destruct (findOpfPath toLowerCase files) as [opfPath|]; [|discriminate].
  destruct (extractSpineHtmlPaths strFromU8_other localeCompare files opfPath)
    as [paths|] eqn:E; [|discriminate].
  apply extract_usable in E.
  destruct paths as [|p paths]; [discriminate|]. injection H as <-.
  split; [discriminate|]. split.
  - eapply Forall_impl; [exact E|]. intros q Hq.
    split; [apply Hq|apply usable_own, Hq].
  - apply combine_usable, E.
Qed.

Lemma readingOrder_entries_example :
  combine raises (book opf_with_unknown_idref) [js "OEBPS/ch1.xhtml"] []
  = Ok ([newline; newline] ++ js "One").
Proof.
  destruct (readingOrder_entries toLowerCase_ascii raises codeunit_compare
              (book opf_with_unknown_idref) [js "OEBPS/ch1.xhtml"])
    as (_ & _ & H); [reflexivity|].
  rewrite H. reflexivity.
Defined.

(** X13: the resolution of the spine raises exactly when some [itemref]
    names, as its [idref], a property that the manifest object
    inherits and that no [item] declares; the error is then the type
    error of [href.split]. *)
Theorem spine_paths_raises (files : Archive) (opfPath opfXml : jsstring)
    (e : error) :
  spine_paths files opfPath opfXml = Throw e
  <-> e = TypeError
      /\ exists tag idref,
           In tag (match_all re_itemref opfXml)
           /\ getAttr tag (js "idref") = Some idref
           /\ manifest_of opfXml !! idref = None
           /\ idref ∈ object_prototype_keys.
Proof.
  unfold spine_paths. split; [apply spine_loop_throws|].
  intros (-> & tag & idref & Hin & Hrest).
  generalize (@nil jsstring) as acc.
  induction (match_all re_itemref opfXml) as [|t tags IH]; intros acc;
    [contradiction|].
  cbn [spine_loop].
  destruct (spine_step files (baseDir_of opfPath) (manifest_of opfXml) acc t)
    as [acc'|e'] eqn:E.
  - destruct Hin as [->|Hin]; [|apply IH, Hin].
    assert (Ht : spine_step files (baseDir_of opfPath) (manifest_of opfXml)
                   acc tag = Throw TypeError).
    { apply spine_step_throws. split; [reflexivity|]. exists idref. exact Hrest. }
    congruence.
  - apply spine_step_throws in E. destruct E as [-> _]. reflexivity.
Qed.

Lemma spine_step_appends files baseDir m acc tag acc' :
  spine_step files baseDir m acc tag = Ok acc' ->
  exists new,
    acc' = acc ++ new
    /\ forall acc2, spine_step files baseDir m acc2 tag = Ok (acc2 ++ new).
Proof.
  unfold spine_step. intros H.
  destruct (getAttr tag (js "idref")) as [idref|];
    [|injection H as <-; exists []; split; [|intros acc2];
      rewrite app_nil_r; reflexivity].
  destruct (negb (nonempty idref));
    [injection H as <-; exists []; split; [|intros acc2];
     rewrite app_nil_r; reflexivity|].
  destruct (get_manifest m idref) as [href| |];
    [|discriminate
     |injection H as <-; exists []; split; [|intros acc2];
      rewrite app_nil_r; reflexivity].
  destruct (negb (nonempty href));
    [injection H as <-; exists []; split; [|intros acc2];
     rewrite app_nil_r; reflexivity|].
  destruct (negb (is_text_doc (normalizePath baseDir href)));
    [injection H as <-; exists []; split; [|intros acc2];
     rewrite app_nil_r; reflexivity|].
  destruct (get_file files (normalizePath baseDir href));
    injection H as <-;
    try (exists [normalizePath baseDir href]; split; [|intros acc2];
         reflexivity).
  exists []. split; [|intros acc2]; rewrite app_nil_r; reflexivity.
Qed.

Lemma spine_loop_appends files baseDir m tags :
  forall acc paths,
    spine_loop files baseDir m tags acc = Ok paths ->
    exists new,
      paths = acc ++ new
      /\ forall acc2, spine_loop files baseDir m tags acc2 = Ok (acc2 ++ new).
Proof.
  induction tags as [|t tags IH]; intros acc paths H.
  - injection H as <-. exists []. split; [|intros acc2];
      rewrite app_nil_r; reflexivity.
  - cbn [spine_loop] in H.
    destruct (spine_step files baseDir m acc t) as [acc'|] eqn:E;
      [|discriminate].
    apply spine_step_appends in E. destruct E as (n1 & -> & E1).
    apply IH in H. destruct H as (n2 & -> & E2).
    exists (n1 ++ n2). split; [rewrite app_assoc; reflexivity|].
    intros acc2. cbn [spine_loop]. rewrite E1, E2, app_assoc. reflexivity.
Qed.

(** X14: the spine keeps the order of the package document: the paths of
    two stretches of [itemref] tags, one after the other, are the
    paths of the first stretch followed by those of the second.  A
    document that the spine lists twice is in the reading order
    twice. *)
Theorem spine_loop_in_document_order (files : Archive) (baseDir : jsstring)
    (m : gmap jsstring jsstring) (tags1 tags2 paths : list jsstring) :
  spine_loop files baseDir m (tags1 ++ tags2) [] = Ok paths
  <-> exists paths1 paths2,
        spine_loop files baseDir m tags1 [] = Ok paths1
        /\ spine_loop files baseDir m tags2 [] = Ok paths2
        /\ paths = paths1 ++ paths2.
Proof.
  assert (Happ : forall t1 acc,
            spine_loop files baseDir m (t1 ++ tags2) acc
            = match spine_loop files baseDir m t1 acc with
              | Ok acc' => spine_loop files baseDir m tags2 acc'
              | Throw e => Throw e
              end).
  { induction t1 as [|t t1 IH]; intros acc; [reflexivity|].
    cbn [app spine_loop].
    destruct (spine_step files baseDir m acc t); [apply IH|reflexivity]. }
  rewrite Happ. split.
  - intros H.
    destruct (spine_loop files baseDir m tags1 []) as [p1|] eqn:E1;
      [|discriminate].
    apply spine_loop_appends in H. destruct H as (p2 & -> & H2).
    exists p1, p2. split; [reflexivity|]. split; [apply (H2 [])|reflexivity].
  - intros (p1 & p2 & E1 & E2 & ->). rewrite E1.
    apply spine_loop_appends in E2. destruct E2 as (n2 & E & H2).
    cbn [app] in E. subst n2. apply H2.
Qed.

End SpineText.

(** * The lessons and the archive of the spine revision *)

Module SpineLessons.
Import Importer SpineHandler Generation.

Section Strict.
Context {Lesson : Type}.
Variable bookTitle : jsstring.

Definition numbered (i : Z) (ls : list Lesson) : list (LessonEntry Lesson) :=
  imap (fun j l => {| index := i + 1 + Z.of_nat j; lesson := l |}) ls.

Definition titled (i : Z) (cs : list jsstring) : list (jsstring * jsstring) :=
  imap (fun j c => (c, SpineHandler.lessonTitle bookTitle (i + 1 + Z.of_nat j)))
    cs.

Lemma numbered_cons i l ls :
  numbered i (l :: ls) = {| index := i + 1; lesson := l |} :: numbered (i + 1) ls.
Proof.
  unfold numbered. rewrite imap_cons. f_equal.
  - f_equal. lia.
  - apply imap_ext. intros j x _. simpl. f_equal. lia.
Qed.

Lemma titled_cons i c cs :
  titled i (c :: cs)
  = (c, SpineHandler.lessonTitle bookTitle (i + 1)) :: titled (i + 1) cs.
Proof.
  unfold titled. rewrite imap_cons. f_equal.
  - do 2 f_equal. lia.
  - apply imap_ext. intros j x _. simpl. do 2 f_equal. lia.
Qed.

(** Every run of the loop without [try]: it ends with all the lessons,
    or with the first error and nothing else. *)
Lemma run_strict :
  forall (chunks : list jsstring) (i : Z) (acc : list (LessonEntry Lesson))
         (answers : list (response Lesson)) r calls unused,
    run (SpineHandler.generate bookTitle i chunks acc) answers
    = Some (r, calls, unused) ->
    match r with
    | inr lessons =>
        exists ls,
          lessons = acc ++ numbered i ls
          /\ length ls = length chunks
          /\ answers = List.map inr ls ++ unused
          /\ calls = titled i chunks
    | inl e =>
        exists earlier,
          answers = List.map inr earlier ++ inl e :: unused
          /\ (length earlier < length chunks)%nat
          /\ calls = titled i (take (S (length earlier)) chunks)
    end.
Proof.
  induction chunks as [|c chunks IH]; intros i acc answers r calls unused H.
  - cbn [SpineHandler.generate run] in H. injection H as <- <- <-.
    exists []. rewrite app_nil_r. repeat split.
  - cbn [SpineHandler.generate run] in H.
    destruct answers as [|a answers]; [discriminate|].
    destruct a as [e|l].
    + cbn [run] in H. injection H as <- <- <-.
      exists []. cbn [List.map app length]. split; [reflexivity|].
      split; [lia|]. cbn [take]. rewrite take_0. unfold titled. cbn [imap].
      rewrite Z.add_0_r. reflexivity.
    + destruct (run (SpineHandler.generate bookTitle (i + 1) chunks
                       (acc ++ [{| index := i + 1; lesson := l |}]))
                  answers) as [[[r' calls'] unused']|] eqn:E; [|discriminate].
      injection H as <- <- <-. apply IH in E.
      destruct r' as [e|lessons].
      * destruct E as (earlier & -> & Hlt & ->).
        exists (l :: earlier). split; [reflexivity|].
        split; [simpl; lia|].
        change (take (S (length (l :: earlier))) (c :: chunks))
          with (c :: take (S (length earlier)) chunks).
        rewrite titled_cons. reflexivity.
      * destruct E as (ls & -> & Hlen & -> & ->).
        exists (l :: ls). rewrite numbered_cons, titled_cons, <- app_assoc.
        repeat split. simpl. lia.
Qed.

Lemma numbered_index i (ls : list Lesson) :
  List.map index (numbered i ls)
  = List.map (fun j => i + 1 + Z.of_nat j) (seq 0 (length ls)).
Proof.
  revert i. induction ls as [|l ls IH]; intros i; [reflexivity|].
  rewrite numbered_cons. cbn [List.map length seq index].
  f_equal; [lia|]. rewrite IH, <- seq_shift, List.map_map.
  apply map_ext. intros j. lia.
Qed.

End Strict.

(** X15: the generation loop of the spine revision is all or nothing: when
    the generator answers every call with a lesson, the handler has the
    lessons of all the chunks, numbered from 1; when an answer is an
    error, the handler is left with this error alone, and the lessons
    of the calls before it are lost, although these calls were made. *)
Theorem generate_all_or_nothing {Lesson : Type} (bookTitle : jsstring)
    (chunks : list jsstring) (answers : list (response Lesson))
    r calls unused :
  run (SpineHandler.generate bookTitle 0 chunks []) answers
  = Some (r, calls, unused) ->
  match r with
  | inr lessons =>
      answers = List.map inr (List.map lesson lessons) ++ unused
      /\ List.map index lessons
         = List.map (fun j => 1 + Z.of_nat j) (seq 0 (length chunks))
      /\ length calls = length chunks
  | inl e =>
      exists earlier : list Lesson,
        answers = List.map inr earlier ++ inl e :: unused
        /\ (length earlier < length chunks)%nat
        /\ length calls = S (length earlier)
  end.
Proof.
  intros H. apply run_strict in H. destruct r as [e|lessons].
  - destruct H as (earlier & -> & Hlt & ->).
    exists earlier. split; [reflexivity|]. split; [exact Hlt|].
    unfold titled. rewrite length_imap, length_take. lia.
  - destruct H as (ls & -> & Hlen & -> & ->). cbn [app].
    split; [|split].
    + do 2 f_equal. unfold numbered. clear Hlen.
      assert (G : forall (f : nat -> Z) (l : list Lesson),
                 List.map lesson
                   (imap (fun j x => {| index := f j; lesson := x |}) l) = l).
      { intros f l. revert f. induction l as [|x l IH]; intros f; [reflexivity|].
        cbn [imap List.map lesson]. f_equal. apply (IH (f ∘ S)). }
      symmetry. apply (G (fun j => 0 + 1 + Z.of_nat j)).
    + rewrite numbered_index, Hlen. apply map_ext. intros j. lia.
    + unfold titled. apply length_imap.
Qed.

Lemma generate_all_or_nothing_example :
  exists earlier : list unit,
    [inr tt; inl (js "Error: timeout"); inr tt]
    = List.map inr earlier ++ inl (js "Error: timeout") :: [inr tt]
    /\ (length earlier < 3)%nat
    /\ length [(js "a", SpineHandler.lessonTitle (js "Book") 1);
               (js "b", SpineHandler.lessonTitle (js "Book") 2)]
       = S (length earlier).
Proof.
  exact (generate_all_or_nothing (js "Book") [js "a"; js "b"; js "c"]
           [inr tt; inl (js "Error: timeout"); inr tt]
           (inl (js "Error: timeout"))
           [(js "a", SpineHandler.lessonTitle (js "Book") 1);
            (js "b", SpineHandler.lessonTitle (js "Book") 2)]
           [inr tt] eq_refl).
Defined.

End SpineLessons.

(** * Resolution of a path against the package directory *)

Module Resolution.
Import SpineImporter Paths.

(** X16: a normalized path is made of segments that are not empty and are
    neither the dot nor the double dot, joined by single slashes: it
    neither starts nor ends with a slash, and it names no place above
    the root of the archive, whatever the base and the href are. *)
Theorem normalizePath_plain_segments (baseDir href : jsstring) :
  exists segs,
    normalizePath baseDir href = join (js "/") segs
    /\ Forall plain_segment segs
    /\ segments (normalizePath baseDir href) = segs
    /\ head (normalizePath baseDir href) <> Some slash
    /\ last (normalizePath baseDir href) <> Some slash.
Proof.
  exists (normal_segments baseDir href).
  pose proof (normal_segments_plain baseDir href) as H.
  assert (E : normalizePath baseDir href
              = join (js "/") (normal_segments baseDir href)) by reflexivity.
  split; [exact E|]. split; [exact H|]. split; [|split].
  - rewrite E. apply segments_join, H.
  - rewrite E. destruct H as [|x l (Hne & Hfree & _) _]; [discriminate|].
    destruct x as [|c x']; [contradiction|].
    inversion Hfree as [|? ? Hc _]; subst.
    destruct l; cbn [join app head]; intros E'; injection E' as ->;
      contradiction.
  - rewrite E. clear E.
    induction H as [|x l (Hne & Hfree & _) Hl IH]; [discriminate|].
    destruct l as [|y l'].
    + cbn [join]. destruct x as [|c x'] using rev_ind; [contradiction|].
      rewrite last_snoc. apply Forall_app in Hfree. destruct Hfree as [_ Hc].
      inversion Hc as [|? ? Hc' _]; subst.
      intros E'; injection E' as ->; contradiction.
    + change (join (js "/") (x :: y :: l'))
        with (x ++ js "/" ++ join (js "/") (y :: l')).
      rewrite app_assoc.
      destruct (join (js "/") (y :: l')) as [|c r] eqn:Ej using rev_ind.
      * exfalso. inversion Hl as [|? ? (Hy & _) _]; subst.
        destruct y; [contradiction|]. destruct l'; discriminate.
      * rewrite app_assoc, last_snoc. rewrite last_snoc in IH. exact IH.
Qed.

(** A fragment is cut off the href before the resolution. *)
Lemma hd_split_fragment href fragment :
  free_of hash href ->
  hd [] (split_char hash (href ++ hash :: fragment)) = href.
Proof. intros H. rewrite split_char_app by exact H. reflexivity. Qed.

Lemma join_app_parts (sep : jsstring) (a b : list jsstring) :
  a <> [] -> b <> [] -> join sep (a ++ b) = join sep a ++ sep ++ join sep b.
Proof.
  intros Ha Hb. induction a as [|x a IH]; [contradiction|].
  destruct a as [|y a'].
  - destruct b; [contradiction|]. reflexivity.
  - change (join sep ((x :: y :: a') ++ b))
      with (x ++ sep ++ join sep ((y :: a') ++ b)).
    rewrite IH by discriminate.
    change (join sep (x :: y :: a')) with (x ++ sep ++ join sep (y :: a')).
    rewrite <- !app_assoc. reflexivity.
Qed.

Lemma after_last_slash_none s : free_of slash s -> after_last_slash s = None.
Proof.
  induction 1 as [|c s Hc _ IH]; [reflexivity|].
  cbn [after_last_slash]. rewrite IH.
  change (ch "/") with slash.
  destruct (N.eqb_spec c slash); [contradiction|reflexivity].
Qed.

Lemma after_last_slash_app pre name :
  free_of slash name ->
  after_last_slash (pre ++ slash :: name) = Some (length name).
Proof.
  intros Hn. induction pre as [|c pre IH].
  - cbn [app after_last_slash]. rewrite after_last_slash_none by exact Hn.
    change (ch "/") with slash. rewrite N.eqb_refl. reflexivity.
  - cbn [app after_last_slash]. rewrite IH. reflexivity.
Qed.

Lemma baseDir_of_file dir name :
  free_of slash name ->
  baseDir_of name = []
  /\ baseDir_of (dir ++ slash :: name) = dir ++ [slash].
Proof.
  intros Hn. unfold baseDir_of. split.
  - rewrite after_last_slash_none by exact Hn. reflexivity.
  - rewrite after_last_slash_app by exact Hn.
    rewrite length_app. cbn [length].
    replace (length dir + S (length name) - length name)%nat
      with (length (dir ++ [slash])) by (rewrite length_app; simpl; lia).
    change (dir ++ slash :: name) with (dir ++ [slash] ++ name).
    rewrite app_assoc. apply take_app_length.
Qed.

(** X17: the href of a manifest item is resolved against the directory of
    the package document: for a package document [file] in the
    directories [dirs] and an href made of the plain segments [segs],
    with or without a fragment after it, the path is made of [dirs]
    followed by [segs].  For a package document at the root of the
    archive the path is the href without its fragment. *)
Theorem normalizePath_relative_to_package
    (dirs segs : list jsstring) (file fragment : jsstring) :
  Forall plain_segment dirs -> Forall plain_segment segs ->
  Forall (free_of hash) segs -> segs <> [] -> free_of slash file ->
  let opfPath := join (js "/") (dirs ++ [file]) in
  let href := join (js "/") segs in
  normalizePath (baseDir_of opfPath) href = join (js "/") (dirs ++ segs)
  /\ normalizePath (baseDir_of opfPath) (href ++ hash :: fragment)
     = join (js "/") (dirs ++ segs).
Proof.
  intros Hd Hs Hh Hne Hf opfPath href.
  assert (Hhref : free_of hash href)
    by (apply free_of_join; [discriminate|exact Hh]).
  assert (Hbase : baseDir_of opfPath ++ href = join (js "/") (dirs ++ segs)).
  { subst opfPath. destruct dirs as [|d dirs'].
    - cbn [app join].
      destruct (baseDir_of_file [] file Hf) as [-> _]. reflexivity.
    - rewrite join_app_parts by discriminate.
      change (js "/" ++ join (js "/") [file]) with (slash :: file).
      destruct (baseDir_of_file (join (js "/") (d :: dirs')) file Hf)
        as [_ ->].
      rewrite (join_app_parts (js "/") (d :: dirs') segs)
        by (discriminate || exact Hne).
      rewrite <- app_assoc. reflexivity. }
  assert (E : forall clean, clean = href ->
            join (js "/")
              (fold_left resolve_step
                 (segments (baseDir_of opfPath ++ clean)) [])
            = join (js "/") (dirs ++ segs)).
  { intros clean ->. rewrite Hbase.
    apply normalize_segments, Forall_app. split; assumption. }
  split; unfold normalizePath; apply E.
  - change (ch "#") with hash. rewrite split_char_no_sep by exact Hhref.
    reflexivity.
  - change (ch "#") with hash. apply hd_split_fragment, Hhref.
Qed.

Lemma normalizePath_relative_to_package_example :
  normalizePath (baseDir_of (js "OEBPS/content.opf")) (js "text/ch1.xhtml")
  = js "OEBPS/text/ch1.xhtml"
  /\ normalizePath (baseDir_of (js "OEBPS/content.opf"))
       (js "text/ch1.xhtml#top")
     = js "OEBPS/text/ch1.xhtml".
Proof.
  apply (normalizePath_relative_to_package [js "OEBPS"]
           [js "text"; js "ch1.xhtml"] (js "content.opf") (js "top")).
  - repeat constructor; discriminate.
  - repeat constructor; discriminate.
  - repeat constructor; discriminate.
  - discriminate.
  - repeat constructor; discriminate.
Defined.

End Resolution.

(** * The test for a text document and the container *)

Module Container.
Import SpineImporter TextDocs ReadingOrder Attributes.

(** X18: the test that selects the documents accepts exactly the names
    that end in a dot and one of the extensions xhtml, html and htm,
    the letters of the extension in either ASCII case. *)
Theorem is_text_doc_extension (p : jsstring) :
  is_text_doc p = true
  <-> exists stem ext,
        p = stem ++ ext
        /\ (toLowerCase_ascii ext = js ".xhtml"
            \/ toLowerCase_ascii ext = js ".html"
            \/ toLowerCase_ascii ext = js ".htm").
Proof. apply is_text_doc_spec. Qed.

Lemma find_first {A} (f : A -> bool) before x after :
  Forall (fun y => f y = false) before -> f x = true ->
  List.find f (before ++ x :: after) = Some x.
Proof.
  induction 1 as [|y before Hy _ IH]; intros Hx; cbn [app List.find].
  - rewrite Hx. reflexivity.
  - rewrite Hy. apply IH, Hx.
Qed.

Lemma find_none {A} (f : A -> bool) l :
  List.find f l = None <-> Forall (fun y => f y = false) l.
Proof.
  induction l as [|y l IH]; cbn [List.find].
  - split; [constructor|reflexivity].
  - destruct (f y) eqn:E.
    + split; [discriminate|]. intros H. inversion H; congruence.
    + rewrite IH. split; [intros H; constructor; assumption|].
      intros H. inversion H; assumption.
Qed.

(** X19: [findOpfPath] raises its first error exactly when no key of the
    archive ends, in lower case, in the path of the container; else it
    reads the first such entry in the order of the keys and no other
    one, and it raises its second error exactly when the pattern
    matches nowhere in the text of this entry. *)
Theorem findOpfPath_first_container (toLowerCase : jsstring -> jsstring)
    (files : Archive) :
  (findOpfPath toLowerCase files = Throw ContainerNotFound
   <-> Forall (fun k => endsWith (toLowerCase k)
                          (js "meta-inf/container.xml") = false)
         (keys files))
  /\ (forall before container xml after,
        files = before ++ (container, xml) :: after ->
        Forall (fun k => endsWith (toLowerCase k)
                           (js "meta-inf/container.xml") = false)
          (keys before) ->
        endsWith (toLowerCase container) (js "meta-inf/container.xml")
        = true ->
        findOpfPath toLowerCase files
        = findOpfPath toLowerCase [(container, xml)]
        /\ (findOpfPath toLowerCase files = Throw OpfPathNotFound
            <-> search re_full_path xml = None)).
Proof.
  split.
  - unfold findOpfPath.
    destruct (List.find (is_container toLowerCase) files) as [[k xml]|] eqn:E.
    + split.
      * destruct (search re_full_path xml) as [[m [path|]]|]; discriminate.
      * intros H. exfalso. apply find_some in E. destruct E as [Hin Hc].
        unfold keys in H. rewrite Forall_forall in H.
        specialize (H k). unfold is_container in Hc. cbn [fst] in Hc.
        rewrite H in Hc; [discriminate|].
        apply list_elem_of_In, in_map_iff. exists (k, xml). auto.
    + split; [intros _|reflexivity].
      apply find_none in E. unfold keys.
      apply Forall_forall. intros k Hk.
      apply list_elem_of_In, in_map_iff in Hk.
      destruct Hk as ([k' xml] & <- & Hin).
      rewrite Forall_forall in E. apply (E (k', xml)), list_elem_of_In, Hin.
  - intros before container xml after -> Hb Hc.
    assert (Hf : List.find (is_container toLowerCase)
                   (before ++ (container, xml) :: after)
                 = Some (container, xml)).
    { apply find_first; [|exact Hc].
      unfold keys in Hb. apply Forall_forall. intros [k x] Hin.
      rewrite Forall_forall in Hb. apply Hb.
      apply list_elem_of_In, in_map_iff. exists (k, x).
      split; [reflexivity|apply list_elem_of_In, Hin]. }
    unfold findOpfPath. rewrite Hf.
    cbn [List.find]. unfold is_container at 1. cbn [fst]. rewrite Hc.
    split; [reflexivity|].
    destruct (search re_full_path xml) as [[m [path|]]|] eqn:E.
    + split; discriminate.
    + exfalso. unfold search in E. apply search_go_found in E.
      destruct E as (pre & suf & n & _ & Hx). unfold exec in Hx.
      destruct (rmatch re_full_path _ Some) as [res|] eqn:Hm; [|discriminate].
      injection Hx as _ Hcap.
      unfold re_full_path in Hm.
      rewrite rmatch_cat in Hm. apply rmatch_reads in Hm.
      destruct Hm as (st1 & w1 & Hm & _).
      rewrite rmatch_cat in Hm. apply rmatch_reads in Hm.
      destruct Hm as (st2 & w2 & Hm & _).
      rewrite rmatch_cat, rmatch_group in Hm. apply rmatch_reads in Hm.
      destruct Hm as (st3 & w3 & Hm & _).
      cbv beta in Hm. destruct (rest st3) as [|c s3];
        [rewrite rmatch_chr_nil in Hm; discriminate|].
      rewrite rmatch_chr_cons in Hm.
      destruct (dquote =? c)%N; [|discriminate].
      injection Hm as <-. discriminate.
    + split; reflexivity.
Qed.

(** X20: in a container text whose first occurrence of the attribute name
    with its equals sign is followed by a value between double quotes,
    [findOpfPath] returns this value, whatever stands before and after
    it (other attributes, in any order). *)
Theorem findOpfPath_reads_double_quoted (toLowerCase : jsstring -> jsstring)
    (files : Archive) (container pre name path post : jsstring) :
  List.find (is_container toLowerCase) files
  = Some (container, pre ++ name ++ dquote :: path ++ dquote :: post) ->
  ci_match (js "full-path=") name = true ->
  length name = length (js "full-path=") ->
  path <> [] -> Forall (fun c => c <> dquote) path ->
  starts_nowhere (js "full-path=") pre = true ->
  findOpfPath toLowerCase files = Ok path.
Proof.
  intros Hf Hname Hlen Hne Hpath Hfirst.
  eapply findOpfPath_double_quoted; try eassumption.
  apply starts_nowhere_spec, Hfirst.
Qed.

Lemma findOpfPath_reads_double_quoted_example :
  findOpfPath toLowerCase_ascii
    [(js "mimetype", js "application/epub+zip");
     (js "META-INF/container.xml",
      js "<rootfile media-type='x' " ++ js "Full-Path="
        ++ dquote :: js "OEBPS/content.opf" ++ dquote :: js "/>")]
  = Ok (js "OEBPS/content.opf").
Proof.
  apply (findOpfPath_reads_double_quoted toLowerCase_ascii _
           (js "META-INF/container.xml") (js "<rootfile media-type='x' ")
           (js "Full-Path=") (js "OEBPS/content.opf") (js "/>"));
    try reflexivity; try discriminate.
  repeat constructor; discriminate.
Defined.

End Container.

(** * The fragments and the archive of the spine revision *)

Module SpineArchive.
Import Importer SpineHandler Generation Spaces SpineLessons Fragmenter.

Lemma windows_go_take {A} (n : nat) :
  forall (k fuel : nat) (l : list A),
    (length l <= fuel * n)%nat ->
    concat (take k (windows_go fuel n l)) = take (k * n) l.
Proof.
  induction k as [|k IH]; intros fuel l Hlen; [reflexivity|].
  destruct fuel as [|fuel].
  { destruct l; [symmetry; apply take_nil|simpl in Hlen; lia]. }
  destruct l as [|x l']; [symmetry; apply take_nil|].
  cbn [windows_go take concat]. set (l := x :: l') in *.
  rewrite IH by (rewrite length_drop; lia).
  rewrite take_take_drop. f_equal.
Qed.

Lemma trim_end_split s :
  exists w, Forall (fun c => is_space c = true) w /\ s = trim_end s ++ w.
Proof.
  unfold trim_end.
  destruct (Markup.trim_start_split (rev s)) as (w & Hw & E).
  exists (rev w). split; [apply Forall_rev, Hw|].
  rewrite <- rev_app_distr, <- E, rev_involutive. reflexivity.
Qed.

Lemma trim_end_last s :
  match last (trim_end s) with
  | Some c => is_space c = false
  | None => True
  end.
Proof.
  unfold trim_end. pose proof (trim_start_head (rev s)) as H.
  destruct (trim_start (rev s)) as [|c t]; [exact I|].
  cbn [rev]. rewrite last_snoc. exact H.
Qed.

Lemma trim_words s : trim s <> [] -> words (trim s) <> [].
Proof.
  intros Hne Hw. apply words_nil_iff in Hw.
  pose proof (trim_end_last (trim_start s)) as Hl. fold (trim s) in Hl.
  destruct (last (trim s)) as [c|] eqn:E.
  - apply last_Some in E. destruct E as [l' E]. rewrite E in Hw.
    apply Forall_app in Hw. destruct Hw as [_ Hw].
    inversion Hw; subst. congruence.
  - apply last_None in E. contradiction.
Qed.

(** X21: a text that passes the length check of the handler gives at least
    one fragment and at most three, and these hold the first 3600
    words of the text at most, in order: what comes after them is not
    imported. *)
Theorem fragments_one_to_three (combinedText : jsstring) :
  let text := trim combinedText in
  too_short text = false ->
  exists chunks,
    fragments (length (words text)) text = Some chunks
    /\ (1 <= length chunks <= 3)%nat
    /\ concat (List.map words chunks) = take 3600 (words text).
Proof.
  intros text Hlong. unfold too_short in Hlong.
  apply Nat.ltb_ge in Hlong.
  assert (Hne : text <> []) by (intros E; rewrite E in Hlong; simpl in Hlong; lia).
  pose proof (trim_words combinedText Hne) as Hw. fold text in Hw.
  set (ws := words text) in *.
  assert (Hfuel : (length ws <= length ws * 1200)%nat) by lia.
  unfold fragments. fold ws.
  rewrite chunkWords_windows by (fold ws; lia).
  fold ws. change (Z.to_nat 1200) with 1200%nat.
  eexists. split; [reflexivity|].
  rewrite slice_nonneg by lia. change (Z.to_nat (3 - 0)) with 3%nat.
  change (Z.to_nat 0) with 0%nat. rewrite drop_0.
  split.
  - rewrite length_take, length_map.
    destruct ws as [|w ws'] eqn:E; [contradiction|].
    cbn [length]. rewrite windows_go_S by discriminate. cbn [length]. lia.
  - rewrite map_fmap, <- fmap_take, <- map_fmap, List.map_map.
    pose proof (windows_go_words 1200 (length ws) ws (words_are_words text))
      as Hww.
    rewrite (map_ext_Forall _ (fun w => w)).
    + rewrite List.map_id.
      apply (windows_go_take 1200 3 (length ws) ws Hfuel).
    + apply Forall_take. eapply Forall_impl; [exact Hww|].
      intros w Hw'. apply words_join, Hw'.
Qed.

Lemma fragments_one_to_three_example :
  exists chunks,
    fragments 50 (concat (replicate 50 (js "word "))) = Some chunks
    /\ (1 <= length chunks <= 3)%nat.
Proof.
  destruct (fragments_one_to_three (concat (replicate 50 (js "word "))))
    as (chunks & H1 & H2 & _); [reflexivity|].
  exists chunks. split; [exact H1|exact H2].
Defined.

Lemma lesson_file_inj seriesId bookId a b :
  lesson_file seriesId bookId a = lesson_file seriesId bookId b -> a = b.
Proof.
  unfold lesson_file. intros E.
  apply app_inv_head in E. apply app_inv_head in E.
  apply app_inv_tail in E. apply string_of_Z_inj, E.
Qed.

(** X22: the archive of an import that succeeds: the book file, the
    chapter manifest and one file for each lesson, under pairwise
    different paths, so that no entry overwrites another one; the
    files that the chapter manifest lists are the lesson files of the
    archive, in the order of the fragments. *)
Theorem spine_archive_paths {Lesson : Type}
    (bookTitle seriesId bookId : jsstring) (chunks : list jsstring)
    (answers : list (response Lesson)) lessons calls unused :
  run (SpineHandler.generate bookTitle 0 chunks []) answers
  = Some (inr lessons, calls, unused) ->
  NoDup (zip_paths seriesId bookId lessons)
  /\ length (zip_paths seriesId bookId lessons) = (2 + length chunks)%nat
  /\ zip_paths seriesId bookId lessons
     = [book_dir seriesId bookId ++ js "/book.json";
        chapterManifestPath seriesId bookId]
       ++ manifest_files seriesId bookId lessons
  /\ manifest_files seriesId bookId lessons
     = List.map (fun j => lesson_file seriesId bookId (1 + Z.of_nat j))
         (seq 0 (length chunks)).
Proof.
  intros H. apply run_strict in H.
  destruct H as (ls & -> & Hlen & _ & _). cbn [app].
  assert (Hfiles : manifest_files seriesId bookId (numbered 0 ls)
                   = List.map
                       (fun j => lesson_file seriesId bookId (1 + Z.of_nat j))
                       (seq 0 (length chunks))).
  { unfold manifest_files.
    rewrite <- (List.map_map index (lesson_file seriesId bookId)).
    rewrite numbered_index, Hlen, List.map_map.
    apply map_ext. intros j. f_equal. }
  split; [|split; [|split]].
  - unfold zip_paths. fold (manifest_files seriesId bookId (numbered 0 ls)).
    rewrite Hfiles.
    assert (Hother : forall tail x,
              x ∈ List.map
                    (fun j => lesson_file seriesId bookId (1 + Z.of_nat j))
                    (seq 0 (length chunks)) ->
              x = book_dir seriesId bookId ++ js "/" ++ tail ->
              exists rest, tail = js "ch1/lessons/f" ++ rest).
    { intros tail x Hx E. apply list_elem_of_In, in_map_iff in Hx.
      destruct Hx as (j & <- & _). unfold lesson_file, lessonDir in E.
      rewrite <- !app_assoc in E. apply app_inv_head in E.
      injection E as E. eexists. symmetry. exact E. }
    apply NoDup_cons. split.
    + intros Hin. apply elem_of_cons in Hin. destruct Hin as [E|Hin].
      * unfold chapterManifestPath in E. apply app_inv_head in E.
        discriminate.
      * destruct (Hother (js "book.json") _ Hin eq_refl) as [rest E].
        discriminate.
    + apply NoDup_cons. split.
      * intros Hin.
        destruct (Hother (js "ch1.json") _ Hin eq_refl) as [rest E].
        discriminate.
      * apply NoDup_map_inj; [|apply NoDup_seq].
        intros a b E. apply lesson_file_inj in E. lia.
  - unfold zip_paths. cbn [length]. rewrite length_map.
    unfold numbered. rewrite length_imap. lia.
  - reflexivity.
  - exact Hfiles.
Qed.

Lemma spine_archive_paths_example :
  NoDup (zip_paths (js "s") (js "b")
           [{| index := 1; lesson := tt |}; {| index := 2; lesson := tt |}])
  /\ manifest_files (js "s") (js "b")
       [{| index := 1; lesson := tt |}; {| index := 2; lesson := tt |}]
     = [js "data/s/b/ch1/lessons/f1.json"; js "data/s/b/ch1/lessons/f2.json"].
Proof.
  destruct (spine_archive_paths (js "Book") (js "s") (js "b")
              [js "one"; js "two"] [inr tt; inr tt]
              [{| index := 1; lesson := tt |}; {| index := 2; lesson := tt |}]
              [(js "one", SpineHandler.lessonTitle (js "Book") 1);
               (js "two", SpineHandler.lessonTitle (js "Book") 2)] [])
    as (H1 & _ & _ & H4); [reflexivity|].
  split; [exact H1|]. rewrite H4. reflexivity.
Defined.

End SpineArchive.

(** * The white space that the stripper of the spine revision leaves *)

Module Squeeze.
Import SpineImporter ClassRuns Spaces Attributes SpineArchive.

(** [R] holds of every two code units that stand side by side. *)
Fixpoint adjacent (R : N -> N -> Prop) (s : jsstring) : Prop :=
  match s with
  | x :: t =>
      match t with y :: _ => R x y | [] => True end /\ adjacent R t
  | [] => True
  end.

(** In [s] the code unit [x] is followed at once by [y]. *)
Definition follows (s : jsstring) (x y : N) : Prop :=
  exists a b, s = a ++ x :: y :: b.

Lemma adjacent_follows R s :
  adjacent R s <-> forall x y, follows s x y -> R x y.
Proof.
  induction s as [|c t IH]; cbn [adjacent].
  - split; [|auto]. intros _ x y (a & b & E). destruct a; discriminate.
  - rewrite IH. split.
    + intros [H1 H2] x y (a & b & E). destruct a as [|a0 a].
      * injection E as <- ->. exact H1.
      * injection E as <- ->. apply H2. exists a, b. reflexivity.
    + intros H. split.
      * destruct t as [|y t']; [exact I|]. apply H. exists [], t'. reflexivity.
      * intros x y (a & b & ->). apply H. exists (c :: a), b. reflexivity.
Qed.

Lemma adjacent_app_r R a b : adjacent R (a ++ b) -> adjacent R b.
Proof.
  induction a as [|x a IH]; [auto|]. cbn [app adjacent]. intros [_ H]. auto.
Qed.

Lemma adjacent_app_l R a b : adjacent R (a ++ b) -> adjacent R a.
Proof.
  induction a as [|x a IH]; [intros _; exact I|].
  cbn [app adjacent]. intros [H1 H2]. split; [|auto].
  destruct a as [|y a']; [exact I|exact H1].
Qed.

Lemma adjacent_cons R x t :
  (forall y, head t = Some y -> R x y) -> adjacent R t -> adjacent R (x :: t).
Proof.
  intros H1 H2. cbn [adjacent]. split; [|exact H2].
  destruct t as [|y t']; [exact I|]. apply H1. reflexivity.
Qed.

Lemma adjacent_trim R s : adjacent R s -> adjacent R (trim s).
Proof.
  intros H. unfold trim.
  destruct (Markup.trim_start_split s) as (w & _ & E).
  rewrite E in H. apply adjacent_app_r in H.
  destruct (trim_end_split (trim_start s)) as (w' & _ & E').
  rewrite E' in H. apply adjacent_app_l in H. exact H.
Qed.

(** The three things that hold where two code units meet. *)
Definition no_space_after_newline (x y : N) : Prop :=
  x = newline -> is_space y = false.
Definition no_space_before_newline (x y : N) : Prop :=
  y = newline -> is_space x = false.
Definition no_two_spaces (x y : N) : Prop := x = 32%N -> y <> 32%N.

Lemma newline_is_space : is_space newline = true.
Proof. reflexivity. Qed.

Lemma not_space_not_newline c : is_space c = false -> (newline =? c)%N = false.
Proof.
  intros H. destruct (N.eqb_spec newline c) as [<-|]; [discriminate|reflexivity].
Qed.

(** A pattern that starts with a class. *)
Lemma exec_chr_cat q r p c t :
  exec (Cat (Chr q) r) p (c :: t)
  = if q c
    then match exec r (Some c) t with
         | Some (n, g) => Some (S n, g)
         | None => None
         end
    else None.
Proof.
  unfold exec. rewrite rmatch_cat, rmatch_chr_cons.
  destruct (q c); [|reflexivity].
  destruct (rmatch r (MState (Some c) t None) Some) as [st|] eqn:E;
    [|reflexivity].
  apply rmatch_reads in E. destruct E as (st' & w & Hk & Hw).
  injection Hk as ->. cbn [rest] in Hw. unfold consumed.
  rewrite Hw. cbn [length]. rewrite length_app.
  f_equal. f_equal. lia.
Qed.

Lemma exec_chr_cat_nil q r p : exec (Cat (Chr q) r) p [] = None.
Proof. unfold exec. rewrite rmatch_cat, rmatch_chr_nil. reflexivity. Qed.

(** ** White space before a line feed *)

(** The place of the last line feed in the run of white space at the
    head of [t]. *)
Fixpoint last_nl (t : jsstring) : option nat :=
  match t with
  | c :: t' =>
      if is_space c
      then match last_nl t' with
           | Some j => Some (S j)
           | None => if (newline =? c)%N then Some O else None
           end
      else None
  | [] => None
  end.

Lemma try_down_nl t :
  forall p g,
    try_down (fun st1 => rmatch Nl st1 Some) (MState p t g)
      (run_length is_space t)
    = match last_nl t with
      | Some j => Some (MState (Some newline) (drop (S j) t) g)
      | None => None
      end.
Proof.
  unfold Nl. induction t as [|c t IH]; intros p g.
  - cbn [run_length try_down last_nl]. apply rmatch_chr_nil.
  - cbn [run_length last_nl]. destruct (is_space c) eqn:Hc.
    + rewrite try_down_cons, IH.
      destruct (last_nl t) as [j|]; [reflexivity|].
      rewrite rmatch_chr_cons.
      destruct (N.eqb_spec newline c) as [<-|]; reflexivity.
    + cbn [try_down]. rewrite rmatch_chr_cons.
      rewrite not_space_not_newline by exact Hc. reflexivity.
Qed.

Lemma last_nl_lt t j : last_nl t = Some j -> (j < length t)%nat.
Proof.
  revert j. induction t as [|c t IH]; intros j H; [discriminate|].
  cbn [last_nl] in H. destruct (is_space c); [|discriminate].
  destruct (last_nl t) as [j'|].
  - injection H as <-. specialize (IH j' eq_refl). simpl. lia.
  - destruct (newline =? c)%N; [|discriminate]. injection H as <-. simpl. lia.
Qed.

Lemma last_nl_rest t j : last_nl t = Some j -> last_nl (drop (S j) t) = None.
Proof.
  revert j. induction t as [|c t IH]; intros j H; [discriminate|].
  cbn [last_nl] in H. destruct (is_space c); [|discriminate].
  destruct (last_nl t) as [j'|] eqn:E.
  - injection H as <-. apply (IH j' eq_refl).
  - destruct (newline =? c)%N; [|discriminate]. injection H as <-. exact E.
Qed.

Lemma last_nl_none s :
  last_nl s = None ->
  head s <> Some newline
  /\ (forall c t, s = c :: t -> is_space c = true -> last_nl t = None).
Proof.
  destruct s as [|c t]; [split; [discriminate|intros; discriminate]|].
  cbn [last_nl head]. intros H. split.
  - intros E. injection E as ->. rewrite newline_is_space in H.
    destruct (last_nl t); [discriminate|]. rewrite N.eqb_refl in H.
    discriminate.
  - intros c' t' E Hc. injection E as <- <-. rewrite Hc in H.
    destruct (last_nl t); [discriminate|reflexivity].
Qed.

Lemma exec_ws_nl p s :
  exec re_ws_nl p s
  = match s with
    | c :: t =>
        if is_space c
        then match last_nl t with
             | Some j => Some (S (S j), None)
             | None => None
             end
        else None
    | [] => None
    end.
Proof.
  unfold exec, re_ws_nl, Plus, Space. rewrite rmatch_cat.
  destruct s as [|c t]; [rewrite rmatch_cat, rmatch_chr_nil; reflexivity|].
  rewrite rmatch_plus_chr_cons. destruct (is_space c); [|reflexivity].
  rewrite try_down_nl. destruct (last_nl t) as [j|] eqn:E; [|reflexivity].
  apply last_nl_lt in E. unfold consumed. cbn [rest length].
  rewrite length_drop. f_equal. f_equal. lia.
Qed.

Lemma ws_nl_head s :
  last_nl s = None ->
  forall p, head (replace_go re_ws_nl [newline] 0 p s) <> Some newline.
Proof.
  intros H p. destruct (last_nl_none s H) as [Hh Ht].
  destruct s as [|c t]; [discriminate|].
  cbn [replace_go]. rewrite exec_ws_nl.
  destruct (is_space c) eqn:Hc; [|exact Hh].
  rewrite (Ht c t eq_refl Hc). exact Hh.
Qed.

Lemma ws_nl_before n :
  forall s p, length s = n ->
    adjacent no_space_before_newline (replace_go re_ws_nl [newline] 0 p s).
Proof.
  induction n as [n IH] using lt_wf_ind. intros s p Hn.
  destruct s as [|c t]; [exact I|].
  cbn [replace_go]. rewrite exec_ws_nl.
  assert (Hkeep : (is_space c = true -> last_nl t = None) ->
            adjacent no_space_before_newline
              (c :: replace_go re_ws_nl [newline] 0 (Some c) t)).
  { intros Ht. apply adjacent_cons.
    - intros y Hy ->. destruct (is_space c) eqn:Hc; [|reflexivity].
      exfalso. exact (ws_nl_head t (Ht eq_refl) (Some c) Hy).
    - apply (IH (length t)); [simpl in Hn; lia|reflexivity]. }
  destruct (is_space c) eqn:Hc; [|apply Hkeep; discriminate].
  destruct (last_nl t) as [j|] eqn:E; [|apply Hkeep; reflexivity].
  rewrite replace_go_skip. cbn [app]. apply adjacent_cons.
  - intros y Hy ->. exfalso.
    exact (ws_nl_head _ (last_nl_rest t j E) _ Hy).
  - apply (IH (length (drop (S j) t))); [|reflexivity].
    rewrite length_drop. simpl in Hn. lia.
Qed.

(** ** White space after a line feed *)

Lemma exec_nl_ws p s :
  exec re_nl_ws p s
  = match s with
    | c :: t =>
        if (newline =? c)%N
        then match run_length is_space t with
             | O => None
             | S n => Some (S (S n), None)
             end
        else None
    | [] => None
    end.
Proof.
  unfold re_nl_ws, Nl. destruct s as [|c t]; [apply exec_chr_cat_nil|].
  rewrite exec_chr_cat. unfold Space. rewrite exec_plus_chr.
  destruct (newline =? c)%N; [|reflexivity].
  destruct (run_length is_space t); reflexivity.
Qed.

Lemma nl_ws_head s p :
  head (replace_go re_nl_ws [newline] 0 p s) = head s.
Proof.
  destruct s as [|c t]; [reflexivity|].
  cbn [replace_go]. rewrite exec_nl_ws.
  destruct (N.eqb_spec newline c) as [<-|]; [|reflexivity].
  destruct (run_length is_space t); reflexivity.
Qed.

Lemma run_stop_head t :
  match head (drop (run_length is_space t) t) with
  | Some y => is_space y = false
  | None => True
  end.
Proof.
  pose proof (run_length_stop is_space t) as H.
  destruct (drop (run_length is_space t) t); [exact I|exact H].
Qed.

Lemma nl_ws_after n :
  forall s p, length s = n ->
    (adjacent no_space_after_newline (replace_go re_nl_ws [newline] 0 p s))
    /\ (adjacent no_space_before_newline s ->
        adjacent no_space_before_newline
          (replace_go re_nl_ws [newline] 0 p s)).
Proof.
  induction n as [n IH] using lt_wf_ind. intros s p Hn.
  destruct s as [|c t]; [split; [exact I|auto]|].
  cbn [replace_go]. rewrite exec_nl_ws.
  destruct (IH (length t) ltac:(simpl in Hn; lia) t (Some c) eq_refl)
    as [IHa IHb].
  assert (Hkeep : ((newline =? c)%N = true -> run_length is_space t = O) ->
            adjacent no_space_after_newline
              (c :: replace_go re_nl_ws [newline] 0 (Some c) t)
            /\ (adjacent no_space_before_newline (c :: t) ->
                adjacent no_space_before_newline
                  (c :: replace_go re_nl_ws [newline] 0 (Some c) t))).
  { intros Hrun. split.
    - apply adjacent_cons; [|exact IHa].
      intros y Hy ->. rewrite nl_ws_head in Hy.
      pose proof (run_stop_head t) as Hs.
      rewrite (Hrun (N.eqb_refl _)), drop_0, Hy in Hs. exact Hs.
    - intros [H1 H2]. apply adjacent_cons; [|apply IHb, H2].
      intros y Hy. rewrite nl_ws_head in Hy.
      destruct t as [|d t']; [discriminate|]. injection Hy as ->. exact H1. }
  destruct (newline =? c)%N eqn:Hc; [|apply Hkeep; discriminate].
  destruct (run_length is_space t) as [|m] eqn:Hrun;
    [apply Hkeep; reflexivity|].
  rewrite replace_go_skip. cbn [app]. rewrite <- Hrun.
  set (r := drop (run_length is_space t) t).
  destruct (IH (length r)
              ltac:(subst r; rewrite length_drop; simpl in Hn; lia)
              r (prev_after (Some c) (take (run_length is_space t) t)) eq_refl)
    as [IHa' IHb'].
  pose proof (run_stop_head t) as Hs. fold r in Hs.
  split.
  - apply adjacent_cons; [|exact IHa'].
    intros y Hy _. rewrite nl_ws_head in Hy. rewrite Hy in Hs. exact Hs.
  - intros [_ H2]. apply adjacent_cons.
    + intros y Hy ->. rewrite nl_ws_head in Hy. rewrite Hy in Hs.
      discriminate.
    + apply IHb'. rewrite <- (take_drop (run_length is_space t) t) in H2.
      apply adjacent_app_r in H2. exact H2.
Qed.

(** ** Blanks *)

Definition blank (c : N) : bool := ((c =? 32) || (c =? 9))%N.

Lemma blank_is_space c : blank c = true -> is_space c = true.
Proof.
  unfold blank. intros H. apply orb_true_iff in H.
  destruct H as [H|H]; apply N.eqb_eq in H; subst c; reflexivity.
Qed.

Lemma blank_not_newline c : blank c = true -> c <> newline.
Proof. intros H ->. discriminate. Qed.

Lemma collapse_head b d t :
  blank d = false ->
  head (collapse_by blank (js " ") b (d :: t)) = Some d.
Proof. intros H. cbn [collapse_by]. rewrite H. reflexivity. Qed.

Lemma blanks_after s :
  adjacent no_space_after_newline s ->
  forall b, adjacent no_space_after_newline (collapse_by blank (js " ") b s).
Proof.
  induction s as [|c t IH]; intros H b; [exact I|].
  destruct H as [H1 H2]. cbn [collapse_by].
  destruct (blank c) eqn:Hc.
  - destruct b; [apply IH, H2|].
    change (js " " ++ ?x) with (32%N :: x).
    apply adjacent_cons; [|apply IH, H2]. intros y _ E. discriminate.
  - apply adjacent_cons; [|apply IH, H2].
    intros y Hy ->. destruct t as [|d t']; [discriminate|].
    specialize (H1 eq_refl).
    assert (Hd : blank d = false).
    { destruct (blank d) eqn:E; [|reflexivity].
      apply blank_is_space in E. congruence. }
    rewrite collapse_head in Hy by exact Hd. injection Hy as <-. exact H1.
Qed.

Lemma blanks_before s :
  forall x, adjacent no_space_before_newline (x :: s) ->
    (blank x = false ->
     adjacent no_space_before_newline
       (x :: collapse_by blank (js " ") false s))
    /\ (blank x = true ->
        adjacent no_space_before_newline
          (32%N :: collapse_by blank (js " ") true s)).
Proof.
  induction s as [|d t IH]; intros x H.
  - split; intros _; split; exact I.
  - destruct H as [H1 H2]. destruct (IH d H2) as [IHf IHt].
    cbn [collapse_by]. destruct (blank d) eqn:Hd.
    + change (js " " ++ ?y) with (32%N :: y). split; intros Hx.
      * apply adjacent_cons; [|apply IHt, eq_refl].
        intros y Hy E. injection Hy as <-. discriminate.
      * apply IHt, eq_refl.
    + split; intros Hx.
      * apply adjacent_cons; [|apply IHf, eq_refl].
        intros y Hy. injection Hy as <-. exact H1.
      * apply adjacent_cons; [|apply IHf, eq_refl].
        intros y Hy E. injection Hy as <-.
        apply blank_is_space in Hx. specialize (H1 E). congruence.
Qed.

Lemma blanks_before_all s :
  adjacent no_space_before_newline s ->
  adjacent no_space_before_newline (collapse_by blank (js " ") false s).
Proof.
  intros H. destruct s as [|c t]; [exact I|].
  destruct (blanks_before t c H) as [Hf Ht].
  cbn [collapse_by]. destruct (blank c) eqn:Hc.
  - apply Ht, eq_refl.
  - apply Hf, eq_refl.
Qed.

Lemma blanks_single s :
  forall b,
    adjacent no_two_spaces (collapse_by blank (js " ") b s)
    /\ Forall (fun c => c <> 9%N) (collapse_by blank (js " ") b s)
    /\ (b = true -> head (collapse_by blank (js " ") b s) <> Some 32%N).
Proof.
  induction s as [|c t IH]; intros b.
  - split; [exact I|]. split; [constructor|discriminate].
  - cbn [collapse_by]. destruct (blank c) eqn:Hc.
    + destruct (IH true) as (H1 & H2 & H3). destruct b.
      * auto.
      * change (js " " ++ ?y) with (32%N :: y).
        split; [|split; [|discriminate]].
        -- apply adjacent_cons; [|exact H1]. intros y Hy _ ->.
           exact (H3 eq_refl Hy).
        -- constructor; [discriminate|exact H2].
    + destruct (IH false) as (H1 & H2 & _).
      assert (Hc' : c <> 32%N /\ c <> 9%N).
      { unfold blank in Hc. apply orb_false_iff in Hc. destruct Hc as [A B].
        apply N.eqb_neq in A, B. auto. }
      split; [|split].
      * apply adjacent_cons; [|exact H1]. intros y _ E.
        destruct Hc' as [A _]. contradiction.
      * constructor; [apply Hc'|exact H2].
      * intros _ E. injection E as E. destruct Hc' as [A _]. contradiction.
Qed.

(** ** Three line feeds *)

Lemma exec_nl3 p s :
  adjacent no_space_after_newline s -> exec re_nl3 p s = None.
Proof.
  intros H. unfold re_nl3, Nl.
  destruct s as [|c t]; [apply exec_chr_cat_nil|].
  rewrite exec_chr_cat.
  destruct (N.eqb_spec newline c) as [Ec|]; [subst c|reflexivity].
  destruct t as [|d t']; [rewrite exec_chr_cat_nil; reflexivity|].
  rewrite exec_chr_cat.
  destruct (N.eqb_spec newline d) as [Ed|]; [subst d|reflexivity].
  destruct H as [H _]. specialize (H eq_refl). discriminate.
Qed.

Lemma nl3_unchanged s :
  adjacent no_space_after_newline s ->
  replace_all re_nl3 [newline; newline] s = s.
Proof.
  intros H. apply replace_go_none.
  intros p pre suf ->. apply exec_nl3. eapply adjacent_app_r, H.
Qed.

(** ** The result *)

(** What the first three white-space replacements make of a text. *)
Definition squeezed (s : jsstring) : jsstring :=
  replace_all re_blanks (js " ")
    (replace_all re_nl_ws [newline]
       (replace_all re_ws_nl [newline] s)).

Lemma squeezed_shape s :
  adjacent no_space_after_newline (squeezed s)
  /\ adjacent no_space_before_newline (squeezed s)
  /\ adjacent no_two_spaces (squeezed s)
  /\ Forall (fun c => c <> 9%N) (squeezed s).
Proof.
  unfold squeezed. set (s1 := replace_all re_ws_nl [newline] s).
  pose proof (ws_nl_before (length s) s None eq_refl) as B1. fold s1 in B1.
  destruct (nl_ws_after (length s1) s1 None eq_refl) as [A2 B2].
  specialize (B2 B1).
  set (s2 := replace_all re_nl_ws [newline] s1) in *.
  fold (replace_all re_nl_ws [newline] s1) in A2, B2. fold s2 in A2, B2.
  unfold re_blanks. rewrite replace_runs.
  fold blank.
  change (fun c : N => ((c =? 32) || (c =? 9))%N) with blank.
  destruct (blanks_single s2 false) as (S3 & T3 & _).
  split; [apply blanks_after, A2|].
  split; [apply blanks_before_all, B2|]. split; assumption.
Qed.

Lemma squeeze_squeezed s : squeeze s = trim (squeezed s).
Proof.
  unfold squeeze. fold (squeezed s).
  rewrite nl3_unchanged by apply squeezed_shape. reflexivity.
Qed.

(** X23: the text that [stripHtml] of the spine revision returns has no
    white space at its ends, no tab, and no two spaces in a row; a
    line feed in it stands between two code units that are no white
    space, so the text has no blank line and no two line feeds in a
    row.  The replacement of three or more line feeds by two never
    finds a match: the replacements before it leave no two line feeds
    side by side. *)
Theorem stripHtml_white_space (html : jsstring) :
  let text := SpineImporter.stripHtml html in
  match head text with Some c => is_space c = false | None => True end
  /\ match last text with Some c => is_space c = false | None => True end
  /\ Forall (fun c => c <> 9%N) text
  /\ (forall x y, follows text x y ->
        (x = newline -> is_space y = false)
        /\ (y = newline -> is_space x = false)
        /\ ~ (x = 32%N /\ y = 32%N)
        /\ ~ (x = newline /\ y = newline))
  /\ replace_all re_nl3 [newline; newline]
       (squeezed (decode_entities (strip_tags html)))
     = squeezed (decode_entities (strip_tags html)).
Proof.
  intros text. subst text. unfold SpineImporter.stripHtml.
  set (s := decode_entities (strip_tags html)).
  rewrite squeeze_squeezed.
  destruct (squeezed_shape s) as (A & B & S & T).
  split; [|split; [|split; [|split]]].
  - unfold trim.
    pose proof (trim_start_head (squeezed s)) as H.
    destruct (trim_end_split (trim_start (squeezed s))) as (w & _ & E).
    destruct (trim_end (trim_start (squeezed s))) as [|c r]; [exact I|].
    rewrite E in H. exact H.
  - apply trim_end_last.
  - unfold trim.
    destruct (Markup.trim_start_split (squeezed s)) as (w & _ & E).
    rewrite E in T. apply Forall_app in T. destruct T as [_ T].
    destruct (trim_end_split (trim_start (squeezed s))) as (w' & _ & E').
    rewrite E' in T. apply Forall_app in T. apply T.
  - intros x y F.
    pose proof (proj1 (adjacent_follows _ _) (adjacent_trim _ _ A) x y F) as HA.
    pose proof (proj1 (adjacent_follows _ _) (adjacent_trim _ _ B) x y F) as HB.
    pose proof (proj1 (adjacent_follows _ _) (adjacent_trim _ _ S) x y F) as HS.
    split; [exact HA|]. split; [exact HB|]. split.
    + intros [Hx Hy]. exact (HS Hx Hy).
    + intros [Hx Hy]. specialize (HA Hx). subst y. discriminate.
  - apply nl3_unchanged, A.
Qed.

End Squeeze.

(** * Elements that are removed with their content *)

Module Elements.
Import TextDocs Attributes.

(** The pattern of an element with its content: the opening word, as
    few code units as possible, and the closing tag. *)
Definition re_element (opening closing : jsstring) : regex :=
  Cat (LitI opening) (Cat (LazyStar Any) (LitI closing)).

Lemma ci_match_app w w' tail :
  ci_match w w' = true -> ci_match w (w' ++ tail) = true.
Proof.
  revert w'. induction w as [|x w IH]; intros w' H; [reflexivity|].
  destruct w' as [|y w']; [discriminate|]. cbn [ci_match app] in *.
  apply andb_true_iff in H. destruct H as [H1 H2].
  rewrite H1. cbn [andb]. apply IH, H2.
Qed.

(** The lazy run goes on to the first place where the rest of the
    pattern matches. *)
Lemma lazy_any_first (k : mstate -> option mstate) res tail g :
  forall body fuel p,
    (length (body ++ tail) <= fuel)%nat ->
    (forall a b, body = a ++ b -> b <> [] ->
                 k (MState (prev_after p a) (b ++ tail) g) = None) ->
    k (MState (prev_after p body) tail g) = Some res ->
    lazy_loop (rmatch Any) k fuel (MState p (body ++ tail) g) = Some res.
Proof.
  induction body as [|x body IH]; intros fuel p Hfuel Hnone Hk.
  - cbn [app]. rewrite prev_after_nil in Hk.
    destruct fuel; cbn [lazy_loop]; rewrite Hk; reflexivity.
  - pose proof (Hnone [] (x :: body) eq_refl) as H0.
    rewrite prev_after_nil in H0. specialize (H0 ltac:(discriminate)).
    destruct fuel as [|fuel]; [simpl in Hfuel; lia|].
    cbn [lazy_loop]. rewrite H0. unfold Any.
    change ((x :: body) ++ tail) with (x :: body ++ tail).
    rewrite rmatch_chr_cons. cbn [rest length].
    rewrite (proj2 (Nat.ltb_lt _ _)) by lia.
    apply IH.
    + simpl in Hfuel. lia.
    + intros a b E Hb. specialize (Hnone (x :: a) b).
      rewrite prev_after_cons in Hnone. apply Hnone; [|exact Hb].
      rewrite E. reflexivity.
    + rewrite prev_after_cons in Hk. exact Hk.
Qed.

Lemma exec_element opening closing p o' body c' post :
  ci_match opening o' = true -> length o' = length opening ->
  ci_match closing c' = true -> length c' = length closing ->
  starts_nowhere closing body = true ->
  exec (re_element opening closing) p (o' ++ body ++ c' ++ post)
  = Some ((length o' + length body + length c')%nat, None).
Proof.
  intros Ho Hlo Hc Hlc Hbody. unfold exec, re_element.
  rewrite rmatch_cat, rmatch_LitI. cbn [rest].
  rewrite (ci_match_app _ _ _ Ho). unfold advance at 1. cbn [rest prev cap].
  rewrite <- Hlo, drop_app_length.
  rewrite rmatch_cat.
  change (rmatch (LazyStar Any) ?st ?k)
    with (lazy_loop (rmatch Any) k (length (rest st)) st).
  cbn [rest].
  set (p1 := prev_after p (take (length o') (o' ++ body ++ c' ++ post))).
  rewrite (lazy_any_first _
             (MState (prev_after (prev_after p1 body) c') post None)
             (c' ++ post) None body _ p1).
  - unfold consumed. cbn [rest]. rewrite !length_app.
    f_equal. f_equal. lia.
  - lia.
  - intros a b E Hb. rewrite rmatch_LitI. cbn [rest].
    rewrite (starts_nowhere_spec closing body Hbody a b _ E Hb). reflexivity.
  - rewrite rmatch_LitI. cbn [rest].
    rewrite (ci_match_app _ _ _ Hc). unfold advance. cbn [rest prev cap].
    rewrite <- Hlc, drop_app_length, take_app_length. reflexivity.
Qed.

Lemma exec_element_none opening closing p s :
  begins_like opening s = false ->
  exec (re_element opening closing) p s = None.
Proof.
  intros H. unfold exec, re_element. rewrite rmatch_cat, rmatch_LitI.
  cbn [rest]. destruct (ci_match opening s) eqn:E; [|reflexivity].
  rewrite <- (app_nil_r s) in E. apply ci_match_begins in E. congruence.
Qed.

Lemma starts_nowhere_suffix w a b :
  starts_nowhere w (a ++ b) = true -> starts_nowhere w b = true.
Proof.
  induction a as [|x a IH]; [auto|]. cbn [app starts_nowhere].
  intros H. apply andb_true_iff in H. apply IH, H.
Qed.

Lemma begins_like_app w b tail :
  begins_like w b = false -> begins_like w (b ++ tail) = false.
Proof.
  revert b. induction w as [|x w IH]; intros b H; [discriminate|].
  destruct b as [|y b]; [discriminate|]. cbn [begins_like app] in *.
  destruct (eq_ci x y); [|reflexivity]. cbn [andb] in *. apply IH, H.
Qed.

(** A stretch in which the opening word starts nowhere is copied. *)
Lemma replace_element_copy opening closing repl pre :
  starts_nowhere opening pre = true ->
  forall p s,
    replace_go (re_element opening closing) repl 0 p (pre ++ s)
    = pre ++ replace_go (re_element opening closing) repl 0
               (prev_after p pre) s.
Proof.
  induction pre as [|x pre IH]; intros H p s; [reflexivity|].
  cbn [starts_nowhere] in H. apply andb_true_iff in H. destruct H as [H1 H2].
  apply negb_true_iff in H1.
  change ((x :: pre) ++ s) with (x :: pre ++ s). cbn [replace_go].
  rewrite exec_element_none
    by (apply (begins_like_app opening (x :: pre) s), H1).
  rewrite IH by exact H2. rewrite prev_after_cons. reflexivity.
Qed.

Lemma replace_element_one opening closing repl pre o' body c' post :
  opening <> [] ->
  ci_match opening o' = true -> length o' = length opening ->
  ci_match closing c' = true -> length c' = length closing ->
  starts_nowhere opening pre = true ->
  starts_nowhere closing body = true ->
  starts_nowhere opening post = true ->
  replace_all (re_element opening closing) repl
    (pre ++ o' ++ body ++ c' ++ post)
  = pre ++ repl ++ post.
Proof.
  intros Hne Ho Hlo Hc Hlc Hpre Hbody Hpost. unfold replace_all.
  rewrite replace_element_copy by exact Hpre. f_equal.
  destruct o' as [|x o'']; [destruct opening; [contradiction|discriminate]|].
  set (o' := x :: o'') in *.
  change (o' ++ body ++ c' ++ post) with (x :: o'' ++ body ++ c' ++ post).
  cbn [replace_go].
  change (x :: o'' ++ body ++ c' ++ post) with (o' ++ body ++ c' ++ post).
  rewrite (exec_element opening closing _ o' body c' post Ho Hlo Hc Hlc Hbody).
  change (length o' + length body + length c')%nat
    with (S (length o'' + length body + length c')).
  f_equal. rewrite replace_go_skip.
  assert (Hd : drop (length o'' + length body + length c')
                 (o'' ++ body ++ c' ++ post) = post).
  { rewrite !app_assoc. rewrite <- !length_app. apply drop_app_length. }
  rewrite Hd.
  match goal with
  | |- replace_go _ _ 0 ?q post = post =>
      pose proof (replace_element_copy opening closing repl post Hpost q [])
        as E
  end.
  cbn [replace_go] in E. rewrite !app_nil_r in E. exact E.
Qed.

(** X24: the first replacement of [stripHtml] takes a script element out
    with everything in it, whatever that is (line terminators, angle
    brackets, markup), and puts one space in its place: the element
    goes from the opening word, in any case, to the first closing tag
    after it.  The second replacement does the same to a style
    element. *)
Theorem script_and_style_removed (pre o' body c' post : jsstring) :
  (ci_match (js "<script") o' = true -> length o' = 7%nat ->
   ci_match (js "</script>") c' = true -> length c' = 9%nat ->
   starts_nowhere (js "<script") pre = true ->
   starts_nowhere (js "</script>") body = true ->
   starts_nowhere (js "<script") post = true ->
   replace_all re_script (js " ") (pre ++ o' ++ body ++ c' ++ post)
   = pre ++ js " " ++ post)
  /\ (ci_match (js "<style") o' = true -> length o' = 6%nat ->
      ci_match (js "</style>") c' = true -> length c' = 8%nat ->
      starts_nowhere (js "<style") pre = true ->
      starts_nowhere (js "</style>") body = true ->
      starts_nowhere (js "<style") post = true ->
      replace_all re_style (js " ") (pre ++ o' ++ body ++ c' ++ post)
      = pre ++ js " " ++ post).
Proof.
  split; intros Ho Hlo Hc Hlc Hpre Hbody Hpost.
  - apply (replace_element_one (js "<script") (js "</script>"));
      try assumption; discriminate.
  - apply (replace_element_one (js "<style") (js "</style>"));
      try assumption; discriminate.
Qed.

Lemma script_and_style_removed_example :
  replace_all re_script (js " ")
    (js "<p>a</p>" ++ js "<SCRIPT"
       ++ (js " type='x'>if (a < b) { f('</p>') }" ++ [newline] ++ js "// >")
       ++ js "</Script>" ++ js "<p>b</p>")
  = js "<p>a</p>" ++ js " " ++ js "<p>b</p>".
Proof.
  apply (proj1 (script_and_style_removed (js "<p>a</p>") (js "<SCRIPT")
                  (js " type='x'>if (a < b) { f('</p>') }" ++ [newline]
                     ++ js "// >")
                  (js "</Script>") (js "<p>b</p>")));
    reflexivity.
Defined.

End Elements.

(** * The entities *)

Module Entities.
Import SpineImporter Markup.

(** [s] begins with the word [w]. *)
Fixpoint lit_match (w s : jsstring) : bool :=
  match w, s with
  | [], _ => true
  | p :: w', c :: s' => (p =? c)%N && lit_match w' s'
  | _ :: _, [] => false
  end.

Lemma rmatch_Lit w :
  forall st k,
    rmatch (Lit w) st k
    = if lit_match w (rest st) then k (advance (length w) st) else None.
Proof.
  induction w as [|c w IH]; intros [p s g] k.
  - cbn [Lit rmatch lit_match length]. rewrite advance_0. reflexivity.
  - destruct w as [|c' w'].
    + cbn [Lit]. destruct s as [|x t]; [reflexivity|].
      rewrite rmatch_chr_cons. cbn [rest lit_match length].
      rewrite andb_true_r, advance_cons, advance_0. reflexivity.
    + change (Lit (c :: c' :: w'))
        with (Cat (Chr (N.eqb c)) (Lit (c' :: w'))).
      rewrite rmatch_cat. destruct s as [|x t]; [reflexivity|].
      rewrite rmatch_chr_cons. cbn [rest].
      change (lit_match (c :: c' :: w') (x :: t))
        with ((c =? x)%N && lit_match (c' :: w') t).
      destruct (c =? x)%N; [|reflexivity].
      rewrite IH. cbn [rest]. cbn [andb].
      destruct (lit_match (c' :: w') t); [|reflexivity].
      change (length (c :: c' :: w')) with (S (length (c' :: w'))).
      rewrite advance_cons. reflexivity.
Qed.

Lemma lit_match_length w :
  forall s, lit_match w s = true -> (length w <= length s)%nat.
Proof.
  induction w as [|p w IH]; intros s H; [simpl; lia|].
  destruct s as [|c s]; [discriminate|]. cbn [lit_match] in H.
  apply andb_true_iff in H. destruct H as [_ H].
  apply IH in H. simpl. lia.
Qed.

Lemma exec_lit w p s :
  exec (Lit w) p s
  = if lit_match w s then Some (length w, None) else None.
Proof.
  unfold exec. rewrite rmatch_Lit. cbn [rest].
  destruct (lit_match w s) eqn:E; [|reflexivity].
  apply lit_match_length in E.
  unfold advance, consumed. cbn [rest cap]. rewrite length_drop.
  f_equal. f_equal. lia.
Qed.

Lemma replace_lit_free c c' l repl s :
  Forall (fun x => x <> c) s ->
  forall p, replace_go (Lit (c :: c' :: l)) repl 0 p s = s.
Proof.
  intros Hs. apply replace_go_none. intros p pre suf E.
  apply exec_lit_head. subst s. apply Forall_app in Hs. destruct Hs as [_ Hs].
  destruct suf as [|x t]; [discriminate|]. inversion Hs; subst.
  simpl. congruence.
Qed.

Lemma replace_lit_copy c c' l repl s1 :
  Forall (fun x => x <> c) s1 ->
  forall p s,
    replace_go (Lit (c :: c' :: l)) repl 0 p (s1 ++ s)
    = s1 ++ replace_go (Lit (c :: c' :: l)) repl 0 (prev_after p s1) s.
Proof.
  induction 1 as [|x s1 Hx _ IH]; intros p s; [reflexivity|].
  cbn [app replace_go]. rewrite exec_lit_head by (simpl; congruence).
  rewrite IH, prev_after_cons. reflexivity.
Qed.

(** What the replacement of an entity makes of the text after an
    ampersand. *)
Definition after_amp (name repl y : jsstring) : jsstring :=
  if lit_match name y then repl ++ drop (length name) y else amp :: y.

(** One replacement on a text with one ampersand. *)
Lemma replace_one c' l repl s1 y :
  free_of_amp s1 -> free_of_amp y ->
  replace_all (Lit (amp :: c' :: l)) repl (s1 ++ amp :: y)
  = s1 ++ after_amp (c' :: l) repl y.
Proof.
  intros H1 Hy. unfold replace_all, after_amp.
  rewrite replace_lit_copy by exact H1. f_equal.
  cbn [replace_go]. rewrite exec_lit.
  change (lit_match (amp :: c' :: l) (amp :: y))
    with ((amp =? amp)%N && lit_match (c' :: l) y).
  rewrite N.eqb_refl. cbn [andb].
  destruct (lit_match (c' :: l) y) eqn:E.
  - change (length (amp :: c' :: l)) with (S (length (c' :: l))).
    cbv iota. f_equal. rewrite replace_go_skip.
    apply replace_lit_free, Forall_drop, Hy.
  - f_equal. apply replace_lit_free, Hy.
Qed.

Ltac amp_free :=
  first
    [ assumption
    | apply Forall_nil
    | apply Forall_app; split; amp_free
    | apply Forall_cons; split; [discriminate|amp_free] ].

Ltac literals :=
  repeat match goal with
         | |- context [js ?s] =>
             let v := eval vm_compute in (js s) in change (js s) with v
         end;
  change dquote with 34%N; change squote with 39%N; cbn [app].

Ltac stage s1 :=
  first
    [ rewrite (replace_lit_absent 38%N _ _ _ (s1 ++ _)) by amp_free
    | rewrite (replace_one _ _ _ s1 _) by amp_free;
      cbv [after_amp lit_match andb N.eqb Pos.eqb length drop];
      cbn [app] ].

Ltac decode s1 :=
  unfold decode_entities; literals; do 6 (stage s1); reflexivity.

(** X25: in a text with no other ampersand, each of the six entities
    is replaced by its character.  An entity whose ampersand is itself
    written as an entity is decoded twice when it names an angle sign
    or a quote, because the ampersand entity is replaced before these
    four: the text that shows the source of a tag comes out as the
    tag.  The entity of the space and that of the ampersand are decoded
    once. *)
Theorem decode_entities_once_or_twice (s1 s2 : jsstring) :
  free_of_amp s1 -> free_of_amp s2 ->
  decode_entities (s1 ++ js "&nbsp;" ++ s2) = s1 ++ js " " ++ s2
  /\ decode_entities (s1 ++ js "&lt;" ++ s2) = s1 ++ js "<" ++ s2
  /\ decode_entities (s1 ++ js "&gt;" ++ s2) = s1 ++ js ">" ++ s2
  /\ decode_entities (s1 ++ js "&quot;" ++ s2) = s1 ++ [dquote] ++ s2
  /\ decode_entities (s1 ++ js "&#39;" ++ s2) = s1 ++ [squote] ++ s2
  /\ decode_entities (s1 ++ js "&amp;lt;" ++ s2) = s1 ++ js "<" ++ s2
  /\ decode_entities (s1 ++ js "&amp;gt;" ++ s2) = s1 ++ js ">" ++ s2
  /\ decode_entities (s1 ++ js "&amp;quot;" ++ s2) = s1 ++ [dquote] ++ s2
  /\ decode_entities (s1 ++ js "&amp;#39;" ++ s2) = s1 ++ [squote] ++ s2
  /\ decode_entities (s1 ++ js "&amp;nbsp;" ++ s2) = s1 ++ js "&nbsp;" ++ s2
  /\ decode_entities (s1 ++ js "&amp;amp;" ++ s2) = s1 ++ js "&amp;" ++ s2.
Proof.
  intros H1 H2. unfold free_of_amp, amp in *.
  change (ch "&") with 38%N in *.
  repeat split; decode s1.
Qed.

Lemma decode_entities_once_or_twice_example :
  decode_entities (js "a " ++ js "&amp;lt;" ++ js "b>") = js "a <b>".
Proof.
  destruct (decode_entities_once_or_twice (js "a ") (js "b>"))
    as (_ & _ & _ & _ & _ & H & _);
    [repeat constructor; discriminate|repeat constructor; discriminate|].
  exact H.
Defined.

End Entities.

(** * The words of the text of the spine revision *)

Module SpineWords.
Import SpineImporter TextDocs ReadingOrder ImportHandler SpineHandler.
Import Markup Combined SpineText SpineArchive.

Lemma tokens_go_block cur w r :
  w <> [] -> all_space w ->
  tokens_go cur (w ++ r) = tokens_go cur [] ++ tokens_go [] r.
Proof.
  intros Hne Hw. destruct w as [|c w']; [contradiction|].
  inversion Hw as [|? ? Hc Hw']; subst.
  change ((c :: w') ++ r) with ([] ++ c :: (w' ++ r)).
  rewrite tokens_go_break by exact Hc. f_equal.
  apply tokens_go_spaces, Hw'.
Qed.

(** A replacement of white space by white space changes no word. *)
Lemma replace_keeps_words r repl :
  classes_within is_space r -> repl <> [] -> all_space repl ->
  forall n s p cur, length s = n ->
    tokens_go cur (replace_go r repl 0 p s) = tokens_go cur s.
Proof.
  intros Hr Hne Hrepl. induction n as [n IH] using lt_wf_ind.
  intros s p cur Hn. destruct s as [|c t]; [reflexivity|].
  cbn [replace_go].
  assert (Hkeep : tokens_go cur (c :: replace_go r repl 0 (Some c) t)
                  = tokens_go cur (c :: t)).
  { assert (Hlt : (length t < n)%nat) by (simpl in Hn; lia).
    cbn [tokens_go]. destruct (is_space c); [destruct cur|];
      rewrite (IH (length t) Hlt t (Some c) _ eq_refl); reflexivity. }
  destruct (exec r p (c :: t)) as [[m g]|] eqn:E; [|exact Hkeep].
  destruct m as [|m]; [exact Hkeep|].
  destruct (exec_within is_space r p (c :: t) (S m) g Hr E) as [Hle Hsp].
  rewrite replace_go_skip.
  rewrite tokens_go_block by assumption.
  rewrite (IH (length (drop m t))) by
    (rewrite ?length_drop; simpl in Hn; lia || reflexivity).
  rewrite <- (take_drop (S m) (c :: t)).
  rewrite tokens_go_block; [reflexivity|discriminate|exact Hsp].
Qed.

Lemma words_replace r repl s :
  classes_within is_space r -> repl <> [] -> all_space repl ->
  words (replace_all r repl s) = words s.
Proof.
  intros Hr Hne Hrepl. rewrite !words_tokens.
  apply (replace_keeps_words r repl Hr Hne Hrepl (length s)). reflexivity.
Qed.

Lemma words_trim s : words (trim s) = words s.
Proof.
  rewrite !words_tokens. unfold trim, tokens.
  destruct (trim_start_split s) as (w & Hw & E).
  rewrite E at 2. rewrite tokens_go_spaces by exact Hw.
  destruct (trim_end_split (trim_start s)) as (w' & Hw' & E').
  rewrite E' at 2. destruct w' as [|c w'']; [rewrite app_nil_r; reflexivity|].
  inversion Hw' as [|? ? Hc Hw'']; subst.
  rewrite tokens_go_break by exact Hc.
  assert (Hnil : tokens_go [] w'' = []) by (apply tokens_go_nil_iff; auto).
  rewrite Hnil, app_nil_r. reflexivity.
Qed.

Lemma words_squeeze s : words (squeeze s) = words s.
Proof.
  unfold squeeze. rewrite words_trim.
  rewrite words_replace;
    [|apply space_re_nl3|discriminate|repeat constructor].
  rewrite words_replace;
    [|apply space_re_blanks|discriminate|repeat constructor].
  rewrite words_replace;
    [|apply space_re_nl_ws|discriminate|repeat constructor].
  apply words_replace;
    [apply space_re_ws_nl|discriminate|repeat constructor].
Qed.

(** X26: the white-space replacements of [stripHtml] change no word,
    and the words of the text that the handler of the spine revision
    cuts into fragments are the words of the documents of the reading
    order, in this order, read after the tags are stripped and the
    entities decoded: no word is lost, and no word runs across two
    documents. *)
Theorem spine_text_words (toLowerCase : jsstring -> jsstring)
    (strFromU8_other : jsstring -> result jsstring)
    (localeCompare : jsstring -> jsstring -> Z)
    (files : Archive) (htmlPaths : list jsstring) (combinedText : jsstring) :
  readingOrder toLowerCase strFromU8_other localeCompare files
  = Ok htmlPaths ->
  combine strFromU8_other files htmlPaths [] = Ok combinedText ->
  (forall html,
     words (SpineImporter.stripHtml html)
     = words (decode_entities (strip_tags html)))
  /\ words (trim combinedText)
     = concat (List.map
                 (fun p => words (decode_entities
                                    (strip_tags (entry_text files p))))
                 htmlPaths).
Proof.
  intros Hr Hc.
  assert (Hs : forall html,
            words (SpineImporter.stripHtml html)
            = words (decode_entities (strip_tags html)))
    by (intros html; apply words_squeeze).
  split; [exact Hs|].
  assert (Hu : Forall (usable files) htmlPaths).
  { unfold readingOrder in Hr.
    destruct (findOpfPath toLowerCase files) as [opfPath|]; [|discriminate].
    destruct (extractSpineHtmlPaths strFromU8_other localeCompare files
                opfPath) as [paths|] eqn:E; [|discriminate].
    apply extract_usable in E.
    destruct paths; [discriminate|]. injection Hr as <-. exact E. }
  rewrite (combine_usable _ _ _ Hu) in Hc. injection Hc as <-.
  rewrite words_trim.
  rewrite (combined_fold
             (fun p => SpineImporter.stripHtml (entry_text files p))).
  change (words []) with (@nil jsstring). cbn [app].
  f_equal. apply map_ext. intros p. apply Hs.
Qed.

Lemma spine_text_words_example :
  words (trim ([newline; newline] ++ js "One"))
  = concat (List.map
              (fun p => words (decode_entities
                                 (strip_tags
                                    (entry_text (book opf_with_unknown_idref)
                                       p))))
              [js "OEBPS/ch1.xhtml"]).
Proof.
  exact (proj2 (spine_text_words toLowerCase_ascii raises codeunit_compare
                  (book opf_with_unknown_idref) [js "OEBPS/ch1.xhtml"]
                  ([newline; newline] ++ js "One") eq_refl eq_refl)).
Defined.

End SpineWords.

(** * Rounding to a Number *)

Module Rounding.
Import SpecFloat Number.

Lemma pow2_pos n : 0 <= n -> 0 < 2 ^ n.
Proof. intros Hn. apply Z.pow_pos_nonneg; lia. Qed.

Lemma pow2_add a b : 0 <= a -> 0 <= b -> 2 ^ (a + b) = 2 ^ a * 2 ^ b.
Proof. intros Ha Hb. apply Z.pow_add_r; assumption. Qed.

Lemma pow2_le a b : 0 <= a <= b -> 2 ^ a <= 2 ^ b.
Proof. intros H. apply Z.pow_le_mono_r; lia. Qed.

Lemma pow2_lt a b : 0 <= a < b -> 2 ^ a < 2 ^ b.
Proof. intros H. apply Z.pow_lt_mono_r; lia. Qed.

(** The powers of two of a goal as unknowns of linear arithmetic. *)
Ltac pows :=
  repeat match goal with
         | |- context [2 ^ ?e] =>
             let x := fresh "pw" in set (x := 2 ^ e) in *; clearbody x
         | H : context [2 ^ ?e] |- _ =>
             let x := fresh "pw" in set (x := 2 ^ e) in *; clearbody x
         end.

(** The number of binary digits of a mantissa. *)
Lemma digits_bounds p :
  2 ^ (Z.pos (digits2_pos p) - 1) <= Z.pos p < 2 ^ Z.pos (digits2_pos p).
Proof.
  induction p as [p IH|p IH|]; cbn [digits2_pos].
  - rewrite Pos2Z.inj_succ, Pos2Z.inj_xI.
    replace (Z.succ (Z.pos (digits2_pos p)) - 1)
      with (Z.succ (Z.pos (digits2_pos p) - 1)) by lia.
    rewrite !Z.pow_succ_r by lia. pows. lia.
  - rewrite Pos2Z.inj_succ. change (Z.pos p~0) with (2 * Z.pos p).
    replace (Z.succ (Z.pos (digits2_pos p)) - 1)
      with (Z.succ (Z.pos (digits2_pos p) - 1)) by lia.
    rewrite !Z.pow_succ_r by lia. pows. lia.
  - cbn. lia.
Qed.

Lemma digits_unique p d :
  2 ^ (d - 1) <= Z.pos p < 2 ^ d -> 1 <= d -> Z.pos (digits2_pos p) = d.
Proof.
  intros [Hlo Hhi] Hd. pose proof (digits_bounds p) as [Hlo' Hhi'].
  set (d' := Z.pos (digits2_pos p)) in *.
  destruct (Z.lt_trichotomy d' d) as [Hlt|[E|Hgt]]; [|exact E|].
  - pose proof (pow2_le d' (d - 1)). lia.
  - pose proof (pow2_le d (d' - 1)). lia.
Qed.

(** Shifting a mantissa to the right. *)
Lemma shr_1_spec m r s :
  0 <= m ->
  shr_1 {| shr_m := m; shr_r := r; shr_s := s |}
  = {| shr_m := m / 2; shr_r := Z.odd m; shr_s := r || s |}.
Proof.
  intros Hm. destruct m as [|[p|p|]|]; try lia; cbn [shr_1 Z.odd]; f_equal;
    try reflexivity.
  - apply (Z.div_unique _ _ _ 1); lia.
  - apply (Z.div_unique _ _ _ 0); lia.
Qed.

Lemma iter_pos_nat {A} (f : A -> A) p :
  forall x, iter_pos f p x = Nat.iter (Pos.to_nat p) f x.
Proof.
  induction p as [p IH|p IH|]; intros x; cbn [iter_pos].
  - rewrite !IH. rewrite Pos2Nat.inj_xI.
    replace (S (2 * Pos.to_nat p)) with (Pos.to_nat p + S (Pos.to_nat p))%nat
      by lia.
    rewrite Nat.iter_add, Nat.iter_succ_r. reflexivity.
  - rewrite !IH. rewrite Pos2Nat.inj_xO.
    replace (2 * Pos.to_nat p)%nat with (Pos.to_nat p + Pos.to_nat p)%nat
      by lia.
    rewrite Nat.iter_add. reflexivity.
  - reflexivity.
Qed.

Lemma shr_iter n m :
  0 <= m ->
  exists r s,
    Nat.iter n shr_1 {| shr_m := m; shr_r := false; shr_s := false |}
    = {| shr_m := m / 2 ^ Z.of_nat n; shr_r := r; shr_s := s |}
    /\ (m mod 2 ^ Z.of_nat n = 0 -> r = false /\ s = false).
Proof.
  intros Hm. induction n as [|n (r & s & E & Hex)].
  - exists false, false. cbn. rewrite Z.div_1_r. auto.
  - rewrite Nat.iter_succ, E.
    assert (Hp : 0 < 2 ^ Z.of_nat n) by (apply pow2_pos; lia).
    rewrite shr_1_spec by (apply Z.div_pos; lia).
    rewrite Nat2Z.inj_succ, Z.pow_succ_r by lia.
    rewrite Z.div_div by lia.
    rewrite (Z.mul_comm (2 ^ Z.of_nat n) 2).
    eexists _, _. split; [reflexivity|].
    intros Hmod. apply Z.mod_divide in Hmod; [|lia].
    destruct Hmod as [q Hq].
    assert (Hn : m mod 2 ^ Z.of_nat n = 0).
    { apply Z.mod_divide; [lia|]. exists (q * 2). lia. }
    destruct (Hex Hn) as [-> ->]. split; [|reflexivity].
    replace m with (q * 2 * 2 ^ Z.of_nat n) by lia.
    rewrite Z.div_mul by lia. rewrite Z.odd_mul. cbn. apply andb_false_r.
Qed.

(** [shr]: no shift for a count that is not positive, and a division
    by a power of two otherwise. *)
Lemma shr_spec m e n :
  0 <= m ->
  exists r s,
    shr {| shr_m := m; shr_r := false; shr_s := false |} e n
    = ({| shr_m := m / 2 ^ Z.max n 0; shr_r := r; shr_s := s |},
       e + Z.max n 0)
    /\ (m mod 2 ^ Z.max n 0 = 0 -> r = false /\ s = false).
Proof.
  intros Hm. destruct n as [|p|p]; cbn [shr Z.max Z.compare].
  - exists false, false. rewrite Z.div_1_r, Z.add_0_r. auto.
  - rewrite iter_pos_nat.
    destruct (shr_iter (Pos.to_nat p) m Hm) as (r & s & E & Hex).
    rewrite positive_nat_Z in E, Hex. rewrite E.
    exists r, s. split; [reflexivity|exact Hex].
  - exists false, false. rewrite Z.div_1_r, Z.add_0_r. auto.
Qed.

Lemma round_nearest_even_spec m r s :
  let m' := round_nearest_even m
              (loc_of_shr_record {| shr_m := m; shr_r := r; shr_s := s |}) in
  m <= m' <= m + 1 /\ (r = false /\ s = false -> m' = m).
Proof.
  destruct r, s; cbn; repeat split; try lia; try (intros [? ?]; discriminate).
  - destruct (Z.even m); lia.
  - destruct (Z.even m); lia.
Qed.

Lemma shl_align_spec m e t :
  exists mz ez,
    shl_align m e t = (mz, ez)
    /\ ez = Z.min e t
    /\ Z.pos mz = Z.pos m * 2 ^ (e - ez).
Proof.
  unfold shl_align. destruct (t - e) as [|d|d] eqn:E.
  - exists m, e. split; [reflexivity|]. split; [lia|].
    replace (e - e) with 0 by lia. lia.
  - exists m, e. split; [reflexivity|]. split; [lia|].
    replace (e - e) with 0 by lia. lia.
  - exists (Pos.iter xO m d), t. split; [reflexivity|]. split; [lia|].
    change (Pos.iter xO m d) with (shift_pos d m).
    rewrite shift_pos_correct, Z.pow_pos_fold. replace (e - t) with (Z.pos d) by lia. lia.
Qed.

Lemma fexp_eq mu : fexp prec emax mu = Z.max (mu - 53) (-1074).
Proof. reflexivity. Qed.

(** [rounded m e t m2]: [m2 * 2^t] is [m * 2^e], exactly when [t] is
    not above [e] or the digits below [2^t] are zero, and rounded to a
    neighbouring multiple of [2^t] otherwise. *)
Definition rounded (m e t m2 : Z) : Prop :=
  (t <= e /\ m2 = m * 2 ^ (e - t))
  \/ (e < t /\ m / 2 ^ (t - e) <= m2 <= m / 2 ^ (t - e) + 1
      /\ (m mod 2 ^ (t - e) = 0 -> m2 = m / 2 ^ (t - e))).

(** What [binary_round] returns has the sign it is given, the exponent
    [t] of the format for the magnitude of [m * 2^e] (or the next one,
    when rounding reaches [2^53]), and a rounded mantissa. *)
Lemma binary_round_spec s m e :
  let t := fexp prec emax (Z.pos (digits2_pos m) + e) in
  exists m2,
    rounded (Z.pos m) e t m2
    /\ ((m2 = 0 /\ binary_round prec emax s m e = S754_zero s)
        \/ exists m3 e3,
             ((e3 = t /\ Z.pos m3 = m2 /\ m2 < 2 ^ 53)
              \/ (e3 = t + 1 /\ m2 = 2 ^ 53 /\ Z.pos m3 = 2 ^ 52))
             /\ ((e3 <= 971
                  /\ binary_round prec emax s m e = S754_finite s m3 e3)
                 \/ (971 < e3
                     /\ binary_round prec emax s m e = S754_infinity s))).
Proof.
  intros t.
  destruct (shl_align_spec m e t) as (mz & ez & Ha & Hez & Hmz).
  pose proof (digits_bounds m) as Hdm.
  set (d := Z.pos (digits2_pos m)) in *.
  assert (Hd1 : 1 <= d) by (subst d; lia).
  assert (Ht : t = Z.max (d + e - 53) (-1074)) by (subst t; apply fexp_eq).
  assert (Hdz : Z.pos (digits2_pos mz) = d + (e - ez)).
  { apply digits_unique; [|lia]. rewrite Hmz.
    replace (d + (e - ez) - 1) with ((d - 1) + (e - ez)) by lia.
    rewrite !pow2_add by lia.
    pose proof (pow2_pos (e - ez)). pows. nia. }
  destruct (shr_spec (Z.pos mz) ez (t - ez)) as (r & s1 & Es & Hex); [lia|].
  rewrite Z.max_l in Es, Hex by lia.
  replace (ez + (t - ez)) with t in Es by lia.
  set (m1 := Z.pos mz / 2 ^ (t - ez)) in *.
  destruct (round_nearest_even_spec m1 r s1) as [Hm2 Hm2x].
  set (m2 := round_nearest_even m1
               (loc_of_shr_record
                  {| shr_m := m1; shr_r := r; shr_s := s1 |})) in *.
  assert (Hm1 : 0 <= m1 < 2 ^ 53).
  { pose proof (pow2_pos (t - ez)).
    split; [apply Z.div_pos; lia|].
    apply Z.div_lt_upper_bound; [lia|].
    pose proof (digits_bounds mz) as Hb. rewrite Hdz in Hb.
    pose proof (pow2_le (d + (e - ez)) (53 + (t - ez))).
    rewrite (pow2_add 53 (t - ez)) in * by lia. pows. lia. }
  destruct (shr_spec m2 t (fexp prec emax (Zdigits2 m2 + t) - t))
    as (r2 & s2 & Es2 & _); [lia|].
  assert (ER : binary_round prec emax s m e
               = match m2 / 2 ^ Z.max (fexp prec emax (Zdigits2 m2 + t) - t) 0
                 with
                 | 0 => S754_zero s
                 | Z.pos m0 =>
                     if t + Z.max (fexp prec emax (Zdigits2 m2 + t) - t) 0
                        <=? 971
                     then S754_finite s m0
                            (t + Z.max (fexp prec emax (Zdigits2 m2 + t) - t) 0)
                     else S754_infinity s
                 | Z.neg _ => S754_nan
                 end).
  { unfold binary_round. fold d. fold t. rewrite Ha.
    unfold binary_round_aux, shr_fexp. cbn [Zdigits2 shr_record_of_loc].
    rewrite Hdz. replace (d + (e - ez) + ez) with (d + e) by lia. fold t.
    rewrite Es. cbn [shr_m]. fold m2. rewrite Es2. reflexivity. }
  clear Es Es2 Ha.
  exists m2. split.
  - unfold rounded. destruct (Z.le_gt_cases t e) as [Hte|Hte].
    + left. split; [exact Hte|].
      assert (E : ez = t) by lia. clear Hez.
      assert (E1 : m1 = Z.pos mz)
        by (subst m1; rewrite E, Z.sub_diag; apply Z.div_1_r).
      rewrite Hm2x; [rewrite E1, Hmz, E; reflexivity|].
      apply Hex. rewrite E, Z.sub_diag. apply Z.mod_1_r.
    + right. split; [lia|].
      assert (E : ez = e) by lia. clear Hez.
      assert (E1 : Z.pos mz = Z.pos m)
        by (rewrite Hmz, E, Z.sub_diag; apply Z.mul_1_r).
      rewrite E, E1 in Hex. subst m1. rewrite E, E1 in *.
      split; [exact Hm2|].
      intros Hmod. apply Hm2x, Hex, Hmod.
  - rewrite ER. clear ER. clearbody m2.
    destruct m2 as [|q|q]; [| |lia].
    + left. split; [reflexivity|]. reflexivity.
    + right. cbn [Zdigits2]. rewrite fexp_eq.
      pose proof (digits_bounds q) as Hq.
      set (d2 := Z.pos (digits2_pos q)) in *.
      assert (Hd2 : 1 <= d2) by (subst d2; lia).
      destruct (Z.lt_ge_cases (Z.pos q) (2 ^ 53)) as [Hlt|Hge].
      * assert (d2 <= 53).
        { destruct (Z.le_gt_cases d2 53) as [?|Hgt]; [assumption|].
          pose proof (pow2_le 53 (d2 - 1)). lia. }
        rewrite (Z.max_r _ 0) by lia. rewrite Z.div_1_r, Z.add_0_r.
        exists q, t. split; [left; repeat split; assumption|].
        destruct (Z.leb_spec t 971); [left|right]; split; (lia || reflexivity).
      * assert (Eq53 : Z.pos q = 2 ^ 53) by lia.
        assert (Ed2 : d2 = 54).
        { subst d2. apply digits_unique; [|lia]. rewrite Eq53.
          change (54 - 1) with 53. split; [lia|]. apply pow2_lt. lia. }
        rewrite Ed2.
        replace (Z.max (Z.max (54 + t - 53) (-1074) - t) 0) with 1 by lia.
        rewrite Eq53. change (2 ^ 53 / 2 ^ 1) with (Z.pos (Pos.pow 2 52)).
        exists (Pos.pow 2 52), (t + 1).
        split; [right; repeat split; reflexivity|].
        destruct (Z.leb_spec (t + 1) 971); [left|right];
          split; (lia || reflexivity).
Qed.

Lemma pow2_split a b : 0 <= b <= a -> 2 ^ a = 2 ^ (a - b) * 2 ^ b.
Proof.
  intros H. rewrite <- pow2_add by lia. f_equal. lia.
Qed.

(** Multiplying both sides by a power of two. *)
Lemma scale_le a b c : 0 <= c -> (a * 2 ^ c <= b * 2 ^ c <-> a <= b).
Proof.
  intros Hc. pose proof (pow2_pos c Hc). split; intros H0; pows; nia.
Qed.

Lemma scale_lt a b c : 0 <= c -> (a * 2 ^ c < b * 2 ^ c <-> a < b).
Proof.
  intros Hc. pose proof (pow2_pos c Hc). split; intros H0; pows; nia.
Qed.

Lemma scale_eq a b c : 0 <= c -> (a * 2 ^ c = b * 2 ^ c <-> a = b).
Proof.
  intros Hc. pose proof (pow2_pos c Hc). split; intros H0; pows; nia.
Qed.

(** A product with a power of two, moved to another scale. *)
Lemma rescale m e c c' :
  0 <= e + c -> 0 <= c <= c' ->
  m * 2 ^ (e + c') = m * 2 ^ (e + c) * 2 ^ (c' - c).
Proof.
  intros He Hc. rewrite <- Z.mul_assoc, <- pow2_add by lia.
  do 2 f_equal. lia.
Qed.

(** A value that is an integer [K] below [2^53] is rounded to itself:
    the result holds [K] at an exponent that is not positive. *)
Lemma round_exact s p e c K :
  0 <= c -> 0 <= e + c ->
  Z.pos p * 2 ^ (e + c) = K * 2 ^ c -> K < 2 ^ 53 ->
  exists m3 e3,
    binary_round prec emax s p e = S754_finite s m3 e3
    /\ e3 <= 0 /\ Z.pos m3 = K * 2 ^ (- e3).
Proof.
  intros Hc Hec HK Hlt.
  assert (HK1 : 1 <= K).
  { pose proof (pow2_pos c Hc). pose proof (pow2_pos (e + c) Hec).
    pows. nia. }
  destruct (binary_round_spec s p e) as (m2 & Hr & Hres).
  pose proof (digits_bounds p) as Hd.
  set (d := Z.pos (digits2_pos p)) in *.
  assert (Hd1 : 1 <= d) by (subst d; lia).
  rewrite fexp_eq in Hr, Hres.
  assert (Hmu : 1 <= d + e <= 53).
  { split.
    - destruct (Z.le_gt_cases 1 (d + e)) as [?|Hgt]; [assumption|exfalso].
      assert (Hle : 2 ^ (d + (e + c)) <= 2 ^ c).
      { destruct (Z.le_gt_cases 0 (d + (e + c))) as [?|Hneg].
        - apply pow2_le. lia.
        - rewrite Z.pow_neg_r by lia. pose proof (pow2_pos c Hc). lia. }
      rewrite pow2_add in Hle by lia.
      pose proof (pow2_pos c Hc). pose proof (pow2_pos (e + c) Hec).
      pows. nia.
    - destruct (Z.le_gt_cases (d + e) 53) as [?|Hgt]; [assumption|exfalso].
      assert (Hle : 2 ^ (53 + c) <= 2 ^ ((d - 1) + (e + c)))
        by (apply pow2_le; lia).
      rewrite !pow2_add in Hle by lia.
      pose proof (pow2_pos c Hc). pose proof (pow2_pos (e + c) Hec).
      pows. nia. }
  set (t := Z.max (d + e - 53) (-1074)) in *.
  assert (Et : t = d + e - 53) by (subst t; lia).
  assert (Ht : -52 <= t <= 0) by lia.
  assert (HKmu : K * 2 ^ (- t) < 2 ^ 53).
  { assert (Hlt' : K * 2 ^ c < 2 ^ (d + e) * 2 ^ c).
    { rewrite <- HK.
      rewrite <- pow2_add by lia. replace (d + e + c) with (d + (e + c)) by lia.
      rewrite (pow2_add d (e + c)) by lia.
      pose proof (pow2_pos (e + c) Hec). pows. nia. }
    apply scale_lt in Hlt'; [|exact Hc].
    rewrite (pow2_split 53 (- t)) by lia.
    replace (53 - - t) with (d + e) by lia.
    apply scale_lt; [lia|exact Hlt']. }
  assert (Em2 : m2 = K * 2 ^ (- t)).
  { destruct Hr as [[Hte ->]|(Het & Hb & Hx)].
    - apply (scale_eq _ _ (t + 52 + c)); [lia|].
      rewrite <- !Z.mul_assoc, <- !pow2_add by lia.
      replace (e - t + (t + 52 + c)) with ((e + c) + 52) by lia.
      replace (- t + (t + 52 + c)) with (c + 52) by lia.
      rewrite (pow2_add (e + c) 52), (pow2_add c 52) by lia.
      rewrite !Z.mul_assoc, HK. reflexivity.
    - assert (EP : Z.pos p = K * 2 ^ (- e)).
      { apply (scale_eq _ _ (e + c)); [exact Hec|]. rewrite HK.
        rewrite <- Z.mul_assoc, <- pow2_add by lia. do 2 f_equal. lia. }
      assert (EP' : Z.pos p = K * 2 ^ (- t) * 2 ^ (t - e)).
      { rewrite EP, <- Z.mul_assoc, <- pow2_add by lia. do 2 f_equal. lia. }
      pose proof (pow2_pos (t - e)) as Hpos.
      rewrite Hx; rewrite EP'.
      + apply Z.div_mul. lia.
      + apply Z.mod_mul. lia. }
  assert (Hm2 : 0 < m2 < 2 ^ 53).
  { split; [|rewrite Em2; exact HKmu].
    rewrite Em2. pose proof (pow2_pos (- t)). pows. nia. }
  destruct Hres as [[E0 _]|(m3 & e3 & Hm3 & Hfin)]; [lia|].
  destruct Hm3 as [(-> & Hm3 & _)|(_ & E53 & _)]; [|lia].
  destruct Hfin as [[_ Hfin]|[Hinf _]]; [|lia].
  exists m3, t. split; [exact Hfin|]. split; [lia|].
  rewrite Hm3. exact Em2.
Qed.

Lemma round_sign s p e :
  binary_round prec emax s p e = S754_zero s
  \/ (exists m3 e3, binary_round prec emax s p e = S754_finite s m3 e3)
  \/ binary_round prec emax s p e = S754_infinity s.
Proof.
  destruct (binary_round_spec s p e) as (m2 & _ & Hres).
  destruct Hres as [[_ E]|(m3 & e3 & _ & [[_ E]|[_ E]])].
  - left. exact E.
  - right. left. exists m3, e3. exact E.
  - right. right. exact E.
Qed.

(** A Number that is at least the integer [k]. *)
Definition at_least (x : number) (k : Z) : Prop :=
  match x with
  | S754_nan => False
  | S754_infinity s => s = false
  | _ => k * denominator x <= numerator x
  end.

Lemma rounded_at_least P e c k d m2 :
  2 ^ (d - 1) <= P < 2 ^ d -> 1 <= d ->
  rounded P e (Z.max (d + e - 53) (-1074)) m2 ->
  0 <= c -> 0 <= e + c -> 0 <= k <= 2 ^ 53 ->
  k * 2 ^ c <= P * 2 ^ (e + c) ->
  k * 2 ^ Z.max (- Z.max (d + e - 53) (-1074)) 0
  <= m2 * 2 ^ Z.max (Z.max (d + e - 53) (-1074)) 0.
Proof.
  intros Hd Hd1 Hr Hc Hec Hk Hle.
  set (t := Z.max (d + e - 53) (-1074)) in *.
  destruct Hr as [[Hte ->]|(Het & [Hlo _] & _)].
  - destruct (Z.le_gt_cases 0 t) as [Ht|Ht].
    + rewrite Z.max_r, Z.max_l by lia. rewrite Z.mul_1_r.
      rewrite <- Z.mul_assoc, <- pow2_add by lia.
      replace (e - t + t) with e by lia.
      apply (scale_le _ _ c); [exact Hc|].
      rewrite <- Z.mul_assoc, <- pow2_add by lia. exact Hle.
    + rewrite Z.max_l, Z.max_r by lia. rewrite Z.mul_1_r.
      apply (scale_le _ _ c); [exact Hc|].
      rewrite <- !Z.mul_assoc, <- !pow2_add by lia.
      replace (e - t + c) with ((e + c) + - t) by lia.
      replace (- t + c) with (c + - t) by lia.
      rewrite (pow2_add (e + c)), (pow2_add c) by lia.
      rewrite !Z.mul_assoc. apply scale_le; [lia|exact Hle].
  - pose proof (pow2_pos (t - e)) as Hpos.
    destruct (Z.le_gt_cases t 0) as [Ht|Ht].
    + rewrite Z.max_l, Z.max_r by lia. rewrite Z.mul_1_r.
      apply Z.le_trans with (2 := Hlo).
      apply Z.div_le_lower_bound; [lia|].
      rewrite Z.mul_comm, <- Z.mul_assoc, <- pow2_add by lia.
      replace (- t + (t - e)) with (- e) by lia.
      apply (scale_le _ _ (e + c)); [exact Hec|].
      rewrite <- Z.mul_assoc, <- pow2_add by lia.
      replace (- e + (e + c)) with c by lia. exact Hle.
    + rewrite Z.max_r, Z.max_l by lia. rewrite Z.mul_1_r.
      assert (Et : t = d + e - 53) by (subst t; lia).
      assert (H52 : 2 ^ 52 <= m2).
      { apply Z.le_trans with (2 := Hlo).
        apply Z.div_le_lower_bound; [lia|].
        rewrite <- pow2_add by lia.
        replace (t - e + 52) with (d - 1) by lia. apply Hd. }
      pose proof (pow2_le 1 t). change (2 ^ 1) with 2 in *.
      change (2 ^ 53) with (2 ^ 52 * 2) in Hk.
      pows. nia.
Qed.

Lemma round_at_least p e c k :
  0 <= c -> 0 <= e + c -> 0 <= k <= 2 ^ 53 ->
  k * 2 ^ c <= Z.pos p * 2 ^ (e + c) ->
  at_least (binary_round prec emax false p e) k.
Proof.
  intros Hc Hec Hk Hle.
  destruct (binary_round_spec false p e) as (m2 & Hr & Hres).
  pose proof (digits_bounds p) as Hd.
  set (d := Z.pos (digits2_pos p)) in *.
  assert (Hd1 : 1 <= d) by (subst d; lia).
  rewrite fexp_eq in Hr, Hres.
  pose proof (rounded_at_least _ _ _ _ _ _ Hd Hd1 Hr Hc Hec Hk Hle) as HA.
  set (t := Z.max (d + e - 53) (-1074)) in *.
  destruct Hres as [[E0 ->]|(m3 & e3 & Hm3 & [[_ ->]|[_ ->]])];
    [| |reflexivity].
  - cbn. rewrite E0 in HA. pose proof (pow2_pos (Z.max (- t) 0)).
    pows. nia.
  - cbn [at_least numerator denominator cond_Zopp].
    destruct Hm3 as [(-> & -> & _)|(-> & E53 & ->)]; [exact HA|].
    rewrite E53 in HA.
    destruct (Z.le_gt_cases 0 t) as [Ht|Ht].
    + rewrite Z.max_r, Z.max_l in HA by lia.
      rewrite Z.max_r, Z.max_l by lia.
      rewrite (pow2_add t 1) by lia.
      change (2 ^ 53) with (2 ^ 52 * 2 ^ 1) in HA. pows. nia.
    + rewrite Z.max_l, Z.max_r in HA by lia.
      rewrite Z.max_l, Z.max_r by lia.
      rewrite (pow2_split (- t) 1) in HA by lia.
      replace (- (t + 1)) with (- t - 1) by lia.
      change (2 ^ 53) with (2 ^ 52 * 2 ^ 1) in HA.
      change (2 ^ 0) with 1 in *. change (2 ^ 1) with 2 in *. pows. nia.
Qed.

End Rounding.

(** * Numbers that hold integers *)

Module NumberFacts.
Import SpecFloat Number Rounding.

(** [x] holds the integer [a]. *)
Definition holds (x : number) (a : Z) : Prop := integer_value x = Some a.

(** [x] is zero or below. *)
Definition nonpositive (x : number) : Prop :=
  match x with
  | S754_nan => False
  | S754_zero _ => True
  | S754_infinity s | S754_finite s _ _ => s = true
  end.

(** [x] is below the integer [k]. *)
Definition below (x : number) (k : Z) : Prop :=
  match x with
  | S754_nan => False
  | S754_infinity s => s = true
  | _ => numerator x < k * denominator x
  end.

Lemma denominator_pos x : 0 < denominator x.
Proof.
  destruct x as [s|s| |s m e]; cbn [denominator];
    [lia|lia|lia|apply pow2_pos; lia].
Qed.

Lemma cond_Zopp_mul s a b : cond_Zopp s (a * b) = cond_Zopp s a * b.
Proof. destruct s; cbn; lia. Qed.

(** The value of a finite Number at a scale [2^c]. *)
Lemma finite_scale s m e c :
  0 <= c -> 0 <= e + c ->
  numerator (S754_finite s m e) * 2 ^ c
  = cond_Zopp s (Z.pos m) * 2 ^ (e + c) * denominator (S754_finite s m e).
Proof.
  intros Hc Hec. cbn [numerator denominator]. rewrite cond_Zopp_mul.
  rewrite <- !Z.mul_assoc. f_equal. rewrite <- !pow2_add by lia.
  f_equal. lia.
Qed.

Lemma holds_spec x a :
  holds x a
  <-> (x <> S754_nan /\ (forall s, x <> S754_infinity s))
      /\ numerator x = a * denominator x.
Proof.
  unfold holds, integer_value. pose proof (denominator_pos x) as Hd.
  destruct x as [s|s| |s m e];
    try (split; [discriminate|intros [[H1 H2] _]; exfalso;
                 (apply H1; reflexivity) || (apply (H2 s); reflexivity)]).
  - cbn [numerator denominator]. change (Z.rem 0 1 =? 0) with true.
    change (0 ÷ 1) with 0. cbv iota. split.
    + intros H. injection H as <-. split; [split; discriminate|reflexivity].
    + intros [_ H]. f_equal. lia.
  - destruct (Z.eqb_spec (Z.rem (numerator (S754_finite s m e))
                            (denominator (S754_finite s m e))) 0) as [E|E].
    + apply Z.quot_exact in E; [|lia]. split.
      * intros H. injection H as <-. split; [split; discriminate|].
        rewrite E at 1. apply Z.mul_comm.
      * intros [_ H]. f_equal. rewrite H. apply Z.quot_mul. lia.
    + split; [discriminate|]. intros [_ H]. exfalso. apply E.
      rewrite H. apply Z.rem_mul. lia.
Qed.

Lemma holds_zero s a : holds (S754_zero s) a -> a = 0.
Proof. intros H. injection H as <-. reflexivity. Qed.

Lemma holds_scale s m e a c :
  0 <= c -> 0 <= e + c ->
  holds (S754_finite s m e) a ->
  cond_Zopp s (Z.pos m) * 2 ^ (e + c) = a * 2 ^ c.
Proof.
  intros Hc Hec H. apply holds_spec in H. destruct H as [_ H].
  pose proof (finite_scale s m e c Hc Hec) as E. rewrite H in E.
  pose proof (denominator_pos (S754_finite s m e)).
  set (D := denominator (S754_finite s m e)) in *. pows. nia.
Qed.

Lemma holds_finite s m e K :
  e <= 0 -> Z.pos m = K * 2 ^ (- e) ->
  holds (S754_finite s m e) (cond_Zopp s K).
Proof.
  intros He Hm. apply holds_spec. split; [split; discriminate|].
  cbn [numerator denominator]. rewrite Z.max_r, Z.max_l by lia.
  rewrite Hm, Z.mul_1_r. apply cond_Zopp_mul.
Qed.

Lemma at_least_scale s m e k c :
  0 <= c -> 0 <= e + c ->
  (at_least (S754_finite s m e) k
   <-> k * 2 ^ c <= cond_Zopp s (Z.pos m) * 2 ^ (e + c)).
Proof.
  intros Hc Hec. unfold at_least.
  pose proof (finite_scale s m e c Hc Hec) as E.
  pose proof (denominator_pos (S754_finite s m e)).
  pose proof (pow2_pos c Hc).
  set (D := denominator (S754_finite s m e)) in *.
  set (N := numerator (S754_finite s m e)) in *.
  split; intros H1; pows; nia.
Qed.

Lemma below_scale s m e k c :
  0 <= c -> 0 <= e + c ->
  (below (S754_finite s m e) k
   <-> cond_Zopp s (Z.pos m) * 2 ^ (e + c) < k * 2 ^ c).
Proof.
  intros Hc Hec. unfold below.
  pose proof (finite_scale s m e c Hc Hec) as E.
  pose proof (denominator_pos (S754_finite s m e)).
  pose proof (pow2_pos c Hc).
  set (D := denominator (S754_finite s m e)) in *.
  set (N := numerator (S754_finite s m e)) in *.
  split; intros H1; pows; nia.
Qed.

Lemma at_least_mono x k k' : at_least x k -> k' <= k -> at_least x k'.
Proof.
  intros H Hk. pose proof (denominator_pos x).
  destruct x as [s|s| |s m e]; cbn [at_least] in *; try assumption; nia.
Qed.

Lemma holds_at_least x a : holds x a -> at_least x a.
Proof.
  intros H. apply holds_spec in H. destruct H as [[Hn Hi] H].
  destruct x as [s|s| |s m e]; cbn [at_least].
  - lia.
  - exfalso. apply (Hi s). reflexivity.
  - apply Hn. reflexivity.
  - lia.
Qed.

(** A finite Number that is at least 0, or at least some positive
    integer, has the positive sign. *)
Lemma at_least_sign s m e k :
  0 <= k -> at_least (S754_finite s m e) k -> s = false.
Proof.
  intros Hk H. destruct s; [exfalso|reflexivity].
  cbn [at_least numerator denominator cond_Zopp] in H.
  pose proof (pow2_pos (Z.max e 0)). pose proof (pow2_pos (Z.max (- e) 0)).
  pows. nia.
Qed.

(** *** The sum *)

Lemma shl_align_fst m e ez :
  ez <= e -> Z.pos (fst (shl_align m e ez)) = Z.pos m * 2 ^ (e - ez).
Proof.
  intros H. destruct (shl_align_spec m e ez) as (mz & ez' & -> & E & Hm).
  cbn [fst]. rewrite Hm. do 2 f_equal. lia.
Qed.

(** The sum of the two mantissas at the smaller exponent. *)
Definition aligned (sx : bool) (mx : positive) (ex : Z)
    (sy : bool) (my : positive) (ey : Z) : Z :=
  cond_Zopp sx (Z.pos mx * 2 ^ (ex - Z.min ex ey))
  + cond_Zopp sy (Z.pos my * 2 ^ (ey - Z.min ex ey)).

Lemma add_finite sx mx ex sy my ey :
  add (S754_finite sx mx ex) (S754_finite sy my ey)
  = binary_normalize prec emax (aligned sx mx ex sy my ey)
      (Z.min ex ey) false.
Proof.
  unfold add, SFadd, aligned. rewrite !shl_align_fst by lia. reflexivity.
Qed.

Lemma aligned_scale sx mx ex sy my ey c :
  0 <= c -> 0 <= ex + c -> 0 <= ey + c ->
  aligned sx mx ex sy my ey * 2 ^ (Z.min ex ey + c)
  = cond_Zopp sx (Z.pos mx) * 2 ^ (ex + c)
    + cond_Zopp sy (Z.pos my) * 2 ^ (ey + c).
Proof.
  intros Hc Hx Hy. unfold aligned. rewrite !cond_Zopp_mul.
  rewrite Z.mul_add_distr_r, <- !Z.mul_assoc, <- !pow2_add by lia.
  replace (ex - Z.min ex ey + (Z.min ex ey + c)) with (ex + c) by lia.
  replace (ey - Z.min ex ey + (Z.min ex ey + c)) with (ey + c) by lia.
  reflexivity.
Qed.

(** A scale at which two finite Numbers are integers. *)
Definition scale_of (ex ey : Z) : Z := Z.max 0 (Z.max (- ex) (- ey)).

(** The sum of two Numbers that hold integers holds their sum, when it
    is below [2^53] in absolute value. *)
Lemma add_holds x y a b :
  holds x a -> holds y b -> Z.abs (a + b) < 2 ^ 53 ->
  holds (add x y) (a + b).
Proof.
  intros Hx Hy Hab.
  destruct x as [sx|sx| |sx mx ex]; try discriminate;
    destruct y as [sy|sy| |sy my ey]; try discriminate.
  - apply holds_zero in Hx, Hy. subst. destruct sx, sy; reflexivity.
  - apply holds_zero in Hx. subst. exact Hy.
  - apply holds_zero in Hy. subst. rewrite Z.add_0_r. exact Hx.
  - rewrite add_finite.
    set (c := scale_of ex ey).
    assert (Hc : 0 <= c /\ 0 <= ex + c /\ 0 <= ey + c)
      by (subst c; unfold scale_of; lia).
    destruct Hc as (Hc & Hxc & Hyc).
    pose proof (aligned_scale sx mx ex sy my ey c Hc Hxc Hyc) as E.
    rewrite (holds_scale _ _ _ _ c Hc Hxc Hx) in E.
    rewrite (holds_scale _ _ _ _ c Hc Hyc Hy) in E.
    rewrite <- Z.mul_add_distr_r in E.
    assert (Hez : 0 <= Z.min ex ey + c) by lia.
    pose proof (pow2_pos c Hc) as Hpc.
    pose proof (pow2_pos _ Hez) as Hpe.
    destruct (aligned sx mx ex sy my ey) as [|p|p] eqn:Es;
      cbn [binary_normalize].
    + assert (a + b = 0) by (pows; nia).
      replace (a + b) with 0 by lia. reflexivity.
    + destruct (round_exact false p (Z.min ex ey) c (a + b) Hc Hez E)
        as (m3 & e3 & -> & He3 & Hm3); [lia|].
      apply (holds_finite false m3 e3 (a + b) He3 Hm3).
    + assert (E' : Z.pos p * 2 ^ (Z.min ex ey + c) = (- (a + b)) * 2 ^ c).
      { change (Z.neg p) with (- Z.pos p) in E. pows. lia. }
      destruct (round_exact true p (Z.min ex ey) c (- (a + b)) Hc Hez E')
        as (m3 & e3 & -> & He3 & Hm3); [lia|].
      replace (a + b) with (cond_Zopp true (- (a + b))) by (cbn; lia).
      apply (holds_finite true m3 e3 _ He3 Hm3).
Qed.

(** The sum of two Numbers that are at least [a] and [b] is at least
    every integer up to [a + b] and [2^53]: rounding does not go below
    an integer that a Number holds. *)
Lemma add_at_least x y a b k :
  at_least x a -> at_least y b -> 0 <= a -> 0 <= b ->
  k <= a + b -> 0 <= k <= 2 ^ 53 ->
  at_least (add x y) k.
Proof.
  intros Hx Hy Ha Hb Hk Hk53.
  destruct x as [sx|sx| |sx mx ex]; [| |contradiction|];
    (destruct y as [sy|sy| |sy my ey]; [| |contradiction|]);
    cbn [at_least] in Hx, Hy; try subst sx; try subst sy;
    try discriminate; try reflexivity.
  - cbn [numerator denominator] in Hx, Hy.
    assert (k = 0) by lia. subst k. destruct sx, sy; cbn; lia.
  - cbn [numerator denominator] in Hx.
    change (at_least (S754_finite sy my ey) k).
    apply (at_least_mono _ b); [exact Hy|lia].
  - cbn [numerator denominator] in Hy.
    change (at_least (S754_finite sx mx ex) k).
    apply (at_least_mono _ a); [exact Hx|lia].
  - pose proof (at_least_sign _ _ _ _ Ha Hx) as ->.
    pose proof (at_least_sign _ _ _ _ Hb Hy) as ->.
    rewrite add_finite.
    set (c := scale_of ex ey).
    assert (Hc : 0 <= c /\ 0 <= ex + c /\ 0 <= ey + c)
      by (subst c; unfold scale_of; lia).
    destruct Hc as (Hc & Hxc & Hyc).
    pose proof (aligned_scale false mx ex false my ey c Hc Hxc Hyc) as E.
    apply (at_least_scale _ _ _ _ c Hc Hxc) in Hx.
    apply (at_least_scale _ _ _ _ c Hc Hyc) in Hy.
    assert (Hez : 0 <= Z.min ex ey + c) by lia.
    pose proof (pow2_pos c Hc) as Hpc.
    pose proof (pow2_pos _ Hez) as Hpe.
    pose proof (pow2_pos _ Hxc) as Hpx.
    cbn [cond_Zopp] in *.
    destruct (aligned false mx ex false my ey) as [|p|p] eqn:Es;
      cbn [binary_normalize].
    + exfalso. pows. nia.
    + apply (round_at_least p (Z.min ex ey) c k Hc Hez Hk53).
      rewrite E. pows. nia.
    + exfalso. pows. nia.
Qed.

(** The sum of two Numbers that are zero or below is zero or below. *)
Lemma add_nonpositive x y :
  nonpositive x -> nonpositive y -> nonpositive (add x y).
Proof.
  intros Hx Hy.
  destruct x as [sx|sx| |sx mx ex]; [| |contradiction|];
    (destruct y as [sy|sy| |sy my ey]; [| |contradiction|]);
    cbn [nonpositive] in Hx, Hy; try subst sx; try subst sy;
    try reflexivity.
  - destruct sx, sy; exact I.
  - rewrite add_finite. unfold aligned. cbn [cond_Zopp].
    pose proof (pow2_pos (ex - Z.min ex ey)).
    pose proof (pow2_pos (ey - Z.min ex ey)).
    destruct (- (Z.pos mx * 2 ^ (ex - Z.min ex ey))
              + - (Z.pos my * 2 ^ (ey - Z.min ex ey))) as [|p|p] eqn:Es;
      cbn [binary_normalize].
    + exact I.
    + exfalso. pows. nia.
    + destruct (round_sign true p (Z.min ex ey))
        as [->|[(m3 & e3 & ->)| ->]]; reflexivity.
Qed.

End NumberFacts.

Module NumberOrder.
Import SpecFloat Number Rounding NumberFacts.

(** *** Integers as Numbers *)

Lemma of_Z_holds z : Z.abs z < 2 ^ 53 -> holds (of_Z z) z.
Proof.
  intros Hz. unfold of_Z. destruct z as [|p|p]; cbn [binary_normalize].
  - reflexivity.
  - destruct (round_exact false p 0 0 (Z.pos p))
      as (m3 & e3 & -> & He3 & Hm3); try lia.
    apply (holds_finite false m3 e3 (Z.pos p) He3 Hm3).
  - destruct (round_exact true p 0 0 (Z.pos p))
      as (m3 & e3 & -> & He3 & Hm3); try lia.
    apply (holds_finite true m3 e3 (Z.pos p) He3 Hm3).
Qed.

Lemma of_Z_at_least z k :
  0 <= k <= z -> k <= 2 ^ 53 -> at_least (of_Z z) k.
Proof.
  intros Hk Hk53. unfold of_Z. destruct z as [|p|p]; cbn [binary_normalize];
    try lia.
  - cbn. lia.
  - apply (round_at_least p 0 0 k); lia.
Qed.

(** *** Comparisons *)

Definition finite (x : number) : Prop :=
  x <> S754_nan /\ forall s, x <> S754_infinity s.

Lemma holds_finite_number x a : holds x a -> finite x.
Proof. intros H. apply holds_spec in H. apply H. Qed.

Lemma compare_finite x y :
  finite x -> finite y ->
  compare x y
  = Some (numerator x * denominator y ?= numerator y * denominator x).
Proof.
  intros [Hx Hx'] [Hy Hy'].
  destruct x as [sx|sx| |sx mx ex];
    [|exfalso; apply (Hx' sx); reflexivity|contradiction|];
    (destruct y as [sy|sy| |sy my ey];
     [|exfalso; apply (Hy' sy); reflexivity|contradiction|]);
    reflexivity.
Qed.

(** Comparing with a Number that holds an integer. *)
Lemma compare_holds_r x y b :
  finite x -> holds y b ->
  compare x y = Some (numerator x ?= b * denominator x).
Proof.
  intros Hx Hy. rewrite compare_finite by (eauto using holds_finite_number).
  apply holds_spec in Hy. destruct Hy as [_ ->]. f_equal.
  pose proof (denominator_pos y).
  rewrite (Zmult_compare_compat_r (numerator x) (b * denominator x)
             (denominator y)) by lia.
  f_equal. lia.
Qed.

Lemma compare_holds x y a b :
  holds x a -> holds y b -> compare x y = Some (a ?= b).
Proof.
  intros Hx Hy.
  rewrite (compare_holds_r x y b) by (eauto using holds_finite_number).
  apply holds_spec in Hx. destruct Hx as [_ ->]. f_equal.
  pose proof (denominator_pos x).
  symmetry. apply Zmult_compare_compat_r. lia.
Qed.

Lemma ltb_holds x y a b : holds x a -> holds y b -> ltb x y = (a <? b).
Proof.
  intros Hx Hy. unfold ltb. rewrite (compare_holds x y a b Hx Hy).
  unfold Z.ltb. destruct (a ?= b); reflexivity.
Qed.

Lemma ltb_at_least x y b k :
  at_least x k -> holds y b -> b <= k -> ltb x y = false.
Proof.
  intros Hx Hy Hb. unfold ltb.
  pose proof (holds_finite_number y b Hy) as [Hy1 Hy2].
  destruct x as [sx|sx| |sx mx ex]; [| |contradiction|].
  - rewrite (compare_holds_r _ y b);
      [|split; [discriminate|intros ?; discriminate]|exact Hy].
    cbn [at_least] in Hx.
    destruct (Z.compare_spec (numerator (S754_zero sx))
                (b * denominator (S754_zero sx))); try reflexivity.
    pose proof (denominator_pos (S754_zero sx)). nia.
  - cbn [at_least] in Hx. subst sx.
    destruct y as [sy|sy| |sy my ey]; try reflexivity.
    + exfalso. apply (Hy2 sy). reflexivity.
  - rewrite (compare_holds_r _ y b);
      [|split; [discriminate|intros ?; discriminate]|exact Hy].
    cbn [at_least] in Hx.
    destruct (Z.compare_spec (numerator (S754_finite sx mx ex))
                (b * denominator (S754_finite sx mx ex))); try reflexivity.
    pose proof (denominator_pos (S754_finite sx mx ex)). nia.
Qed.

Lemma ltb_below x y k :
  below x k -> at_least y k -> ltb x y = true.
Proof.
  intros Hx Hy. unfold ltb.
  pose proof (denominator_pos x) as Hdx. pose proof (denominator_pos y) as Hdy.
  destruct x as [sx|sx| |sx mx ex]; [| |contradiction|];
    (destruct y as [sy|sy| |sy my ey]; [| |contradiction|]);
    cbn [below at_least] in Hx, Hy; try subst sx; try subst sy;
    try discriminate; try reflexivity.
  all: cbn [compare];
    match goal with
    | |- context [?a ?= ?b] => destruct (Z.compare_spec a b)
    end; try reflexivity; exfalso; nia.
Qed.

Lemma ltb_nonpositive x y : nonpositive x -> at_least y 1 -> ltb x y = true.
Proof.
  intros Hx Hy. apply (ltb_below x y 1); [|exact Hy].
  destruct x as [sx|sx| |sx mx ex]; cbn [nonpositive below] in *;
    try assumption.
  - cbn. lia.
  - subst sx. cbn [numerator denominator cond_Zopp].
    pose proof (pow2_pos (Z.max ex 0)). pose proof (pow2_pos (Z.max (- ex) 0)).
    pows. nia.
Qed.

(** [1 <= x] and [x <= 0] in the terms of the facts above. *)
Lemma leb_one x : leb (of_Z 1) x = true <-> at_least x 1.
Proof.
  unfold leb. destruct x as [sx|[|]| |sx mx ex]; cbn [at_least].
  - cbn. split; [discriminate|lia].
  - cbn. split; discriminate.
  - cbn. split; reflexivity.
  - cbn. split; [discriminate|contradiction].
  - rewrite compare_finite;
      [|split; [discriminate|intros ?; discriminate]
       |split; [discriminate|intros ?; discriminate]].
    set (N := numerator (S754_finite sx mx ex)).
    set (D := denominator (S754_finite sx mx ex)).
    change (numerator (of_Z 1)) with 4503599627370496.
    change (denominator (of_Z 1)) with 4503599627370496.
    destruct (Z.compare_spec (4503599627370496 * D) (N * 4503599627370496));
      split; try reflexivity; try discriminate; intros;
      first [lia|exfalso; lia].
Qed.

Lemma leb_zero x : leb x (of_Z 0) = true <-> nonpositive x.
Proof.
  unfold leb. destruct x as [sx|[|]| |sx mx ex]; cbn [nonpositive].
  - cbn. split; trivial.
  - cbn. split; reflexivity.
  - cbn. split; discriminate.
  - cbn. split; [discriminate|contradiction].
  - change (of_Z 0) with (S754_zero false).
    cbn [compare numerator denominator].
    rewrite Z.mul_1_r, Z.mul_0_l.
    pose proof (pow2_pos (Z.max ex 0)).
    destruct sx; cbn [cond_Zopp];
      match goal with
      | |- context [?a ?= ?b] => destruct (Z.compare_spec a b)
      end; split; try reflexivity; try discriminate;
      intros; exfalso; pows; nia.
Qed.

Lemma one_value : of_Z 1 = S754_finite false 4503599627370496 (-52).
Proof. reflexivity. Qed.

(** *** Truncation *)

Lemma ToIntegerOrInfinity_holds x a :
  holds x a -> ToIntegerOrInfinity x = Integer a.
Proof.
  intros H. pose proof H as H'. apply holds_spec in H'.
  destruct H' as [[Hn Hi] E]. pose proof (denominator_pos x).
  destruct x as [s|s| |s m e];
    [|exfalso; apply (Hi s); reflexivity|contradiction|];
    cbn [ToIntegerOrInfinity]; rewrite E; f_equal; apply Z.quot_mul; lia.
Qed.

Lemma ToIntegerOrInfinity_at_least x k :
  at_least x k -> 0 <= k ->
  ToIntegerOrInfinity x = PlusInfinity
  \/ exists z, ToIntegerOrInfinity x = Integer z /\ k <= z.
Proof.
  intros H Hk. pose proof (denominator_pos x).
  destruct x as [s|s| |s m e]; [| |contradiction|]; cbn [at_least] in H.
  - right. eexists. split; [reflexivity|].
    apply Z.quot_le_lower_bound; lia.
  - subst s. left. reflexivity.
  - right. eexists. split; [reflexivity|].
    apply Z.quot_le_lower_bound; lia.
Qed.

(** The integer part of a finite Number that is not negative. *)
Lemma floor_bounds x :
  finite x -> at_least x 0 ->
  exists a, 0 <= a /\ at_least x a /\ below x (a + 1).
Proof.
  intros [Hn Hi] H0. pose proof (denominator_pos x) as Hd.
  exists (numerator x / denominator x).
  assert (Hnum : 0 <= numerator x).
  { destruct x as [s|s| |s m e]; cbn [at_least] in H0;
      [lia|exfalso; apply (Hi s); reflexivity|contradiction|lia]. }
  pose proof (Z.div_mod (numerator x) (denominator x)) as E.
  pose proof (Z.mod_pos_bound (numerator x) (denominator x) Hd).
  assert (0 <= numerator x / denominator x) by (apply Z.div_pos; lia).
  split; [assumption|].
  destruct x as [s|s| |s m e];
    [|exfalso; apply (Hi s); reflexivity|contradiction|];
    cbn [at_least below]; nia.
Qed.

(** *** The larger of two Numbers *)

Lemma max_nan x : max x NaN = NaN.
Proof. destruct x as [s|[|]| |s m e]; reflexivity. Qed.

Lemma max_holds x y a b :
  holds x a -> holds y b -> holds (max x y) (Z.max a b).
Proof.
  intros Hx Hy. unfold max. rewrite (compare_holds x y a b Hx Hy).
  destruct (Z.compare_spec a b) as [E|E|E].
  - subst b. rewrite Z.max_id.
    destruct x as [[|]|sx| |sx mx ex]; assumption.
  - rewrite Z.max_r by lia. exact Hy.
  - rewrite Z.max_l by lia. exact Hx.
Qed.

(** [Math.max(1, x)] is at least 1 unless [x] is NaN. *)
Lemma max_one x : x <> NaN -> at_least (max (of_Z 1) x) 1.
Proof.
  intros Hx. unfold max.
  assert (H1 : at_least (of_Z 1) 1) by (apply of_Z_at_least; lia).
  destruct (compare (of_Z 1) x) as [[| |]|] eqn:E.
  - exact H1.
  - apply leb_one. unfold leb. rewrite E. reflexivity.
  - exact H1.
  - destruct x as [s|[|]| |s m e]; try discriminate. contradiction.
Qed.

(** *** The difference *)

Lemma sub_add_opp x y : sub x y = add x (SFopp y).
Proof.
  destruct x as [[|]|[|]| |sx mx ex]; destruct y as [[|]|[|]| |sy my ey];
    try reflexivity.
  unfold sub, add, SFsub, SFadd. cbn [SFopp]. f_equal.
  destruct sy; cbn [cond_Zopp negb]; lia.
Qed.

Lemma opp_holds y b : holds y b -> holds (SFopp y) (- b).
Proof.
  intros H. apply holds_spec in H. destruct H as [[Hn Hi] E].
  apply holds_spec. destruct y as [s|s| |s m e];
    [|exfalso; apply (Hi s); reflexivity|contradiction|].
  - split; [split; discriminate|]. cbn in *. lia.
  - split; [split; discriminate|]. cbn [SFopp numerator denominator] in *.
    destruct s; cbn [cond_Zopp negb] in *; lia.
Qed.

Lemma sub_holds x y a b :
  holds x a -> holds y b -> Z.abs (a - b) < 2 ^ 53 ->
  holds (sub x y) (a - b).
Proof.
  intros Hx Hy Hab. rewrite sub_add_opp.
  apply (add_holds x (SFopp y) a (- b)); [exact Hx|apply opp_holds, Hy|].
  replace (a + - b) with (a - b) by lia. exact Hab.
Qed.

End NumberOrder.

(** * Integer sizes and windows *)

Module Sizes.
Import SpecFloat Number Rounding NumberFacts NumberOrder.

Lemma holds_nonpositive x a : holds x a -> a <= 0 -> nonpositive x.
Proof.
  intros H Ha. apply holds_spec in H. destruct H as [[Hn Hi] E].
  pose proof (denominator_pos x) as Hd.
  destruct x as [s|s| |s m e]; cbn [nonpositive].
  - exact I.
  - exfalso. apply (Hi s). reflexivity.
  - apply Hn. reflexivity.
  - destruct s; [reflexivity|exfalso].
    cbn [numerator cond_Zopp] in E.
    pose proof (pow2_pos (Z.max e 0)).
    set (D := denominator (S754_finite false m e)) in *. pows. nia.
Qed.

Lemma holds_at_least_le x a k : holds x a -> at_least x k -> k <= a.
Proof.
  intros H Hk. apply holds_spec in H. destruct H as [[Hn Hi] E].
  pose proof (denominator_pos x) as Hd.
  destruct x as [s|s| |s m e]; cbn [at_least] in Hk;
    [|exfalso; apply (Hi s); reflexivity|contradiction|]; nia.
Qed.

Lemma leb_zero_l x : leb (of_Z 0) x = true <-> at_least x 0.
Proof.
  unfold leb. destruct x as [sx|[|]| |sx mx ex]; cbn [at_least].
  - cbn. split; [lia|reflexivity].
  - cbn. split; discriminate.
  - cbn. split; reflexivity.
  - cbn. split; [discriminate|contradiction].
  - change (of_Z 0) with (S754_zero false).
    cbn [compare numerator denominator].
    rewrite Z.mul_0_l, Z.mul_1_r.
    match goal with
    | |- context [?a ?= ?b] => destruct (Z.compare_spec a b)
    end; split; try reflexivity; try discriminate; intros;
      first [lia|exfalso; lia].
Qed.

Lemma of_nat_holds n : Z.of_nat n < 2 ^ 53 -> holds (of_nat n) (Z.of_nat n).
Proof. intros H. apply of_Z_holds. lia. Qed.

(** The length of an array is an integer that a Number holds. *)
Lemma bound_32 (n : nat) : Z.of_nat n < 2 ^ 32 -> Z.of_nat n < 2 ^ 53.
Proof.
  change (2 ^ 32) with 4294967296. change (2 ^ 53) with 9007199254740992.
  lia.
Qed.

(** *** Slices *)

Lemma slice_number_holds {A} (l : list A) x y a b :
  holds x a -> holds y b -> slice_number l x y = slice l a b.
Proof.
  intros Hx Hy. unfold slice_number, slice.
  rewrite (ToIntegerOrInfinity_holds x a Hx).
  rewrite (ToIntegerOrInfinity_holds y b Hy). reflexivity.
Qed.

Lemma rel_index_at_least len y k :
  at_least y k -> 0 <= len <= k ->
  rel_index_number len (ToIntegerOrInfinity y) = len.
Proof.
  intros Hy Hk.
  destruct (ToIntegerOrInfinity_at_least y k Hy) as [->|(z & -> & Hz)];
    [lia|reflexivity|].
  cbn [rel_index_number]. unfold rel_index.
  destruct (Z.ltb_spec z 0); lia.
Qed.

(** A slice whose end is at or beyond the end of the list. *)
Lemma slice_number_to_end {A} (l : list A) x y a k b :
  holds x a -> at_least y k ->
  Z.of_nat (length l) <= k -> Z.of_nat (length l) <= b ->
  slice_number l x y = slice l a b.
Proof.
  intros Hx Hy Hk Hb. unfold slice_number, slice.
  rewrite (ToIntegerOrInfinity_holds x a Hx).
  rewrite (rel_index_at_least _ y k Hy) by lia.
  cbn [rel_index_number]. do 3 f_equal.
  unfold rel_index. destruct (Z.ltb_spec b 0); lia.
Qed.

(** *** The loop of [chunkWords] at an integer size *)

(** The index [i] of the loop with Numbers and the index [k] of the
    loop with integers: the same integer, or both at or beyond the
    length. *)
Definition tracks (len : Z) (i : number) (k : Z) : Prop :=
  (holds i k /\ 0 <= k) \/ (at_least i len /\ len <= k).

Section IntegerSize.
Variable ws : list jsstring.
Variable tw : number.
Variable n : Z.
Hypothesis Htw : holds tw n.
Hypothesis Hn : 1 <= n.
Hypothesis Hlen : Z.of_nat (length ws) < 2 ^ 53.

Lemma chunk_step_integer i k acc :
  tracks (Z.of_nat (length ws)) i k ->
  match Numeric.chunk_step ws tw (i, acc), chunk_step ws n (k, acc) with
  | None, None => True
  | Some (i', acc1), Some (k', acc2) =>
      acc1 = acc2 /\ tracks (Z.of_nat (length ws)) i' k'
  | _, _ => False
  end.
Proof.
  intros Ht. unfold Numeric.chunk_step, chunk_step.
  pose proof (of_nat_holds (length ws) Hlen) as Hl.
  destruct Ht as [[Hi Hk]|[Hi Hk]].
  - rewrite (ltb_holds i _ k _ Hi Hl).
    destruct (Z.ltb_spec k (Z.of_nat (length ws))) as [Hlt|Hge]; [|exact I].
    destruct (Z.lt_ge_cases (k + n) (2 ^ 53)) as [Hs|Hs].
    + assert (Hi' : holds (add i tw) (k + n))
        by (apply add_holds; [exact Hi|exact Htw|lia]).
      split; [|left; split; [exact Hi'|lia]].
      rewrite (slice_number_holds ws i (add i tw) k (k + n) Hi Hi').
      reflexivity.
    + assert (Hi' : at_least (add i tw) (Z.of_nat (length ws))).
      { apply (add_at_least i tw k n);
          [apply holds_at_least, Hi|apply holds_at_least, Htw|lia..]. }
      split; [|right; split; [exact Hi'|lia]].
      rewrite (slice_number_to_end ws i (add i tw) k
                 (Z.of_nat (length ws)) (k + n) Hi Hi') by lia.
      reflexivity.
  - rewrite (ltb_at_least i _ _ _ Hi Hl) by lia.
    destruct (Z.ltb_spec k (Z.of_nat (length ws))); [lia|exact I].
Qed.

Lemma chunk_loop_integer fuel :
  forall i k acc,
    tracks (Z.of_nat (length ws)) i k ->
    Numeric.chunk_loop fuel ws tw (i, acc) = chunk_loop fuel ws n (k, acc).
Proof.
  induction fuel as [|fuel IH]; intros i k acc Ht;
    pose proof (chunk_step_integer i k acc Ht) as Hs;
    cbn [Numeric.chunk_loop chunk_loop];
    destruct (Numeric.chunk_step ws tw (i, acc)) as [[i' acc1]|];
    destruct (chunk_step ws n (k, acc)) as [[k' acc2]|];
    try contradiction; try reflexivity.
  destruct Hs as [<- Ht']. apply IH, Ht'.
Qed.

End IntegerSize.

(** *** A size that is zero or below *)

Section Stuck.
Variable ws : list jsstring.
Variable tw : number.
Hypothesis Htw : nonpositive tw.
Hypothesis Hws : ws <> [].

Lemma length_at_least_one : at_least (of_nat (length ws)) 1.
Proof.
  apply of_Z_at_least; [|lia].
  destruct ws; [contradiction|]. cbn [length]. lia.
Qed.

Lemma chunk_step_stuck i acc :
  nonpositive i ->
  exists acc',
    Numeric.chunk_step ws tw (i, acc) = Some (add i tw, acc')
    /\ nonpositive (add i tw).
Proof.
  intros Hi. unfold Numeric.chunk_step.
  rewrite (ltb_nonpositive i _ Hi length_at_least_one).
  eexists. split; [reflexivity|]. apply add_nonpositive; assumption.
Qed.

Lemma numeric_loop_stuck fuel :
  forall i acc, nonpositive i -> Numeric.chunk_loop fuel ws tw (i, acc) = None.
Proof.
  induction fuel as [|fuel IH]; intros i acc Hi;
    destruct (chunk_step_stuck i acc Hi) as (acc' & E & Hi');
    cbn [Numeric.chunk_loop]; rewrite E; [reflexivity|].
  apply IH, Hi'.
Qed.

Lemma numeric_iter_stuck k :
  forall i acc, nonpositive i ->
    exists i' acc',
      Numeric.chunk_iter k ws tw (i, acc) = Some (i', acc')
      /\ nonpositive i'.
Proof.
  induction k as [|k IH]; intros i acc Hi; cbn [Numeric.chunk_iter].
  - exists i, acc. split; [reflexivity|exact Hi].
  - destruct (chunk_step_stuck i acc Hi) as (acc' & E & Hi').
    rewrite E. apply IH, Hi'.
Qed.

End Stuck.

Lemma numeric_loop_no_words tw fuel acc :
  Numeric.chunk_loop fuel [] tw (of_Z 0, acc) = Some acc.
Proof. destruct fuel; reflexivity. Qed.

(** [chunkWords] with a Number that holds an integer is [chunkWords]
    at that integer. *)
Lemma chunkWords_integer text tw n fuel :
  holds tw n -> Z.of_nat (length (words text)) < 2 ^ 53 ->
  Numeric.chunkWords fuel text tw = chunkWords fuel text n.
Proof.
  intros Htw Hlen. unfold Numeric.chunkWords, chunkWords.
  destruct (Z.le_gt_cases 1 n) as [Hn|Hn].
  - apply (chunk_loop_integer _ tw n Htw Hn Hlen).
    left. split; [reflexivity|lia].
  - destruct (words text) as [|w ws] eqn:Ew.
    + rewrite numeric_loop_no_words, chunk_loop_no_words. reflexivity.
    + rewrite numeric_loop_stuck;
        [|apply (holds_nonpositive tw n Htw); lia|discriminate|exact I].
      rewrite chunk_loop_stuck; [reflexivity|lia|discriminate|lia].
Qed.

(** *** A size of at least 1 *)

Section Progress.
Variable ws : list jsstring.
Variable tw : number.
Hypothesis Htw : at_least tw 1.
Hypothesis Hlen : Z.of_nat (length ws) < 2 ^ 53.

(** A round that is run starts below the length, and moves the index
    past the next integer. *)
Lemma chunk_step_progress i k acc st' :
  at_least i k -> 0 <= k ->
  Numeric.chunk_step ws tw (i, acc) = Some st' ->
  k < Z.of_nat (length ws) /\ fst st' = add i tw
  /\ at_least (add i tw) (k + 1).
Proof.
  intros Hi Hk. unfold Numeric.chunk_step.
  pose proof (of_nat_holds (length ws) Hlen) as Hl.
  destruct (ltb i (of_nat (length ws))) eqn:E; [|discriminate].
  intros H. injection H as <-. cbn [fst].
  assert (Hlt : k < Z.of_nat (length ws)).
  { destruct (Z.lt_ge_cases k (Z.of_nat (length ws))) as [?|Hge];
      [assumption|exfalso].
    rewrite (ltb_at_least i _ _ k Hi Hl) in E by lia. discriminate. }
  split; [exact Hlt|]. split; [reflexivity|].
  apply (add_at_least i tw k 1); [exact Hi|exact Htw|lia..].
Qed.

Lemma numeric_loop_returns fuel :
  forall i k acc,
    at_least i k -> 0 <= k -> Z.of_nat (length ws) <= k + Z.of_nat fuel ->
    exists chunks, Numeric.chunk_loop fuel ws tw (i, acc) = Some chunks.
Proof.
  induction fuel as [|fuel IH]; intros i k acc Hi Hk Hf;
    cbn [Numeric.chunk_loop];
    destruct (Numeric.chunk_step ws tw (i, acc)) as [[i' acc']|] eqn:E;
    try (eexists; reflexivity);
    destruct (chunk_step_progress i k acc _ Hi Hk E) as (Hlt & Ei & Hi').
  - lia.
  - cbn [fst] in Ei. subst i'. apply (IH _ (k + 1)); [exact Hi'|lia|lia].
Qed.

Lemma numeric_iter_index r :
  forall i k acc i' acc',
    at_least i k -> 0 <= k ->
    Numeric.chunk_iter r ws tw (i, acc) = Some (i', acc') ->
    at_least i' (k + Z.of_nat r).
Proof.
  induction r as [|r IH]; intros i k acc i' acc' Hi Hk H;
    cbn [Numeric.chunk_iter] in H.
  - injection H as <- _. replace (k + Z.of_nat 0) with k by lia. exact Hi.
  - destruct (Numeric.chunk_step ws tw (i, acc)) as [[i1 acc1]|] eqn:E;
      [|discriminate].
    destruct (chunk_step_progress i k acc _ Hi Hk E) as (Hlt & Ei & Hi').
    cbn [fst] in Ei. subst i1.
    replace (k + Z.of_nat (S r)) with ((k + 1) + Z.of_nat r) by lia.
    apply (IH _ _ _ _ _ Hi' ltac:(lia) H).
Qed.

(** Every round moves the index forward. *)
Lemma chunk_step_increases i acc st' :
  at_least i 0 ->
  Numeric.chunk_step ws tw (i, acc) = Some st' ->
  ltb i (fst st') = true.
Proof.
  intros Hi H.
  assert (Hfin : finite i).
  { unfold Numeric.chunk_step in H.
    destruct i as [s|[|]| |s m e];
      [split; [discriminate|intros ?; discriminate]
      |cbn [at_least] in Hi; discriminate| |
      |split; [discriminate|intros ?; discriminate]].
    - exfalso. unfold ltb in H.
      destruct (of_nat (length ws)) as [?|[|]| |]; discriminate.
    - contradiction. }
  destruct (floor_bounds i Hfin Hi) as (a & Ha & Hia & Hib).
  destruct (chunk_step_progress i a acc _ Hia Ha H) as (_ & -> & Hi').
  apply (ltb_below i _ (a + 1) Hib Hi').
Qed.

End Progress.

(** *** A size that is not a number *)

Lemma numeric_loop_nan ws fuel :
  ws <> [] -> (1 <= fuel)%nat ->
  Numeric.chunk_loop fuel ws NaN (of_Z 0, []) = Some [[]].
Proof.
  intros Hws Hf. destruct fuel as [|fuel]; [lia|].
  cbn [Numeric.chunk_loop]. unfold Numeric.chunk_step at 1.
  rewrite (ltb_nonpositive (of_Z 0) _ I (length_at_least_one ws Hws)).
  change (add (of_Z 0) NaN) with S754_nan.
  assert (Es : slice_number ws (of_Z 0) S754_nan = []).
  { unfold slice_number.
    change (ToIntegerOrInfinity (of_Z 0)) with (Integer 0).
    change (ToIntegerOrInfinity S754_nan) with (Integer 0).
    cbn [rel_index_number]. rewrite Z.sub_diag. apply take_0. }
  rewrite Es. cbn [app join].
  destruct fuel; reflexivity.
Qed.

(** *** The fragment window at integer arguments *)

Lemma operative_integer (allChunks : list jsstring) sf mf s m :
  holds sf s -> holds mf m -> 1 <= s -> 0 <= m -> s + m <= 2 ^ 53 ->
  Numeric.operative allChunks sf mf = Importer.operative allChunks s m.
Proof.
  intros Hs Hm Hs1 Hm0 Hsm. unfold Numeric.operative, Importer.operative.
  assert (H1 : holds (of_Z 1) 1) by reflexivity.
  assert (Hd : holds (sub sf (of_Z 1)) (s - 1))
    by (apply sub_holds; [exact Hs|exact H1|lia]).
  assert (Ha : holds (add (sub sf (of_Z 1)) mf) (s - 1 + m))
    by (apply add_holds; [exact Hd|exact Hm|lia]).
  apply slice_number_holds; assumption.
Qed.

End Sizes.

(** * Sizes that are not integers *)

Module Fractions.
Import SpecFloat Number.

(** The Numbers 0.5 and 1.5. *)
Definition half : number := S754_finite false 4503599627370496 (-53).
Definition three_halves : number :=
  S754_finite false 6755399441055744 (-52).

Example half_twice : add half half = of_Z 1.
Proof. reflexivity. Qed.

Example three_halves_sum : add (of_Z 1) half = three_halves.
Proof. reflexivity. Qed.

Example halves_hold_no_integer :
  integer_value half = None /\ integer_value three_halves = None.
Proof. split; reflexivity. Qed.

(** The size 1.5 cuts four words into fragments of one, two and one
    word: [slice] truncates 1.5 to 1 and 4.5 to 4. *)
Example chunkWords_three_halves :
  Numeric.chunkWords 4 (js "a b c d") three_halves
  = Some [js "a"; js "b c"; js "d"].
Proof. vm_compute. reflexivity. Qed.

(** [startFrom] and [maxFragments] of 1.5: the window [slice(0.5, 2)]
    holds two chunks. *)
Example operative_three_halves :
  Numeric.operative [js "a"; js "b"; js "c"] three_halves three_halves
  = [js "a"; js "b"].
Proof. vm_compute. reflexivity. Qed.

(** An infinite size: one fragment with every word. *)
Example chunkWords_infinite_size :
  Numeric.chunkWords 1 (js "a b c") (S754_infinity false)
  = Some [js "a b c"].
Proof. vm_compute. reflexivity. Qed.

(** [slice] truncates towards zero, and counts a negative index from
    the end: [slice(-1.5, Infinity)] is the last element. *)
Example slice_number_truncates :
  slice_number [js "a"; js "b"; js "c"] (SFopp three_halves)
    (S754_infinity false)
  = [js "c"]
  /\ slice_number [js "a"; js "b"; js "c"] (S754_infinity true) half = []
  /\ slice_number [js "a"; js "b"; js "c"] NaN three_halves = [js "a"].
Proof. repeat split; vm_compute; reflexivity. Qed.

(** [Math.max] on zeros, fractions and NaN. *)
Example max_cases :
  max (S754_zero true) (S754_zero false) = S754_zero false
  /\ max (S754_zero false) (S754_zero true) = S754_zero false
  /\ max (of_Z 1) half = of_Z 1
  /\ max (of_Z 1) three_halves = three_halves
  /\ max (of_Z 1) NaN = NaN
  /\ max (of_Z 1) (S754_infinity true) = of_Z 1.
Proof. repeat split; reflexivity. Qed.

End Fractions.

(** * The fragments of [chunkWords] *)

Module FragmentSizes.
Import SpecFloat Number NumberFacts NumberOrder Sizes Fragmenter Fractions.



End FragmentSizes.

(** * The end of the loop of [chunkWords] *)

Module Termination.
Import SpecFloat Number Rounding NumberFacts NumberOrder Sizes.
Import Importer Fractions.

Lemma max_one_field (v : option number) (d : Z) :
  1 <= d < 2 ^ 53 ->
  (v <> Some NaN -> leb (of_Z 1) (max (of_Z 1) (or_default v d)) = true)
  /\ (v = Some NaN -> max (of_Z 1) (or_default v d) = NaN).
Proof.
  intros Hd. split.
  - intros Hv. apply leb_one, max_one. destruct v as [x|]; cbn [or_default].
    + intros ->. apply Hv. reflexivity.
    + intros E. pose proof (of_Z_holds d ltac:(lia)) as H.
      rewrite E in H. discriminate.
  - intros ->. reflexivity.
Qed.

(** The parameters of a form without numeric fields are the defaults,
    and a field is read as it is: 0.5 stays 0.5. *)
Example parse_params_defaults :
  parse_params
    {| field_maxFragments := None; field_targetWords := None;
       field_startFrom := None |}
  = {| maxFragments := of_Z 3; targetWords := of_Z 1200;
       startFrom := of_Z 1 |}
  /\ parse_params
       {| field_maxFragments := Some half; field_targetWords := Some half;
          field_startFrom := Some three_halves |}
     = {| maxFragments := of_Z 1; targetWords := half;
          startFrom := three_halves |}.
Proof. split; reflexivity. Qed.

(** C10, as amended.  For every size of at least 1 (a fraction and
    the positive infinity included) every round moves the index
    forward and [chunkWords] returns; it returns for a text with no
    word; and for a size of 0 or less and a text with a word the index
    after any number of rounds is still at or below 0 and the function
    never returns.  For a size that is an integer that is all: it
    returns exactly when the size is at least 1 or the text has no
    word.  A size that is NaN ends the loop after one round, with one
    empty fragment.  The handler hands the client's [targetWords] over
    without a lower bound: the import does not return for a size of 0
    or less, and for a size of at least 1 its chunks are the window of
    the fragments that [chunkWords] cuts at that size.  It raises
    [maxFragments] and [startFrom] to 1 unless the field is NaN, which
    [Math.max] keeps.  (The words of a text are fewer than [2^32], the
    bound of an array.) *)
Theorem chunkWords_termination (text : jsstring) (targetWords : number) :
  Z.of_nat (length (words text)) < 2 ^ 32 ->
  (leb (of_Z 1) targetWords = true ->
   (forall i chunks st',
      leb (of_Z 0) i = true ->
      Numeric.chunk_step (words text) targetWords (i, chunks) = Some st' ->
      ltb i (fst st') = true)
   /\ exists chunks,
        Numeric.chunkWords (length (words text)) text targetWords
        = Some chunks)
  /\ (words text = [] ->
      forall fuel, Numeric.chunkWords fuel text targetWords = Some [])
  /\ (leb targetWords (of_Z 0) = true -> words text <> [] ->
      (forall r, exists i acc,
         Numeric.chunk_iter r (words text) targetWords (of_Z 0, [])
         = Some (i, acc)
         /\ leb i (of_Z 0) = true)
      /\ forall fuel, Numeric.chunkWords fuel text targetWords = None)
  /\ (forall n, integer_value targetWords = Some n ->
      ((exists fuel, Numeric.chunkWords fuel text targetWords <> None)
       <-> 1 <= n \/ words text = []))
  /\ (targetWords = NaN -> words text <> [] ->
      forall fuel, (1 <= fuel)%nat ->
        Numeric.chunkWords fuel text targetWords = Some [[]])
  /\ (forall form,
        field_targetWords form = Some targetWords ->
        Importer.targetWords (parse_params form) = targetWords
        /\ (leb targetWords (of_Z 0) = true -> words text <> [] ->
            forall fuel, import_chunks fuel form text = None)
        /\ (leb (of_Z 1) targetWords = true ->
            exists allChunks,
              Numeric.chunkWords (length (words text)) text targetWords
              = Some allChunks
              /\ import_chunks (length (words text)) form text
                 = Some (Numeric.operative allChunks
                           (startFrom (parse_params form))
                           (maxFragments (parse_params form)))))
  /\ (forall form,
        (field_maxFragments form <> Some NaN ->
         leb (of_Z 1) (maxFragments (parse_params form)) = true)
        /\ (field_maxFragments form = Some NaN ->
            maxFragments (parse_params form) = NaN)
        /\ (field_startFrom form <> Some NaN ->
            leb (of_Z 1) (startFrom (parse_params form)) = true)
        /\ (field_startFrom form = Some NaN ->
            startFrom (parse_params form) = NaN)).
Proof.
  intros Hlen32. pose proof (bound_32 _ Hlen32) as Hlen.
  assert (Hret : at_least targetWords 1 ->
                 exists chunks,
                   Numeric.chunkWords (length (words text)) text targetWords
                   = Some chunks).
  { intros Htw. unfold Numeric.chunkWords.
    apply (numeric_loop_returns (words text) targetWords Htw Hlen _ _ 0);
      [cbn; lia|lia|lia]. }
  assert (Hstuck : nonpositive targetWords -> words text <> [] ->
                   forall fuel, Numeric.chunkWords fuel text targetWords = None).
  { intros Htw Hw fuel. unfold Numeric.chunkWords.
    apply numeric_loop_stuck; [exact Htw|exact Hw|exact I]. }
  assert (Hnone : words text = [] ->
                  forall fuel,
                    Numeric.chunkWords fuel text targetWords = Some []).
  { intros Hw fuel. unfold Numeric.chunkWords. rewrite Hw.
    apply numeric_loop_no_words. }
  split; [|split; [|split; [|split; [|split; [|split]]]]].
  - intros Htw. apply leb_one in Htw. split; [|exact (Hret Htw)].
    intros i chunks st' Hi Hs. apply leb_zero_l in Hi.
    exact (chunk_step_increases (words text) targetWords Htw Hlen
             i chunks st' Hi Hs).
  - exact Hnone.
  - intros Htw Hw. apply leb_zero in Htw. split; [|exact (Hstuck Htw Hw)].
    intros r.
    destruct (numeric_iter_stuck (words text) targetWords Htw Hw r
                (of_Z 0) [] I) as (i & acc & E & Hi).
    exists i, acc. split; [exact E|]. apply leb_zero, Hi.
  - intros n Hn. split.
    + intros [fuel Hf].
      destruct (Z.le_gt_cases 1 n) as [?|Hlt]; [left; assumption|].
      right. destruct (words text) eqn:E; [reflexivity|].
      exfalso. apply Hf. rewrite <- E in *.
      apply Hstuck; [|rewrite E; discriminate].
      apply (holds_nonpositive targetWords n Hn). lia.
    + intros [Hn1|Hw].
      * destruct Hret as [chunks Hc].
        { apply (at_least_mono _ n); [apply holds_at_least, Hn|exact Hn1]. }
        eexists. rewrite Hc. discriminate.
      * exists 0%nat. rewrite Hnone by exact Hw. discriminate.
  - intros -> Hw fuel Hf. unfold Numeric.chunkWords.
    apply numeric_loop_nan; assumption.
  - intros form Hf. unfold import_chunks, parse_params.
    cbn [Importer.targetWords startFrom maxFragments]. rewrite Hf.
    cbn [or_default]. split; [reflexivity|]. split.
    + intros Htw Hw fuel. apply leb_zero in Htw.
      rewrite (Hstuck Htw Hw). reflexivity.
    + intros Htw. apply leb_one in Htw.
      destruct (Hret Htw) as [chunks Hc]. exists chunks.
      split; [exact Hc|]. rewrite Hc. reflexivity.
  - intros form. unfold parse_params. cbn [startFrom maxFragments].
    destruct (max_one_field (field_maxFragments form) 3) as [H1 H2];
      [change (2 ^ 53) with 9007199254740992; lia|].
    destruct (max_one_field (field_startFrom form) 1) as [H3 H4];
      [change (2 ^ 53) with 9007199254740992; lia|].
    repeat split; assumption.
Qed.

Lemma chunkWords_termination_example :
  Numeric.chunkWords 5 (js "one two three") (of_Z 0) = None
  /\ import_chunks 5
       {| field_maxFragments := None; field_targetWords := Some (of_Z 0);
          field_startFrom := None |} (js "one two three") = None.
Proof.
  assert (Hb : Z.of_nat (length (words (js "one two three"))) < 2 ^ 32)
    by (vm_compute; reflexivity).
  destruct (chunkWords_termination (js "one two three") (of_Z 0) Hb)
    as (_ & _ & H3 & _ & _ & H6 & _).
  assert (Hw : words (js "one two three") <> []) by (vm_compute; discriminate).
  split.
  - exact (proj2 (H3 eq_refl Hw) 5%nat).
  - destruct (H6 {| field_maxFragments := None;
                    field_targetWords := Some (of_Z 0);
                    field_startFrom := None |} eq_refl) as (_ & H & _).
    exact (H eq_refl Hw 5%nat).
Defined.

(** C10, as stated, fails: the size 0.5 is below 1 and the loop ends
    (the index passes the length after two rounds for each word); the
    size NaN ends it after one round; and [Math.max(1, NaN)] is NaN, so
    that [maxFragments] and [startFrom] are not always raised to 1. *)
Lemma chunkWords_returns_below_one :
  leb (of_Z 1) half = false
  /\ words (js "one two") <> []
  /\ Numeric.chunkWords 4 (js "one two") half
     = Some [[]; js "one"; []; js "two"]
  /\ Numeric.chunkWords 1 (js "one two") NaN = Some [[]]
  /\ maxFragments
       (parse_params
          {| field_maxFragments := Some NaN; field_targetWords := None;
             field_startFrom := None |}) = NaN.
Proof.
  split; [reflexivity|]. split; [vm_compute; discriminate|].
  split; [vm_compute; reflexivity|]. split; [vm_compute; reflexivity|].
  reflexivity.
Qed.

End Termination.

(** * The number of fragments at an integer size *)

Module FragmentNumber.
Import SpecFloat Number NumberFacts NumberOrder Sizes Fragmenter FragmentCount.

(** X7: for a size that is an integer of at least 1 the number of
    fragments is the number of words divided by the size and rounded
    up; no fragment holds more words than the size, and there are never
    more fragments than words. *)
Theorem chunkWords_fragment_count (text : jsstring) (targetWords : number)
    (n : Z) :
  integer_value targetWords = Some n -> 1 <= n ->
  Z.of_nat (length (words text)) < 2 ^ 32 ->
  exists chunks,
    Numeric.chunkWords (length (words text)) text targetWords = Some chunks
    /\ Z.of_nat (length chunks)
       = (Z.of_nat (length (words text)) + n - 1) / n
    /\ (length chunks <= length (words text))%nat
    /\ Forall (fun c => Z.of_nat (word_count c) <= n) chunks.
Proof.
  intros Hn Hn1 Hlen.
  destruct (fragment_count_integer text n Hn1) as (chunks & H1 & H2).
  exists chunks. split; [|exact H2].
  rewrite <- H1. apply chunkWords_integer; [exact Hn|].
  apply bound_32, Hlen.
Qed.

Lemma chunkWords_fragment_count_example :
  exists chunks,
    Numeric.chunkWords 5 (js "a b c d e") (of_Z 2) = Some chunks
    /\ Z.of_nat (length chunks) = 3.
Proof.
  destruct (chunkWords_fragment_count (js "a b c d e") (of_Z 2) 2)
    as (chunks & H1 & H2 & _);
    [reflexivity|lia|vm_compute; reflexivity|].
  exists chunks. split; [exact H1|]. rewrite H2. reflexivity.
Defined.

End FragmentNumber.

(** * The calls of an import with integer parameters *)

Module WindowCalls.
Import SpecFloat Number NumberFacts NumberOrder Sizes.
Import Importer Orchestrator Generation.

Lemma clamped_integer (v : option number) (d a : Z) :
  integer_value (max (of_Z 1) (or_default v d)) = Some a -> 1 <= a.
Proof.
  intros H. apply (holds_at_least_le _ a 1 H).
  apply max_one. intros E. rewrite E, max_nan in H. discriminate.
Qed.

(** X4: when [startFrom] and [maxFragments], as the handler reads them
    from the form, are integers (their sum at most [2^53]), then,
    whatever the generator answers, the handler calls it at most
    [maxFragments] times, once for each lesson it returns and once more
    when it records an error; the [j]-th call carries the chunk at the
    position [startFrom - 1 + j] of the whole list (counted from 0) and
    the fragment number [startFrom + j] in its title, and the [j]-th
    lesson is filed under that number. *)
Theorem import_calls_in_window {Lesson : Type} (form : Form) (s m : Z)
    (bookTitle : jsstring) (allChunks : list jsstring)
    (answers : list (response Lesson)) o calls unused :
  integer_value (startFrom (parse_params form)) = Some s ->
  integer_value (maxFragments (parse_params form)) = Some m ->
  s + m <= 2 ^ 53 ->
  run (orchestrate bookTitle s
         (Numeric.operative allChunks (startFrom (parse_params form))
            (maxFragments (parse_params form)))) answers
  = Some (o, calls, unused) ->
  1 <= s /\ 1 <= m
  /\ Z.of_nat (length calls) <= m
  /\ length calls
     = (length (lessons o)
        + match partialError o with Some _ => 1 | None => 0 end)%nat
  /\ (forall j call, calls !! j = Some call ->
        allChunks !! (Z.to_nat (s - 1) + j)%nat = Some (fst call)
        /\ snd call = lessonTitle bookTitle (s + Z.of_nat j))
  /\ (forall j entry, lessons o !! j = Some entry ->
        index entry = s + Z.of_nat j
        /\ exists chunk,
             allChunks !! Z.to_nat (index entry - 1) = Some chunk
             /\ calls !! j
                = Some (chunk, lessonTitle bookTitle (index entry))).
Proof.
  intros Hs Hm Hsm H.
  assert (Hs1 : 1 <= s) by (exact (clamped_integer _ _ _ Hs)).
  assert (Hm1 : 1 <= m) by (exact (clamped_integer _ _ _ Hm)).
  rewrite (operative_integer allChunks _ _ s m Hs Hm) in H by lia.
  split; [exact Hs1|]. split; [exact Hm1|].
  exact (calls_in_window s m bookTitle allChunks answers o calls unused
           Hs1 Hm1 H).
Qed.

Lemma import_calls_in_window_example :
  Z.of_nat (length [(js "b", lessonTitle (js "Book") 2);
                    (js "c", lessonTitle (js "Book") 3)]) <= 3
  /\ [js "a"; js "b"; js "c"] !! 2%nat = Some (js "c").
Proof.
  destruct (import_calls_in_window
              {| field_maxFragments := Some (of_Z 3);
                 field_targetWords := None;
                 field_startFrom := Some (of_Z 2) |} 2 3
              (js "Book") [js "a"; js "b"; js "c"]
              [inr tt; inl (js "Error: timeout")]
              {| lessons := [{| index := 2; lesson := tt |}];
                 partialError :=
                   Some {| fragment := 3; error := js "Error: timeout" |} |}
              [(js "b", lessonTitle (js "Book") 2);
               (js "c", lessonTitle (js "Book") 3)]
              [] eq_refl eq_refl ltac:(vm_compute; discriminate) eq_refl)
    as (_ & _ & H1 & _ & H3 & _).
  split; [exact H1|].
  exact (proj1 (H3 1%nat (js "c", lessonTitle (js "Book") 3) eq_refl)).
Defined.

End WindowCalls.

(** * Tags and decoded entities *)

Module Decoded.
Import SpineImporter Markup Entities.

(** A code unit other than the two angle signs. *)
Definition not_angle (c : N) : bool := negb ((lt =? c) || (gt =? c))%N.

Definition plain (w : jsstring) : Prop :=
  Forall (fun c => not_angle c = true) w.

Lemma not_angle_gt c : not_angle c = true -> c <> gt.
Proof.
  unfold not_angle. intros H ->. rewrite N.eqb_refl, orb_true_r in H.
  discriminate.
Qed.

Lemma space_not_angle c : is_space c = true -> not_angle c = true.
Proof.
  intros H. unfold not_angle.
  destruct (N.eqb_spec lt c) as [<-|_]; [discriminate|].
  destruct (N.eqb_spec gt c) as [<-|_]; [discriminate|reflexivity].
Qed.

(** [block_rewrite s s']: [s'] is [s] with some blocks without angle
    signs replaced by blocks without angle signs, none of them
    empty. *)
Inductive block_rewrite : jsstring -> jsstring -> Prop :=
| br_nil : block_rewrite [] []
| br_keep c s s' : block_rewrite s s' -> block_rewrite (c :: s) (c :: s')
| br_block w w' s s' :
    w <> [] -> plain w -> w' <> [] -> plain w' -> block_rewrite s s' ->
    block_rewrite (w ++ s) (w' ++ s').

Lemma block_rewrite_sym s s' : block_rewrite s s' -> block_rewrite s' s.
Proof.
  induction 1 as [|c s s' _ IH|w w' s s' Hn Hw Hn' Hw' _ IH].
  - constructor.
  - constructor. exact IH.
  - apply br_block; assumption.
Qed.

Lemma block_rewrite_nil s' : block_rewrite [] s' -> s' = [].
Proof.
  intros H. remember [] as s eqn:Es.
  destruct H as [|c s s' _|w w' s s' Hne _ _ _ _];
    [reflexivity|discriminate|].
  destruct w; [contradiction|discriminate].
Qed.

Lemma block_rewrite_elem (P : N -> Prop) s s' :
  (forall c, not_angle c = true -> P c) ->
  block_rewrite s s' -> Forall P s -> Forall P s'.
Proof.
  intros HP.
  induction 1 as [|c s s' _ IH|w w' s s' _ _ _ Hw' _ IH]; intros Hs.
  - constructor.
  - inversion Hs; subst. constructor; [assumption|apply IH; assumption].
  - apply Forall_app in Hs. destruct Hs as [_ Hs]. apply Forall_app. split.
    + eapply Forall_impl; [exact Hw'|]. exact HP.
    + apply IH, Hs.
Qed.

(** A block without angle signs ends before the first angle sign. *)
Lemma plain_prefix w :
  plain w ->
  forall s a c b, not_angle c = false -> w ++ s = a ++ c :: b ->
    exists a0, a = w ++ a0 /\ s = a0 ++ c :: b.
Proof.
  induction 1 as [|x w Hx _ IH]; intros s a c b Hc E.
  - exists a. split; [reflexivity|exact E].
  - destruct a as [|y a1]; cbn [app] in E; injection E as E1 E2.
    + subst x. congruence.
    + subst y. destruct (IH s a1 c b Hc E2) as (a0 & -> & ->).
      exists a0. split; reflexivity.
Qed.

(** An angle sign of the string is an angle sign of the rewritten
    string, and the two sides of it are rewritten apart. *)
Lemma block_rewrite_split s s' :
  block_rewrite s s' ->
  forall a c b, not_angle c = false -> s = a ++ c :: b ->
    exists a' b',
      s' = a' ++ c :: b' /\ block_rewrite a a' /\ block_rewrite b b'.
Proof.
  induction 1 as [|x s s' Hr IH|w w' s s' Hn Hw Hn' Hw' Hr IH];
    intros a c b Hc E.
  - destruct a; discriminate.
  - destruct a as [|y a1]; cbn [app] in E; injection E as E1 E2.
    + subst x s. exists [], s'. split; [reflexivity|].
      split; [constructor|exact Hr].
    + subst x. destruct (IH a1 c b Hc E2) as (a' & b' & -> & Ha & Hb).
      exists (y :: a'), b'. split; [reflexivity|].
      split; [constructor; exact Ha|exact Hb].
  - destruct (plain_prefix w Hw s a c b Hc E) as (a0 & -> & Es).
    destruct (IH a0 c b Hc Es) as (a' & b' & -> & Ha & Hb).
    exists (w' ++ a'), b'. split; [rewrite <- app_assoc; reflexivity|].
    split; [apply br_block; assumption|exact Hb].
Qed.

(** Such a rewriting keeps every tag. *)
Lemma block_rewrite_keeps_tag s s' :
  block_rewrite s s' -> raw_tag s -> raw_tag s'.
Proof.
  intros H (pre & body & post & -> & Hne & Hb).
  destruct (block_rewrite_split _ _ H pre lt (body ++ gt :: post)
              eq_refl eq_refl) as (pre' & r' & -> & _ & Hr).
  destruct (block_rewrite_split _ _ Hr body gt post eq_refl eq_refl)
    as (body' & post' & -> & Hbody & _).
  exists pre', body', post'. split; [reflexivity|]. split.
  - intros ->. apply block_rewrite_sym, block_rewrite_nil in Hbody.
    contradiction.
  - eapply block_rewrite_elem; [|exact Hbody|exact Hb].
    intros c Hc. apply not_angle_gt, Hc.
Qed.

Lemma block_rewrite_raw_tag s s' :
  block_rewrite s s' -> (raw_tag s' <-> raw_tag s).
Proof.
  intros H. split; apply block_rewrite_keeps_tag;
    [apply block_rewrite_sym|]; exact H.
Qed.

(** A replacement of a pattern that reads no angle sign by a text
    that holds none is such a rewriting. *)
Lemma replace_block_rewrite r repl :
  classes_within not_angle r -> plain repl -> repl <> [] ->
  forall n s p, length s = n ->
    block_rewrite s (replace_go r repl 0 p s).
Proof.
  intros Hr Hrepl Hne. induction n as [n IH] using lt_wf_ind. intros s p Hn.
  destruct s as [|c t]; [constructor|]. cbn [replace_go].
  destruct (exec r p (c :: t)) as [[[|m] g]|] eqn:E.
  - constructor. apply (IH (length t)); [simpl in Hn; lia|reflexivity].
  - rewrite replace_go_skip.
    destruct (exec_within not_angle r p (c :: t) (S m) g Hr E) as [Hlen Hws].
    rewrite <- (take_drop (S m) (c :: t)) at 1.
    change (drop (S m) (c :: t)) with (drop m t).
    apply br_block; [discriminate|exact Hws|exact Hne|exact Hrepl|].
    apply (IH (length (drop m t))); [|reflexivity].
    rewrite length_drop. simpl in Hn. lia.
  - constructor. apply (IH (length t)); [simpl in Hn; lia|reflexivity].
Qed.

Lemma replace_raw_tag r repl s :
  classes_within not_angle r -> plain repl -> repl <> [] ->
  raw_tag (replace_all r repl s) <-> raw_tag s.
Proof.
  intros Hr Hrepl Hne. apply block_rewrite_raw_tag.
  apply (replace_block_rewrite r repl Hr Hrepl Hne (length s)). reflexivity.
Qed.

Lemma classes_within_weaken (P Q : N -> bool) r :
  (forall c, P c = true -> Q c = true) ->
  classes_within P r -> classes_within Q r.
Proof.
  intros HPQ.
  induction r as [q| |r1 IH1 r2 IH2|r1 IH1 r2 IH2|r1 IH1|r1 IH1| | | |r1 IH1];
    cbn [classes_within]; try tauto.
  intros H c Hc. apply HPQ, H, Hc.
Qed.

(** The literal of a text without angle signs reads none. *)
Lemma lit_plain w : plain w -> classes_within not_angle (Lit w).
Proof.
  induction 1 as [|c w Hc Hw IH]; [exact I|].
  destruct w as [|c' w'].
  - cbn. intros x Hx. apply N.eqb_eq in Hx. subst x. exact Hc.
  - change (Lit (c :: c' :: w'))
      with (Cat (Chr (N.eqb c)) (Lit (c' :: w'))).
    split; [|exact IH].
    cbn. intros x Hx. apply N.eqb_eq in Hx. subst x. exact Hc.
Qed.

(** *** The white-space stages *)

Lemma existsb_gt_space w : all_space w -> existsb is_gt w = false.
Proof.
  induction 1 as [|x w Hx _ IH]; [reflexivity|]. cbn [existsb].
  rewrite IH, orb_false_r. unfold is_gt.
  destruct (N.eqb_spec gt x) as [<-|_]; [discriminate|reflexivity].
Qed.

Lemma has_tag_trim_start s : has_tag (trim_start s) = has_tag s.
Proof.
  induction s as [|c t IH]; [reflexivity|]. cbn [trim_start].
  destruct (is_space c) eqn:E; [|reflexivity].
  rewrite IH. cbn [has_tag].
  replace (tag_here (c :: t)) with false; [reflexivity|].
  destruct t as [|d t']; [reflexivity|]. cbn [tag_here].
  destruct (N.eqb_spec lt c) as [<-|_]; [discriminate|reflexivity].
Qed.

Lemma has_tag_space_suffix a w :
  all_space w -> has_tag (a ++ w) = has_tag a.
Proof.
  intros Hw. induction a as [|c a IH].
  - pose proof (has_tag_space_prefix w [] Hw eq_refl) as H.
    rewrite app_nil_r in H. exact H.
  - cbn [app has_tag]. rewrite IH. f_equal.
    destruct a as [|d t].
    + cbn [app]. destruct w as [|d t]; [reflexivity|]. cbn [tag_here].
      inversion Hw; subst. rewrite existsb_gt_space by assumption.
      apply andb_false_r.
    + cbn [app tag_here]. rewrite existsb_app, (existsb_gt_space w Hw).
      rewrite orb_false_r. reflexivity.
Qed.

Lemma has_tag_trim s : has_tag (trim s) = has_tag s.
Proof.
  unfold trim. rewrite <- (has_tag_trim_start s).
  generalize (trim_start s). intros u. unfold trim_end.
  destruct (trim_start_split (rev u)) as (w & Hw & E).
  apply (f_equal (@rev N)) in E. rewrite rev_involutive, rev_app_distr in E.
  rewrite E at 2. symmetry. apply has_tag_space_suffix.
  apply Forall_rev. exact Hw.
Qed.

(** The white-space stages neither bring in a tag nor take one out. *)
Lemma squeeze_raw_tag s : raw_tag (squeeze s) <-> raw_tag s.
Proof.
  unfold squeeze.
  rewrite raw_tag_has_tag, has_tag_trim, <- raw_tag_has_tag.
  rewrite replace_raw_tag;
    [|exact (classes_within_weaken _ _ _ space_not_angle space_re_nl3)
     |repeat constructor|discriminate].
  rewrite replace_raw_tag;
    [|exact (classes_within_weaken _ _ _ space_not_angle space_re_blanks)
     |repeat constructor|discriminate].
  rewrite replace_raw_tag;
    [|exact (classes_within_weaken _ _ _ space_not_angle space_re_nl_ws)
     |repeat constructor|discriminate].
  rewrite replace_raw_tag;
    [|exact (classes_within_weaken _ _ _ space_not_angle space_re_ws_nl)
     |repeat constructor|discriminate].
  reflexivity.
Qed.

(** *** The entity stages *)

(** [includes w s]: the text [w] stands somewhere in [s]. *)
Fixpoint includes (w s : jsstring) : bool :=
  lit_match w s
  || match s with
     | [] => false
     | _ :: t => includes w t
     end.

Lemma includes_suffix w pre suf :
  includes w (pre ++ suf) = false -> lit_match w suf = false.
Proof.
  induction pre as [|c pre IH]; cbn [app].
  - destruct suf; cbn [includes]; intros H; apply orb_false_iff in H; apply H.
  - cbn [includes]. intros H. apply orb_false_iff in H. apply IH, H.
Qed.

(** A literal that the text does not include is replaced nowhere. *)
Lemma replace_not_included w repl s :
  includes w s = false -> replace_all (Lit w) repl s = s.
Proof.
  intros H. unfold replace_all. apply replace_go_none.
  intros p pre suf ->. rewrite exec_lit.
  rewrite (includes_suffix w pre suf H). reflexivity.
Qed.

(** The text in which [stripHtml] looks for the entities of the two
    angle signs: the tags are stripped, and [&nbsp;] and [&amp;] are
    decoded. *)
Definition amp_decoded (html : jsstring) : jsstring :=
  replace_all (Lit (js "&amp;")) (js "&")
    (replace_all (Lit (js "&nbsp;")) (js " ") (strip_tags html)).

(** The same text after [&lt;] and [&gt;] are decoded, the two stages
    that write an angle sign. *)
Definition angle_decoded (html : jsstring) : jsstring :=
  replace_all (Lit (js "&gt;")) (js ">")
    (replace_all (Lit (js "&lt;")) (js "<") (amp_decoded html)).

Lemma stripHtml_stages html :
  stripHtml html
  = squeeze
      (replace_all (Lit (js "&#39;")) [squote]
         (replace_all (Lit (js "&quot;")) [dquote] (angle_decoded html))).
Proof. reflexivity. Qed.

Lemma amp_decoded_no_tag html : ~ raw_tag (amp_decoded html).
Proof.
  unfold amp_decoded.
  rewrite replace_raw_tag;
    [|apply lit_plain; repeat constructor|repeat constructor|discriminate].
  rewrite replace_raw_tag;
    [|apply lit_plain; repeat constructor|repeat constructor|discriminate].
  rewrite raw_tag_has_tag, strip_tags_has_no_tag. discriminate.
Qed.

(** The stages after the decoding of the angle entities neither bring
    in a tag nor take one out. *)
Lemma stripHtml_tag_of_angles html :
  raw_tag (stripHtml html) <-> raw_tag (angle_decoded html).
Proof.
  rewrite stripHtml_stages, squeeze_raw_tag.
  rewrite replace_raw_tag;
    [|apply lit_plain; repeat constructor|repeat constructor|discriminate].
  rewrite replace_raw_tag;
    [|apply lit_plain; repeat constructor|repeat constructor|discriminate].
  reflexivity.
Qed.

(** C7, as amended: the text that the tag-stripping step leaves holds
    no raw tag syntax, for every input, and it holds none after
    [&nbsp;] and [&amp;] are decoded.  The output holds raw tag syntax
    exactly when the decoding of the entities [&lt;] and [&gt;] writes
    it: the later stages neither bring in a tag nor take one out.  So
    the output holds none when the text includes neither of the two
    entities at that point, and none when the input holds no
    ampersand. *)
Theorem stripHtml_no_raw_tag (html : jsstring) :
  ~ raw_tag (strip_tags html)
  /\ ~ raw_tag (amp_decoded html)
  /\ (raw_tag (stripHtml html) <-> raw_tag (angle_decoded html))
  /\ (includes (js "&lt;") (amp_decoded html) = false ->
      includes (js "&gt;") (amp_decoded html) = false ->
      ~ raw_tag (stripHtml html))
  /\ (free_of_amp html -> ~ raw_tag (stripHtml html)).
Proof.
  split; [|split; [|split; [|split]]].
  - rewrite raw_tag_has_tag, strip_tags_has_no_tag. discriminate.
  - apply amp_decoded_no_tag.
  - apply stripHtml_tag_of_angles.
  - intros Hlt Hgt. rewrite stripHtml_tag_of_angles. unfold angle_decoded.
    rewrite (replace_not_included _ _ _ Hlt).
    rewrite (replace_not_included _ _ _ Hgt).
    apply amp_decoded_no_tag.
  - intros H. rewrite raw_tag_has_tag. unfold stripHtml.
    rewrite decode_entities_id by (apply strip_tags_free_of_amp, H).
    rewrite squeeze_no_tag; [discriminate|apply strip_tags_has_no_tag].
Qed.

(** An input with tags, the entity of the ampersand and that of the
    space: no raw tag syntax in the output. *)
Lemma stripHtml_no_raw_tag_example :
  stripHtml (js "<p>Tom &amp; Jerry&nbsp;!</p>") = js "Tom & Jerry !"
  /\ ~ raw_tag (stripHtml (js "<p>Tom &amp; Jerry&nbsp;!</p>")).
Proof.
  split; [reflexivity|].
  destruct (stripHtml_no_raw_tag (js "<p>Tom &amp; Jerry&nbsp;!</p>"))
    as (_ & _ & _ & H & _).
  apply H; reflexivity.
Defined.

End Decoded.
